(** * gofountain: a shallow embedding of the fountain-code library

    The development follows the Go sources: [block.go] (blocks and the
    sparse XOR-equation matrix), the utility file (distributions,
    partitioning, combinatorics, primes), the Luby transform file, the
    Raptor (R10) file and [ru10.go].

    Part I gives the model, Part II the properties. *)

From Stdlib Require Import ZArith List Lia Bool QArith Qround Sorted Permutation.
Import ListNotations.
Open Scope Z_scope.

(* ================================================================== *)
(** * Part I: the model *)
(* ================================================================== *)

(** ** Outcomes of a call

    A Go call either returns, or panics at run time (index or slice bound
    out of range).  Loops whose termination is not structural are run with
    fuel; [Timeout] says that the fuel was used up. *)

Inductive outcome (A : Type) : Type :=
| Ok (a : A)
| Panic
| Timeout.

Arguments Ok {A} a.
Arguments Panic {A}.
Arguments Timeout {A}.

Definition bind {A B : Type} (x : outcome A) (k : A -> outcome B) : outcome B :=
  match x with
  | Ok a => k a
  | Panic => Panic
  | Timeout => Timeout
  end.

Notation "x <- c ;; k" := (bind c (fun x => k))
  (at level 61, c at next level, right associativity).

Definition of_option {A : Type} (o : option A) : outcome A :=
  match o with
  | Some a => Ok a
  | None => Panic
  end.

(** ** Go integers

    [int] is 64 bits wide.  Arithmetic that can leave the range is wrapped
    with [wrap64]; arithmetic on slice lengths and indices cannot. *)

Definition max_int : Z := 2 ^ 63 - 1.

Definition wrap64 (z : Z) : Z := (z + 2 ^ 63) mod 2 ^ 64 - 2 ^ 63.

Definition wrap_u32 (z : Z) : Z := z mod 2 ^ 32.

Definition wrap_u64 (z : Z) : Z := z mod 2 ^ 64.

(** ** Go slices

    A slice is modelled by the list of its elements; an index is an [int].
    Indexing outside [0, len) panics.  The capacity of a slice is taken to
    be its length: a slice expression that reaches past the length is the
    run-time panic. *)

Definition len {A : Type} (s : list A) : Z := Z.of_nat (length s).

Definition idx {A : Type} (s : list A) (i : Z) : option A :=
  if i <? 0 then None else nth_error s (Z.to_nat i).

Fixpoint list_set {A : Type} (s : list A) (n : nat) (x : A) : list A :=
  match s, n with
  | [], _ => []
  | _ :: t, O => x :: t
  | h :: t, S n' => h :: list_set t n' x
  end.

Definition upd {A : Type} (s : list A) (i : Z) (x : A) : option (list A) :=
  if (0 <=? i) && (i <? len s) then Some (list_set s (Z.to_nat i) x) else None.

(** [s[0:n]] *)
Definition slice_to {A : Type} (s : list A) (n : Z) : option (list A) :=
  if (0 <=? n) && (n <=? len s) then Some (firstn (Z.to_nat n) s) else None.

(** ** float64

    A finite float64 is modelled by the rational it denotes.  The
    arithmetic operations compute the exact rational result and round it to
    the nearest number with a 53-bit significand, ties to even.  The
    exponent range is not modelled: the library only forms quotients,
    products and square roots of integers, far away from overflow and from
    the subnormal numbers. *)

Definition float64 : Type := Q.

(** The integer nearest to [n/d], ties to even ([d > 0]). *)
Definition rne_quot (n d : Z) : Z :=
  let q := n / d in
  let r := n mod d in
  if 2 * r <? d then q
  else if d <? 2 * r then q + 1
  else if Z.even q then q else q + 1.

(** [floor (log2 (n/d))] for positive [n] and [d]. *)
Definition ilog2_ratio (n d : Z) : Z :=
  let l := Z.log2 n - Z.log2 d in
  if (if 0 <=? l then d * 2 ^ l <=? n else d <=? n * 2 ^ (- l))
  then l else l - 1.

(** [m * 2^e] as a rational. *)
Definition scale2 (m e : Z) : Q :=
  if 0 <=? e then inject_Z (m * 2 ^ e) else Qmake m (Z.to_pos (2 ^ (- e))).

(** The float64 nearest to the positive rational [n/d]. *)
Definition round53_pos (n d : Z) : float64 :=
  let e := ilog2_ratio n d - 52 in
  if 0 <=? e then scale2 (rne_quot n (d * 2 ^ e)) e
  else scale2 (rne_quot (n * 2 ^ (- e)) d) e.

Definition round53 (q : Q) : float64 :=
  match Qnum q with
  | Z0 => 0%Q
  | Zpos _ => round53_pos (Qnum q) (Zpos (Qden q))
  | Zneg _ => Qopp (round53_pos (- Qnum q) (Zpos (Qden q)))
  end.

(** [float64(i)] *)
Definition f64_of_int (i : Z) : float64 := round53 (inject_Z i).

Definition f64_add (x y : float64) : float64 := round53 (x + y)%Q.
Definition f64_mul (x y : float64) : float64 := round53 (x * y)%Q.

(** [x / y] for [y <> 0]. *)
Definition f64_div (x y : float64) : float64 := round53 (x / y)%Q.

(** [math.Floor], [math.Ceil]: the result is an integer-valued float64. *)
Definition f64_floor (x : float64) : float64 := inject_Z (Qfloor x).
Definition f64_ceil (x : float64) : float64 := inject_Z (Qceiling x).

(** [int(x)]: truncation towards zero. *)
Definition int_of_f64 (x : float64) : Z := Z.quot (Qnum x) (Zpos (Qden x)).

(** [math.Sqrt] of a non-negative float64, correctly rounded. *)
Definition f64_sqrt (x : float64) : float64 :=
  match Qnum x with
  | Zpos _ =>
      let n := Qnum x in
      let d := Zpos (Qden x) in
      let e := ilog2_ratio n d / 2 - 52 in
      let N := if 0 <=? e then n else n * 4 ^ (- e) in
      let D := if 0 <=? e then d * 4 ^ e else d in
      let s := Z.sqrt (N / D) in
      let c := (4 * s * s + 4 * s + 1) * D in
      let m := if c <? 4 * N then s + 1
               else if c =? 4 * N then (if Z.even s then s else s + 1)
               else s in
      scale2 m e
  | _ => 0%Q
  end.

Definition f64_ltb (x y : float64) : bool := negb (Qle_bool y x).
Definition f64_leb (x y : float64) : bool := Qle_bool x y.

(** The float64 literal [0.01]. *)
Definition f64_0_01 : float64 := Qmake 5764607523034235 (2 ^ 59).

(** ** Blocks ([block.go]) *)

Record block : Type := mkBlock {
  data : list Z;      (* the bytes, each in [0, 256) *)
  padding : Z         (* how many padding bytes follow the data *)
}.

Definition newBlock (n : Z) : block := {| data := []; padding := n |}.

Definition block_length (b : block) : Z := wrap64 (len (data b) + padding b).

Definition block_empty (b : block) : bool := block_length b =? 0.

(** [for i := 0; i < len(a.data); i++ { b.data[i] ^= a.data[i] }].
    The destination has been grown to the length of the source before the
    loop runs, so the last case is not reached. *)
Fixpoint xor_bytes (dst src : list Z) : list Z :=
  match src, dst with
  | [], _ => dst
  | s :: src', d :: dst' => Z.lxor d s :: xor_bytes dst' src'
  | _ :: _, [] => []
  end.

(** [b.xor(a)]: the new value of the receiver [b]. *)
Definition block_xor (b a : block) : block :=
  let b1 :=
    if len (data b) <? len (data a) then
      let inc := len (data a) - len (data b) in
      {| data := data b ++ repeat 0 (Z.to_nat inc);
         padding := if inc <? padding b then padding b - inc else 0 |}
    else b in
  {| data := xor_bytes (data b1) (data a); padding := padding b1 |}.

(** ** Partitioning (utility file) *)

(** [partition(i, j)] returns [(il, is, jl, js)].  For [j = 0] the
    quotient is not a finite float64 and its conversion to [int] is left
    open by the language: the model panics there. *)
Definition partition (i j : Z) : outcome (Z * Z * Z * Z) :=
  if j =? 0 then Panic
  else
    let q := f64_div (f64_of_int i) (f64_of_int j) in
    let il := int_of_f64 (f64_ceil q) in
    let is_ := int_of_f64 (f64_floor q) in
    let jl := wrap64 (i - wrap64 (is_ * j)) in
    let js := wrap64 (j - jl) in
    let il := if jl =? 0 then 0 else il in
    let is_ := if js =? 0 then 0 else is_ in
    Ok (il, is_, jl, js).

(** ** The sparse equation matrix ([block.go]) *)

Record sparseMatrix : Type := mkMatrix {
  coeff : list (list Z);
  v : list block
}.

(** [make([][]int, n)] and [make([]block, n)]. *)
Definition newSparseMatrix (n : Z) : sparseMatrix :=
  {| coeff := repeat [] (Z.to_nat n); v := repeat (newBlock 0) (Z.to_nat n) |}.

(** The sorted-merge walk of [xorRow]: equal heads are dropped, the smaller
    head is appended, and what is left of either slice is appended at the
    end. *)
Fixpoint xor_indices (coeffs indices : list Z) : list Z :=
  match coeffs with
  | [] => indices
  | c :: cs =>
      (fix walk (indices : list Z) : list Z :=
         match indices with
         | [] => c :: cs
         | x :: xs =>
             if c =? x then xor_indices cs xs
             else if c <? x then c :: xor_indices cs (x :: xs)
             else x :: walk xs
         end) indices
  end.

Definition xorRow (m : sparseMatrix) (s : Z) (indices : list Z) (b : block)
  : outcome (list Z * block) :=
  vs <- of_option (idx (v m) s) ;;
  coeffs <- of_option (idx (coeff m) s) ;;
  Ok (xor_indices coeffs indices, block_xor b vs).

(** The loop of [addEquation].  It returns the matrix together with the
    equation that is left when the loop is done. *)
Fixpoint addEquation_loop (fuel : nat) (m : sparseMatrix)
    (components : list Z) (b : block) {struct fuel}
  : outcome (sparseMatrix * list Z * block) :=
  match components with
  | [] => Ok (m, components, b)
  | s :: _ =>
      row <- of_option (idx (coeff m) s) ;;
      match row with
      | [] => Ok (m, components, b)
      | _ :: _ =>
          match fuel with
          | O => Timeout
          | S fuel' =>
              if len row <=? len components then
                r <- xorRow m s components b ;;
                addEquation_loop fuel' m (fst r) (snd r)
              else
                coeff' <- of_option (upd (coeff m) s components) ;;
                vs <- of_option (idx (v m) s) ;;
                v' <- of_option (upd (v m) s b) ;;
                addEquation_loop fuel' {| coeff := coeff'; v := v' |} row vs
          end
      end
  end.

Definition addEquation (fuel : nat) (m : sparseMatrix)
    (components : list Z) (b : block) : outcome sparseMatrix :=
  r <- addEquation_loop fuel m components b ;;
  let '(m1, components1, b1) := r in
  match components1 with
  | [] => Ok m1
  | s :: _ =>
      coeff' <- of_option (upd (coeff m1) s components1) ;;
      v' <- of_option (upd (v m1) s b1) ;;
      Ok {| coeff := coeff'; v := v' |}
  end.

(** A run of [addEquation] calls, as the decoders make it. *)
Fixpoint addEquations (fuel : nat) (m : sparseMatrix)
    (eqs : list (list Z * block)) : outcome sparseMatrix :=
  match eqs with
  | [] => Ok m
  | (components, b) :: rest =>
      m' <- addEquation fuel m components b ;;
      addEquations fuel m' rest
  end.

Definition determined (m : sparseMatrix) : bool :=
  forallb (fun r => negb (len r =? 0)) (coeff m).

(** The innermost loop of [reduce], over [k = 1 .. len(cj)-1]. *)
Fixpoint reduce_row (ci cj_tail : list Z) (i j : Z) (vs : list block)
  : outcome (list block) :=
  match cj_tail with
  | [] => Ok vs
  | c :: rest =>
      ci0 <- of_option (idx ci 0) ;;
      if c =? ci0 then
        vj <- of_option (idx vs j) ;;
        vi <- of_option (idx vs i) ;;
        vs' <- of_option (upd vs j (block_xor vj vi)) ;;
        reduce_row ci rest i j vs'
      else reduce_row ci rest i j vs
  end.

(** The loop over [j = 0 .. i-1]; [n] counts the iterations left. *)
Fixpoint reduce_cols (n : nat) (j i : Z) (cf : list (list Z)) (vs : list block)
  : outcome (list block) :=
  match n with
  | O => Ok vs
  | S n' =>
      ci <- of_option (idx cf i) ;;
      cj <- of_option (idx cf j) ;;
      vs' <- reduce_row ci (tl cj) i j vs ;;
      reduce_cols n' (j + 1) i cf vs'
  end.

(** The outer loop, [i = n-1] down to [0]. *)
Fixpoint reduce_rows (n : nat) (m : sparseMatrix) : outcome sparseMatrix :=
  match n with
  | O => Ok m
  | S n' =>
      let i := Z.of_nat n' in
      vs' <- reduce_cols n' 0 i (coeff m) (v m) ;;
      ci <- of_option (idx (coeff m) i) ;;
      ci' <- of_option (slice_to ci 1) ;;
      coeff' <- of_option (upd (coeff m) i ci') ;;
      reduce_rows n' {| coeff := coeff'; v := vs' |}
  end.

Definition reduce (m : sparseMatrix) : outcome sparseMatrix :=
  reduce_rows (length (coeff m)) m.

(** [out = append(out, m.v[i].data[0:l]...)] for [n] rows from [i] on. *)
Fixpoint append_rows (n : nat) (i l : Z) (vs : list block) (out : list Z)
  : outcome (list Z) :=
  match n with
  | O => Ok out
  | S n' =>
      b <- of_option (idx vs i) ;;
      d <- of_option (slice_to (data b) l) ;;
      append_rows n' (i + 1) l vs (out ++ d)
  end.

Definition reconstruct (m : sparseMatrix)
    (totalLength lenLong lenShort numLong numShort : Z) : outcome (list Z) :=
  if totalLength <? 0 then Panic
  else
    out <- append_rows (Z.to_nat numLong) 0 lenLong (v m) [] ;;
    append_rows (Z.to_nat (wrap64 (numLong + numShort) - numLong))
                numLong lenShort (v m) out.

(** ** Binary search and sorting (Go's [sort] package)

    [sort.Search(n, f)]: the loop halves the interval [i, j) until it is
    empty.  The interval is shorter than [2 ^ fuel] when the loop starts, so
    the fuel computed in [Search] is never used up. *)

Fixpoint search_loop (fuel : nat) (f : Z -> bool) (i j : Z) : Z :=
  match fuel with
  | O => i
  | S fuel' =>
      if i <? j then
        let h := (i + j) / 2 in
        if negb (f h) then search_loop fuel' f (h + 1) j
        else search_loop fuel' f i h
      else i
  end.

Definition Search (n : Z) (f : Z -> bool) : Z :=
  search_loop (Z.to_nat (Z.log2 n + 1)) f 0 n.

Definition SearchInts (a : list Z) (x : Z) : Z :=
  Search (len a) (fun i => match idx a i with
                           | Some y => x <=? y
                           | None => false
                           end).

Definition SearchFloat64s (a : list float64) (x : float64) : Z :=
  Search (len a) (fun i => match idx a i with
                           | Some y => f64_leb x y
                           | None => false
                           end).

(** [sort.Ints]: the sorted permutation of the slice. *)
Fixpoint insert_sorted (x : Z) (l : list Z) : list Z :=
  match l with
  | [] => [x]
  | y :: l' => if x <=? y then x :: l else y :: insert_sorted x l'
  end.

Definition sort_ints (l : list Z) : list Z := fold_right insert_sorted [] l.

(** ** Degree selection (utility file) *)

(** [pickDegree(random, cdf)], with [r] the value of [random.Float64()]. *)
Definition pickDegree (r : float64) (cdf : list float64) : outcome Z :=
  let d := SearchFloat64s cdf r in
  cd <- of_option (idx cdf d) ;;
  if f64_ltb r cd then Ok d
  else if d <? len cdf - 1 then Ok (d + 1)
  else Ok (len cdf - 1).

(** ** Combinatorics (utility file) *)

(** [start, start+1, ..., start+n-1] *)
Fixpoint seqZ (start : Z) (n : nat) : list Z :=
  match n with
  | O => []
  | S n' => start :: seqZ (start + 1) n'
  end.

(** The inner loop of [choose], run over the reversed numerator (the loop
    walks [i] downwards): the first entry divisible by [d] is divided by
    it, and the loop breaks. *)
Fixpoint cancel_one (d : Z) (numerator_rev : list Z) : list Z :=
  match numerator_rev with
  | [] => []
  | x :: rest =>
      if Z.rem x d =? 0 then Z.quot x d :: rest
      else x :: cancel_one d rest
  end.

(** The outer loop of [choose], [j = len(denominator)-1] down to [1]; the
    denominators are passed in that order. *)
Fixpoint cancel_all (denominators_desc : list Z) (numerator_rev : list Z)
  : list Z :=
  match denominators_desc with
  | [] => numerator_rev
  | d :: rest => cancel_all rest (cancel_one d numerator_rev)
  end.

Definition product (l : list Z) : Z :=
  fold_left (fun f i => wrap64 (f * i)) l 1.

Definition choose (n k : Z) : outcome Z :=
  let k := if Z.quot n 2 <? k then n - k else k in
  if n - k <? 0 then Panic
  else
    let numerator := seqZ (k + 1) (Z.to_nat (n - k)) in
    let denominator := seqZ 1 (Z.to_nat (n - k)) in
    r <- (if 0 <? len denominator then
            let z := SearchInts numerator (last denominator 0) in
            if 0 <? z then
              if z + 1 <=? len numerator then
                Ok (skipn (Z.to_nat (z + 1)) numerator,
                    firstn (Z.to_nat (len denominator - z - 1)) denominator)
              else Panic
            else Ok (numerator, denominator)
          else Ok (numerator, denominator)) ;;
    let numerator := fst r in
    let denominator := snd r in
    let numerator := rev (cancel_all (rev (tl denominator)) (rev numerator)) in
    Ok (product numerator).

Definition centerBinomial (x : Z) : outcome Z := choose x (Z.quot x 2).

(** [factorial(x)]: the loop [for i := 1; i <= x; i++ { f *= i }]. *)
Fixpoint factorial_loop (fuel : nat) (x i f : Z) : outcome Z :=
  if i <=? x then
    match fuel with
    | O => Timeout
    | S fuel' => factorial_loop fuel' x (wrap64 (i + 1)) (wrap64 (f * i))
    end
  else Ok f.

Definition factorial (fuel : nat) (x : Z) : outcome Z :=
  factorial_loop fuel x 1 1.

(** ** Bits and Gray codes (utility file)

    [uint] and [uint64] are 64 bits wide; the arguments are taken in
    [0, 2^64). *)

(** [bitSet(x, b)]: [(x>>b)&1 == 1] *)
Definition bitSet (x b : Z) : bool := Z.land (Z.shiftr x b) 1 =? 1.

(** [bitsSet(x)] *)
Definition bitsSet (x : Z) : Z :=
  let x := wrap_u64 (x - Z.land (Z.shiftr x 1) 0x5555555555555555) in
  let x := wrap_u64 (Z.land x 0x3333333333333333
                     + Z.land (Z.shiftr x 2) 0x3333333333333333) in
  let x := Z.land (wrap_u64 (x + Z.shiftr x 4)) 0x0f0f0f0f0f0f0f0f in
  wrap64 (Z.shiftr (wrap_u64 (x * 0x0101010101010101)) 56).

(** [grayCode(x)]: [(x >> 1) ^ x] *)
Definition grayCode (x : Z) : Z := Z.lxor (Z.shiftr x 1) x.

(** The loop of [buildGraySequence], [for x := uint64(0); ; x++]: [s] is
    the slice, [i] the number of entries written. *)
Fixpoint graySequence_loop (fuel : nat) (x : Z) (s : list Z) (i : Z)
    (length_ b : Z) : outcome (list Z) :=
  let g := grayCode x in
  if bitsSet g =? b then
    s' <- of_option (upd s i (wrap64 g)) ;;
    if length_ <=? i + 1 then Ok s'
    else
      match fuel with
      | O => Timeout
      | S fuel' =>
          graySequence_loop fuel' (wrap_u64 (x + 1)) s' (i + 1) length_ b
      end
  else
    match fuel with
    | O => Timeout
    | S fuel' => graySequence_loop fuel' (wrap_u64 (x + 1)) s i length_ b
    end.

(** [buildGraySequence(length, b)] *)
Definition buildGraySequence (fuel : nat) (length_ b : Z) : outcome (list Z) :=
  if length_ <? 0 then Panic
  else graySequence_loop fuel 0 (repeat 0 (Z.to_nat length_)) 0 length_ b.

(** ** Primes (utility file) and the Raptor kernels

    The table [smallPrimes], the tables [v0table] and [v1table] and the
    table [systematicIndextable] are declared in a file that is not part of
    the sources at hand: they are parameters here.  [math.Log] is a
    parameter as well. *)

Section Tables.

Variable smallPrimes : list Z.
Variable v0table v1table : list Z.
Variable systematicIndextable : list Z.
Variable f64_log : float64 -> float64.

Fixpoint isPrime_from (primes : list Z) (x : Z) : bool :=
  match primes with
  | [] => true
  | p :: rest =>
      if x <? wrap64 (p * p) then true
      else if Z.rem x p =? 0 then false
      else isPrime_from rest x
  end.

Definition isPrime (x : Z) : bool := isPrime_from smallPrimes x.

Fixpoint nextPrime_loop (fuel : nat) (x : Z) : outcome Z :=
  if isPrime x then Ok x
  else match fuel with
       | O => Timeout
       | S fuel' => nextPrime_loop fuel' (wrap64 (x + 1))
       end.

Definition smallestPrimeGreaterOrEqual (fuel : nat) (x : Z) : outcome Z :=
  top <- of_option (idx smallPrimes (len smallPrimes - 1)) ;;
  if x <=? top then
    let p := Search (len smallPrimes)
               (fun i => match idx smallPrimes i with
                         | Some q => x <=? q
                         | None => false
                         end) in
    of_option (idx smallPrimes p)
  else nextPrime_loop fuel x.

(** [raptorRand(x, i, m)], on [uint32]. *)
Definition raptorRand (x i m : Z) : outcome Z :=
  v0 <- of_option (idx v0table (wrap_u32 (x + i) mod 256)) ;;
  v1 <- of_option (idx v1table (wrap_u32 (x / 256 + i) mod 256)) ;;
  if m =? 0 then Panic else Ok (Z.lxor v0 v1 mod m).

Definition deg_f : list Z :=
  [0; 10241; 491582; 712794; 831695; 948446; 1032189; 1048576].

Definition deg_d : list Z := [0; 1; 2; 3; 4; 10; 11; 40].

(** The loop of [deg], [j = 1 .. len(f)-2]; [n] counts the iterations
    left. *)
Fixpoint deg_loop (n : nat) (j : Z) (v : Z) : option Z :=
  match n with
  | O => None
  | S n' =>
      if v <? nth (Z.to_nat j) deg_f 0 then Some (nth (Z.to_nat j) deg_d 0)
      else deg_loop n' (j + 1) v
  end.

Definition deg (v : Z) : Z :=
  match deg_loop (Z.to_nat (len deg_f - 1 - 1)) 1 v with
  | Some d => d
  | None => nth (Z.to_nat (len deg_d - 1)) deg_d 0
  end.

(** [for (x * (x - 1)) < (2 * k) { x++ }] *)
Fixpoint x_loop (fuel : nat) (k x : Z) : outcome Z :=
  if wrap64 (x * wrap64 (x - 1)) <? wrap64 (2 * k) then
    match fuel with
    | O => Timeout
    | S fuel' => x_loop fuel' k (wrap64 (x + 1))
    end
  else Ok x.

(** [for centerBinomial(h) < k+s { h++ }] *)
Fixpoint h_loop (fuel : nat) (ks h : Z) : outcome Z :=
  c <- centerBinomial h ;;
  if c <? ks then
    match fuel with
    | O => Timeout
    | S fuel' => h_loop fuel' ks (wrap64 (h + 1))
    end
  else Ok h.

(** [int(math.Floor(math.Sqrt(2 * float64(k))))], raised to 1. *)
Definition x_start (k : Z) : Z :=
  let x := int_of_f64 (f64_floor
             (f64_sqrt (f64_mul (f64_of_int 2) (f64_of_int k)))) in
  if x <? 1 then 1 else x.

(** [int(math.Ceil(0.01*float64(k))) + x] *)
Definition s_start (k x : Z) : Z :=
  wrap64 (int_of_f64 (f64_ceil (f64_mul f64_0_01 (f64_of_int k))) + x).

(** [int(math.Floor(math.Log(float64(s)+float64(k)) / math.Log(4)))] *)
Definition h_start (s k : Z) : Z :=
  int_of_f64 (f64_floor
    (f64_div (f64_log (f64_add (f64_of_int s) (f64_of_int k)))
             (f64_log (f64_of_int 4)))).

(** [intermediateSymbols(k)] returns [(l, s, h)]. *)
Definition intermediateSymbols (fuel : nat) (k : Z) : outcome (Z * Z * Z) :=
  x <- x_loop fuel k (x_start k) ;;
  s <- smallestPrimeGreaterOrEqual fuel (s_start k x) ;;
  h <- h_loop fuel (wrap64 (k + s)) (h_start s k) ;;
  Ok (wrap64 (wrap64 (k + s) + h), s, h).

(** [tripleGenerator(k, x)] returns [(d, a, b)]; [x] is a [uint16]. *)
Definition tripleGenerator (fuel : nat) (k x : Z) : outcome (Z * Z * Z) :=
  lsh <- intermediateSymbols fuel k ;;
  let l := fst (fst lsh) in
  lprime <- smallestPrimeGreaterOrEqual fuel l ;;
  let q := 65521 in
  jk0 <- of_option (idx systematicIndextable k) ;;
  let jk := wrap_u32 jk0 in
  let a := wrap_u32 (wrap_u64 (53591 + wrap_u64 (jk * 997)) mod q) in
  let b := wrap_u32 (10267 * wrap_u32 (jk + 1)) mod q in
  let y := wrap_u32 (wrap_u64 (b + wrap_u64 (x * a)) mod q) in
  v <- raptorRand y 0 1048576 ;;
  let d := deg v in
  a1 <- raptorRand y 1 (wrap_u32 (lprime - 1)) ;;
  let a := wrap_u32 (1 + a1) in
  b <- raptorRand y 2 (wrap_u32 lprime) ;;
  Ok (d, a, b).

(** [for b >= uint32(l) { b = (b + a) % lprime }] *)
Fixpoint skip_loop (fuel : nat) (l a lprime b : Z) : outcome Z :=
  if wrap_u32 l <=? b then
    match fuel with
    | O => Timeout
    | S fuel' =>
        if lprime =? 0 then Panic
        else skip_loop fuel' l a lprime (wrap_u32 (b + a) mod lprime)
    end
  else Ok b.

(** [for j := 1; j < d; j++ { ... }]; [n] counts the iterations left. *)
Fixpoint indices_loop (fuel : nat) (n : nat) (l a lprime b : Z)
    (indices : list Z) : outcome (list Z) :=
  match n with
  | O => Ok indices
  | S n' =>
      if lprime =? 0 then Panic
      else
        b <- skip_loop fuel l a lprime (wrap_u32 (b + a) mod lprime) ;;
        indices_loop fuel n' l a lprime b (indices ++ [b])
  end.

(** The index selection shared by [findLTIndices] and the RU10
    [PickIndices], from the triple [(d, a, b)] on. *)
Definition ltIndices (fuel : nat) (l lprime d a b : Z) : outcome (list Z) :=
  let d := if l <? d then l else d in
  b <- skip_loop fuel l a lprime b ;;
  indices <- indices_loop fuel (Z.to_nat (d - 1)) l a lprime b [b] ;;
  Ok (sort_ints indices).

(** [findLTIndices(k, x)]; [x] is a [uint16]. *)
Definition findLTIndices (fuel : nat) (k x : Z) : outcome (list Z) :=
  lsh <- intermediateSymbols fuel k ;;
  let l := fst (fst lsh) in
  lp <- smallestPrimeGreaterOrEqual fuel l ;;
  let lprime := wrap_u32 lp in
  dab <- tripleGenerator fuel k x ;;
  ltIndices fuel l lprime (fst (fst dab)) (snd (fst dab)) (snd dab).

(** [result.xor(c[i])] for every index. *)
Fixpoint xor_all (result : block) (c : list block) (indices : list Z)
  : outcome block :=
  match indices with
  | [] => Ok result
  | i :: rest =>
      b <- of_option (idx c i) ;;
      xor_all (block_xor result b) c rest
  end.

(** [ltEncode(k, x, c)] *)
Definition ltEncode (fuel : nat) (k x : Z) (c : list block) : outcome block :=
  indices <- findLTIndices fuel k x ;;
  xor_all (newBlock 0) c indices.

End Tables.

(** ** The Luby transform ([EncodeLTBlocks]) *)

(** The loop of [generateLubyTransformBlock] over the indices. *)
Fixpoint xor_selected (symbol : block) (source : list block) (indices : list Z)
  : outcome block :=
  match indices with
  | [] => Ok symbol
  | i :: rest =>
      if i <? len source then
        b <- of_option (idx source i) ;;
        xor_selected (block_xor symbol b) source rest
      else xor_selected symbol source rest
  end.

Definition generateLubyTransformBlock (source : list block) (indices : list Z)
  : outcome block :=
  xor_selected (newBlock 0) source indices.

(** The interface [Codec].  [PickIndices] reseeds its random source with
    the block code on every call, so it is a function of the block code.
    [NewDecoder] is given with the decoders below. *)
Record Codec : Type := mkCodec {
  SourceBlocks : Z;
  GenerateIntermediateBlocks : list Z -> Z -> outcome (list block);
  PickIndices : Z -> outcome (list Z)
}.

Record LTBlock : Type := mkLTBlock {
  BlockCode : Z;
  Data : list Z
}.

(** [make([]byte, n)] *)
Definition make_bytes (n : Z) : option (list Z) :=
  if n <? 0 then None else Some (repeat 0 (Z.to_nat n)).

(** [copy(dst, src)]: the new value of [dst]. *)
Definition copy_bytes (dst src : list Z) : list Z :=
  firstn (length dst) src ++ skipn (length src) dst.

(** The loop of [EncodeLTBlocks] over the block codes. *)
Fixpoint encode_loop (c : Codec) (source : list block) (ids : list Z)
  : outcome (list LTBlock) :=
  match ids with
  | [] => Ok []
  | id :: rest =>
      indices <- PickIndices c id ;;
      b <- generateLubyTransformBlock source indices ;;
      d <- of_option (make_bytes (block_length b)) ;;
      blocks <- encode_loop c source rest ;;
      Ok ({| BlockCode := id; Data := copy_bytes d (data b) |} :: blocks)
  end.

Definition EncodeLTBlocks (message : list Z) (encodedBlockIDs : list Z)
    (c : Codec) : outcome (list LTBlock) :=
  source <- GenerateIntermediateBlocks c message (SourceBlocks c) ;;
  encode_loop c source encodedBlockIDs.

(** ** Decoders

    Every decoder holds the parameters of its codec, the message length and
    the sparse matrix.  [Decode] returns a byte slice, [None] standing for
    the nil slice, together with the decoder after the call. *)

Record binaryCodec : Type := { b_numSourceBlocks : Z }.

Record binaryDecoder : Type := {
  bd_codec : binaryCodec;
  bd_messageLength : Z;
  bd_matrix : sparseMatrix
}.

Record lubyCodec : Type := {
  l_sourceBlocks : Z;
  l_degreeCDF : list float64
}.

Record lubyDecoder : Type := {
  ld_codec : lubyCodec;
  ld_messageLength : Z;
  ld_matrix : sparseMatrix
}.

Record onlineCodec : Type := {
  o_epsilon : float64;
  o_quality : Z;
  o_numSourceBlocks : Z;
  o_randomSeed : Z;
  o_cdf : list float64
}.

Record onlineDecoder : Type := {
  od_codec : onlineCodec;
  od_messageLength : Z;
  od_matrix : sparseMatrix
}.

Record raptorCodec : Type := {
  SymbolAlignmentSize : Z;
  NumSourceSymbols : Z
}.

Record raptorDecoder : Type := {
  rd_codec : raptorCodec;
  rd_messageLength : Z;
  rd_matrix : sparseMatrix
}.

Record ru10Decoder : Type := { ru_decoder : raptorDecoder }.

(** The statements that the Binary, Luby and Online [Decode] share once
    the matrix is known to be determined. *)
Definition reduce_and_reconstruct (m : sparseMatrix) (messageLength k : Z)
  : outcome (list Z * sparseMatrix) :=
  m' <- reduce m ;;
  p <- partition messageLength k ;;
  let '(lenLong, lenShort, numLong, numShort) := p in
  out <- reconstruct m' messageLength lenLong lenShort numLong numShort ;;
  Ok (out, m').

Definition binaryDecoder_Decode (d : binaryDecoder)
  : outcome (option (list Z) * binaryDecoder) :=
  if negb (determined (bd_matrix d)) then Ok (None, d)
  else
    r <- reduce_and_reconstruct (bd_matrix d) (bd_messageLength d)
           (b_numSourceBlocks (bd_codec d)) ;;
    Ok (Some (fst r),
        {| bd_codec := bd_codec d; bd_messageLength := bd_messageLength d;
           bd_matrix := snd r |}).

Definition lubyDecoder_Decode (d : lubyDecoder)
  : outcome (option (list Z) * lubyDecoder) :=
  if negb (determined (ld_matrix d)) then Ok (None, d)
  else
    r <- reduce_and_reconstruct (ld_matrix d) (ld_messageLength d)
           (l_sourceBlocks (ld_codec d)) ;;
    Ok (Some (fst r),
        {| ld_codec := ld_codec d; ld_messageLength := ld_messageLength d;
           ld_matrix := snd r |}).

Definition onlineDecoder_Decode (d : onlineDecoder)
  : outcome (option (list Z) * onlineDecoder) :=
  if negb (determined (od_matrix d)) then Ok (None, d)
  else
    r <- reduce_and_reconstruct (od_matrix d) (od_messageLength d)
           (o_numSourceBlocks (od_codec d)) ;;
    Ok (Some (fst r),
        {| od_codec := od_codec d; od_messageLength := od_messageLength d;
           od_matrix := snd r |}).

(** [out = append(out, source[i].data[0:l]...)], the read-out loops at the
    end of the Raptor and RU10 [Decode]. *)
Definition read_out (blocks : list block)
    (messageLength lenLong lenShort numLong numShort : Z) : outcome (list Z) :=
  if messageLength <? 0 then Panic
  else
    out <- append_rows (Z.to_nat numLong) 0 lenLong blocks [] ;;
    append_rows (Z.to_nat (wrap64 (numLong + numShort) - numLong))
                numLong lenShort blocks out.

Section Decoders.

Variable smallPrimes : list Z.
Variable v0table v1table : list Z.
Variable systematicIndextable : list Z.
Variable f64_log : float64 -> float64.

(** [source[i] = ltEncode(k, uint16(i), intermediate)] for [i = 0 .. k-1];
    [n] counts the iterations left. *)
Fixpoint recover_source (fuel : nat) (n : nat) (i k : Z)
    (intermediate : list block) : outcome (list block) :=
  match n with
  | O => Ok []
  | S n' =>
      b <- ltEncode smallPrimes v0table v1table systematicIndextable f64_log
             fuel k (i mod 2 ^ 16) intermediate ;;
      rest <- recover_source fuel n' (i + 1) k intermediate ;;
      Ok (b :: rest)
  end.

Definition raptorDecoder_Decode (fuel : nat) (d : raptorDecoder)
  : outcome (option (list Z) * raptorDecoder) :=
  if negb (determined (rd_matrix d)) then Ok (None, d)
  else
    m' <- reduce (rd_matrix d) ;;
    let k := NumSourceSymbols (rd_codec d) in
    if k <? 0 then Panic
    else
      source <- recover_source fuel (Z.to_nat k) 0 k (v m') ;;
      p <- partition (rd_messageLength d) k ;;
      let '(lenLong, lenShort, numLong, numShort) := p in
      out <- read_out source (rd_messageLength d)
               lenLong lenShort numLong numShort ;;
      Ok (Some out,
          {| rd_codec := rd_codec d; rd_messageLength := rd_messageLength d;
             rd_matrix := m' |}).

Definition ru10Decoder_Decode (d : ru10Decoder)
  : outcome (option (list Z) * ru10Decoder) :=
  let r := ru_decoder d in
  if negb (determined (rd_matrix r)) then Ok (None, d)
  else
    m' <- reduce (rd_matrix r) ;;
    p <- partition (rd_messageLength r) (NumSourceSymbols (rd_codec r)) ;;
    let '(lenLong, lenShort, numLong, numShort) := p in
    out <- read_out (v m') (rd_messageLength r) lenLong lenShort numLong numShort ;;
    Ok (Some out,
        {| ru_decoder :=
             {| rd_codec := rd_codec r; rd_messageLength := rd_messageLength r;
                rd_matrix := m' |} |}).

(** The interface [Decoder], as the sum of its five implementations. *)
Inductive Decoder : Type :=
| BinaryDecoder (d : binaryDecoder)
| LubyDecoder (d : lubyDecoder)
| OnlineDecoder (d : onlineDecoder)
| RaptorDecoder (d : raptorDecoder)
| RU10Decoder (d : ru10Decoder).

Definition decoder_matrix (d : Decoder) : sparseMatrix :=
  match d with
  | BinaryDecoder d => bd_matrix d
  | LubyDecoder d => ld_matrix d
  | OnlineDecoder d => od_matrix d
  | RaptorDecoder d => rd_matrix d
  | RU10Decoder d => rd_matrix (ru_decoder d)
  end.

Definition lift {A B C : Type} (f : B -> C) (x : outcome (A * B))
  : outcome (A * C) :=
  r <- x ;; Ok (fst r, f (snd r)).

Definition Decode (fuel : nat) (d : Decoder)
  : outcome (option (list Z) * Decoder) :=
  match d with
  | BinaryDecoder d => lift BinaryDecoder (binaryDecoder_Decode d)
  | LubyDecoder d => lift LubyDecoder (lubyDecoder_Decode d)
  | OnlineDecoder d => lift OnlineDecoder (onlineDecoder_Decode d)
  | RaptorDecoder d => lift RaptorDecoder (raptorDecoder_Decode fuel d)
  | RU10Decoder d => lift RU10Decoder (ru10Decoder_Decode d)
  end.

End Decoders.

(** ** Splitting a message into blocks ([block.go]) *)

(** The closure [sliceIntoBlocks] of [partitionBytes]: it cuts [num]
    blocks of [size] bytes from the front of the input; a block that gets
    fewer bytes is padded.  [n] counts the blocks left to cut. *)
Fixpoint sliceIntoBlocks_loop (n : nat) (input : list Z) (size : Z)
  : outcome (list block * list Z) :=
  match n with
  | O => Ok ([], input)
  | S n' =>
      r <- (if size <? len input then
              if size <? 0 then Panic
              else Ok (firstn (Z.to_nat size) input,
                       skipn (Z.to_nat size) input)
            else Ok (input, [])) ;;
      let d := fst r in
      let b := {| data := d;
                  padding := if len d <? size then size - len d else 0 |} in
      rest <- sliceIntoBlocks_loop n' (snd r) size ;;
      Ok (b :: fst rest, snd rest)
  end.

Definition sliceIntoBlocks (input : list Z) (num size : Z)
  : outcome (list block * list Z) :=
  if num <? 0 then Panic else sliceIntoBlocks_loop (Z.to_nat num) input size.

(** [partitionBytes(in, p)] returns the long blocks and the short
    blocks. *)
Definition partitionBytes (input : list Z) (p : Z)
  : outcome (list block * list block) :=
  q <- partition (len input) p ;;
  let '(lenLong, lenShort, numLong, numShort) := q in
  long <- sliceIntoBlocks input numLong lenLong ;;
  short <- sliceIntoBlocks (snd long) numShort lenShort ;;
  Ok (fst long, fst short).

(** [equalizeBlockLengths(longBlocks, shortBlocks)] *)
Definition equalizeBlockLengths (longBlocks shortBlocks : list block)
  : list block :=
  match longBlocks, shortBlocks with
  | [], _ => shortBlocks
  | _, [] => longBlocks
  | l0 :: _, _ :: _ =>
      longBlocks ++
      map (fun s =>
             {| data := data s;
                padding := wrap64 (padding s +
                                   wrap64 (block_length l0 - block_length s)) |})
          shortBlocks
  end.

(** The two statements that open every [GenerateIntermediateBlocks]: the
    message is partitioned and the blocks are brought to one length. *)
Definition sourceBlocks (message : list Z) (p : Z) : outcome (list block) :=
  r <- partitionBytes message p ;;
  Ok (equalizeBlockLengths (fst r) (snd r)).

Definition binaryCodec_GenerateIntermediateBlocks (c : binaryCodec)
    (message : list Z) (numBlocks : Z) : outcome (list block) :=
  sourceBlocks message (b_numSourceBlocks c).

Definition lubyCodec_GenerateIntermediateBlocks (c : lubyCodec)
    (message : list Z) (numBlocks : Z) : outcome (list block) :=
  sourceBlocks message (l_sourceBlocks c).

(** ** Receiving blocks *)

(** [make([][]int, n)] and [make([]block, n)] panic for a negative [n]. *)
Definition make_matrix (n : Z) : outcome sparseMatrix :=
  if n <? 0 then Panic else Ok (newSparseMatrix n).

Definition newBinaryDecoder (c : binaryCodec) (length_ : Z)
  : outcome binaryDecoder :=
  m <- make_matrix (b_numSourceBlocks c) ;;
  Ok {| bd_codec := c; bd_messageLength := length_; bd_matrix := m |}.

Definition newLubyDecoder (c : lubyCodec) (length_ : Z)
  : outcome lubyDecoder :=
  m <- make_matrix (l_sourceBlocks c) ;;
  Ok {| ld_codec := c; ld_messageLength := length_; ld_matrix := m |}.

(** The loop of the [AddBlocks] methods: the indices of every block are
    picked from its block code and the equation goes into the matrix. *)
Fixpoint addBlocks_loop (fuel : nat) (pick : Z -> outcome (list Z))
    (m : sparseMatrix) (blocks : list LTBlock) : outcome sparseMatrix :=
  match blocks with
  | [] => Ok m
  | blk :: rest =>
      indices <- pick (BlockCode blk) ;;
      m' <- addEquation fuel m indices {| data := Data blk; padding := 0 |} ;;
      addBlocks_loop fuel pick m' rest
  end.

(** ** The Mersenne Twister ([mersenne.go])

    The state arrays [[624]uint32] and [[312]uint64] are lists of that
    length.  Every index that the code forms is reduced modulo the length
    of the array or tested against it; the reads below take the default 0
    outside the list, which the invariants of Part II show is never
    used. *)

Definition arr_get (a : list Z) (i : Z) : Z := nth (Z.to_nat i) a 0.

Definition arr_set (a : list Z) (i : Z) (x : Z) : list Z :=
  list_set a (Z.to_nat i) x.

Record MersenneTwister : Type := mkMersenneTwister {
  mt : list Z;
  index : Z;
  initialized : bool
}.

(** The zero value of the struct. *)
Definition MersenneTwister_zero : MersenneTwister :=
  {| mt := repeat 0 624; index := 0; initialized := false |}.

(** The loop of [initialize], [i = 1 .. len(t.mt)-1]; [n] counts the
    iterations left. *)
Fixpoint initialize_loop (n : nat) (i : Z) (a : list Z) : list Z :=
  match n with
  | O => a
  | S n' =>
      let p := arr_get a (i - 1) in
      initialize_loop n' (i + 1)
        (arr_set a i
           (Z.land (wrap_u32 (wrap_u32 (1812433253 * Z.lxor p (Z.shiftr p 30))
                              + wrap_u32 i))
                   4294967295))
  end.

Definition MersenneTwister_initialize (t : MersenneTwister) (seed : Z)
  : MersenneTwister :=
  {| mt := initialize_loop (Z.to_nat (len (mt t) - 1)) 1 (arr_set (mt t) 0 seed);
     index := 0;
     initialized := true |}.

(** [t.Seed(seed)], [seed] an [int64]: the halves are XORed to a
    [uint32]. *)
Definition MersenneTwister_Seed (t : MersenneTwister) (seed : Z)
  : MersenneTwister :=
  MersenneTwister_initialize t
    (wrap_u32 (Z.land (Z.lxor (Z.shiftr seed 32) seed) 4294967295)).

Definition NewMersenneTwister (seed : Z) : MersenneTwister :=
  MersenneTwister_Seed MersenneTwister_zero seed.

Definition mag01 (b : Z) : Z := if b =? 0 then 0 else 0x9908b0df.

(** The loop of [generateUntempered], [i = 0 .. len(t.mt)-1], in place. *)
Fixpoint generateUntempered_loop (n : nat) (i : Z) (a : list Z) : list Z :=
  match n with
  | O => a
  | S n' =>
      let y := Z.lor (Z.land (arr_get a i) 0x80000000)
                     (Z.land (arr_get a ((i + 1) mod len a)) 0x7fffffff) in
      generateUntempered_loop n' (i + 1)
        (arr_set a i
           (Z.lxor (Z.lxor (arr_get a ((i + 397) mod len a)) (Z.shiftr y 1))
                   (mag01 (Z.land y 1))))
  end.

Definition MersenneTwister_generateUntempered (t : MersenneTwister)
  : MersenneTwister :=
  {| mt := generateUntempered_loop (length (mt t)) 0 (mt t);
     index := index t;
     initialized := initialized t |}.

(** The tempering at the end of [Uint32]. *)
Definition temper (y : Z) : Z :=
  let y := Z.lxor y (Z.shiftr y 11) in
  let y := Z.lxor y (Z.land (wrap_u32 (Z.shiftl y 7)) 0x9d2c5680) in
  let y := Z.lxor y (Z.land (wrap_u32 (Z.shiftl y 15)) 0xefc60000) in
  Z.lxor y (Z.shiftr y 18).

(** [t.Uint32()] returns the value and the twister after the call. *)
Definition MersenneTwister_Uint32 (t : MersenneTwister)
  : Z * MersenneTwister :=
  let t := if initialized t then t else MersenneTwister_initialize t 4357 in
  let t := if index t =? 0 then MersenneTwister_generateUntempered t else t in
  let y := arr_get (mt t) (index t) in
  let index' := index t + 1 in
  let index' := if len (mt t) <=? index' then 0 else index' in
  (temper y, {| mt := mt t; index := index'; initialized := initialized t |}).

(** [t.Int63()] *)
Definition MersenneTwister_Int63 (t : MersenneTwister)
  : Z * MersenneTwister :=
  let a := MersenneTwister_Uint32 t in
  let b := MersenneTwister_Uint32 (snd a) in
  (Z.lxor (wrap64 (Z.shiftl (fst a) 31)) (fst b), snd b).

(** The 64-bit twister. *)
Record MersenneTwister64 : Type := mkMersenneTwister64 {
  mt64 : list Z;
  index64 : Z;
  initialized64 : bool
}.

Definition MersenneTwister64_zero : MersenneTwister64 :=
  {| mt64 := repeat 0 312; index64 := 0; initialized64 := false |}.

Fixpoint initialize64_loop (n : nat) (i : Z) (a : list Z) : list Z :=
  match n with
  | O => a
  | S n' =>
      let p := arr_get a (i - 1) in
      initialize64_loop n' (i + 1)
        (arr_set a i
           (wrap_u64 (wrap_u64 (6364136223846793005 * Z.lxor p (Z.shiftr p 62))
                      + wrap_u64 i)))
  end.

Definition MersenneTwister64_initialize (t : MersenneTwister64) (seed : Z)
  : MersenneTwister64 :=
  {| mt64 := initialize64_loop (Z.to_nat (len (mt64 t) - 1)) 1
               (arr_set (mt64 t) 0 seed);
     index64 := 0;
     initialized64 := true |}.

(** [t.Seed(seed)]: the [int64] is converted to [uint64]. *)
Definition MersenneTwister64_Seed (t : MersenneTwister64) (seed : Z)
  : MersenneTwister64 :=
  MersenneTwister64_initialize t (wrap_u64 seed).

Definition NewMersenneTwister64 (seed : Z) : MersenneTwister64 :=
  MersenneTwister64_Seed MersenneTwister64_zero seed.

Definition mag01_64 (b : Z) : Z := if b =? 0 then 0 else 0xb5026f5aa96619e9.

Fixpoint generateUntempered64_loop (n : nat) (i : Z) (a : list Z) : list Z :=
  match n with
  | O => a
  | S n' =>
      let y := Z.lor (Z.land (arr_get a i) 0xffffffff80000000)
                     (Z.land (arr_get a ((i + 1) mod len a)) 0x7fffffff) in
      generateUntempered64_loop n' (i + 1)
        (arr_set a i
           (Z.lxor (Z.lxor (arr_get a ((i + 156) mod len a)) (Z.shiftr y 1))
                   (mag01_64 (Z.land y 1))))
  end.

Definition MersenneTwister64_generateUntempered (t : MersenneTwister64)
  : MersenneTwister64 :=
  {| mt64 := generateUntempered64_loop (length (mt64 t)) 0 (mt64 t);
     index64 := index64 t;
     initialized64 := initialized64 t |}.

Definition temper64 (y : Z) : Z :=
  let y := Z.lxor y (Z.land (Z.shiftr y 29) 0x5555555555555555) in
  let y := Z.lxor y (Z.land (wrap_u64 (Z.shiftl y 17)) 0x71d67fffeda60000) in
  let y := Z.lxor y (Z.land (wrap_u64 (Z.shiftl y 37)) 0xfff7eee000000000) in
  Z.lxor y (Z.shiftr y 43).

Definition MersenneTwister64_Uint64 (t : MersenneTwister64)
  : Z * MersenneTwister64 :=
  let t := if initialized64 t then t else MersenneTwister64_initialize t 5489 in
  let t := if index64 t =? 0 then MersenneTwister64_generateUntempered t
           else t in
  let y := arr_get (mt64 t) (index64 t) in
  let index' := index64 t + 1 in
  let index' := if len (mt64 t) <=? index' then 0 else index' in
  (temper64 y,
   {| mt64 := mt64 t; index64 := index'; initialized64 := initialized64 t |}).

(** [t.Int63()]: the low 63 bits of [Uint64]. *)
Definition MersenneTwister64_Int63 (t : MersenneTwister64)
  : Z * MersenneTwister64 :=
  let r := MersenneTwister64_Uint64 t in
  (Z.land (fst r) 0x7fffffffffffffff, snd r).

(** One round of the first loop of [SeedSlice]; the state of the loop is
    the array with the counters [i] and [j]. *)
Definition seedSlice_step1 (seed : list Z) (s : list Z * Z * Z)
  : outcome (list Z * Z * Z) :=
  let '(a, i, j) := s in
  sj <- of_option (idx seed j) ;;
  let p := arr_get a (i - 1) in
  let x := wrap_u64
             (wrap_u64 (Z.lxor (arr_get a i)
                          (wrap_u64 (Z.lxor p (Z.shiftr p 62)
                                     * 3935559000370003845))
                        + sj)
              + wrap_u64 j) in
  let a := arr_set a i x in
  let i := i + 1 in
  let j := j + 1 in
  let '(a, i) := if len a <=? i
                 then (arr_set a 0 (arr_get a (len a - 1)), 1)
                 else (a, i) in
  let j := if len seed <=? j then 0 else j in
  Ok (a, i, j).

Fixpoint seedSlice_loop1 (n : nat) (seed : list Z) (s : list Z * Z * Z)
  : outcome (list Z * Z * Z) :=
  match n with
  | O => Ok s
  | S n' => s' <- seedSlice_step1 seed s ;; seedSlice_loop1 n' seed s'
  end.

(** The second loop of [SeedSlice]. *)
Fixpoint seedSlice_loop2 (n : nat) (a : list Z) (i : Z) : list Z * Z :=
  match n with
  | O => (a, i)
  | S n' =>
      let p := arr_get a (i - 1) in
      let x := wrap_u64
                 (Z.lxor (arr_get a i)
                    (wrap_u64 (Z.lxor p (Z.shiftr p 62)
                               * 2862933555777941757))
                  - wrap_u64 i) in
      let a := arr_set a i x in
      let i := i + 1 in
      let '(a, i) := if len a <=? i
                     then (arr_set a 0 (arr_get a (len a - 1)), 1)
                     else (a, i) in
      seedSlice_loop2 n' a i
  end.

Definition MersenneTwister64_SeedSlice (t : MersenneTwister64)
    (seed : list Z) : outcome MersenneTwister64 :=
  let t := MersenneTwister64_initialize t 19650218 in
  let length_ := if len seed <? len (mt64 t) then len (mt64 t) else len seed in
  s <- seedSlice_loop1 (Z.to_nat length_) seed (mt64 t, 1, 0) ;;
  let '(a, i, _) := s in
  let r := seedSlice_loop2 (Z.to_nat (len a - 1)) a i in
  Ok {| mt64 := arr_set (fst r) 0 (Z.shiftl 1 63);
        index64 := index64 t;
        initialized64 := initialized64 t |}.

(** The interface [rand.Source], as the sum of its two implementations. *)
Inductive Source : Type :=
| SourceMT (t : MersenneTwister)
| SourceMT64 (t : MersenneTwister64).

Definition Source_Int63 (s : Source) : Z * Source :=
  match s with
  | SourceMT t => let r := MersenneTwister_Int63 t in (fst r, SourceMT (snd r))
  | SourceMT64 t =>
      let r := MersenneTwister64_Int63 t in (fst r, SourceMT64 (snd r))
  end.

Definition Source_Seed (s : Source) (seed : Z) : Source :=
  match s with
  | SourceMT t => SourceMT (MersenneTwister_Seed t seed)
  | SourceMT64 t => SourceMT64 (MersenneTwister64_Seed t seed)
  end.

(** ** Random numbers ([math/rand])

    The generator type [rand.Rand] belongs to Go's library, not to this
    one.  The library calls [rand.New], [Seed], [Intn], [Float64] and
    [Int63]; they are the operations of the class below.  [rand_Intn]
    gives the result of [Intn] for an argument above 0. *)

Class RandOps : Type := {
  Rand : Type;
  rand_New : Source -> Rand;
  rand_Seed : Rand -> Z -> Rand;
  rand_Intn : Rand -> Z -> Z * Rand;
  rand_Float64 : Rand -> float64 * Rand;
  rand_Int63 : Rand -> Z * Rand
}.

(** What the documentation of [math/rand] promises: [Intn(n)] lies in
    [0, n), [Float64()] in [0, 1) and [Int63()] in [0, 2^63). *)
Definition Intn_in_range (R : RandOps) : Prop :=
  forall (r : Rand) (n : Z), 0 < n -> 0 <= fst (rand_Intn r n) < n.

Definition Float64_in_range (R : RandOps) : Prop :=
  forall r : Rand,
    (0 <= fst (rand_Float64 r))%Q /\ (fst (rand_Float64 r) < 1)%Q.

Definition Int63_in_range (R : RandOps) : Prop :=
  forall r : Rand, 0 <= fst (rand_Int63 r) < 2 ^ 63.

(** [Seed] leaves nothing of the state before the call, as it is with the
    two sources of this library. *)
Definition Seed_resets (R : RandOps) : Prop :=
  forall (r r' : Rand) (seed : Z), rand_Seed r seed = rand_Seed r' seed.

Section Random.

Context {R : RandOps}.

(** [random.Intn(n)] panics for [n <= 0]. *)
Definition Intn (random : Rand) (n : Z) : outcome (Z * Rand) :=
  if n <=? 0 then Panic else Ok (rand_Intn random n).

(** [p := random.Intn(max); for seen[p] { p = random.Intn(max) }]: the set
    [seen] is the list of its members. *)
Fixpoint draw_unseen (fuel : nat) (random : Rand) (max : Z) (seen : list Z)
  : outcome (Z * Rand) :=
  r <- Intn random max ;;
  if existsb (Z.eqb (fst r)) seen then
    match fuel with
    | O => Timeout
    | S fuel' => draw_unseen fuel' (snd r) max seen
    end
  else Ok r.

(** The loop of [sampleUniform], [i = 0 .. num-1]; [n] counts the
    iterations left. *)
Fixpoint sample_loop (fuel : nat) (n : nat) (random : Rand) (max : Z)
    (picks seen : list Z) : outcome (list Z * Rand) :=
  match n with
  | O => Ok (picks, random)
  | S n' =>
      r <- draw_unseen fuel random max seen ;;
      sample_loop fuel n' (snd r) max (picks ++ [fst r]) (fst r :: seen)
  end.

(** [sampleUniform(random, num, max)] returns the picks and the generator
    after the call. *)
Definition sampleUniform (fuel : nat) (random : Rand) (num max : Z)
  : outcome (list Z * Rand) :=
  if max <=? num then
    if max <? 0 then Panic else Ok (seqZ 0 (Z.to_nat max), random)
  else if num <? 0 then Panic
  else
    r <- sample_loop fuel (Z.to_nat num) random max [] [] ;;
    Ok (sort_ints (fst r), snd r).

(** The loop of the Binary [PickIndices], [b = 0 .. SourceBlocks()-1]. *)
Fixpoint binary_pick_loop (n : nat) (b : Z) (random : Rand)
    (indices : list Z) : outcome (list Z) :=
  match n with
  | O => Ok indices
  | S n' =>
      r <- Intn random 2 ;;
      binary_pick_loop n' (b + 1) (snd r)
        (if fst r =? 1 then indices ++ [b] else indices)
  end.

Definition binaryCodec_PickIndices (c : binaryCodec) (codeBlockIndex : Z)
  : outcome (list Z) :=
  binary_pick_loop (Z.to_nat (b_numSourceBlocks c)) 0
    (rand_New (SourceMT (NewMersenneTwister codeBlockIndex))) [].

(** The Luby [PickIndices] seeds the generator of the codec, which it
    shares with every other call; it returns the indices and the generator
    after the call. *)
Definition lubyCodec_PickIndices (fuel : nat) (c : lubyCodec)
    (random : Rand) (codeBlockIndex : Z) : outcome (list Z * Rand) :=
  let random := rand_Seed random codeBlockIndex in
  let f := rand_Float64 random in
  d <- pickDegree (fst f) (l_degreeCDF c) ;;
  sampleUniform fuel (snd f) d (l_sourceBlocks c).

(** The Binary codec as a [Codec]. *)
Definition binaryCodec_Codec (c : binaryCodec) : Codec :=
  {| SourceBlocks := b_numSourceBlocks c;
     GenerateIntermediateBlocks := binaryCodec_GenerateIntermediateBlocks c;
     PickIndices := binaryCodec_PickIndices c |}.

(** [AddBlocks] returns whether the matrix is determined, and the decoder
    after the call. *)
Definition binaryDecoder_AddBlocks (fuel : nat) (d : binaryDecoder)
    (blocks : list LTBlock) : outcome (bool * binaryDecoder) :=
  m <- addBlocks_loop fuel (binaryCodec_PickIndices (bd_codec d))
         (bd_matrix d) blocks ;;
  Ok (determined m,
      {| bd_codec := bd_codec d; bd_messageLength := bd_messageLength d;
         bd_matrix := m |}).

(** The Luby codec as a [Codec], with the generator it was made with. *)
Definition lubyCodec_Codec (fuel : nat) (c : lubyCodec) (random : Rand)
  : Codec :=
  {| SourceBlocks := l_sourceBlocks c;
     GenerateIntermediateBlocks := lubyCodec_GenerateIntermediateBlocks c;
     PickIndices := fun codeBlockIndex =>
                      r <- lubyCodec_PickIndices fuel c random codeBlockIndex ;;
                      Ok (fst r) |}.

(** The loop of the Luby [AddBlocks]; the generator of the codec goes from
    one call of [PickIndices] to the next. *)
Fixpoint lubyDecoder_AddBlocks_loop (fuel : nat) (c : lubyCodec)
    (random : Rand) (m : sparseMatrix) (blocks : list LTBlock)
  : outcome (sparseMatrix * Rand) :=
  match blocks with
  | [] => Ok (m, random)
  | blk :: rest =>
      r <- lubyCodec_PickIndices fuel c random (BlockCode blk) ;;
      m' <- addEquation fuel m (fst r) {| data := Data blk; padding := 0 |} ;;
      lubyDecoder_AddBlocks_loop fuel c (snd r) m' rest
  end.

Definition lubyDecoder_AddBlocks (fuel : nat) (random : Rand)
    (d : lubyDecoder) (blocks : list LTBlock)
  : outcome (bool * lubyDecoder * Rand) :=
  r <- lubyDecoder_AddBlocks_loop fuel (ld_codec d) random (ld_matrix d)
         blocks ;;
  Ok (determined (fst r),
      {| ld_codec := ld_codec d; ld_messageLength := ld_messageLength d;
         ld_matrix := fst r |},
      snd r).

End Random.

(** ** The Online codec (online file)

    The codec adds auxiliary blocks to the source blocks: every source
    block is XORed into [quality] auxiliary blocks that a generator seeded
    with [randomSeed] picks, and the decoder, which runs the same generator
    again, starts with one equation for every auxiliary block. *)

Section Online.

Context {R : RandOps}.

(** The constant [0.55] as a [float64]. *)
Definition f64_0_55 : float64 := Qmake 4953959590107546 (2 ^ 53).

(** [int(math.Ceil(0.55 * float64(c.quality) * c.epsilon *
    float64(c.numSourceBlocks)))] *)
Definition onlineCodec_numAuxBlocks (c : onlineCodec) : Z :=
  int_of_f64
    (f64_ceil
       (f64_mul
          (f64_mul (f64_mul f64_0_55 (f64_of_int (o_quality c))) (o_epsilon c))
          (f64_of_int (o_numSourceBlocks c)))).

(** [for _, j := range touchAuxBlocks { aux[j].xor(source[i]) }] *)
Fixpoint touch_aux (aux source : list block) (i : Z) (touch : list Z)
  : outcome (list block) :=
  match touch with
  | [] => Ok aux
  | j :: rest =>
      a <- of_option (idx aux j) ;;
      s <- of_option (idx source i) ;;
      aux' <- of_option (upd aux j (block_xor a s)) ;;
      touch_aux aux' source i rest
  end.

(** The loop of [generateOuterEncoding] over the source blocks,
    [i = 0 .. numSourceBlocks-1]; [n] counts the iterations left. *)
Fixpoint outer_loop (fuel : nat) (n : nat) (i : Z) (quality numAuxBlocks : Z)
    (source aux : list block) (random : Rand) : outcome (list block) :=
  match n with
  | O => Ok aux
  | S n' =>
      r <- sampleUniform fuel random quality numAuxBlocks ;;
      aux' <- touch_aux aux source i (fst r) ;;
      outer_loop fuel n' (i + 1) quality numAuxBlocks source aux' (snd r)
  end.

(** [generateOuterEncoding(message, codec)] returns the source blocks and
    the auxiliary blocks. *)
Definition generateOuterEncoding (fuel : nat) (message : list Z)
    (codec : onlineCodec) : outcome (list block * list block) :=
  let numAuxBlocks := onlineCodec_numAuxBlocks codec in
  source <- sourceBlocks message (o_numSourceBlocks codec) ;;
  if numAuxBlocks <? 0 then Panic
  else
    aux <- (if numAuxBlocks =? 0 then Ok []
            else
              s0 <- of_option (idx source 0) ;;
              Ok (repeat {| data := []; padding := block_length s0 |}
                         (Z.to_nat numAuxBlocks))) ;;
    aux' <- outer_loop fuel (Z.to_nat (o_numSourceBlocks codec)) 0
              (o_quality codec) numAuxBlocks source aux
              (rand_New (SourceMT (NewMersenneTwister (o_randomSeed codec)))) ;;
    Ok (source, aux').

(** The Online [GenerateIntermediateBlocks]: the source blocks followed by
    the auxiliary blocks. *)
Definition onlineCodec_GenerateIntermediateBlocks (fuel : nat)
    (c : onlineCodec) (message : list Z) (numBlocks : Z)
  : outcome (list block) :=
  r <- generateOuterEncoding fuel message c ;;
  Ok (fst r ++ snd r).

(** The loop of [generateCodeBlock] over the indices. *)
Fixpoint xor_outer (symbol : block) (source aux : list block)
    (indices : list Z) : outcome block :=
  match indices with
  | [] => Ok symbol
  | i :: rest =>
      b <- (if i <? len source then of_option (idx source i)
            else of_option (idx aux (i - len source))) ;;
      xor_outer (block_xor symbol b) source aux rest
  end.

Definition generateCodeBlock (source aux : list block) (indices : list Z)
  : outcome block :=
  xor_outer (newBlock 0) source aux indices.

(** The Online [PickIndices] makes a generator of its own from the block
    code. *)
Definition onlineCodec_PickIndices (fuel : nat) (c : onlineCodec)
    (codeBlockIndex : Z) : outcome (list Z) :=
  let random := rand_New (SourceMT (NewMersenneTwister codeBlockIndex)) in
  let f := rand_Float64 random in
  degree <- pickDegree (fst f) (o_cdf c) ;;
  r <- sampleUniform fuel (snd f) degree
         (wrap64 (o_numSourceBlocks c + onlineCodec_numAuxBlocks c)) ;;
  Ok (fst r).

(** The Online codec as a [Codec]. *)
Definition onlineCodec_Codec (fuel : nat) (c : onlineCodec) : Codec :=
  {| SourceBlocks := o_numSourceBlocks c;
     GenerateIntermediateBlocks := onlineCodec_GenerateIntermediateBlocks fuel c;
     PickIndices := onlineCodec_PickIndices fuel c |}.

(** The loop of [encodeOnlineBlocks] over the block codes. *)
Fixpoint encodeOnline_loop (fuel : nat) (codec : onlineCodec)
    (source aux : list block) (ids : list Z) : outcome (list LTBlock) :=
  match ids with
  | [] => Ok []
  | id :: rest =>
      indices <- onlineCodec_PickIndices fuel codec id ;;
      b <- generateCodeBlock source aux indices ;;
      s0 <- of_option (idx source 0) ;;
      d <- of_option (make_bytes (block_length s0)) ;;
      blocks <- encodeOnline_loop fuel codec source aux rest ;;
      Ok ({| BlockCode := id; Data := copy_bytes d (data b) |} :: blocks)
  end.

Definition encodeOnlineBlocks (fuel : nat) (message : list Z) (ids : list Z)
    (codec : onlineCodec) : outcome (list LTBlock) :=
  r <- generateOuterEncoding fuel message codec ;;
  encodeOnline_loop fuel codec (fst r) (snd r) ids.

(** [for _, j := range touchAuxBlocks
       { auxBlockComposition[j] = append(auxBlockComposition[j], i) }] *)
Fixpoint touch_compositions (compositions : list (list Z)) (i : Z)
    (touch : list Z) : outcome (list (list Z)) :=
  match touch with
  | [] => Ok compositions
  | j :: rest =>
      cj <- of_option (idx compositions j) ;;
      compositions' <- of_option (upd compositions j (cj ++ [i])) ;;
      touch_compositions compositions' i rest
  end.

(** The loop of [newOnlineDecoder] over the source blocks. *)
Fixpoint composition_loop (fuel : nat) (n : nat) (i : Z)
    (quality numAuxBlocks : Z) (compositions : list (list Z)) (random : Rand)
  : outcome (list (list Z)) :=
  match n with
  | O => Ok compositions
  | S n' =>
      r <- sampleUniform fuel random quality numAuxBlocks ;;
      compositions' <- touch_compositions compositions i (fst r) ;;
      composition_loop fuel n' (i + 1) quality numAuxBlocks compositions'
        (snd r)
  end.

(** [auxBlockComposition[i] = append(auxBlockComposition[i],
    i+c.numSourceBlocks)] for the compositions from number [i] on. *)
Fixpoint append_own_index (i numSourceBlocks : Z)
    (compositions : list (list Z)) : list (list Z) :=
  match compositions with
  | [] => []
  | ci :: rest =>
      (ci ++ [wrap64 (i + numSourceBlocks)])
        :: append_own_index (i + 1) numSourceBlocks rest
  end.

(** The equations of the auxiliary blocks, as the encoder and the decoder
    compute them from [randomSeed]. *)
Definition auxBlockComposition (fuel : nat) (c : onlineCodec)
  : outcome (list (list Z)) :=
  let numAuxBlocks := onlineCodec_numAuxBlocks c in
  if numAuxBlocks <? 0 then Panic
  else
    compositions <-
      composition_loop fuel (Z.to_nat (o_numSourceBlocks c)) 0 (o_quality c)
        numAuxBlocks (repeat [] (Z.to_nat numAuxBlocks))
        (rand_New (SourceMT (NewMersenneTwister (o_randomSeed c)))) ;;
    Ok (append_own_index 0 (o_numSourceBlocks c) compositions).

Definition newOnlineDecoder (fuel : nat) (c : onlineCodec) (length_ : Z)
  : outcome onlineDecoder :=
  m <- make_matrix (wrap64 (o_numSourceBlocks c + onlineCodec_numAuxBlocks c)) ;;
  compositions <- auxBlockComposition fuel c ;;
  m' <- addEquations fuel m
          (map (fun composition => (composition, newBlock 0)) compositions) ;;
  Ok {| od_codec := c; od_messageLength := length_; od_matrix := m' |}.

Definition onlineDecoder_AddBlocks (fuel : nat) (d : onlineDecoder)
    (blocks : list LTBlock) : outcome (bool * onlineDecoder) :=
  m <- addBlocks_loop fuel (onlineCodec_PickIndices fuel (od_codec d))
         (od_matrix d) blocks ;;
  Ok (determined m,
      {| od_codec := od_codec d; od_messageLength := od_messageLength d;
         od_matrix := m |}).

End Online.

(** A generator that counts: [Seed] sets the counter, every draw reads it
    and adds one.  It is another implementation of the class, and one that
    [Seed] resets. *)
Definition countingRand : RandOps :=
  {| Rand := Z;
     rand_New := fun s => fst (Source_Int63 s);
     rand_Seed := fun _ seed => seed;
     rand_Intn := fun r n => (r mod n, r + 1);
     rand_Float64 := fun r => (Qmake (r mod 1024) 1024, r + 1);
     rand_Int63 := fun r => (r mod 2 ^ 63, r + 1) |}.

(** A generator made of a source in the plainest way: [Intn(n)] is the
    next [Int63] modulo [n] and [Float64] is the next [Int63] over [2^63].
    It is one implementation of the class; the theorems of Part II hold for
    every implementation. *)
Definition plainRand : RandOps :=
  {| Rand := Source;
     rand_New := fun s => s;
     rand_Seed := Source_Seed;
     rand_Intn := fun r n => let x := Source_Int63 r in (fst x mod n, snd x);
     rand_Float64 :=
       fun r => let x := Source_Int63 r in (Qmake (fst x) (2 ^ 63), snd x);
     rand_Int63 := Source_Int63 |}.

(** ** Specification predicates *)

(** The invariant of a block: the padding is not negative and the logical
    length is an [int]. *)
Definition block_inv (b : block) : Prop :=
  0 <= padding b /\ len (data b) + padding b <= max_int.

(** The blocks that [generateLubyTransformBlock] is to XOR together: those
    at the indices inside the source slice, in the order of the indices. *)
Definition selected_blocks (source : list block) (indices : list Z)
  : list block :=
  flat_map (fun i => match idx source i with
                     | Some b => [b]
                     | None => []
                     end) indices.

(** An index list as [addEquation] expects it: strictly ascending, with
    all elements in [0, L). *)
Definition sorted_indices (L : Z) (l : list Z) : Prop :=
  StronglySorted Z.lt l /\ Forall (fun x => 0 <= x < L) l.

(** Row [i] of a triangular matrix: empty, or led by [i]. *)
Definition row_ok (L i : Z) (row : list Z) : Prop :=
  row = [] \/ (idx row 0 = Some i /\ sorted_indices L row).

(** The invariant of the sparse matrix with [L] rows. *)
Definition matrix_inv (L : Z) (m : sparseMatrix) : Prop :=
  len (coeff m) = L /\ len (v m) = L /\
  forall i row, idx (coeff m) i = Some row -> row_ok L i row.

(** Row [i] holds an equation. *)
Definition occupied (m : sparseMatrix) (i : Z) : bool :=
  match idx (coeff m) i with
  | Some (_ :: _) => true
  | _ => false
  end.

Definition member (j : Z) (l : list Z) : bool := existsb (Z.eqb j) l.

(** Column [j] of the GF(2) sum of the rows selected by [sel]; the first
    row of [rows] has the number [i]. *)
Fixpoint combination (sel : Z -> bool) (i : Z) (rows : list (list Z)) (j : Z)
  : bool :=
  match rows with
  | [] => false
  | r :: rows' => xorb (sel i && member j r) (combination sel (i + 1) rows' j)
  end.

(** An equation is redundant when its index set is the GF(2) sum of some
    of the rows of the matrix. *)
Definition redundant (m : sparseMatrix) (components : list Z) : Prop :=
  exists sel, forall j, member j components = combination sel 0 (coeff m) j.

(** What the loop of [addEquation] leaves: no equation, or one whose
    leading index names an empty row. *)
Definition loop_done (m : sparseMatrix) (components : list Z) : Prop :=
  match components with
  | [] => True
  | s :: _ => idx (coeff m) s = Some []
  end.

(** The rows from number [i] on are triangular: each is empty, or led by
    its number and made of indices that are not below it. *)
Fixpoint triangular (i : Z) (rows : list (list Z)) : Prop :=
  match rows with
  | [] => True
  | r :: rows' =>
      (r = [] \/ (idx r 0 = Some i /\ Forall (Z.le i) r)) /\
      triangular (i + 1) rows'
  end.

(** The measure that decreases along the loop of [addEquation]: the
    leading index goes up, and a swap is followed by a reduction. *)
Definition loop_measure (L : Z) (m : sparseMatrix) (components : list Z) : Z :=
  match components with
  | [] => 0
  | s :: _ =>
      match idx (coeff m) s with
      | Some (r :: row) =>
          2 * (L - s) + (if len components <? len (r :: row) then 1 else 0)
      | _ => 0
      end
  end.

(** Modelled from the spec: the table [smallPrimes] that backs [isPrime]
    and [smallestPrimeGreaterOrEqual] is declared in a file that is not at
    hand; it is taken to be the primes below 100, in ascending order. *)
Definition smallPrimes_model : list Z :=
  [2; 3; 5; 7; 11; 13; 17; 19; 23; 29; 31; 37; 41; 43; 47; 53; 59; 61; 67;
   71; 73; 79; 83; 89; 97].

(** The binomial coefficient, by Pascal's rule. *)
Fixpoint binomial (n k : nat) : Z :=
  match n, k with
  | _, O => 1
  | O, S _ => 0
  | S n', S k' => binomial n' k' + binomial n' k
  end.

(** An array of float64 in ascending order, and in strictly ascending
    order. *)
Definition ascending (cdf : list float64) : Prop := StronglySorted Qle cdf.

Definition strictly_ascending (cdf : list float64) : Prop :=
  StronglySorted Qlt cdf.

(** [ceil (a / b)] on the integers, for [b > 0]. *)
Definition ceil_div (a b : Z) : Z := - ((- a) / b).

(** Byte [k] of a block as the XOR operations read it: the data, followed
    by zeros without end. *)
Definition byte_at (b : block) (k : nat) : Z := nth k (data b) 0.

(** Byte [k] of the source block with the number [i]. *)
Definition source_byte (X : list block) (i : Z) (k : nat) : Z :=
  match idx X i with
  | Some b => byte_at b k
  | None => 0
  end.

(** Byte [k] of the XOR of the source blocks with the numbers
    [indices]. *)
Definition xor_sum (X : list block) (indices : list Z) (k : nat) : Z :=
  fold_right (fun i acc => Z.lxor (source_byte X i k) acc) 0 indices.

(** The equation [(indices, b)] is true of the source blocks [X]. *)
Definition equation_holds (X : list block) (indices : list Z) (b : block)
  : Prop :=
  forall k, byte_at b k = xor_sum X indices k.

(** The data of [b] is as long as the data of every source block that the
    equation names. *)
Definition covers (X : list block) (indices : list Z) (b : block) : Prop :=
  Forall (fun t => forall x, idx X t = Some x -> len (data x) <= len (data b))
         indices.

(** Every row of the matrix is a true equation of the source blocks [X],
    with data long enough for the blocks it names. *)
Definition rows_hold (X : list block) (m : sparseMatrix) : Prop :=
  forall i row b,
    idx (coeff m) i = Some row -> idx (v m) i = Some b ->
    equation_holds X row b /\ covers X row b.

(** All bytes of a byte slice are in [0, 256). *)
Definition bytes_ok (l : list Z) : Prop := Forall (fun x => 0 <= x < 256) l.

(** The block [b] reads as the block [x], byte by byte, and has at least
    as many data bytes. *)
Definition agrees (b x : block) : Prop :=
  (forall k, byte_at b k = byte_at x k) /\ len (data x) <= len (data b).

(** The value column [vs] while [reduce] runs over the rows [cf]: the
    value of row [t] is the XOR of the source blocks that the row names
    below [bound t]. *)
Definition reduced_to (X : list block) (cf : list (list Z)) (bound : Z -> Z)
    (vs : list block) : Prop :=
  len vs = len cf /\
  forall t row,
    idx cf t = Some row ->
    exists vb,
      idx vs t = Some vb /\
      (forall k, byte_at vb k =
                 xor_sum X (filter (fun u => u <? bound t) row) k) /\
      covers X row vb.

(** The rows of the matrix and their values are related by [Q]. *)
Definition rows_rel (Q : list Z -> block -> Prop) (m : sparseMatrix) : Prop :=
  forall i row b,
    idx (coeff m) i = Some row -> idx (v m) i = Some b -> Q row b.

(** The value column [vs] while [reduce] runs over the rows [cf]: the
    part of row [t] below [bound t] is related to the value of the row. *)
Definition reduced_rel (Q : list Z -> block -> Prop) (cf : list (list Z))
    (bound : Z -> Z) (vs : list block) : Prop :=
  len vs = len cf /\
  forall t row,
    idx cf t = Some row ->
    exists vb,
      idx vs t = Some vb /\ Q (filter (fun u => u <? bound t) row) vb.

(** The index list [row] is the GF(2) sum of some of the index lists
    [E]. *)
Definition in_span (E : list (list Z)) (row : list Z) : Prop :=
  exists sel, forall j, member j row = combination sel 0 E j.

(** An equation of a decoder that starts from the equations [E] with the
    value zero: the index list is strictly ascending, the equation is true
    of the blocks [X], and the value has [n] bytes of data unless the index
    list is a sum of equations of [E]. *)
Definition full_equation (X : list block) (n : Z) (E : list (list Z))
    (row : list Z) (b : block) : Prop :=
  StronglySorted Z.lt row /\ equation_holds X row b /\
  (n <= len (data b) \/ in_span E row).

(** What the encoder and the decoder know of an auxiliary block after the
    source blocks below [bound]: the block [a] is the XOR of the source
    blocks of its composition [cj], which is strictly ascending. *)
Definition aux_entry_ok (source : list block) (n bound : Z) (a : block)
    (cj : list Z) : Prop :=
  (forall k, byte_at a k = xor_sum source cj k) /\
  len (data a) <= n /\
  StronglySorted Z.lt cj /\ Forall (fun x => 0 <= x < bound) cj.

(** The number of ones among the [n] low binary digits of [x]. *)
Fixpoint popcount (n : nat) (x : Z) : Z :=
  match n with
  | O => 0
  | S n' => x mod 2 + popcount n' (x / 2)
  end.

(** The number with the base-256 digits [bs], the lowest first. *)
Fixpoint of_bytes (bs : list Z) : Z :=
  match bs with
  | [] => 0
  | b :: bs' => b + 256 * of_bytes bs'
  end.

(** The [n] low base-256 digits of [x]. *)
Fixpoint to_bytes (n : nat) (x : Z) : list Z :=
  match n with
  | O => []
  | S n' => x mod 256 :: to_bytes n' (x / 256)
  end.

(** The sum of a list of integers. *)
Definition sumZ (l : list Z) : Z := fold_right Z.add 0 l.

(** The table lists the primes up to its last entry, in ascending
    order. *)
Definition prime_table (table : list Z) : Prop :=
  StronglySorted Z.lt table /\
  forall q, In q table <-> (Z.prime q /\ q <= last table 0).

(** Trial division by every number from 2 up to [x - 1]. *)
Definition prime_check (x : Z) : bool :=
  (2 <=? x)
  && forallb (fun d => negb (x mod d =? 0)) (seqZ 2 (Z.to_nat (x - 2))).

(** The invariant of a twister: the array has its length, the index
    points into it and the words are [uint32] (or [uint64]). *)
Definition MersenneTwister_ok (t : MersenneTwister) : Prop :=
  length (mt t) = 624%nat /\ 0 <= index t < 624 /\
  Forall (fun x => 0 <= x < 2 ^ 32) (mt t).

Definition MersenneTwister64_ok (t : MersenneTwister64) : Prop :=
  length (mt64 t) = 312%nat /\ 0 <= index64 t < 312 /\
  Forall (fun x => 0 <= x < 2 ^ 64) (mt64 t).

(** The value of [b] after [n] rounds of [b = (b + a) % lprime], the step
    of the index walk of the Raptor codes. *)
Definition walk (lprime a b : Z) (n : nat) : Z :=
  (b + Z.of_nat n * a) mod lprime.

(** The walk stands on an index below [l] after [n] rounds. *)
Definition walk_good (l lprime a b : Z) (n : nat) : bool :=
  walk lprime a b n <? l.

(** The rounds, within one period, at which the walk stands on an index
    below [l]. *)
Definition walk_stops (l lprime a b : Z) : list nat :=
  filter (walk_good l lprime a b) (seq 0 (Z.to_nat lprime)).

(** The rows of a determined triangular matrix: row [t] is strictly
    ascending and led by [t]. *)
Definition rows_led (cf : list (list Z)) : Prop :=
  forall t row,
    idx cf t = Some row -> idx row 0 = Some t /\ StronglySorted Z.lt row.

(* ================================================================== *)
(** * Part II: properties *)
(* ================================================================== *)

(** ** Integers and slices *)

Lemma wrap64_small : forall z, - 2 ^ 63 <= z <= max_int -> wrap64 z = z.
Proof.
  intros z Hz. unfold wrap64, max_int in *.
  rewrite Z.mod_small by lia. lia.
Qed.

Lemma len_nonneg : forall (A : Type) (s : list A), 0 <= len s.
Proof. intros. unfold len. lia. Qed.

Lemma len_app : forall (A : Type) (s t : list A), len (s ++ t) = len s + len t.
Proof. intros. unfold len. rewrite length_app. lia. Qed.

Lemma len_cons : forall (A : Type) (x : A) (s : list A), len (x :: s) = len s + 1.
Proof. intros. unfold len. simpl length. lia. Qed.

Lemma len_repeat : forall (A : Type) (x : A) (n : nat), len (repeat x n) = Z.of_nat n.
Proof. intros. unfold len. now rewrite repeat_length. Qed.

Lemma idx_Some_range :
  forall (A : Type) (s : list A) (i : Z) (x : A),
    idx s i = Some x -> 0 <= i < len s.
Proof.
  intros A s i x H. unfold idx in H.
  destruct (i <? 0) eqn:E; [discriminate|].
  apply Z.ltb_ge in E.
  assert (Hn : (Z.to_nat i < length s)%nat)
    by (apply nth_error_Some; congruence).
  unfold len. lia.
Qed.

Lemma idx_in_range :
  forall (A : Type) (s : list A) (i : Z),
    0 <= i < len s -> exists x, idx s i = Some x.
Proof.
  intros A s i H. unfold idx, len in *.
  destruct (i <? 0) eqn:E; [apply Z.ltb_lt in E; lia|].
  destruct (nth_error s (Z.to_nat i)) eqn:N; [eauto|].
  apply nth_error_None in N. lia.
Qed.

Lemma idx_out_of_range :
  forall (A : Type) (s : list A) (i : Z), len s <= i -> idx s i = None.
Proof.
  intros A s i H. unfold idx, len in *.
  destruct (i <? 0) eqn:E; [reflexivity|].
  apply nth_error_None. lia.
Qed.

Lemma list_set_length :
  forall (A : Type) (s : list A) (n : nat) (x : A),
    length (list_set s n x) = length s.
Proof.
  induction s as [|h t IH]; intros [|n] x; simpl; auto.
Qed.

Lemma list_set_nth_same :
  forall (A : Type) (s : list A) (n : nat) (x : A),
    (n < length s)%nat -> nth_error (list_set s n x) n = Some x.
Proof.
  induction s as [|h t IH]; intros [|n] x H; simpl in *; try lia; auto.
  apply IH. lia.
Qed.

Lemma list_set_nth_other :
  forall (A : Type) (s : list A) (n k : nat) (x : A),
    n <> k -> nth_error (list_set s n x) k = nth_error s k.
Proof.
  induction s as [|h t IH]; intros [|n] [|k] x H; simpl; auto; try congruence.
Qed.

Lemma upd_in_range :
  forall (A : Type) (s : list A) (i : Z) (x : A),
    0 <= i < len s -> upd s i x = Some (list_set s (Z.to_nat i) x).
Proof.
  intros A s i x H. unfold upd.
  destruct (0 <=? i) eqn:E1; [|apply Z.leb_gt in E1; lia].
  destruct (i <? len s) eqn:E2; [|apply Z.ltb_ge in E2; lia].
  reflexivity.
Qed.

Lemma upd_Some :
  forall (A : Type) (s s' : list A) (i : Z) (x : A),
    upd s i x = Some s' ->
    0 <= i < len s /\ s' = list_set s (Z.to_nat i) x.
Proof.
  intros A s s' i x H. unfold upd in H.
  destruct (0 <=? i) eqn:E1; [|discriminate].
  destruct (i <? len s) eqn:E2; [|discriminate].
  apply Z.leb_le in E1. apply Z.ltb_lt in E2.
  simpl in H. inversion H. auto.
Qed.

Lemma upd_len :
  forall (A : Type) (s s' : list A) (i : Z) (x : A),
    upd s i x = Some s' -> len s' = len s.
Proof.
  intros A s s' i x H. apply upd_Some in H. destruct H as [_ ->].
  unfold len. now rewrite list_set_length.
Qed.

Lemma idx_upd_same :
  forall (A : Type) (s s' : list A) (i : Z) (x : A),
    upd s i x = Some s' -> idx s' i = Some x.
Proof.
  intros A s s' i x H. apply upd_Some in H. destruct H as [Hr ->].
  unfold idx. destruct (i <? 0) eqn:E; [apply Z.ltb_lt in E; lia|].
  apply list_set_nth_same. unfold len in Hr. lia.
Qed.

Lemma idx_upd_other :
  forall (A : Type) (s s' : list A) (i j : Z) (x : A),
    upd s i x = Some s' -> i <> j -> idx s' j = idx s j.
Proof.
  intros A s s' i j x H Hij. apply upd_Some in H. destruct H as [Hr ->].
  unfold idx. destruct (j <? 0) eqn:E; [reflexivity|].
  apply Z.ltb_ge in E.
  apply list_set_nth_other. lia.
Qed.

(** ** Blocks *)

Lemma xor_bytes_length :
  forall src dst, (length src <= length dst)%nat ->
    length (xor_bytes dst src) = length dst.
Proof.
  induction src as [|s src IH]; intros dst H.
  - destruct dst; reflexivity.
  - destruct dst as [|d dst]; simpl in *; [lia|].
    rewrite IH by lia. reflexivity.
Qed.

Lemma block_xor_data_len :
  forall b a, len (data (block_xor b a)) = Z.max (len (data b)) (len (data a)).
Proof.
  intros b a. unfold block_xor.
  destruct (len (data b) <? len (data a)) eqn:E.
  - apply Z.ltb_lt in E. cbn [data].
    unfold len in *. rewrite xor_bytes_length.
    + rewrite length_app, repeat_length. lia.
    + rewrite length_app, repeat_length. lia.
  - apply Z.ltb_ge in E. cbn [data]. unfold len in *.
    rewrite xor_bytes_length by lia. lia.
Qed.

Lemma block_xor_padding :
  forall b a,
    padding (block_xor b a) =
    if len (data b) <? len (data a)
    then (if len (data a) - len (data b) <? padding b
          then padding b - (len (data a) - len (data b)) else 0)
    else padding b.
Proof.
  intros b a. unfold block_xor.
  destruct (len (data b) <? len (data a)); reflexivity.
Qed.

(** C4, as stated, fails: the padding of the source block counts in its
    logical length but not in the growth of the destination. *)
Lemma block_xor_length_counterexample :
  block_length (block_xor (mkBlock [] 0) (mkBlock [1] 5))
  < Z.max (block_length (mkBlock [] 0)) (block_length (mkBlock [1] 5)).
Proof. vm_compute. reflexivity. Qed.

(** C4 (amended): for blocks [a] and [b] that satisfy the block invariant,
    after [a.xor(b)] the logical length of [a] is at least the maximum of
    its length before the call and of the number of data bytes of [b], and
    the number of data bytes of [a] is the maximum of the two data
    lengths. *)
Theorem block_xor_length :
  forall a b : block,
    block_inv a -> block_inv b ->
    block_length (block_xor a b) >= Z.max (block_length a) (len (data b)) /\
    len (data (block_xor a b)) = Z.max (len (data a)) (len (data b)).
Proof.
  intros a b [Ha1 Ha2] [Hb1 Hb2].
  split; [|apply block_xor_data_len].
  unfold block_length.
  rewrite block_xor_data_len, block_xor_padding.
  pose proof (len_nonneg _ (data a)) as La.
  pose proof (len_nonneg _ (data b)) as Lb.
  assert (Hm : max_int = 2 ^ 63 - 1) by reflexivity.
  rewrite (wrap64_small (len (data a) + padding a)) by lia.
  destruct (len (data a) <? len (data b)) eqn:E.
  - apply Z.ltb_lt in E.
    destruct (len (data b) - len (data a) <? padding a) eqn:E2.
    + apply Z.ltb_lt in E2. rewrite wrap64_small by lia. lia.
    + apply Z.ltb_ge in E2. rewrite wrap64_small by lia. lia.
  - apply Z.ltb_ge in E. rewrite wrap64_small by lia. lia.
Qed.

Lemma block_xor_length_witness :
  block_inv (mkBlock [1] 4) /\
  block_inv (mkBlock [0; 1; 0; 2; 3; 7] 0) /\
  block_length (block_xor (mkBlock [1] 4) (mkBlock [0; 1; 0; 2; 3; 7] 0))
  >= Z.max (block_length (mkBlock [1] 4))
           (len (data (mkBlock [0; 1; 0; 2; 3; 7] 0))) /\
  len (data (block_xor (mkBlock [1] 4) (mkBlock [0; 1; 0; 2; 3; 7] 0)))
  = Z.max (len (data (mkBlock [1] 4)))
          (len (data (mkBlock [0; 1; 0; 2; 3; 7] 0))).
Proof.
  assert (Ha : block_inv (mkBlock [1] 4))
    by (unfold block_inv; vm_compute; split; discriminate).
  assert (Hb : block_inv (mkBlock [0; 1; 0; 2; 3; 7] 0))
    by (unfold block_inv; vm_compute; split; discriminate).
  split; [exact Ha|]. split; [exact Hb|].
  exact (block_xor_length _ _ Ha Hb).
Defined.

(** ** The degree function of the Raptor code *)

Lemma deg_cases :
  forall v : Z,
    deg v =
    if v <? 10241 then 1
    else if v <? 491582 then 2
    else if v <? 712794 then 3
    else if v <? 831695 then 4
    else if v <? 948446 then 10
    else if v <? 1032189 then 11
    else 40.
Proof.
  intro v. unfold deg. cbv -[Z.ltb].
  repeat (match goal with |- context [?a <? ?b] => destruct (a <? b) end);
    reflexivity.
Qed.

(** C9: for every [uint32] input [v], [deg v] is one of 1, 2, 3, 4, 10, 11
    and 40, it is never 0, and it is 40 from 1032189 on, the inputs from
    [2^20] on included. *)
Theorem deg_values :
  forall v : Z,
    0 <= v < 2 ^ 32 ->
    In (deg v) [1; 2; 3; 4; 10; 11; 40] /\
    deg v <> 0 /\
    (1032189 <= v -> deg v = 40).
Proof.
  intros v Hv. rewrite deg_cases.
  destruct (v <? 10241) eqn:E1; [apply Z.ltb_lt in E1; cbn; intuition lia|].
  destruct (v <? 491582) eqn:E2; [apply Z.ltb_lt in E2; cbn; intuition lia|].
  destruct (v <? 712794) eqn:E3; [apply Z.ltb_lt in E3; cbn; intuition lia|].
  destruct (v <? 831695) eqn:E4; [apply Z.ltb_lt in E4; cbn; intuition lia|].
  destruct (v <? 948446) eqn:E5; [apply Z.ltb_lt in E5; cbn; intuition lia|].
  destruct (v <? 1032189) eqn:E6; [apply Z.ltb_lt in E6; cbn; intuition lia|].
  cbn. intuition lia.
Qed.

Lemma deg_values_witness :
  0 <= 1048576 < 2 ^ 32 /\
  In (deg 1048576) [1; 2; 3; 4; 10; 11; 40] /\
  deg 1048576 <> 0 /\
  (1032189 <= 1048576 -> deg 1048576 = 40).
Proof.
  assert (H : 0 <= 1048576 < 2 ^ 32) by (split; [discriminate | reflexivity]).
  split; [exact H|]. exact (deg_values 1048576 H).
Defined.

(** ** Outcomes *)

Lemma bind_Ok_inv :
  forall (A B : Type) (x : outcome A) (k : A -> outcome B) (b : B),
    bind x k = Ok b -> exists a, x = Ok a /\ k a = Ok b.
Proof.
  intros A B [a| |] k b H; simpl in H; try discriminate. eauto.
Qed.

Lemma of_option_Ok_inv :
  forall (A : Type) (o : option A) (a : A), of_option o = Ok a -> o = Some a.
Proof.
  intros A [x|] a H; simpl in H; [congruence|discriminate].
Qed.

Ltac bind_inv H :=
  let a := fresh "a" in
  let Ha := fresh "Ha" in
  apply bind_Ok_inv in H; destruct H as [a [Ha H]].

(** ** The Luby transform *)

Lemma xor_selected_spec :
  forall (source : list block) (indices : list Z) (symbol : block),
    Forall (fun i => 0 <= i) indices ->
    xor_selected symbol source indices =
    Ok (fold_left block_xor (selected_blocks source indices) symbol).
Proof.
  intros source indices. induction indices as [|i rest IH]; intros symbol H.
  - reflexivity.
  - inversion H as [|? ? Hi Hrest]; subst. simpl.
    destruct (i <? len source) eqn:E.
    + apply Z.ltb_lt in E.
      destruct (idx_in_range _ source i (conj Hi E)) as [b Hb].
      rewrite Hb. simpl. rewrite IH by assumption. reflexivity.
    + apply Z.ltb_ge in E. rewrite (idx_out_of_range _ source i E).
      simpl. apply IH. assumption.
Qed.

Lemma selected_blocks_filter :
  forall (source : list block) (indices : list Z),
    selected_blocks source indices =
    selected_blocks source (filter (fun i => i <? len source) indices).
Proof.
  intros source indices. unfold selected_blocks.
  induction indices as [|i rest IH]; [reflexivity|].
  simpl. destruct (i <? len source) eqn:E.
  - simpl. now rewrite IH.
  - apply Z.ltb_ge in E. rewrite (idx_out_of_range _ source i E).
    simpl. exact IH.
Qed.

Lemma selected_blocks_in :
  forall (source : list block) (indices : list Z) (b : block),
    In b (selected_blocks source indices) ->
    exists i, In i indices /\ 0 <= i < len source /\ idx source i = Some b.
Proof.
  intros source indices b H. unfold selected_blocks in H.
  apply in_flat_map in H. destruct H as [i [Hi Hb]].
  destruct (idx source i) as [b'|] eqn:E; [|contradiction].
  destruct Hb as [->|[]]. exists i. split; [assumption|].
  split; [eapply idx_Some_range; eassumption | assumption].
Qed.

Lemma fold_xor_padding :
  forall (bs : list block) (symbol : block),
    padding symbol = 0 -> padding (fold_left block_xor bs symbol) = 0.
Proof.
  induction bs as [|b bs IH]; intros symbol H; [assumption|].
  simpl. apply IH. rewrite block_xor_padding, H.
  destruct (len (data symbol) <? len (data b)) eqn:E; [|reflexivity].
  apply Z.ltb_lt in E.
  destruct (len (data b) - len (data symbol) <? 0) eqn:E2; [|reflexivity].
  apply Z.ltb_lt in E2. lia.
Qed.

Lemma fold_xor_data_len :
  forall (bs : list block) (symbol : block) (bound : Z),
    len (data symbol) <= bound ->
    Forall (fun b => len (data b) <= bound) bs ->
    len (data (fold_left block_xor bs symbol)) <= bound.
Proof.
  induction bs as [|b bs IH]; intros symbol bound H Hbs; [assumption|].
  inversion Hbs; subst. simpl. apply IH; [|assumption].
  rewrite block_xor_data_len. lia.
Qed.

Lemma copy_bytes_same_length :
  forall dst src : list Z, length dst = length src -> copy_bytes dst src = src.
Proof.
  intros dst src H. unfold copy_bytes.
  rewrite H, firstn_all, <- H, skipn_all. apply app_nil_r.
Qed.

Lemma selected_blocks_bound :
  forall (source : list block) (indices : list Z) (bound : Z),
    Forall (fun b => len (data b) <= bound) source ->
    Forall (fun b => len (data b) <= bound) (selected_blocks source indices).
Proof.
  intros source indices bound H. apply Forall_forall. intros b Hb.
  apply selected_blocks_in in Hb. destruct Hb as [i [_ [_ Hi]]].
  rewrite Forall_forall in H. apply H.
  unfold idx in Hi. destruct (i <? 0); [discriminate|].
  eapply nth_error_In; eassumption.
Qed.

Lemma encode_loop_spec :
  forall (c : Codec) (source : list block) (ids : list Z),
    Forall (fun b => len (data b) <= max_int) source ->
    (forall id, In id ids ->
       exists l, PickIndices c id = Ok l /\ Forall (fun i => 0 <= i) l) ->
    exists blocks,
      encode_loop c source ids = Ok blocks /\
      Forall2 (fun id blk =>
                 BlockCode blk = id /\
                 exists l, PickIndices c id = Ok l /\
                   Data blk =
                   data (fold_left block_xor (selected_blocks source l)
                                   (newBlock 0)))
              ids blocks.
Proof.
  intros c source ids Hsrc. induction ids as [|id rest IH]; intros Hpick.
  - exists []. split; [reflexivity|constructor].
  - destruct (Hpick id (or_introl eq_refl)) as [l [Hl Hnn]].
    destruct IH as [blocks [Hb HF]].
    { intros id' Hin. apply Hpick. now right. }
    simpl. rewrite Hl. simpl.
    unfold generateLubyTransformBlock. rewrite xor_selected_spec by assumption.
    simpl.
    set (b := fold_left block_xor (selected_blocks source l) (newBlock 0)).
    assert (Hp : padding b = 0) by (apply fold_xor_padding; reflexivity).
    assert (Hd : len (data b) <= max_int).
    { apply fold_xor_data_len; [vm_compute; discriminate|].
      apply selected_blocks_bound. assumption. }
    assert (Hlen : block_length b = len (data b)).
    { unfold block_length. rewrite Hp, Z.add_0_r.
      apply wrap64_small. pose proof (len_nonneg _ (data b)).
      unfold max_int in *. lia. }
    rewrite Hlen. unfold make_bytes.
    destruct (len (data b) <? 0) eqn:E.
    { apply Z.ltb_lt in E. pose proof (len_nonneg _ (data b)). lia. }
    simpl. rewrite Hb. simpl.
    eexists. split; [reflexivity|].
    constructor; [|assumption].
    split; [reflexivity|]. exists l. split; [assumption|].
    cbn [Data]. apply copy_bytes_same_length.
    rewrite repeat_length. unfold len. apply Nat2Z.id.
Qed.

(** C10, as stated, fails: a negative index passes the test
    [i < len(source)] and the access [source[i]] panics. *)
Lemma generateLubyTransformBlock_counterexample :
  generateLubyTransformBlock [mkBlock [1] 0] [-1] = Panic.
Proof. reflexivity. Qed.

(** C10 (amended): for every block slice and every list of non-negative
    indices, [generateLubyTransformBlock] returns the XOR of exactly the
    blocks at the indices [i < len(source)] and skips every index
    [i >= len(source)]; and [EncodeLTBlocks] returns one block per block
    code without an access out of bounds, whatever non-negative indices
    [PickIndices] returns, those beyond the intermediate blocks
    included. *)
Theorem generateLubyTransformBlock_in_bounds :
  (forall (source : list block) (indices : list Z),
     Forall (fun i => 0 <= i) indices ->
     generateLubyTransformBlock source indices =
       Ok (fold_left block_xor (selected_blocks source indices) (newBlock 0)) /\
     selected_blocks source indices =
       selected_blocks source (filter (fun i => i <? len source) indices) /\
     (forall b, In b (selected_blocks source indices) ->
        exists i, In i indices /\ 0 <= i < len source /\ idx source i = Some b))
  /\
  (forall (c : Codec) (message ids : list Z) (source : list block),
     GenerateIntermediateBlocks c message (SourceBlocks c) = Ok source ->
     Forall (fun b => len (data b) <= max_int) source ->
     (forall id, In id ids ->
        exists l, PickIndices c id = Ok l /\ Forall (fun i => 0 <= i) l) ->
     exists blocks,
       EncodeLTBlocks message ids c = Ok blocks /\
       Forall2 (fun id blk =>
                  BlockCode blk = id /\
                  exists l, PickIndices c id = Ok l /\
                    Data blk =
                    data (fold_left block_xor (selected_blocks source l)
                                    (newBlock 0)))
               ids blocks).
Proof.
  split.
  - intros source indices H. split; [|split].
    + unfold generateLubyTransformBlock. now apply xor_selected_spec.
    + apply selected_blocks_filter.
    + apply selected_blocks_in.
  - intros c message ids source Hgen Hsrc Hpick.
    unfold EncodeLTBlocks. rewrite Hgen. simpl.
    now apply encode_loop_spec.
Qed.

Lemma generateLubyTransformBlock_in_bounds_witness :
  Forall (fun i => 0 <= i) [0; 7; 1] /\
  generateLubyTransformBlock [mkBlock [1; 2] 0; mkBlock [4; 8] 0] [0; 7; 1] =
    Ok (mkBlock [5; 10] 0).
Proof.
  assert (H : Forall (fun i => 0 <= i) [0; 7; 1])
    by (repeat constructor; discriminate).
  split; [exact H|].
  exact (proj1 (proj1 generateLubyTransformBlock_in_bounds
                  [mkBlock [1; 2] 0; mkBlock [4; 8] 0] [0; 7; 1] H)).
Defined.

(** ** Decoders *)

Section DecodeNil.

Variable smallPrimes : list Z.
Variable v0table v1table : list Z.
Variable systematicIndextable : list Z.
Variable f64_log : float64 -> float64.

Lemma lift_nil_inv :
  forall (B C : Type) (f : B -> C) (x : outcome (option (list Z) * B)) (c : C),
    lift f x = Ok (None, c) -> exists b, x = Ok (None, b) /\ c = f b.
Proof.
  intros B C f x c H. unfold lift in H. bind_inv H.
  destruct a as [o b]. simpl in H. inversion H; subst. eauto.
Qed.

Lemma binaryDecoder_Decode_nil :
  forall d d',
    binaryDecoder_Decode d = Ok (None, d') ->
    determined (bd_matrix d) = false /\ d' = d.
Proof.
  intros d d' H. unfold binaryDecoder_Decode in H.
  destruct (determined (bd_matrix d)); simpl in H.
  - bind_inv H. discriminate.
  - inversion H. auto.
Qed.

Lemma lubyDecoder_Decode_nil :
  forall d d',
    lubyDecoder_Decode d = Ok (None, d') ->
    determined (ld_matrix d) = false /\ d' = d.
Proof.
  intros d d' H. unfold lubyDecoder_Decode in H.
  destruct (determined (ld_matrix d)); simpl in H.
  - bind_inv H. discriminate.
  - inversion H. auto.
Qed.

Lemma onlineDecoder_Decode_nil :
  forall d d',
    onlineDecoder_Decode d = Ok (None, d') ->
    determined (od_matrix d) = false /\ d' = d.
Proof.
  intros d d' H. unfold onlineDecoder_Decode in H.
  destruct (determined (od_matrix d)); simpl in H.
  - bind_inv H. discriminate.
  - inversion H. auto.
Qed.

Lemma raptorDecoder_Decode_nil :
  forall fuel d d',
    raptorDecoder_Decode smallPrimes v0table v1table systematicIndextable
      f64_log fuel d = Ok (None, d') ->
    determined (rd_matrix d) = false /\ d' = d.
Proof.
  intros fuel d d' H. unfold raptorDecoder_Decode in H.
  destruct (determined (rd_matrix d)); simpl in H.
  - bind_inv H.
    destruct (NumSourceSymbols (rd_codec d) <? 0); [discriminate|].
    bind_inv H. bind_inv H. destruct a1 as [[[lenLong lenShort] numLong] numShort].
    bind_inv H. discriminate.
  - inversion H. auto.
Qed.

Lemma ru10Decoder_Decode_nil :
  forall d d',
    ru10Decoder_Decode d = Ok (None, d') ->
    determined (rd_matrix (ru_decoder d)) = false /\ d' = d.
Proof.
  intros d d' H. unfold ru10Decoder_Decode in H.
  destruct (determined (rd_matrix (ru_decoder d))); simpl in H.
  - bind_inv H. bind_inv H.
    destruct a0 as [[[lenLong lenShort] numLong] numShort].
    bind_inv H. discriminate.
  - inversion H. auto.
Qed.

Lemma Decode_nil_inv :
  forall fuel d d',
    Decode smallPrimes v0table v1table systematicIndextable f64_log fuel d
      = Ok (None, d') ->
    determined (decoder_matrix d) = false /\ d' = d.
Proof.
  intros fuel d d' H. unfold Decode in H.
  destruct d as [d|d|d|d|d]; apply lift_nil_inv in H;
    destruct H as [b [H ->]]; cbn [decoder_matrix].
  - apply binaryDecoder_Decode_nil in H. destruct H as [H ->]. auto.
  - apply lubyDecoder_Decode_nil in H. destruct H as [H ->]. auto.
  - apply onlineDecoder_Decode_nil in H. destruct H as [H ->]. auto.
  - apply raptorDecoder_Decode_nil in H. destruct H as [H ->]. auto.
  - apply ru10Decoder_Decode_nil in H. destruct H as [H ->]. auto.
Qed.

Lemma Decode_undetermined :
  forall fuel d,
    determined (decoder_matrix d) = false ->
    Decode smallPrimes v0table v1table systematicIndextable f64_log fuel d
      = Ok (None, d).
Proof.
  intros fuel d H. unfold Decode.
  destruct d as [d|d|d|d|d]; cbn [decoder_matrix] in H;
    unfold binaryDecoder_Decode, lubyDecoder_Decode, onlineDecoder_Decode,
           raptorDecoder_Decode, ru10Decoder_Decode;
    rewrite H; reflexivity.
Qed.

(** C8: for every decoder of every codec variant, in every state,
    [Decode] returns the nil slice if and only if [determined] is false;
    and when it returns nil the decoder, its matrix included, is left as it
    was. *)
Theorem Decode_nil_iff_undetermined :
  forall (fuel : nat) (d : Decoder),
    ((exists d',
        Decode smallPrimes v0table v1table systematicIndextable f64_log
          fuel d = Ok (None, d')) <->
     determined (decoder_matrix d) = false) /\
    (forall d',
        Decode smallPrimes v0table v1table systematicIndextable f64_log
          fuel d = Ok (None, d') ->
        d' = d).
Proof.
  intros fuel d. split; [split|].
  - intros [d' H]. apply Decode_nil_inv in H. tauto.
  - intro H. exists d. now apply Decode_undetermined.
  - intros d' H. apply Decode_nil_inv in H. tauto.
Qed.

End DecodeNil.

(** ** float64: rounding *)

Lemma rne_quot_bounds :
  forall n d, 0 < d ->
    2 * n - d <= 2 * (rne_quot n d) * d <= 2 * n + d.
Proof.
  intros n d Hd. unfold rne_quot.
  pose proof (Z.div_mod n d ltac:(lia)) as Hdm.
  pose proof (Z.mod_pos_bound n d Hd) as Hr.
  set (q := n / d) in *. set (r := n mod d) in *.
  destruct (2 * r <? d) eqn:E1.
  - apply Z.ltb_lt in E1. nia.
  - apply Z.ltb_ge in E1. destruct (d <? 2 * r) eqn:E2.
    + apply Z.ltb_lt in E2. nia.
    + apply Z.ltb_ge in E2. destruct (Z.even q); nia.
Qed.

Lemma ilog2_ratio_lower :
  forall n d, 0 < n -> 0 < d ->
    (0 <= ilog2_ratio n d -> d * 2 ^ (ilog2_ratio n d) <= n) /\
    (ilog2_ratio n d < 0 -> d <= n * 2 ^ (- ilog2_ratio n d)).
Proof.
  intros n d Hn Hd. unfold ilog2_ratio.
  pose proof (Z.log2_spec n Hn) as [Hn1 Hn2].
  pose proof (Z.log2_spec d Hd) as [Hd1 Hd2].
  pose proof (Z.log2_nonneg n) as Ln.
  pose proof (Z.log2_nonneg d) as Ld.
  set (ln := Z.log2 n) in *. set (ld := Z.log2 d) in *.
  destruct (0 <=? ln - ld) eqn:E0.
  - apply Z.leb_le in E0.
    destruct (d * 2 ^ (ln - ld) <=? n) eqn:E1.
    + apply Z.leb_le in E1. split; [auto|lia].
    + apply Z.leb_gt in E1. split.
      * intro H.
        assert (Hp : 2 ^ ln = 2 ^ (ld + 1) * 2 ^ (ln - ld - 1))
          by (rewrite <- Z.pow_add_r by lia; f_equal; lia).
        assert (0 < 2 ^ (ln - ld - 1)) by (apply Z.pow_pos_nonneg; lia).
        unfold Z.succ in *. nia.
      * intro H. assert (ln - ld = 0) by lia.
        replace (- (ln - ld - 1)) with 1 by lia.
        replace ln with ld in * by lia. unfold Z.succ in *.
        rewrite Z.pow_add_r in Hd2 by lia. change (2 ^ 1) with 2 in *. lia.
  - apply Z.leb_gt in E0.
    destruct (d <=? n * 2 ^ (- (ln - ld))) eqn:E1.
    + apply Z.leb_le in E1. split; [lia|auto].
    + split; [lia|]. intros _.
      replace (- (ln - ld - 1)) with (ld + 1 - ln) by lia.
      assert (Hp : 2 ^ (ld + 1) = 2 ^ ln * 2 ^ (ld + 1 - ln))
        by (rewrite <- Z.pow_add_r by lia; f_equal; lia).
      assert (0 < 2 ^ (ld + 1 - ln)) by (apply Z.pow_pos_nonneg; lia).
      unfold Z.succ in *. nia.
Qed.

Lemma ilog2_ratio_one :
  forall n, 0 < n -> ilog2_ratio n 1 = Z.log2 n.
Proof.
  intros n Hn. unfold ilog2_ratio.
  change (Z.log2 1) with 0. rewrite Z.sub_0_r.
  pose proof (Z.log2_nonneg n) as Ln.
  pose proof (Z.log2_spec n Hn) as [Hn1 _].
  destruct (0 <=? Z.log2 n) eqn:E0; [|apply Z.leb_gt in E0; lia].
  destruct (1 * 2 ^ Z.log2 n <=? n) eqn:E1; [reflexivity|].
  apply Z.leb_gt in E1. lia.
Qed.

Lemma Qfloor_scale2 :
  forall m e, e <= 0 -> Qfloor (scale2 m e) = m / 2 ^ (- e).
Proof.
  intros m e He. unfold scale2.
  destruct (0 <=? e) eqn:E.
  - apply Z.leb_le in E. assert (e = 0) by lia. subst e.
    rewrite Qfloor_Z. change (2 ^ (- 0)) with 1. change (2 ^ 0) with 1.
    now rewrite Z.mul_1_r, Z.div_1_r.
  - apply Z.leb_gt in E. unfold Qfloor.
    rewrite Z2Pos.id by (apply Z.pow_pos_nonneg; lia). reflexivity.
Qed.

Lemma Qceiling_scale2 :
  forall m e, e <= 0 -> Qceiling (scale2 m e) = ceil_div m (2 ^ (- e)).
Proof.
  intros m e He. unfold Qceiling, ceil_div. f_equal.
  unfold scale2. destruct (0 <=? e) eqn:E.
  - apply Z.leb_le in E. assert (e = 0) by lia. subst e.
    change (2 ^ (- 0)) with 1. change (2 ^ 0) with 1.
    rewrite Z.mul_1_r, Z.div_1_r. unfold Qfloor, Qopp, inject_Z. simpl.
    now rewrite Z.div_1_r.
  - apply Z.leb_gt in E. unfold Qfloor, Qopp. simpl.
    rewrite Z2Pos.id by (apply Z.pow_pos_nonneg; lia). reflexivity.
Qed.

Lemma round53_pos_small_exp :
  forall n d,
    ilog2_ratio n d - 52 <= 0 ->
    round53_pos n d =
    scale2 (rne_quot (n * 2 ^ (- (ilog2_ratio n d - 52))) d)
           (ilog2_ratio n d - 52).
Proof.
  intros n d He. unfold round53_pos.
  destruct (0 <=? ilog2_ratio n d - 52) eqn:E; [|reflexivity].
  apply Z.leb_le in E.
  assert (H0 : ilog2_ratio n d - 52 = 0) by lia. rewrite H0.
  change (2 ^ (- 0)) with 1. change (2 ^ 0) with 1.
  now rewrite !Z.mul_1_r.
Qed.

(** An integer [m] within one half of [A * D / b] has the same quotient by
    [D] as [A] has by [b], when [b < 2 * D]. *)
Lemma near_quotient :
  forall m A b D,
    0 < b -> 0 < D -> b < 2 * D ->
    2 * A * D - b <= 2 * m * b <= 2 * A * D + b ->
    m / D = A / b.
Proof.
  intros m A b D Hb HD HbD [Hlo Hhi].
  pose proof (Z.div_mod A b ltac:(lia)) as Hdm.
  pose proof (Z.mod_pos_bound A b Hb) as Hr.
  set (q := A / b) in *. set (r := A mod b) in *.
  symmetry. apply Z.div_unique with (r := m - q * D); [|lia].
  left. split.
  - assert (2 * (q * D - 1) * b < 2 * m * b) by nia. nia.
  - assert (2 * m * b < 2 * ((q + 1) * D) * b) by nia. nia.
Qed.

Lemma rne_quot_one : forall n, rne_quot n 1 = n.
Proof.
  intro n. unfold rne_quot. rewrite Z.mod_1_r, Z.div_1_r. reflexivity.
Qed.

(** [float64(a)] is exact below [2^53]. *)
Lemma f64_of_int_small :
  forall a, 0 < a < 2 ^ 53 ->
    exists c, 0 < c /\ f64_of_int a = Qmake (a * c) (Z.to_pos c).
Proof.
  intros a [Ha1 Ha2]. unfold f64_of_int, round53, inject_Z. cbn [Qnum Qden].
  destruct a as [|pa|pa]; try lia.
  assert (Hl : Z.log2 (Z.pos pa) < 53) by (apply Z.log2_lt_pow2; lia).
  pose proof (Z.log2_nonneg (Z.pos pa)) as Hl0.
  assert (He : ilog2_ratio (Z.pos pa) 1 - 52 <= 0)
    by (rewrite ilog2_ratio_one by lia; lia).
  change (Z.pos 1) with 1.
  rewrite round53_pos_small_exp by assumption.
  rewrite rne_quot_one, ilog2_ratio_one by lia.
  set (e := Z.log2 (Z.pos pa) - 52) in *.
  unfold scale2. destruct (0 <=? e) eqn:E.
  - apply Z.leb_le in E.
    exists 1. split; [lia|]. replace e with 0 by lia. unfold inject_Z.
    change (2 ^ (- 0)) with 1. change (2 ^ 0) with 1.
    change (Z.to_pos 1) with 1%positive. f_equal. lia.
  - exists (2 ^ (- e)). split; [apply Z.pow_pos_nonneg; lia|reflexivity].
Qed.

Lemma round53_pos_quotient :
  forall C a b,
    0 < C -> 0 < a < 2 ^ 53 -> 0 < b < 2 ^ 53 ->
    Qfloor (round53_pos (C * a) (C * b)) = a / b /\
    Qceiling (round53_pos (C * a) (C * b)) = ceil_div a b.
Proof.
  intros C a b HC [Ha1 Ha2] [Hb1 Hb2].
  assert (Hn : 0 < C * a) by nia. assert (Hd : 0 < C * b) by nia.
  destruct (ilog2_ratio_lower _ _ Hn Hd) as [Hlo1 Hlo2].
  set (fl := ilog2_ratio (C * a) (C * b)) in *.
  assert (Hfl : fl <= 52).
  { destruct (Z_le_gt_dec fl 52) as [|Hgt]; [assumption|exfalso].
    assert (H1 : C * b * 2 ^ fl <= C * a) by (apply Hlo1; lia).
    assert (H2 : 2 ^ 53 <= 2 ^ fl) by (apply Z.pow_le_mono_r; lia).
    assert (H3 : b * 2 ^ fl <= a) by nia. nia. }
  assert (He : fl - 52 <= 0) by lia.
  rewrite round53_pos_small_exp by assumption. fold fl.
  set (D := 2 ^ (- (fl - 52))).
  assert (HD : 0 < D) by (apply Z.pow_pos_nonneg; lia).
  assert (HbD : b < 2 * D).
  { unfold D. destruct (Z_le_gt_dec 0 fl) as [Hge|Hlt].
    - assert (H1 : C * b * 2 ^ fl <= C * a) by (apply Hlo1; lia).
      assert (H3 : b * 2 ^ fl <= a) by nia.
      assert (H4 : 2 ^ 53 = 2 ^ fl * (2 * 2 ^ (- (fl - 52)))).
      { replace (2 * 2 ^ (- (fl - 52))) with (2 ^ (1 + - (fl - 52)))
          by (rewrite Z.pow_add_r by lia; reflexivity).
        rewrite <- Z.pow_add_r by lia. f_equal. lia. }
      assert (0 < 2 ^ fl) by (apply Z.pow_pos_nonneg; lia). nia.
    - assert (H2 : 2 ^ 52 <= 2 ^ (- (fl - 52)))
        by (apply Z.pow_le_mono_r; lia).
      lia. }
  pose proof (rne_quot_bounds (C * a * D) (C * b) Hd) as Hm.
  set (m := rne_quot (C * a * D) (C * b)) in *.
  split.
  - rewrite Qfloor_scale2 by assumption. fold D.
    apply near_quotient; try assumption. nia.
  - rewrite Qceiling_scale2 by assumption. fold D.
    unfold ceil_div. f_equal.
    apply near_quotient; try assumption. nia.
Qed.

(** The quotient of two converted integers below [2^53] has the floor and
    the ceiling of the exact quotient. *)
Lemma f64_div_ints :
  forall a b,
    0 <= a < 2 ^ 53 -> 0 < b < 2 ^ 53 ->
    Qfloor (f64_div (f64_of_int a) (f64_of_int b)) = a / b /\
    Qceiling (f64_div (f64_of_int a) (f64_of_int b)) = ceil_div a b.
Proof.
  intros a b Ha Hb.
  destruct (f64_of_int_small b Hb) as [cb [Hcb ->]].
  assert (Hbc : 0 < b * cb) by nia.
  destruct (Z.eq_dec a 0) as [->|Hne].
  - unfold ceil_div. change (- 0) with 0. rewrite Z.div_0_l by lia.
    destruct (b * cb) as [|p|p] eqn:Ep; try lia. split; reflexivity.
  - destruct (f64_of_int_small a ltac:(lia)) as [ca [Hca ->]].
    unfold f64_div, Qdiv, Qinv. cbn [Qnum Qden].
    destruct (b * cb) as [|p|p] eqn:Ep; try lia.
    unfold Qmult, round53. cbn [Qnum Qden].
    rewrite (Z2Pos.id cb Hcb).
    assert (Hn : 0 < a * ca * cb) by nia.
    destruct (a * ca * cb) as [|pn|pn] eqn:En; try lia.
    rewrite <- En. rewrite Pos2Z.inj_mul, <- Ep, !Z2Pos.id by lia.
    replace (a * ca * cb) with (ca * cb * a) by ring.
    replace (ca * (b * cb)) with (ca * cb * b) by ring.
    apply round53_pos_quotient; nia.
Qed.

(** [float64(b)] is an integer not below [2^53] when [b] is not. *)
Lemma f64_of_int_large :
  forall b, 2 ^ 53 <= b ->
    exists B, 2 ^ 53 <= B /\ f64_of_int b = inject_Z B.
Proof.
  intros b Hb. unfold f64_of_int, round53, inject_Z. cbn [Qnum Qden].
  assert (H53 : 2 ^ 53 = 9007199254740992) by reflexivity.
  destruct b as [|pb|pb]; try lia.
  change (Z.pos 1) with 1. unfold round53_pos.
  rewrite ilog2_ratio_one by lia.
  assert (Hl : 53 <= Z.log2 (Z.pos pb)) by (apply Z.log2_le_pow2; lia).
  pose proof (Z.log2_spec (Z.pos pb) ltac:(lia)) as [Hlo _].
  set (e := Z.log2 (Z.pos pb) - 52) in *.
  destruct (0 <=? e) eqn:E; [|apply Z.leb_gt in E; lia].
  unfold scale2. rewrite E. rewrite Z.mul_1_l.
  assert (Hpe : 0 < 2 ^ e) by (apply Z.pow_pos_nonneg; lia).
  pose proof (rne_quot_bounds (Z.pos pb) (2 ^ e) Hpe) as Hm.
  set (m := rne_quot (Z.pos pb) (2 ^ e)) in *.
  assert (Hsplit : 2 ^ Z.log2 (Z.pos pb) = 2 ^ 52 * 2 ^ e).
  { rewrite <- Z.pow_add_r by lia. f_equal. lia. }
  assert (H52 : 2 ^ 52 = 4503599627370496) by reflexivity.
  assert (Hm52 : 2 ^ 52 <= m) by nia.
  assert (He2 : 2 <= 2 ^ e).
  { change 2 with (2 ^ 1) at 1. apply Z.pow_le_mono_r; lia. }
  exists (m * 2 ^ e). split; [nia|reflexivity].
Qed.

Lemma round53_pos_small_ratio :
  forall C a B,
    0 < C -> 0 < a < 2 ^ 53 -> 2 ^ 53 <= B ->
    Qfloor (round53_pos (C * a) (C * B)) = 0 /\
    Qceiling (round53_pos (C * a) (C * B)) = 1.
Proof.
  intros C a B HC [Ha1 Ha2] HB.
  assert (Hn : 0 < C * a) by nia. assert (Hd : 0 < C * B) by nia.
  destruct (ilog2_ratio_lower _ _ Hn Hd) as [Hlo1 Hlo2].
  set (fl := ilog2_ratio (C * a) (C * B)) in *.
  assert (Hfl : fl < 0).
  { destruct (Z_lt_ge_dec fl 0) as [|Hge]; [assumption|exfalso].
    assert (H1 : C * B * 2 ^ fl <= C * a) by (apply Hlo1; lia).
    assert (H2 : 0 < 2 ^ fl) by (apply Z.pow_pos_nonneg; lia).
    nia. }
  specialize (Hlo2 Hfl).
  assert (He : fl - 52 <= 0) by lia.
  rewrite round53_pos_small_exp by assumption. fold fl.
  assert (HD : 2 ^ (- (fl - 52)) = 2 ^ 53 * 2 ^ (- fl - 1)).
  { rewrite <- Z.pow_add_r by lia. f_equal. lia. }
  assert (HD2 : 2 ^ (- (fl - 52)) = 2 ^ 52 * 2 ^ (- fl)).
  { rewrite <- Z.pow_add_r by lia. f_equal. lia. }
  assert (Hk : 0 < 2 ^ (- fl - 1)) by (apply Z.pow_pos_nonneg; lia).
  set (D := 2 ^ (- (fl - 52))) in *.
  set (Dk := 2 ^ (- fl - 1)) in *.
  assert (H53 : 2 ^ 53 = 9007199254740992) by reflexivity.
  assert (H52 : 2 ^ 52 = 4503599627370496) by reflexivity.
  pose proof (rne_quot_bounds (C * a * D) (C * B) Hd) as Hm.
  set (m := rne_quot (C * a * D) (C * B)) in *.
  assert (Hlow : C * B * 2 ^ 52 <= C * a * D).
  { rewrite HD2. nia. }
  assert (Hup : C * a * D <= C * B * D - C * B).
  { rewrite HD. assert (a * 2 ^ 53 <= (2 ^ 53 - 1) * B) by nia.
    assert (C * a * 2 ^ 53 * Dk <= (2 ^ 53 - 1) * (C * B) * Dk) by nia.
    nia. }
  assert (Hm0 : 0 < m) by nia.
  assert (HmD : m < D) by nia.
  split.
  - rewrite Qfloor_scale2 by assumption. fold D. apply Z.div_small. lia.
  - rewrite Qceiling_scale2 by assumption. fold D. unfold ceil_div.
    assert (Hq : (- m) / D = -1).
    { symmetry. apply Z.div_unique with (r := D - m); lia. }
    lia.
Qed.

(** The quotient of two converted integers, the dividend below [2^53],
    has the floor and the ceiling of the exact quotient. *)
Lemma f64_div_int_by_int :
  forall a b,
    0 <= a < 2 ^ 53 -> 0 < b ->
    Qfloor (f64_div (f64_of_int a) (f64_of_int b)) = a / b /\
    Qceiling (f64_div (f64_of_int a) (f64_of_int b)) = ceil_div a b.
Proof.
  intros a b Ha Hb.
  destruct (Z_lt_ge_dec b (2 ^ 53)) as [Hlt|Hge];
    [apply f64_div_ints; lia|].
  destruct (f64_of_int_large b ltac:(lia)) as [B [HB ->]].
  assert (H53 : 2 ^ 53 = 9007199254740992) by reflexivity.
  rewrite (Z.div_small a b) by lia.
  destruct (Z.eq_dec a 0) as [->|Hne].
  - unfold ceil_div. change (- 0) with 0. rewrite Z.div_0_l by lia.
    unfold inject_Z. destruct B as [|p|p]; try lia. split; reflexivity.
  - assert (Hc : ceil_div a b = 1).
    { unfold ceil_div.
      assert (Hq : (- a) / b = -1)
        by (symmetry; apply Z.div_unique with (r := b - a); lia).
      lia. }
    rewrite Hc.
    destruct (f64_of_int_small a ltac:(lia)) as [ca [Hca ->]].
    unfold f64_div, Qdiv, Qinv, inject_Z. cbn [Qnum Qden].
    destruct B as [|p|p] eqn:EB; try lia.
    unfold Qmult, round53. cbn [Qnum Qden].
    rewrite Z.mul_1_r.
    assert (Hn : 0 < a * ca) by nia.
    destruct (a * ca) as [|pn|pn] eqn:En; try lia.
    rewrite <- En. rewrite Pos2Z.inj_mul, Z2Pos.id by lia.
    replace (a * ca) with (ca * a) by ring.
    apply round53_pos_small_ratio; lia.
Qed.

Lemma int_of_f64_inject : forall z, int_of_f64 (inject_Z z) = z.
Proof.
  intro z. unfold int_of_f64, inject_Z. cbn [Qnum Qden]. apply Z.quot_1_r.
Qed.

(** ** Partitioning *)

(** C5, as stated, fails for sizes that float64 does not hold exactly:
    [float64(2^53 + 1)] is [2^53], so with one piece the length of the
    long block comes out as [2^53], one byte short of the total. *)
Lemma partition_counterexample :
  partition 9007199254740993 1 = Ok (9007199254740992, 0, 1, 0) /\
  ceil_div 9007199254740993 1 = 9007199254740993 /\
  1 * 9007199254740992 + 0 * 0 <> 9007199254740993.
Proof. vm_compute. repeat split; discriminate. Qed.

(** C5 (amended): for [0 <= total < 2^53] and every [int] [p > 0],
    [partition total p] returns [(lenLong, lenShort, numLong, numShort)]
    with [numLong = total - floor(total/p) * p], [numShort = p - numLong],
    [lenLong = ceil(total/p)] unless [numLong = 0], where it is 0, and
    [lenShort = floor(total/p)] unless [numShort = 0], where it is 0; they
    satisfy [numLong * lenLong + numShort * lenShort = total] and
    [numLong + numShort = p]. *)
Theorem partition_spec :
  forall total p : Z,
    0 <= total < 2 ^ 53 -> 0 < p <= max_int ->
    exists lenLong lenShort numLong numShort,
      partition total p = Ok (lenLong, lenShort, numLong, numShort) /\
      numLong = total - (total / p) * p /\
      numShort = p - numLong /\
      lenLong = (if numLong =? 0 then 0 else ceil_div total p) /\
      lenShort = (if numShort =? 0 then 0 else total / p) /\
      numLong * lenLong + numShort * lenShort = total /\
      numLong + numShort = p.
Proof.
  intros total p Ht Hp.
  destruct (f64_div_int_by_int total p Ht ltac:(lia)) as [Hfl Hce].
  unfold partition.
  destruct (p =? 0) eqn:E0; [apply Z.eqb_eq in E0; lia|].
  unfold f64_floor, f64_ceil. rewrite !int_of_f64_inject, Hfl, Hce.
  pose proof (Z.div_mod total p ltac:(lia)) as Hdm.
  pose proof (Z.mod_pos_bound total p ltac:(lia)) as Hr.
  assert (Hq : 0 <= total / p) by (apply Z.div_pos; lia).
  assert (Hqp : total / p * p <= total) by nia.
  assert (H53 : 2 ^ 53 = 9007199254740992) by reflexivity.
  assert (Hmax : max_int = 9223372036854775807) by reflexivity.
  assert (H63 : 2 ^ 63 = 9223372036854775808) by reflexivity.
  rewrite (wrap64_small (total / p * p)) by lia.
  rewrite (wrap64_small (total - total / p * p)) by lia.
  rewrite (wrap64_small (p - (total - total / p * p))) by lia.
  do 4 eexists. split; [reflexivity|].
  split; [reflexivity|]. split; [reflexivity|].
  split; [reflexivity|]. split; [reflexivity|].
  split; [|lia].
  destruct (total - total / p * p =? 0) eqn:E1.
  - apply Z.eqb_eq in E1.
    destruct (p - (total - total / p * p) =? 0) eqn:E2.
    + apply Z.eqb_eq in E2. lia.
    + nia.
  - apply Z.eqb_neq in E1.
    destruct (p - (total - total / p * p) =? 0) eqn:E2.
    + apply Z.eqb_eq in E2. lia.
    + assert (Hc : ceil_div total p = total / p + 1).
      { unfold ceil_div.
        assert (Hd : (- total) / p = - (total / p) - 1).
        { symmetry. apply Z.div_unique with (r := p - (total - total / p * p)).
          - left. lia.
          - lia. }
        lia. }
      rewrite Hc. nia.
Qed.

Lemma partition_spec_witness :
  partition 100 9 = Ok (12, 11, 1, 8) /\
  partition 100 10 = Ok (0, 10, 0, 10) /\
  partition 100 11 = Ok (10, 9, 1, 10).
Proof.
  assert (H100 : 0 <= 100 < 2 ^ 53) by (split; [discriminate|reflexivity]).
  assert (H9 : 0 < 9 <= max_int) by (split; [reflexivity|discriminate]).
  assert (H10 : 0 < 10 <= max_int) by (split; [reflexivity|discriminate]).
  assert (H11 : 0 < 11 <= max_int) by (split; [reflexivity|discriminate]).
  destruct (partition_spec 100 9 H100 H9)
    as [a1 [b1 [c1 [d1 [E1 [-> [-> [-> [-> _]]]]]]]]].
  destruct (partition_spec 100 10 H100 H10)
    as [a2 [b2 [c2 [d2 [E2 [-> [-> [-> [-> _]]]]]]]]].
  destruct (partition_spec 100 11 H100 H11)
    as [a3 [b3 [c3 [d3 [E3 [-> [-> [-> [-> _]]]]]]]]].
  repeat split; assumption.
Defined.

(** ** Index lists *)

Lemma idx_cons_0 : forall (A : Type) (x : A) (l : list A), idx (x :: l) 0 = Some x.
Proof. reflexivity. Qed.

Lemma idx_cons_pos :
  forall (A : Type) (x : A) (l : list A) (i : Z),
    0 < i -> idx (x :: l) i = idx l (i - 1).
Proof.
  intros A x l i Hi. unfold idx.
  destruct (i <? 0) eqn:E1; [apply Z.ltb_lt in E1; lia|].
  destruct (i - 1 <? 0) eqn:E2; [apply Z.ltb_lt in E2; lia|].
  replace (Z.to_nat i) with (S (Z.to_nat (i - 1))) by lia. reflexivity.
Qed.

Lemma xor_indices_nil_r : forall a, xor_indices a [] = a.
Proof. destruct a; reflexivity. Qed.

Lemma xor_indices_Forall :
  forall (P : Z -> Prop) a b,
    Forall P a -> Forall P b -> Forall P (xor_indices a b).
Proof.
  intros P a. induction a as [|c cs IHa]; intros b Ha Hb; [exact Hb|].
  inversion Ha as [|? ? Hc Hcs]; subst.
  induction b as [|x xs IHb]; [exact Ha|].
  inversion Hb as [|? ? Hx Hxs]; subst. simpl.
  destruct (c =? x); [now apply IHa|].
  destruct (c <? x).
  - constructor; [assumption|]. now apply IHa.
  - constructor; [assumption|]. now apply IHb.
Qed.

Lemma sorted_tail_gt :
  forall x l, StronglySorted Z.lt (x :: l) -> Forall (Z.lt x) l.
Proof. intros x l H. now inversion H. Qed.

Lemma Forall_lt_trans :
  forall x y l, x < y -> Forall (Z.lt y) l -> Forall (Z.lt x) l.
Proof.
  intros x y l Hxy H. eapply Forall_impl; [|exact H].
  intros z Hz. simpl in Hz. lia.
Qed.

Lemma xor_indices_sorted :
  forall a b,
    StronglySorted Z.lt a -> StronglySorted Z.lt b ->
    StronglySorted Z.lt (xor_indices a b).
Proof.
  intro a. induction a as [|c cs IHa]; intros b Ha Hb; [exact Hb|].
  inversion Ha as [|? ? Hcs Hc]; subst.
  induction b as [|x xs IHb]; [exact Ha|].
  inversion Hb as [|? ? Hxs Hx]; subst. simpl.
  destruct (c =? x) eqn:E1; [now apply IHa|].
  apply Z.eqb_neq in E1.
  destruct (c <? x) eqn:E2.
  - apply Z.ltb_lt in E2. constructor; [now apply IHa|].
    apply xor_indices_Forall; [assumption|].
    constructor; [assumption|]. eapply Forall_lt_trans; eassumption.
  - apply Z.ltb_ge in E2. constructor; [now apply IHb|].
    change (Forall (Z.lt x) (xor_indices (c :: cs) xs)).
    apply xor_indices_Forall; [|assumption].
    constructor; [lia|]. eapply Forall_lt_trans; [|eassumption]. lia.
Qed.

Lemma member_cons :
  forall j x l, member j (x :: l) = (j =? x) || member j l.
Proof. reflexivity. Qed.

Lemma member_In : forall j l, member j l = true <-> In j l.
Proof.
  intros j l. unfold member. rewrite existsb_exists. split.
  - intros [x [Hx E]]. apply Z.eqb_eq in E. now subst.
  - intro H. exists j. split; [assumption|apply Z.eqb_refl].
Qed.

Lemma member_above :
  forall j l, Forall (Z.lt j) l -> member j l = false.
Proof.
  intros j l H. destruct (member j l) eqn:E; [|reflexivity].
  apply member_In in E. rewrite Forall_forall in H. apply H in E. lia.
Qed.

Lemma member_at_least :
  forall j x l, Forall (Z.le x) l -> j < x -> member j l = false.
Proof.
  intros j x l H Hj. destruct (member j l) eqn:E; [|reflexivity].
  apply member_In in E. rewrite Forall_forall in H. apply H in E. lia.
Qed.

(** The merge walk computes the symmetric difference. *)
Lemma xor_indices_member :
  forall a b j,
    StronglySorted Z.lt a -> StronglySorted Z.lt b ->
    member j (xor_indices a b) = xorb (member j a) (member j b).
Proof.
  intro a. induction a as [|c cs IHa]; intros b j Ha Hb; [reflexivity|].
  inversion Ha as [|? ? Hcs Hc]; subst.
  induction b as [|x xs IHb].
  - rewrite xor_indices_nil_r. now rewrite xorb_false_r.
  - inversion Hb as [|? ? Hxs Hx]; subst. simpl xor_indices.
    destruct (c =? x) eqn:E1.
    + apply Z.eqb_eq in E1. subst x. rewrite IHa by assumption.
      rewrite !member_cons. destruct (j =? c) eqn:Ej.
      * apply Z.eqb_eq in Ej. subst j.
        now rewrite (member_above c cs), (member_above c xs) by assumption.
      * reflexivity.
    + apply Z.eqb_neq in E1. destruct (c <? x) eqn:E2.
      * apply Z.ltb_lt in E2. rewrite member_cons, IHa by assumption.
        rewrite (member_cons j c cs). destruct (j =? c) eqn:Ej; [|reflexivity].
        apply Z.eqb_eq in Ej. subst j.
        assert (Hm : member c (x :: xs) = false).
        { apply member_above. constructor; [assumption|].
          eapply Forall_lt_trans; eassumption. }
        now rewrite !orb_true_l, Hm.
      * apply Z.ltb_ge in E2.
        change (member j (x :: xor_indices (c :: cs) xs) =
                xorb (member j (c :: cs)) (member j (x :: xs))).
        rewrite member_cons, IHb by assumption.
        rewrite (member_cons j x xs). destruct (j =? x) eqn:Ej.
        -- apply Z.eqb_eq in Ej. subst j.
           assert (Hm : member x (c :: cs) = false).
           { apply member_above. constructor; [lia|].
             eapply Forall_lt_trans; [|eassumption]. lia. }
           now rewrite !orb_true_l, Hm.
        -- reflexivity.
Qed.

Lemma sorted_indices_xor :
  forall L a b,
    sorted_indices L a -> sorted_indices L b ->
    sorted_indices L (xor_indices a b).
Proof.
  intros L a b [Ha1 Ha2] [Hb1 Hb2]. split.
  - now apply xor_indices_sorted.
  - now apply xor_indices_Forall.
Qed.

(** Two sorted lists with the same head: the walk drops it, and what is
    left lies above it. *)
Lemma xor_indices_same_head :
  forall s a b,
    StronglySorted Z.lt (s :: a) -> StronglySorted Z.lt (s :: b) ->
    xor_indices (s :: a) (s :: b) = xor_indices a b /\
    Forall (Z.lt s) (xor_indices a b).
Proof.
  intros s a b Ha Hb. simpl. rewrite Z.eqb_refl. split; [reflexivity|].
  apply xor_indices_Forall; now apply sorted_tail_gt.
Qed.

(** ** GF(2) combinations of rows *)

Lemma combination_ext :
  forall rows sel sel' i j,
    (forall t, i <= t -> sel t = sel' t) ->
    combination sel i rows j = combination sel' i rows j.
Proof.
  induction rows as [|r rows IH]; intros sel sel' i j H; [reflexivity|].
  simpl. rewrite (H i) by lia. f_equal. apply IH. intros t Ht. apply H. lia.
Qed.

Lemma combination_flip :
  forall rows sel i s row j,
    i <= s -> idx rows (s - i) = Some row ->
    combination (fun t => if t =? s then negb (sel t) else sel t) i rows j =
    xorb (member j row) (combination sel i rows j).
Proof.
  induction rows as [|r rows IH]; intros sel i s row j Hi Hrow.
  - unfold idx in Hrow. destruct (s - i <? 0); [discriminate|].
    destruct (Z.to_nat (s - i)); discriminate.
  - simpl. destruct (Z.eq_dec s i) as [->|Hne].
    + rewrite Z.sub_diag, idx_cons_0 in Hrow. inversion Hrow; subst.
      rewrite Z.eqb_refl.
      rewrite (combination_ext rows _ sel (i + 1) j).
      * destruct (sel i), (member j row), (combination sel (i + 1) rows j);
          reflexivity.
      * intros t Ht. destruct (t =? i) eqn:E; [|reflexivity].
        apply Z.eqb_eq in E. lia.
    + rewrite idx_cons_pos in Hrow by lia.
      replace (s - i - 1) with (s - (i + 1)) in Hrow by lia.
      rewrite (IH sel (i + 1) s row j) by (assumption || lia).
      destruct (i =? s) eqn:E; [apply Z.eqb_eq in E; lia|].
      destruct (sel i && member j r), (member j row),
        (combination sel (i + 1) rows j); reflexivity.
Qed.

Lemma combination_set_row :
  forall rows sel i s old new j,
    i <= s -> idx rows (s - i) = Some old ->
    combination sel i (list_set rows (Z.to_nat (s - i)) new) j =
    xorb (sel s && xorb (member j new) (member j old))
         (combination sel i rows j).
Proof.
  induction rows as [|r rows IH]; intros sel i s old new j Hi Hrow.
  - unfold idx in Hrow. destruct (s - i <? 0); [discriminate|].
    destruct (Z.to_nat (s - i)); discriminate.
  - destruct (Z.eq_dec s i) as [->|Hne].
    + rewrite Z.sub_diag in *. rewrite idx_cons_0 in Hrow.
      inversion Hrow; subst. simpl.
      destruct (sel i), (member j new), (member j old),
        (combination sel (i + 1) rows j); reflexivity.
    + rewrite idx_cons_pos in Hrow by lia.
      replace (s - i - 1) with (s - (i + 1)) in Hrow by lia.
      replace (Z.to_nat (s - i)) with (S (Z.to_nat (s - (i + 1)))) by lia.
      simpl. rewrite (IH sel (i + 1) s old new j) by (assumption || lia).
      destruct (sel i && member j r),
        (sel s && xorb (member j new) (member j old)),
        (combination sel (i + 1) rows j); reflexivity.
Qed.

Lemma combination_below :
  forall rows sel i j,
    triangular i rows -> j < i -> combination sel i rows j = false.
Proof.
  induction rows as [|r rows IH]; intros sel i j Ht Hj; [reflexivity|].
  destruct Ht as [Hr Ht]. simpl.
  rewrite (IH sel (i + 1) j) by (assumption || lia).
  assert (Hm : member j r = false).
  { destruct Hr as [->|[_ Hr]]; [reflexivity|].
    eapply member_at_least; eassumption. }
  rewrite Hm. now rewrite andb_false_r.
Qed.

(** The least column of a combination of triangular rows is the number of
    a selected, occupied row. *)
Lemma combination_least :
  forall rows sel i s,
    triangular i rows -> i <= s ->
    (forall j, j < s -> combination sel i rows j = false) ->
    combination sel i rows s = true ->
    sel s = true /\ exists row, idx rows (s - i) = Some row /\ row <> [].
Proof.
  induction rows as [|r rows IH]; intros sel i s Ht Hi Hlow Hs.
  - discriminate.
  - destruct Ht as [Hr Ht]. simpl in Hs.
    destruct (Z.eq_dec s i) as [->|Hne].
    + rewrite (combination_below rows sel (i + 1) i) in Hs by (assumption || lia).
      rewrite xorb_false_r in Hs. apply andb_true_iff in Hs.
      destruct Hs as [Hsel Hm]. split; [assumption|].
      exists r. rewrite Z.sub_diag. split; [reflexivity|].
      intros ->. discriminate.
    + assert (Hz : sel i && member i r = false).
      { specialize (Hlow i ltac:(lia)). simpl in Hlow.
        rewrite (combination_below rows sel (i + 1) i) in Hlow
          by (assumption || lia).
        now rewrite xorb_false_r in Hlow. }
      assert (Hall : forall j, sel i && member j r = false).
      { intro j. destruct (sel i); [|reflexivity]. simpl in *.
        destruct Hr as [->|[Hhd _]]; [reflexivity|].
        destruct r as [|x r']; [reflexivity|].
        rewrite idx_cons_0 in Hhd. inversion Hhd; subst.
        rewrite member_cons, Z.eqb_refl in Hz. discriminate. }
      rewrite Hall, xorb_false_l in Hs.
      destruct (IH sel (i + 1) s Ht ltac:(lia)) as [Hsel [row [Hrow Hne']]].
      * intros j Hj. specialize (Hlow j Hj). simpl in Hlow.
        now rewrite Hall, xorb_false_l in Hlow.
      * assumption.
      * split; [assumption|]. exists row. split; [|assumption].
        rewrite idx_cons_pos by lia.
        now replace (s - i - 1) with (s - (i + 1)) by lia.
Qed.

Lemma sorted_head_le :
  forall x l, StronglySorted Z.lt (x :: l) -> Forall (Z.le x) (x :: l).
Proof.
  intros x l H. constructor; [lia|].
  apply sorted_tail_gt in H. eapply Forall_impl; [|exact H].
  intros z Hz. simpl in Hz. lia.
Qed.

Lemma triangular_of_rows :
  forall L rows i,
    (forall t row, idx rows t = Some row -> row_ok L (i + t) row) ->
    triangular i rows.
Proof.
  intros L rows. induction rows as [|r rows IH]; intros i H; [exact I|].
  split.
  - specialize (H 0 r (idx_cons_0 _ r rows)). rewrite Z.add_0_r in H.
    destruct H as [->|[Hhd [Hs _]]]; [now left|right].
    split; [assumption|].
    destruct r as [|x r']; [constructor|].
    rewrite idx_cons_0 in Hhd. inversion Hhd; subst.
    now apply sorted_head_le.
  - apply IH. intros t row Ht.
    assert (Hr : 0 <= t) by (apply idx_Some_range in Ht; lia).
    replace (i + 1 + t) with (i + (t + 1)) by lia. apply H.
    rewrite idx_cons_pos by lia. now replace (t + 1 - 1) with t by lia.
Qed.

Lemma matrix_inv_triangular :
  forall L m, matrix_inv L m -> triangular 0 (coeff m).
Proof.
  intros L m [_ [_ H]]. apply (triangular_of_rows L). intros t row Ht.
  rewrite Z.add_0_l. now apply H.
Qed.

(** A redundant equation that is not empty leads with an occupied row. *)
Lemma redundant_head_occupied :
  forall L m s tl,
    matrix_inv L m -> sorted_indices L (s :: tl) -> redundant m (s :: tl) ->
    exists sel,
      (forall j, member j (s :: tl) = combination sel 0 (coeff m) j) /\
      sel s = true /\
      exists row, idx (coeff m) s = Some row /\ row <> [].
Proof.
  intros L m s tl Hinv [Hsort Hrange] [sel Hsel].
  inversion Hrange as [|? ? Hs0 _]; subst.
  exists sel. split; [assumption|].
  destruct (combination_least (coeff m) sel 0 s) as [H1 [row [H2 H3]]].
  - eapply matrix_inv_triangular; eassumption.
  - lia.
  - intros j Hj. rewrite <- Hsel.
    eapply member_at_least; [apply sorted_head_le; eassumption|assumption].
  - rewrite <- Hsel, member_cons, Z.eqb_refl. reflexivity.
  - rewrite Z.sub_0_r in H2. eauto.
Qed.

Lemma redundant_xor :
  forall L m s row components,
    matrix_inv L m -> idx (coeff m) s = Some row -> row <> [] ->
    sorted_indices L components -> redundant m components ->
    redundant m (xor_indices row components).
Proof.
  intros L m s row components Hinv Hrow Hne [Hsort _] [sel Hsel].
  assert (Hrs : StronglySorted Z.lt row).
  { destruct Hinv as [_ [_ H]]. destruct (H s row Hrow) as [->|[_ [Hs _]]];
      [constructor|assumption]. }
  assert (Hs0 : 0 <= s) by (apply idx_Some_range in Hrow; lia).
  exists (fun t => if t =? s then negb (sel t) else sel t). intro j.
  rewrite xor_indices_member by assumption.
  rewrite (combination_flip (coeff m) sel 0 s row j); try lia.
  - now rewrite Hsel.
  - now rewrite Z.sub_0_r.
Qed.

Lemma redundant_swap :
  forall L m s rtl tl coeff' v',
    matrix_inv L m -> idx (coeff m) s = Some (s :: rtl) ->
    sorted_indices L (s :: tl) -> redundant m (s :: tl) ->
    upd (coeff m) s (s :: tl) = Some coeff' ->
    redundant {| coeff := coeff'; v := v' |} (s :: rtl).
Proof.
  intros L m s rtl tl coeff' v' Hinv Hrow Hsort Hred Hupd.
  destruct (redundant_head_occupied L m s tl Hinv Hsort Hred)
    as [sel [Hsel [Hs _]]].
  apply upd_Some in Hupd. destruct Hupd as [Hr ->].
  exists sel. intro j. cbn [coeff].
  replace (Z.to_nat s) with (Z.to_nat (s - 0)) by (f_equal; lia).
  rewrite (combination_set_row (coeff m) sel 0 s (s :: rtl) (s :: tl) j);
    [|lia|now rewrite Z.sub_0_r].
  rewrite Hs, <- Hsel. cbn [andb].
  destruct (member j (s :: tl)), (member j (s :: rtl)); reflexivity.
Qed.

(** ** The loop of [addEquation] *)

Lemma addEquation_loop_unfold :
  forall fuel m components b,
    addEquation_loop fuel m components b =
    match components with
    | [] => Ok (m, components, b)
    | s :: _ =>
        row <- of_option (idx (coeff m) s) ;;
        match row with
        | [] => Ok (m, components, b)
        | _ :: _ =>
            match fuel with
            | O => Timeout
            | S fuel' =>
                if len row <=? len components then
                  r <- xorRow m s components b ;;
                  addEquation_loop fuel' m (fst r) (snd r)
                else
                  coeff' <- of_option (upd (coeff m) s components) ;;
                  vs <- of_option (idx (v m) s) ;;
                  v' <- of_option (upd (v m) s b) ;;
                  addEquation_loop fuel' {| coeff := coeff'; v := v' |} row vs
            end
        end
    end.
Proof. intros [|fuel] m components b; reflexivity. Qed.

Lemma sorted_indices_head :
  forall L s tl, sorted_indices L (s :: tl) -> 0 <= s < L.
Proof. intros L s tl [_ H]. now inversion H. Qed.

Lemma sorted_indices_tail :
  forall L s tl, sorted_indices L (s :: tl) -> sorted_indices L tl.
Proof.
  intros L s tl [H1 H2]. inversion H1; inversion H2; subst. now split.
Qed.

Lemma matrix_inv_set_row :
  forall L m s row b coeff' v',
    matrix_inv L m -> row_ok L s row ->
    upd (coeff m) s row = Some coeff' -> upd (v m) s b = Some v' ->
    matrix_inv L {| coeff := coeff'; v := v' |}.
Proof.
  intros L m s row b coeff' v' [Hc [Hv Hrows]] Hrow Hu1 Hu2.
  split; [|split]; cbn [coeff v].
  - rewrite (upd_len _ _ _ _ _ Hu1). assumption.
  - rewrite (upd_len _ _ _ _ _ Hu2). assumption.
  - intros i r Hi. destruct (Z.eq_dec s i) as [->|Hne].
    + rewrite (idx_upd_same _ _ _ _ _ Hu1) in Hi. inversion Hi; subst.
      assumption.
    + rewrite (idx_upd_other _ _ _ _ _ _ Hu1 Hne) in Hi. now apply Hrows.
Qed.

Lemma occupied_set_row :
  forall m s row coeff' v',
    upd (coeff m) s row = Some coeff' ->
    row <> [] -> occupied m s = true ->
    forall i, occupied {| coeff := coeff'; v := v' |} i = occupied m i.
Proof.
  intros m s row coeff' v' Hu Hne Hocc i. unfold occupied in *. cbn [coeff].
  destruct (Z.eq_dec s i) as [->|Hni].
  - rewrite (idx_upd_same _ _ _ _ _ Hu), Hocc.
    destruct row; [contradiction|reflexivity].
  - now rewrite (idx_upd_other _ _ _ _ _ _ Hu Hni).
Qed.

Lemma loop_measure_bound :
  forall L m components,
    0 <= L -> sorted_indices L components ->
    0 <= loop_measure L m components <= 2 * L + 1.
Proof.
  intros L m [|s tl] HL Hs; unfold loop_measure; [lia|].
  apply sorted_indices_head in Hs.
  destruct (idx (coeff m) s) as [[|r row]|]; try lia.
  destruct (len (s :: tl) <? len (r :: row)); lia.
Qed.

Lemma addEquation_loop_ok :
  forall L fuel m components b,
    matrix_inv L m -> sorted_indices L components ->
    loop_measure L m components <= Z.of_nat fuel ->
    exists m1 c1 b1,
      addEquation_loop fuel m components b = Ok (m1, c1, b1) /\
      matrix_inv L m1 /\ sorted_indices L c1 /\ loop_done m1 c1 /\
      (forall i, occupied m1 i = occupied m i) /\
      (redundant m components -> redundant m1 c1).
Proof.
  intros L fuel. induction fuel as [|f IH]; intros m components b Hinv Hs Hmu;
    rewrite addEquation_loop_unfold;
    (destruct components as [|s tl];
     [exists m, [], b; split; [reflexivity|]; split; [assumption|];
      split; [assumption|]; split; [exact I|]; split; [reflexivity|auto]|]);
    pose proof (sorted_indices_head _ _ _ Hs) as Hs0;
    pose proof Hinv as [Hc [Hv Hrows]];
    (destruct (idx_in_range _ (coeff m) s ltac:(lia)) as [row Hrow]);
    rewrite Hrow; cbn [of_option bind];
    (destruct row as [|r0 rtl];
     [exists m, (s :: tl), b; split; [reflexivity|]; split; [assumption|];
      split; [assumption|]; split; [exact Hrow|]; split; [reflexivity|auto]|]);
    unfold loop_measure in Hmu; rewrite Hrow in Hmu.
  - (* no fuel: the measure is at least 2 *)
    exfalso. destruct (len (s :: tl) <? len (r0 :: rtl)); lia.
  - destruct (Hrows s _ Hrow) as [Habs|[Hhd Hrs]]; [discriminate|].
    rewrite idx_cons_0 in Hhd. inversion Hhd; subst r0.
    destruct (idx_in_range _ (v m) s ltac:(lia)) as [vs Hvs].
    destruct (len (s :: rtl) <=? len (s :: tl)) eqn:Ecmp.
    + (* reduce the incoming equation against row s *)
      apply Z.leb_le in Ecmp.
      assert (Ef : (len (s :: tl) <? len (s :: rtl)) = false)
        by (apply Z.ltb_ge; lia).
      rewrite Ef in Hmu.
      unfold xorRow. rewrite Hvs, Hrow. cbn [of_option bind fst snd].
      destruct (xor_indices_same_head s rtl tl (proj1 Hrs) (proj1 Hs))
        as [Exor Habove].
      rewrite Exor.
      assert (Hs' : sorted_indices L (xor_indices rtl tl)).
      { apply sorted_indices_xor; eapply sorted_indices_tail; eassumption. }
      destruct (IH m (xor_indices rtl tl) (block_xor b vs) Hinv Hs')
        as [m1 [c1 [b1 [E [H1 [H2 [H3 [H4 H5]]]]]]]].
      { unfold loop_measure.
        destruct (xor_indices rtl tl) as [|s' tl'] eqn:Ex; [lia|].
        inversion Habove as [|? ? Hlt _]; subst.
        pose proof (sorted_indices_head _ _ _ Hs') as Hs'0.
        destruct (idx (coeff m) s') as [[|r row]|]; try lia.
        destruct (len (s' :: tl') <? len (r :: row)); lia. }
      exists m1, c1, b1.
      split; [exact E|]. split; [exact H1|]. split; [exact H2|].
      split; [exact H3|]. split; [exact H4|].
      intro Hred. apply H5. rewrite <- Exor.
      apply (redundant_xor L m s); auto. discriminate.
    + (* swap the incoming equation with row s *)
      apply Z.leb_gt in Ecmp.
      assert (Ef : (len (s :: tl) <? len (s :: rtl)) = true)
        by (apply Z.ltb_lt; lia).
      rewrite Ef in Hmu.
      destruct (upd (coeff m) s (s :: tl)) as [coeff'|] eqn:Hu1;
        [|rewrite upd_in_range in Hu1 by lia; discriminate].
      destruct (upd (v m) s b) as [v'|] eqn:Hu2;
        [|rewrite upd_in_range in Hu2 by lia; discriminate].
      rewrite Hvs. cbn [of_option bind].
      assert (Hinv' : matrix_inv L {| coeff := coeff'; v := v' |}).
      { eapply matrix_inv_set_row; try eassumption.
        right. split; [reflexivity|assumption]. }
      destruct (IH {| coeff := coeff'; v := v' |} (s :: rtl) vs Hinv' Hrs)
        as [m1 [c1 [b1 [E [H1 [H2 [H3 [H4 H5]]]]]]]].
      { unfold loop_measure. cbn [coeff].
        rewrite (idx_upd_same _ _ _ _ _ Hu1).
        assert (Ef' : (len (s :: rtl) <? len (s :: tl)) = false)
          by (apply Z.ltb_ge; lia).
        rewrite Ef'. lia. }
      exists m1, c1, b1.
      split; [exact E|]. split; [exact H1|]. split; [exact H2|].
      split; [exact H3|]. split.
      * intro i. rewrite H4.
        apply (occupied_set_row m s (s :: tl)); auto; [discriminate|].
        unfold occupied. now rewrite Hrow.
      * intro Hred. apply H5.
        exact (redundant_swap L m s rtl tl coeff' v' Hinv Hrow Hs Hred Hu1).
Qed.

Lemma newSparseMatrix_inv :
  forall L, 0 <= L -> matrix_inv L (newSparseMatrix L).
Proof.
  intros L HL. unfold newSparseMatrix. split; [|split]; cbn [coeff v].
  - rewrite len_repeat. lia.
  - rewrite len_repeat. lia.
  - intros i row H. left. unfold idx in H.
    destruct (i <? 0); [discriminate|].
    apply nth_error_In in H. eapply repeat_spec. eassumption.
Qed.

Lemma addEquation_ok :
  forall L fuel m components b,
    matrix_inv L m -> sorted_indices L components ->
    2 * L + 1 <= Z.of_nat fuel ->
    exists m1 c1 b1 m',
      addEquation_loop fuel m components b = Ok (m1, c1, b1) /\
      addEquation fuel m components b = Ok m' /\
      matrix_inv L m' /\
      (redundant m components ->
       c1 = [] /\ forall i, occupied m' i = occupied m i).
Proof.
  intros L fuel m components b Hinv Hs Hfuel.
  assert (HL : 0 <= L).
  { destruct Hinv as [Hc _]. rewrite <- Hc. apply len_nonneg. }
  destruct (addEquation_loop_ok L fuel m components b Hinv Hs)
    as [m1 [c1 [b1 [E [H1 [H2 [H3 [H4 H5]]]]]]]].
  { pose proof (loop_measure_bound L m components HL Hs). lia. }
  exists m1, c1, b1. unfold addEquation. rewrite E. cbn [bind].
  destruct c1 as [|s1 tl1].
  - exists m1. split; [reflexivity|]. split; [reflexivity|].
    split; [assumption|]. intros _. split; [reflexivity|assumption].
  - pose proof (sorted_indices_head _ _ _ H2) as Hs1.
    pose proof H1 as [Hc1 [Hv1 _]].
    destruct (upd (coeff m1) s1 (s1 :: tl1)) as [coeff'|] eqn:Hu1;
      [|rewrite upd_in_range in Hu1 by lia; discriminate].
    destruct (upd (v m1) s1 b1) as [v'|] eqn:Hu2;
      [|rewrite upd_in_range in Hu2 by lia; discriminate].
    cbn [of_option bind].
    exists {| coeff := coeff'; v := v' |}.
    split; [reflexivity|]. split; [reflexivity|]. split.
    + eapply matrix_inv_set_row; try eassumption.
      right. split; [reflexivity|assumption].
    + intro Hred. exfalso.
      destruct (redundant_head_occupied L m1 s1 tl1 H1 H2 (H5 Hred))
        as [_ [_ [_ [row [Hrow Hne]]]]].
      unfold loop_done in H3. congruence.
Qed.

(** C2: after any sequence of [addEquation] calls on a sparse matrix with
    [L] rows, each with an index list that is strictly ascending with all
    elements in [0, L), every row [i] is empty or has [coeff[i][0] = i], and
    every row that is not empty is strictly ascending with all elements in
    [0, L).  The calls return: the fuel [2 * L + 1] is enough for each. *)
Theorem addEquations_triangular :
  forall (L : Z) (fuel : nat) (eqs : list (list Z * block)),
    0 <= L -> 2 * L + 1 <= Z.of_nat fuel ->
    Forall (fun e => sorted_indices L (fst e)) eqs ->
    exists m,
      addEquations fuel (newSparseMatrix L) eqs = Ok m /\
      len (coeff m) = L /\
      forall i row,
        idx (coeff m) i = Some row ->
        row = [] \/
        (idx row 0 = Some i /\ StronglySorted Z.lt row /\
         Forall (fun x => 0 <= x < L) row).
Proof.
  intros L fuel eqs HL Hfuel Heqs.
  assert (Hgen : forall m0, matrix_inv L m0 ->
            exists m, addEquations fuel m0 eqs = Ok m /\ matrix_inv L m).
  { induction Heqs as [|[components b] rest Hc _ IH]; intros m0 Hinv.
    - exists m0. split; [reflexivity|assumption].
    - cbn [fst] in Hc.
      destruct (addEquation_ok L fuel m0 components b Hinv Hc Hfuel)
        as [m1 [c1 [b1 [m' [_ [E [Hinv' _]]]]]]].
      destruct (IH m' Hinv') as [m [Em Hm]].
      exists m. split; [|assumption].
      cbn [addEquations]. rewrite E. exact Em. }
  destruct (Hgen (newSparseMatrix L) (newSparseMatrix_inv L HL))
    as [m [E [Hc [_ Hrows]]]].
  exists m. split; [assumption|]. split; [assumption|].
  intros i row Hrow. destruct (Hrows i row Hrow) as [->|[Hhd [Hs Hr]]].
  - now left.
  - right. auto.
Qed.

Lemma addEquations_triangular_witness :
  0 <= 4 /\
  2 * 4 + 1 <= Z.of_nat 9 /\
  Forall (fun e => sorted_indices 4 (fst e))
    [([2; 3], mkBlock [1] 0); ([2], mkBlock [2] 0);
     ([0; 1; 2; 3], mkBlock [4] 0); ([3], mkBlock [3] 0);
     ([0; 2], mkBlock [8] 0)] /\
  exists m,
    addEquations 9 (newSparseMatrix 4)
      [([2; 3], mkBlock [1] 0); ([2], mkBlock [2] 0);
       ([0; 1; 2; 3], mkBlock [4] 0); ([3], mkBlock [3] 0);
       ([0; 2], mkBlock [8] 0)] = Ok m /\
    len (coeff m) = 4 /\
    forall i row,
      idx (coeff m) i = Some row ->
      row = [] \/
      (idx row 0 = Some i /\ StronglySorted Z.lt row /\
       Forall (fun x => 0 <= x < 4) row).
Proof.
  assert (H0 : 0 <= 4) by discriminate.
  assert (H1 : 2 * 4 + 1 <= Z.of_nat 9) by discriminate.
  assert (H2 : Forall (fun e => sorted_indices 4 (fst e))
    [([2; 3], mkBlock [1] 0); ([2], mkBlock [2] 0);
     ([0; 1; 2; 3], mkBlock [4] 0); ([3], mkBlock [3] 0);
     ([0; 2], mkBlock [8] 0)]).
  { repeat constructor; cbn; lia. }
  split; [exact H0|]. split; [exact H1|]. split; [exact H2|].
  exact (addEquations_triangular 4 9 _ H0 H1 H2).
Defined.

(** C3: [addEquation] returns for every index list that is strictly
    ascending with elements in [0, L), against every matrix with [L] rows
    that satisfies the matrix invariant (rows strictly ascending, in range
    and triangular): the fuel [2 * L + 1] is enough and there is no panic.
    When the incoming equation is redundant, the loop reduces it to the
    empty index list and the call leaves the set of occupied rows as it
    was. *)
Theorem addEquation_terminates :
  forall (L : Z) (fuel : nat) (m : sparseMatrix) (components : list Z)
         (b : block),
    matrix_inv L m -> sorted_indices L components ->
    2 * L + 1 <= Z.of_nat fuel ->
    (exists m', addEquation fuel m components b = Ok m') /\
    (redundant m components ->
     exists m1 b1 m',
       addEquation_loop fuel m components b = Ok (m1, [], b1) /\
       addEquation fuel m components b = Ok m' /\
       forall i, occupied m' i = occupied m i).
Proof.
  intros L fuel m components b Hinv Hs Hfuel.
  destruct (addEquation_ok L fuel m components b Hinv Hs Hfuel)
    as [m1 [c1 [b1 [m' [E1 [E2 [_ Hred]]]]]]].
  split; [eauto|].
  intro H. destruct (Hred H) as [-> Hocc]. eauto 6.
Qed.

Lemma addEquation_terminates_witness :
  matrix_inv 4 {| coeff := [[]; []; [2]; [3]];
                  v := [newBlock 0; newBlock 0; mkBlock [2] 0; mkBlock [3] 0] |} /\
  sorted_indices 4 [2; 3] /\
  2 * 4 + 1 <= Z.of_nat 9 /\
  redundant {| coeff := [[]; []; [2]; [3]];
               v := [newBlock 0; newBlock 0; mkBlock [2] 0; mkBlock [3] 0] |}
            [2; 3] /\
  exists m1 b1 m',
    addEquation_loop 9
      {| coeff := [[]; []; [2]; [3]];
         v := [newBlock 0; newBlock 0; mkBlock [2] 0; mkBlock [3] 0] |}
      [2; 3] (mkBlock [1] 0) = Ok (m1, [], b1) /\
    addEquation 9
      {| coeff := [[]; []; [2]; [3]];
         v := [newBlock 0; newBlock 0; mkBlock [2] 0; mkBlock [3] 0] |}
      [2; 3] (mkBlock [1] 0) = Ok m' /\
    forall i,
      occupied m' i =
      occupied {| coeff := [[]; []; [2]; [3]];
                  v := [newBlock 0; newBlock 0; mkBlock [2] 0; mkBlock [3] 0] |}
               i.
Proof.
  set (m := {| coeff := [[]; []; [2]; [3]];
               v := [newBlock 0; newBlock 0; mkBlock [2] 0; mkBlock [3] 0] |}).
  assert (Hinv : matrix_inv 4 m).
  { split; [reflexivity|]. split; [reflexivity|].
    intros i row H. unfold idx in H.
    destruct (i <? 0) eqn:E; [discriminate|]. apply Z.ltb_ge in E.
    destruct (Z.to_nat i) as [|[|[|[|n]]]] eqn:En; cbn in H;
      try (destruct n; discriminate); inversion H; subst.
    - now left.
    - now left.
    - right. replace i with 2 by lia. split; [reflexivity|].
      split; repeat constructor; lia.
    - right. replace i with 3 by lia. split; [reflexivity|].
      split; repeat constructor; lia. }
  assert (Hs : sorted_indices 4 [2; 3])
    by (split; repeat constructor; lia).
  assert (Hf : 2 * 4 + 1 <= Z.of_nat 9) by discriminate.
  assert (Hred : redundant m [2; 3]).
  { exists (fun t => (t =? 2) || (t =? 3)). intro j. cbn.
    destruct (j =? 2) eqn:E2, (j =? 3) eqn:E3; try reflexivity.
    apply Z.eqb_eq in E2. apply Z.eqb_eq in E3. lia. }
  split; [exact Hinv|]. split; [exact Hs|]. split; [exact Hf|].
  split; [exact Hred|].
  exact (proj2 (addEquation_terminates 4 9 m [2; 3] (mkBlock [1] 0)
                  Hinv Hs Hf) Hred).
Defined.

(** ** Binary search *)

Lemma search_loop_spec :
  forall (fuel : nat) (f : Z -> bool) (i j : Z),
    0 <= i <= j -> j - i < 2 ^ Z.of_nat fuel ->
    (forall a b, i <= a -> a <= b -> b < j -> f a = true -> f b = true) ->
    i <= search_loop fuel f i j <= j /\
    (forall k, i <= k < search_loop fuel f i j -> f k = false) /\
    (forall k, search_loop fuel f i j <= k < j -> f k = true).
Proof.
  induction fuel as [|fuel IH]; intros f i j Hij Hw Hmono.
  - change (2 ^ Z.of_nat 0) with 1 in Hw. simpl.
    split; [lia|]. split; intros k Hk; lia.
  - rewrite Nat2Z.inj_succ, Z.pow_succ_r in Hw by lia. simpl.
    destruct (i <? j) eqn:E.
    + apply Z.ltb_lt in E.
      assert (Hh : i <= (i + j) / 2 < j).
      { split; [apply Z.div_le_lower_bound; lia
               |apply Z.div_lt_upper_bound; lia]. }
      assert (Hh2 : 2 * ((i + j) / 2) <= i + j < 2 * ((i + j) / 2) + 2).
      { pose proof (Z.div_mod (i + j) 2 ltac:(lia)).
        pose proof (Z.mod_pos_bound (i + j) 2 ltac:(lia)). lia. }
      set (h := (i + j) / 2) in *.
      destruct (f h) eqn:Fh; cbn [negb].
      * assert (Hm' : forall a b, i <= a -> a <= b -> b < h ->
                          f a = true -> f b = true)
          by (intros a b Ha Hab Hb; apply Hmono; lia).
        destruct (IH f i h ltac:(lia) ltac:(lia) Hm') as [H1 [H2 H3]].
        split; [lia|]. split; [assumption|].
        intros k Hk. destruct (Z_lt_ge_dec k h) as [Hlt|Hge].
        -- apply H3. lia.
        -- apply (Hmono h k); try lia. assumption.
      * assert (Hm' : forall a b, h + 1 <= a -> a <= b -> b < j ->
                          f a = true -> f b = true)
          by (intros a b Ha Hab Hb; apply Hmono; lia).
        destruct (IH f (h + 1) j ltac:(lia) ltac:(lia) Hm') as [H1 [H2 H3]].
        split; [lia|]. split; [|assumption].
        intros k Hk. destruct (Z_lt_ge_dec h k) as [Hlt|Hge].
        -- apply H2. lia.
        -- destruct (f k) eqn:Fk; [|reflexivity].
           assert (f h = true)
             by (apply (Hmono k h); [lia|lia|lia|assumption]).
           congruence.
    + apply Z.ltb_ge in E. split; [lia|]. split; intros k Hk; lia.
Qed.

(** [sort.Search] finds the least index at which a monotone predicate
    holds, and [n] when there is none. *)
Lemma Search_spec :
  forall (n : Z) (f : Z -> bool),
    0 <= n ->
    (forall a b, 0 <= a -> a <= b -> b < n -> f a = true -> f b = true) ->
    0 <= Search n f <= n /\
    (forall k, 0 <= k < Search n f -> f k = false) /\
    (forall k, Search n f <= k < n -> f k = true).
Proof.
  intros n f Hn Hmono. unfold Search. apply search_loop_spec.
  - lia.
  - rewrite Z2Nat.id by (pose proof (Z.log2_nonneg n); lia).
    destruct (Z.eq_dec n 0) as [->|Hne]; [reflexivity|].
    rewrite Z.sub_0_r. apply Z.log2_lt_pow2; lia.
  - assumption.
Qed.

(** ** Degree selection *)

Lemma sorted_idx_le :
  forall (R : Q -> Q -> Prop) (cdf : list Q) (i j : Z) (x y : Q),
    StronglySorted R cdf ->
    idx cdf i = Some x -> idx cdf j = Some y -> i < j -> R x y.
Proof.
  intros R cdf. induction cdf as [|c cdf IH]; intros i j x y Hs Hi Hj Hij.
  - unfold idx in Hi. destruct (i <? 0); [discriminate|].
    destruct (Z.to_nat i); discriminate.
  - inversion Hs as [|? ? Hs' Hc]; subst.
    assert (Hi0 : 0 <= i) by (apply idx_Some_range in Hi; lia).
    rewrite (idx_cons_pos _ c cdf j) in Hj by lia.
    destruct (Z.eq_dec i 0) as [->|Hne].
    + rewrite idx_cons_0 in Hi. inversion Hi; subst.
      rewrite Forall_forall in Hc. apply Hc.
      unfold idx in Hj. destruct (j - 1 <? 0); [discriminate|].
      eapply nth_error_In; eassumption.
    + rewrite idx_cons_pos in Hi by lia.
      apply (IH (i - 1) (j - 1)); auto. lia.
Qed.

Lemma f64_ltb_lt : forall x y, f64_ltb x y = true <-> (x < y)%Q.
Proof.
  intros x y. unfold f64_ltb. rewrite negb_true_iff.
  split.
  - intro H. apply Qnot_le_lt. intro Hle.
    apply Qle_bool_iff in Hle. congruence.
  - intro H. destruct (Qle_bool y x) eqn:E; [|reflexivity].
    apply Qle_bool_iff in E. exfalso. eapply Qlt_not_le; eassumption.
Qed.

Lemma f64_leb_le : forall x y, f64_leb x y = true <-> (x <= y)%Q.
Proof. intros x y. unfold f64_leb. apply Qle_bool_iff. Qed.

(** What [pickDegree] does on a strictly ascending array whose last entry
    is not below [r]: it returns the least index whose entry exceeds [r],
    and the last index when no entry does. *)
Lemma pickDegree_strictly_ascending :
  forall (r : float64) (cdf : list float64) (top : float64),
    strictly_ascending cdf ->
    idx cdf (len cdf - 1) = Some top -> f64_leb r top = true ->
    exists d c,
      pickDegree r cdf = Ok d /\ idx cdf d = Some c /\
      (forall i x, idx cdf i = Some x -> i < d -> f64_ltb r x = false) /\
      (f64_ltb r c = true \/
       (d = len cdf - 1 /\
        forall i x, idx cdf i = Some x -> f64_ltb r x = false)).
Proof.
  intros r cdf top Hs Htop Hr.
  pose proof (len_nonneg _ cdf) as Hn.
  pose proof (idx_Some_range _ _ _ _ Htop) as Hlast.
  set (f := fun i => match idx cdf i with
                     | Some y => f64_leb r y
                     | None => false
                     end).
  assert (Hmono : forall a b, 0 <= a -> a <= b -> b < len cdf ->
                    f a = true -> f b = true).
  { intros a b Ha Hab Hb Hfa. unfold f in *.
    destruct (idx_in_range _ cdf a ltac:(lia)) as [x Hx].
    destruct (idx_in_range _ cdf b ltac:(lia)) as [y Hy].
    rewrite Hx in Hfa. rewrite Hy.
    destruct (Z.eq_dec a b) as [->|Hne]; [congruence|].
    apply f64_leb_le. apply f64_leb_le in Hfa.
    eapply Qle_trans; [eassumption|]. apply Qlt_le_weak.
    apply (sorted_idx_le Qlt cdf a b); auto. lia. }
  destruct (Search_spec (len cdf) f Hn Hmono) as [Hd [Hbelow Habove]].
  unfold pickDegree, SearchFloat64s. fold f.
  set (d := Search (len cdf) f) in *.
  assert (Hdlt : d < len cdf).
  { destruct (Z_lt_ge_dec d (len cdf)); [assumption|exfalso].
    assert (Hf : f (len cdf - 1) = false) by (apply Hbelow; lia).
    unfold f in Hf. rewrite Htop in Hf. congruence. }
  destruct (idx_in_range _ cdf d ltac:(lia)) as [c Hc].
  rewrite Hc. cbn [of_option bind].
  assert (Hfd : f64_leb r c = true).
  { specialize (Habove d ltac:(lia)). unfold f in Habove.
    now rewrite Hc in Habove. }
  assert (Hlow : forall i x, idx cdf i = Some x -> i < d -> f64_ltb r x = false).
  { intros i x Hi Hid.
    assert (Hi0 : 0 <= i) by (apply idx_Some_range in Hi; lia).
    specialize (Hbelow i ltac:(lia)). unfold f in Hbelow.
    rewrite Hi in Hbelow.
    destruct (f64_ltb r x) eqn:E; [|reflexivity].
    apply f64_ltb_lt in E. apply Qlt_le_weak in E.
    apply f64_leb_le in E. congruence. }
  destruct (f64_ltb r c) eqn:Elt.
  - exists d, c. split; [reflexivity|]. split; [assumption|].
    split; [assumption|now left].
  - destruct (d <? len cdf - 1) eqn:Ed.
    + apply Z.ltb_lt in Ed.
      destruct (idx_in_range _ cdf (d + 1) ltac:(lia)) as [c' Hc'].
      exists (d + 1), c'. split; [reflexivity|]. split; [assumption|].
      assert (Hcc : (c < c')%Q)
        by (apply (sorted_idx_le Qlt cdf d (d + 1)); auto; lia).
      split.
      * intros i x Hi Hid. destruct (Z.eq_dec i d) as [->|Hne].
        -- rewrite Hc in Hi. inversion Hi; subst. assumption.
        -- apply (Hlow i x Hi). lia.
      * left. apply f64_ltb_lt. apply f64_leb_le in Hfd.
        eapply Qle_lt_trans; eassumption.
    + apply Z.ltb_ge in Ed. assert (d = len cdf - 1) by lia.
      exists (len cdf - 1), c. split; [reflexivity|].
      split; [congruence|]. split.
      * intros i x Hi Hid. apply (Hlow i x Hi). lia.
      * right. split; [reflexivity|]. intros i x Hi.
        pose proof (idx_Some_range _ _ _ _ Hi) as Hir.
        destruct (Z.eq_dec i d) as [->|Hne].
        -- rewrite Hc in Hi. inversion Hi; subst. assumption.
        -- apply (Hlow i x Hi). lia.
Qed.

(** C6 (the code at the failing inputs): on the ascending array
    [0, 0.5] with [r = 0.75] no entry exceeds [r]; the search returns
    [len(cdf)] and the access [cdf[d]] panics, where the claim has the
    result [len(cdf) - 1].  On the ascending array [0, 0.5, 0.5, 1] with
    [r = 0.5] the code returns 2, whose entry does not exceed [r]; the
    least index whose entry does is 3. *)
Theorem pickDegree_failing_inputs :
  ascending [0%Q; 1 # 2] /\
  (forall i x, idx [0%Q; 1 # 2] i = Some x -> f64_ltb (3 # 4) x = false) /\
  pickDegree (3 # 4) [0%Q; 1 # 2] = Panic /\
  ascending [0%Q; 1 # 2; 1 # 2; 1%Q] /\
  pickDegree (1 # 2) [0%Q; 1 # 2; 1 # 2; 1%Q] = Ok 2 /\
  f64_ltb (1 # 2) (1 # 2) = false /\
  f64_ltb (1 # 2) 1%Q = true.
Proof.
  split; [repeat constructor; discriminate|].
  split.
  { intros i x H. unfold idx in H. destruct (i <? 0); [discriminate|].
    destruct (Z.to_nat i) as [|[|n]]; cbn in H;
      try (destruct n; discriminate); inversion H; reflexivity. }
  split; [reflexivity|].
  split; [repeat constructor; discriminate|].
  repeat split; reflexivity.
Qed.

(** ** Intermediate symbols of the Raptor code *)

Lemma forallb_seqZ :
  forall (P : Z -> bool) (n : nat) (lo h : Z),
    forallb P (seqZ lo n) = true -> lo <= h < lo + Z.of_nat n -> P h = true.
Proof.
  intros P n. induction n as [|n IH]; intros lo h Hall Hh; [lia|].
  cbn [seqZ forallb] in Hall. apply andb_true_iff in Hall.
  destruct Hall as [H0 Hrest].
  destruct (Z.eq_dec h lo) as [->|Hne]; [assumption|].
  apply (IH (lo + 1)); [assumption|lia].
Qed.

(** The loop over [h] started anywhere in [0, hi] ends at [hi], when a
    run of the loop from each of these values says so. *)
Lemma h_loop_from :
  forall (fuel : nat) (ks hi : Z),
    forallb (fun h => match h_loop fuel ks h with
                      | Ok r => r =? hi
                      | _ => false
                      end) (seqZ 0 (S (Z.to_nat hi))) = true ->
    forall h0, 0 <= h0 <= hi -> h_loop fuel ks h0 = Ok hi.
Proof.
  intros fuel ks hi Hall h0 Hh.
  pose proof (forallb_seqZ _ _ 0 h0 Hall ltac:(lia)) as H. cbn beta in H.
  destruct (h_loop fuel ks h0) as [r| |]; try discriminate.
  apply Z.eqb_eq in H. now subst.
Qed.

Lemma intermediateSymbols_eval :
  forall (smallPrimes : list Z) (f64_log : float64 -> float64)
         (fuel : nat) (k x s0 s ks hi l : Z),
    x_loop fuel k (x_start k) = Ok x ->
    s_start k x = s0 ->
    smallestPrimeGreaterOrEqual smallPrimes fuel s0 = Ok s ->
    wrap64 (k + s) = ks ->
    forallb (fun h => match h_loop fuel ks h with
                      | Ok r => r =? hi
                      | _ => false
                      end) (seqZ 0 (S (Z.to_nat hi))) = true ->
    wrap64 (ks + hi) = l ->
    0 <= h_start f64_log s k <= hi ->
    intermediateSymbols smallPrimes f64_log fuel k = Ok (l, s, hi).
Proof.
  intros smallPrimes f64_log fuel k x s0 s ks hi l Hx Hs0 Hs Hks Hall Hl Hh.
  unfold intermediateSymbols. rewrite Hx. cbn [bind].
  rewrite Hs0, Hs. cbn [bind].
  rewrite Hks, (h_loop_from fuel ks hi Hall _ Hh). cbn [bind].
  now rewrite Hl.
Qed.

(** The vectors of the test suite, for every table of primes that gives
    the primes next to 6, 38 and 151. *)
Lemma intermediateSymbols_examples :
  forall (smallPrimes : list Z) (f64_log : float64 -> float64),
    smallestPrimeGreaterOrEqual smallPrimes 64 6 = Ok 7 ->
    smallestPrimeGreaterOrEqual smallPrimes 64 38 = Ok 41 ->
    smallestPrimeGreaterOrEqual smallPrimes 64 151 = Ok 151 ->
    0 <= h_start f64_log 7 10 <= 6 ->
    0 <= h_start f64_log 41 500 <= 12 ->
    0 <= h_start f64_log 151 5000 <= 15 ->
    intermediateSymbols smallPrimes f64_log 64 10 = Ok (23, 7, 6) /\
    intermediateSymbols smallPrimes f64_log 64 500 = Ok (553, 41, 12) /\
    intermediateSymbols smallPrimes f64_log 64 5000 = Ok (5166, 151, 15).
Proof.
  intros smallPrimes f64_log P1 P2 P3 H1 H2 H3. split; [|split].
  - apply (intermediateSymbols_eval smallPrimes f64_log 64 10 5 6 7 17 6 23);
      [vm_compute; reflexivity | vm_compute; reflexivity | assumption
      | vm_compute; reflexivity | vm_compute; reflexivity
      | vm_compute; reflexivity | assumption].
  - apply (intermediateSymbols_eval smallPrimes f64_log 64 500 33 38 41 541 12 553);
      [vm_compute; reflexivity | vm_compute; reflexivity | assumption
      | vm_compute; reflexivity | vm_compute; reflexivity
      | vm_compute; reflexivity | assumption].
  - apply (intermediateSymbols_eval smallPrimes f64_log 64 5000 101 151 151 5151 15
             5166);
      [vm_compute; reflexivity | vm_compute; reflexivity | assumption
      | vm_compute; reflexivity | vm_compute; reflexivity
      | vm_compute; reflexivity | assumption].
Qed.

(** C7 (the code at the failing input): for [k = 8192], the largest
    number of source symbols of the Raptor code, [intermediateSymbols]
    returns [(8418, 211, 15)], whatever table of primes gives 211 as the
    prime next to 211.  [S = 211] is as the claim has it, but [H = 15] is
    not: the binomial coefficient of 15 over 8 is 6435, which is below
    [k + S = 8403]; the least [H] with a large enough coefficient is 16,
    and [L] is 8419.  The loop stops at 15 because [choose(15, 7)]
    evaluates to 25740: it leaves the denominator 4 uncancelled. *)
Theorem intermediateSymbols_failing_input :
  forall (smallPrimes : list Z) (f64_log : float64 -> float64),
    smallestPrimeGreaterOrEqual smallPrimes 64 211 = Ok 211 ->
    0 <= h_start f64_log 211 8192 <= 15 ->
    intermediateSymbols smallPrimes f64_log 64 8192 = Ok (8418, 211, 15) /\
    centerBinomial 15 = Ok 25740 /\
    binomial 15 (Z.to_nat (ceil_div 15 2)) = 6435 /\
    6435 < 8192 + 211 /\
    8192 + 211 <= binomial 16 (Z.to_nat (ceil_div 16 2)).
Proof.
  intros smallPrimes f64_log P H. split.
  - apply (intermediateSymbols_eval smallPrimes f64_log 64 8192 129 211 211
             8403 15 8418);
      [vm_compute; reflexivity | vm_compute; reflexivity | assumption
      | vm_compute; reflexivity | vm_compute; reflexivity
      | vm_compute; reflexivity | assumption].
  - repeat split; vm_compute; congruence.
Qed.

Lemma intermediateSymbols_failing_input_witness :
  smallestPrimeGreaterOrEqual smallPrimes_model 64 211 = Ok 211 /\
  0 <= h_start (fun x => inject_Z (Z.log2 (Qfloor x))) 211 8192 <= 15 /\
  intermediateSymbols smallPrimes_model
    (fun x => inject_Z (Z.log2 (Qfloor x))) 64 8192 = Ok (8418, 211, 15).
Proof.
  assert (P : smallestPrimeGreaterOrEqual smallPrimes_model 64 211 = Ok 211)
    by (vm_compute; reflexivity).
  assert (H : 0 <= h_start (fun x => inject_Z (Z.log2 (Qfloor x))) 211 8192 <= 15)
    by (vm_compute; split; discriminate).
  split; [exact P|]. split; [exact H|].
  exact (proj1 (intermediateSymbols_failing_input _ _ P H)).
Defined.

(** ** The bytes of a XOR *)

Lemma nth_xor_bytes :
  forall (src dst : list Z) (k : nat),
    (length src <= length dst)%nat ->
    nth k (xor_bytes dst src) 0 = Z.lxor (nth k dst 0) (nth k src 0).
Proof.
  induction src as [|s src IH]; intros dst k H.
  - destruct dst; destruct k; simpl; now rewrite ?Z.lxor_0_r.
  - destruct dst as [|d dst]; simpl in H; [lia|].
    destruct k as [|k]; simpl; [reflexivity|]. apply IH. lia.
Qed.

Lemma nth_app_zeros :
  forall (l : list Z) (n k : nat), nth k (l ++ repeat 0 n) 0 = nth k l 0.
Proof.
  intros l n k. destruct (Nat.lt_ge_cases k (length l)) as [H|H].
  - now rewrite app_nth1.
  - rewrite app_nth2 by assumption. rewrite (nth_overflow l) by assumption.
    apply nth_repeat.
Qed.

Lemma byte_at_block_xor :
  forall (b a : block) (k : nat),
    byte_at (block_xor b a) k = Z.lxor (byte_at b k) (byte_at a k).
Proof.
  intros b a k. unfold byte_at, block_xor.
  destruct (len (data b) <? len (data a)) eqn:E; cbn [data].
  - apply Z.ltb_lt in E. rewrite nth_xor_bytes.
    + now rewrite nth_app_zeros.
    + rewrite length_app, repeat_length. unfold len in *. lia.
  - apply Z.ltb_ge in E. apply nth_xor_bytes. unfold len in E. lia.
Qed.

Lemma lxor_bound :
  forall n x y,
    0 <= n -> 0 <= x < 2 ^ n -> 0 <= y < 2 ^ n -> 0 <= Z.lxor x y < 2 ^ n.
Proof.
  intros n x y Hn Hx Hy.
  assert (H0 : 0 <= Z.lxor x y) by (apply Z.lxor_nonneg; lia).
  split; [assumption|].
  destruct (Z.eq_dec (Z.lxor x y) 0) as [->|Hne]; [lia|].
  apply (proj2 (Z.log2_lt_pow2 (Z.lxor x y) n ltac:(lia))).
  pose proof (Z.log2_lxor x y ltac:(lia) ltac:(lia)) as Hl.
  assert (Hlx : Z.log2 x < n \/ x = 0).
  { destruct (Z.eq_dec x 0); [now right|left].
    apply (proj1 (Z.log2_lt_pow2 x n ltac:(lia))). lia. }
  assert (Hly : Z.log2 y < n \/ y = 0).
  { destruct (Z.eq_dec y 0); [now right|left].
    apply (proj1 (Z.log2_lt_pow2 y n ltac:(lia))). lia. }
  destruct Hlx as [Hlx| ->]; destruct Hly as [Hly| ->].
  - lia.
  - rewrite Z.lxor_0_r in *. lia.
  - rewrite Z.lxor_0_l in *. lia.
  - now rewrite Z.lxor_0_l in Hne.
Qed.

Lemma xor_bytes_ok :
  forall src dst, bytes_ok dst -> bytes_ok src -> bytes_ok (xor_bytes dst src).
Proof.
  induction src as [|s src IH]; intros dst Hd Hs; [destruct dst; assumption|].
  destruct dst as [|d dst]; [constructor|].
  inversion Hd; inversion Hs; subst. simpl. constructor.
  - apply (lxor_bound 8); [lia|assumption|assumption].
  - now apply IH.
Qed.

(** X1: [b.xor(a)] is the XOR byte by byte, where a block reads as its data
    followed by zeros: padding counts as the XOR identity.  Bytes stay
    bytes. *)
Theorem block_xor_bytes :
  forall b a : block,
    (forall k, byte_at (block_xor b a) k = Z.lxor (byte_at b k) (byte_at a k)) /\
    (bytes_ok (data b) -> bytes_ok (data a) -> bytes_ok (data (block_xor b a))).
Proof.
  intros b a. split; [apply byte_at_block_xor|].
  intros Hb Ha. unfold block_xor.
  destruct (len (data b) <? len (data a)); cbn [data].
  - apply xor_bytes_ok; [|assumption].
    apply Forall_app. split; [assumption|].
    apply Forall_forall. intros x Hx. apply repeat_spec in Hx. subst. lia.
  - now apply xor_bytes_ok.
Qed.

(** ** Splitting a message into blocks *)

(** The numbers of [partition] for a size that float64 holds exactly. *)
Lemma partition_eval :
  forall total p : Z,
    0 <= total < 2 ^ 53 -> 0 < p <= max_int ->
    partition total p =
    Ok (if total mod p =? 0 then 0 else total / p + 1,
        total / p, total mod p, p - total mod p).
Proof.
  intros total p Ht Hp.
  destruct (f64_div_int_by_int total p Ht ltac:(lia)) as [Hfl Hce].
  unfold partition.
  destruct (p =? 0) eqn:E0; [apply Z.eqb_eq in E0; lia|].
  unfold f64_floor, f64_ceil. rewrite !int_of_f64_inject, Hfl, Hce.
  pose proof (Z.div_mod total p ltac:(lia)) as Hdm.
  pose proof (Z.mod_pos_bound total p ltac:(lia)) as Hr.
  assert (Hq : 0 <= total / p) by (apply Z.div_pos; lia).
  assert (H53 : 2 ^ 53 = 9007199254740992) by reflexivity.
  assert (Hmax : max_int = 9223372036854775807) by reflexivity.
  assert (H63 : 2 ^ 63 = 9223372036854775808) by reflexivity.
  assert (Hm : total - total / p * p = total mod p) by lia.
  rewrite (wrap64_small (total / p * p)) by lia.
  rewrite Hm.
  rewrite (wrap64_small (total mod p)) by lia.
  rewrite (wrap64_small (p - total mod p)) by lia.
  destruct (p - total mod p =? 0) eqn:E2; [apply Z.eqb_eq in E2; lia|].
  destruct (total mod p =? 0) eqn:E1; [reflexivity|].
  apply Z.eqb_neq in E1.
  assert (Hc : ceil_div total p = total / p + 1).
  { unfold ceil_div.
    assert (Hd : (- total) / p = - (total / p) - 1).
    { symmetry. apply Z.div_unique with (r := p - total mod p); lia. }
    lia. }
  now rewrite Hc.
Qed.

Lemma sliceIntoBlocks_loop_exact :
  forall (n : nat) (input : list Z) (size : Z),
    0 <= size -> Z.of_nat n * size <= len input ->
    exists blocks rest,
      sliceIntoBlocks_loop n input size = Ok (blocks, rest) /\
      length blocks = n /\
      Forall (fun b => len (data b) = size /\ padding b = 0) blocks /\
      concat (map data blocks) ++ rest = input.
Proof.
  induction n as [|n IH]; intros input size Hs Hn.
  - exists [], input. repeat split; constructor.
  - cbn [sliceIntoBlocks_loop].
    assert (Hsz : size <= len input) by nia.
    assert (Hneg : (size <? 0) = false) by (apply Z.ltb_ge; lia).
    assert (Hcut : exists d r,
              (if size <? len input then
                 if size <? 0 then Panic
                 else Ok (firstn (Z.to_nat size) input,
                          skipn (Z.to_nat size) input)
               else Ok (input, [])) = Ok (d, r) /\
              len d = size /\ d ++ r = input).
    { destruct (size <? len input) eqn:E.
      - rewrite Hneg. do 2 eexists. split; [reflexivity|].
        split; [|apply firstn_skipn].
        unfold len in *. rewrite length_firstn. lia.
      - apply Z.ltb_ge in E. exists input, []. split; [reflexivity|].
        split; [lia|apply app_nil_r]. }
    destruct Hcut as [d [r [-> [Hd Hdr]]]]. cbn [bind fst snd].
    destruct (IH r size Hs) as [blocks [rest [E [Hl [Hall Hc]]]]].
    { assert (len input = len d + len r) by (rewrite <- Hdr; apply len_app).
      lia. }
    rewrite E. cbn [bind fst snd].
    do 2 eexists. split; [reflexivity|]. split; [simpl; lia|]. split.
    + constructor; [|assumption]. cbn [data padding]. split; [assumption|].
      rewrite Hd. now rewrite Z.ltb_irrefl.
    + cbn [map concat data]. rewrite <- app_assoc, Hc. assumption.
Qed.

(** The shape of the blocks that [partitionBytes] returns. *)
Lemma partitionBytes_shape :
  forall (message : list Z) (p : Z),
    len message < 2 ^ 53 -> 0 < p <= max_int ->
    exists long short,
      partitionBytes message p = Ok (long, short) /\
      len long = len message mod p /\
      len short = p - len message mod p /\
      Forall (fun b => len (data b) = len message / p + 1 /\ padding b = 0) long /\
      Forall (fun b => len (data b) = len message / p /\ padding b = 0) short /\
      concat (map data long) ++ concat (map data short) = message.
Proof.
  intros message p Hlen Hp.
  pose proof (len_nonneg _ message) as H0.
  unfold partitionBytes. rewrite partition_eval by lia. cbn [bind].
  pose proof (Z.div_mod (len message) p ltac:(lia)) as Hdm.
  pose proof (Z.mod_pos_bound (len message) p ltac:(lia)) as Hr.
  assert (Hq : 0 <= len message / p) by (apply Z.div_pos; lia).
  set (lenLong := if len message mod p =? 0 then 0 else len message / p + 1).
  assert (HL : len message mod p * lenLong <= len message).
  { unfold lenLong. destruct (len message mod p =? 0) eqn:E; nia. }
  unfold sliceIntoBlocks.
  destruct (len message mod p <? 0) eqn:E1; [apply Z.ltb_lt in E1; lia|].
  destruct (sliceIntoBlocks_loop_exact (Z.to_nat (len message mod p))
              message lenLong) as [long [rest [EL [HlL [HaL HcL]]]]].
  { unfold lenLong. destruct (len message mod p =? 0); lia. }
  { rewrite Z2Nat.id by lia. assumption. }
  rewrite EL. cbn [bind fst snd].
  destruct (p - len message mod p <? 0) eqn:E2; [apply Z.ltb_lt in E2; lia|].
  assert (Hrest : len rest = (p - len message mod p) * (len message / p)).
  { assert (Hsum : len message = len (concat (map data long)) + len rest)
      by (rewrite <- HcL at 1; apply len_app).
    assert (Hcl : len (concat (map data long)) = Z.of_nat (length long) * lenLong).
    { clear - HaL. induction HaL as [|b l [Hb _] _ IH]; [reflexivity|].
      cbn [map concat length]. rewrite len_app, IH, Hb. lia. }
    rewrite Hcl, HlL, Z2Nat.id in Hsum by lia.
    unfold lenLong in Hsum. destruct (len message mod p =? 0) eqn:E.
    - apply Z.eqb_eq in E. nia.
    - nia. }
  destruct (sliceIntoBlocks_loop_exact (Z.to_nat (p - len message mod p))
              rest (len message / p)) as [short [rest' [ES [HlS [HaS HcS]]]]].
  { assumption. }
  { rewrite Z2Nat.id by lia. lia. }
  rewrite ES. cbn [bind fst snd].
  assert (Hrest' : rest' = []).
  { assert (Hsum : len rest = len (concat (map data short)) + len rest')
      by (rewrite <- HcS at 1; apply len_app).
    assert (Hcs : len (concat (map data short)) =
                  Z.of_nat (length short) * (len message / p)).
    { clear - HaS. induction HaS as [|b l [Hb _] _ IH]; [reflexivity|].
      cbn [map concat length]. rewrite len_app, IH, Hb. lia. }
    rewrite Hcs, HlS, Z2Nat.id in Hsum by lia.
    destruct rest'; [reflexivity|]. exfalso. rewrite len_cons in Hsum.
    pose proof (len_nonneg _ rest'). lia. }
  subst rest'. rewrite app_nil_r in HcS.
  exists long, short. split; [reflexivity|].
  split; [unfold len at 1; rewrite HlL; lia|].
  split; [unfold len at 1; rewrite HlS; lia|].
  split.
  - unfold lenLong in HaL. destruct (len message mod p =? 0) eqn:E.
    + apply Z.eqb_eq in E. rewrite E in HlL. destruct long; [constructor|].
      discriminate.
    + assumption.
  - split; [assumption|]. now rewrite HcS.
Qed.

(** X2: [partitionBytes] cuts a message of less than [2^53] bytes into
    [p > 0] blocks without a gap and without padding: the long blocks
    come first, there are [len mod p] of them with [len / p + 1] bytes
    each, and the [p - len mod p] short blocks have [len / p] bytes each;
    the data of the blocks, put end to end, is the message. *)
Theorem partitionBytes_exact :
  forall (message : list Z) (p : Z),
    len message < 2 ^ 53 -> 0 < p <= max_int ->
    exists long short,
      partitionBytes message p = Ok (long, short) /\
      len long = len message mod p /\
      len short = p - len message mod p /\
      Forall (fun b => len (data b) = len message / p + 1 /\ padding b = 0) long /\
      Forall (fun b => len (data b) = len message / p /\ padding b = 0) short /\
      concat (map data long) ++ concat (map data short) = message.
Proof. exact partitionBytes_shape. Qed.

Lemma partitionBytes_exact_witness :
  len [1; 2; 3; 4; 5; 6; 7] < 2 ^ 53 /\
  0 < 3 <= max_int /\
  partitionBytes [1; 2; 3; 4; 5; 6; 7] 3 =
    Ok ([mkBlock [1; 2; 3] 0], [mkBlock [4; 5] 0; mkBlock [6; 7] 0]).
Proof.
  assert (H1 : len [1; 2; 3; 4; 5; 6; 7] < 2 ^ 53) by reflexivity.
  assert (H2 : 0 < 3 <= max_int) by (split; [reflexivity|discriminate]).
  split; [exact H1|]. split; [exact H2|].
  destruct (partitionBytes_exact [1; 2; 3; 4; 5; 6; 7] 3 H1 H2)
    as [long [short [E _]]].
  rewrite E. vm_compute in E. exact (eq_sym E).
Defined.

Lemma wrap64_shift : forall z, exists k, wrap64 z = z + k * 2 ^ 64.
Proof.
  intro z. unfold wrap64. exists (- ((z + 2 ^ 63) / 2 ^ 64)).
  pose proof (Z.div_mod (z + 2 ^ 63) (2 ^ 64) ltac:(lia)). lia.
Qed.

Lemma wrap64_add_mul : forall z k, wrap64 (z + k * 2 ^ 64) = wrap64 z.
Proof.
  intros z k. unfold wrap64.
  replace (z + k * 2 ^ 64 + 2 ^ 63) with (z + 2 ^ 63 + k * 2 ^ 64) by ring.
  now rewrite Z_mod_plus_full.
Qed.

Lemma wrap64_idem : forall z, wrap64 (wrap64 z) = wrap64 z.
Proof.
  intro z. destruct (wrap64_shift z) as [k Hk]. rewrite Hk at 1.
  apply wrap64_add_mul.
Qed.

(** The padding that [equalizeBlockLengths] gives a short block brings its
    length to the length of the first long block, whatever the two
    blocks. *)
Lemma equalized_length :
  forall l0 s : block,
    block_length
      {| data := data s;
         padding := wrap64 (padding s +
                            wrap64 (block_length l0 - block_length s)) |}
    = block_length l0.
Proof.
  intros l0 s. unfold block_length at 1. cbn [data padding].
  destruct (wrap64_shift (padding s + wrap64 (block_length l0 - block_length s)))
    as [k1 H1].
  destruct (wrap64_shift (block_length l0 - block_length s)) as [k2 H2].
  assert (Hs : exists k3, block_length s = len (data s) + padding s + k3 * 2 ^ 64)
    by (apply wrap64_shift).
  destruct Hs as [k3 H3].
  rewrite H1, H2, H3.
  replace (len (data s) +
           (padding s +
            (block_length l0 - (len (data s) + padding s + k3 * 2 ^ 64) +
             k2 * 2 ^ 64) + k1 * 2 ^ 64))
    with (block_length l0 + (k1 + k2 - k3) * 2 ^ 64) by ring.
  rewrite wrap64_add_mul. unfold block_length. apply wrap64_idem.
Qed.

(** X3: [equalizeBlockLengths] returns the long blocks followed by the
    short blocks, the data untouched; when the long blocks have one length,
    every block of the result has that length.  Without long blocks the
    short blocks are returned as they are, and without short blocks the
    long ones. *)
Theorem equalizeBlockLengths_uniform :
  forall (longBlocks shortBlocks : list block) (n : Z),
    Forall (fun b => block_length b = n) longBlocks ->
    equalizeBlockLengths [] shortBlocks = shortBlocks /\
    equalizeBlockLengths longBlocks [] = longBlocks /\
    map data (equalizeBlockLengths longBlocks shortBlocks) =
      map data (longBlocks ++ shortBlocks) /\
    (longBlocks <> [] ->
     Forall (fun b => block_length b = n)
            (equalizeBlockLengths longBlocks shortBlocks)).
Proof.
  intros longBlocks shortBlocks n Hlong.
  split; [reflexivity|].
  split; [destruct longBlocks; reflexivity|].
  destruct longBlocks as [|l0 long].
  - split; [reflexivity|]. intro H. now contradiction H.
  - destruct shortBlocks as [|s0 short].
    + split; [now rewrite app_nil_r|]. intros _. assumption.
    + cbn [equalizeBlockLengths]. split.
      * rewrite !map_app, map_map. cbn [data]. reflexivity.
      * intros _. apply Forall_app. split; [assumption|].
        apply Forall_forall. intros b Hb. apply in_map_iff in Hb.
        destruct Hb as [s [<- _]]. rewrite equalized_length.
        now inversion Hlong.
Qed.

Lemma equalizeBlockLengths_uniform_witness :
  Forall (fun b => block_length b = 3) [mkBlock [1; 2; 3] 0] /\
  equalizeBlockLengths [mkBlock [1; 2; 3] 0] [mkBlock [4; 5] 0; mkBlock [6; 7] 0]
  = [mkBlock [1; 2; 3] 0; mkBlock [4; 5] 1; mkBlock [6; 7] 1] /\
  Forall (fun b => block_length b = 3)
    (equalizeBlockLengths [mkBlock [1; 2; 3] 0]
       [mkBlock [4; 5] 0; mkBlock [6; 7] 0]).
Proof.
  assert (H : Forall (fun b => block_length b = 3) [mkBlock [1; 2; 3] 0])
    by (repeat constructor).
  split; [exact H|]. split; [reflexivity|].
  apply (equalizeBlockLengths_uniform [mkBlock [1; 2; 3] 0]
           [mkBlock [4; 5] 0; mkBlock [6; 7] 0] 3 H).
  discriminate.
Defined.

(** The source blocks of a message: their shape. *)
Lemma sourceBlocks_shape :
  forall (message : list Z) (p : Z),
    len message < 2 ^ 53 -> 0 < p <= max_int ->
    exists long short,
      sourceBlocks message p = Ok (long ++ short) /\
      len long = len message mod p /\
      len short = p - len message mod p /\
      Forall (fun b => len (data b) = len message / p + 1 /\ padding b = 0) long /\
      Forall (fun b => len (data b) = len message / p /\
                       padding b = if len message mod p =? 0 then 0 else 1)
             short /\
      concat (map data long) ++ concat (map data short) = message.
Proof.
  intros message p Hlen Hp.
  pose proof (len_nonneg _ message) as H0.
  pose proof (Z.mod_pos_bound (len message) p ltac:(lia)) as Hr.
  assert (Hq : 0 <= len message / p) by (apply Z.div_pos; lia).
  assert (Hq2 : len message / p <= len message)
    by (apply Z.div_le_upper_bound; nia).
  assert (H53 : 2 ^ 53 = 9007199254740992) by reflexivity.
  assert (Hmax : max_int = 9223372036854775807) by reflexivity.
  destruct (partitionBytes_shape message p Hlen Hp)
    as [long [short [E [HlL [HlS [HaL [HaS Hc]]]]]]].
  unfold sourceBlocks. rewrite E. cbn [bind fst snd].
  destruct long as [|l0 long].
  - exists [], short. cbn [equalizeBlockLengths app].
    change (len []) with 0 in HlL. rewrite <- HlL.
    change (0 =? 0) with true. cbn iota.
    split; [reflexivity|]. split; [reflexivity|]. split; [lia|].
    split; [constructor|]. split; [assumption|assumption].
  - destruct short as [|s0 short].
    { exfalso. change (len []) with 0 in HlS. lia. }
    assert (Hne : (len message mod p =? 0) = false).
    { apply Z.eqb_neq. rewrite <- HlL, len_cons.
      pose proof (len_nonneg _ long). lia. }
    rewrite Hne.
    eexists (l0 :: long), _. split; [reflexivity|].
    split; [assumption|]. split.
    { unfold len in *. rewrite length_map. assumption. }
    split; [assumption|]. split.
    + apply Forall_forall. intros b Hb. apply in_map_iff in Hb.
      destruct Hb as [s [<- Hs]]. cbn [data padding].
      rewrite Forall_forall in HaS. destruct (HaS s Hs) as [Hd Hpad].
      split; [assumption|].
      pose proof (Forall_inv HaL) as [Hd0 Hp0]. cbn beta in Hd0, Hp0.
      unfold block_length. rewrite Hd, Hpad, Hd0, Hp0, !Z.add_0_r.
      rewrite (wrap64_small (len message / p + 1)) by lia.
      rewrite (wrap64_small (len message / p)) by lia.
      replace (len message / p + 1 - len message / p) with 1 by lia.
      reflexivity.
    + rewrite map_map. cbn [data]. assumption.
Qed.

(** X4: the source blocks that the Binary and the Luby codec (and, as a
    first step, the other three) make of a message of less than [2^53]
    bytes: [p] blocks of one length, the ceiling of [len / p], with at
    most one byte of padding each and with the message as their data put
    end to end. *)
Theorem sourceBlocks_spec :
  forall (message : list Z) (p : Z),
    len message < 2 ^ 53 -> 0 < p <= max_int ->
    exists X,
      sourceBlocks message p = Ok X /\
      len X = p /\
      concat (map data X) = message /\
      Forall (fun b => block_length b = ceil_div (len message) p /\
                       0 <= padding b <= 1) X.
Proof.
  intros message p Hlen Hp.
  pose proof (len_nonneg _ message) as H0.
  pose proof (Z.mod_pos_bound (len message) p ltac:(lia)) as Hr.
  pose proof (Z.div_mod (len message) p ltac:(lia)) as Hdm.
  assert (Hq : 0 <= len message / p) by (apply Z.div_pos; lia).
  assert (Hq2 : len message / p <= len message)
    by (apply Z.div_le_upper_bound; nia).
  assert (H53 : 2 ^ 53 = 9007199254740992) by reflexivity.
  assert (Hmax : max_int = 9223372036854775807) by reflexivity.
  assert (Hc : ceil_div (len message) p =
               if len message mod p =? 0 then len message / p
               else len message / p + 1).
  { unfold ceil_div. destruct (len message mod p =? 0) eqn:E.
    - apply Z.eqb_eq in E.
      assert (Hd : (- len message) / p = - (len message / p))
        by (symmetry; apply Z.div_unique with (r := 0); lia).
      lia.
    - apply Z.eqb_neq in E.
      assert (Hd : (- len message) / p = - (len message / p) - 1)
        by (symmetry; apply Z.div_unique with (r := p - len message mod p); lia).
      lia. }
  destruct (sourceBlocks_shape message p Hlen Hp)
    as [long [short [E [HlL [HlS [HaL [HaS Hcat]]]]]]].
  exists (long ++ short). split; [assumption|].
  split; [rewrite len_app; lia|].
  split; [now rewrite map_app, concat_app|].
  apply Forall_app. split.
  - destruct (len message mod p =? 0) eqn:Em.
    + apply Z.eqb_eq in Em. rewrite Em in HlL.
      destruct long; [constructor|]. rewrite len_cons in HlL.
      pose proof (len_nonneg _ long). lia.
    + eapply Forall_impl; [|exact HaL]. cbn beta. intros b [Hd Hpad].
      unfold block_length. rewrite Hd, Hpad, Z.add_0_r, Hc.
      rewrite wrap64_small by lia. lia.
  - eapply Forall_impl; [|exact HaS]. cbn beta. intros b [Hd Hpad].
    unfold block_length. rewrite Hd, Hpad, Hc.
    destruct (len message mod p =? 0); rewrite wrap64_small by lia; lia.
Qed.

Lemma sourceBlocks_spec_witness :
  len [1; 2; 3; 4; 5; 6; 7] < 2 ^ 53 /\
  0 < 3 <= max_int /\
  sourceBlocks [1; 2; 3; 4; 5; 6; 7] 3 =
    Ok [mkBlock [1; 2; 3] 0; mkBlock [4; 5] 1; mkBlock [6; 7] 1].
Proof.
  assert (H1 : len [1; 2; 3; 4; 5; 6; 7] < 2 ^ 53) by reflexivity.
  assert (H2 : 0 < 3 <= max_int) by (split; [reflexivity|discriminate]).
  split; [exact H1|]. split; [exact H2|].
  destruct (sourceBlocks_spec [1; 2; 3; 4; 5; 6; 7] 3 H1 H2) as [X [E _]].
  rewrite E. vm_compute in E. exact (eq_sym E).
Defined.

(** ** Pasting the blocks together *)

Lemma firstn_agree :
  forall (xb vb : list Z),
    (forall k, nth k vb 0 = nth k xb 0) -> (length xb <= length vb)%nat ->
    firstn (length xb) vb = xb.
Proof.
  induction xb as [|x xs IH]; intros vb H Hl; [reflexivity|].
  destruct vb as [|y ys]; simpl in Hl; [lia|].
  simpl. f_equal.
  - exact (H 0%nat).
  - apply IH; [|lia]. intro k. exact (H (S k)).
Qed.

Lemma agrees_slice :
  forall vb xb : block,
    agrees vb xb -> slice_to (data vb) (len (data xb)) = Some (data xb).
Proof.
  intros vb xb [Hb Hl]. unfold slice_to.
  pose proof (len_nonneg _ (data xb)) as H0.
  destruct (0 <=? len (data xb)) eqn:E1; [|apply Z.leb_gt in E1; lia].
  destruct (len (data xb) <=? len (data vb)) eqn:E2;
    [|apply Z.leb_gt in E2; lia].
  cbn [andb]. f_equal. unfold len at 1. rewrite Nat2Z.id.
  apply firstn_agree; [exact Hb|]. unfold len in Hl. lia.
Qed.

Lemma skipn_nth_error :
  forall (A : Type) (l : list A) (n : nat) (x : A),
    nth_error l n = Some x -> skipn n l = x :: skipn (S n) l.
Proof.
  intros A l. induction l as [|y l IH]; intros [|n] x H; simpl in *;
    try discriminate.
  - now inversion H.
  - now apply IH.
Qed.

Lemma append_rows_agree :
  forall (n : nat) (i l : Z) (vs X : list block) (out : list Z),
    0 <= i ->
    (forall t, i <= t < i + Z.of_nat n ->
       exists vb xb, idx vs t = Some vb /\ idx X t = Some xb /\
                     agrees vb xb /\ len (data xb) = l) ->
    append_rows n i l vs out =
    Ok (out ++ concat (map data (firstn n (skipn (Z.to_nat i) X)))).
Proof.
  induction n as [|n IH]; intros i l vs X out Hi H.
  - simpl. now rewrite app_nil_r.
  - destruct (H i ltac:(lia)) as [vb [xb [Hv [Hx [Hag Hl]]]]].
    cbn [append_rows]. rewrite Hv. cbn [of_option bind].
    rewrite <- Hl, (agrees_slice vb xb Hag). cbn [of_option bind].
    rewrite (IH (i + 1) (len (data xb)) vs X (out ++ data xb)).
    + f_equal. unfold idx in Hx. destruct (i <? 0); [discriminate|].
      rewrite (skipn_nth_error _ X (Z.to_nat i) xb Hx).
      cbn [firstn map concat]. rewrite <- app_assoc.
      replace (Z.to_nat (i + 1)) with (S (Z.to_nat i)) by lia. reflexivity.
    + lia.
    + intros t Ht. destruct (H t ltac:(lia)) as [vb' [xb' [H1 [H2 [H3 H4]]]]].
      exists vb', xb'. rewrite Hl. auto.
Qed.

Lemma Forall2_idx :
  forall (A B : Type) (R : A -> B -> Prop) (l1 : list A) (l2 : list B),
    Forall2 R l1 l2 ->
    forall t y, idx l2 t = Some y -> exists x, idx l1 t = Some x /\ R x y.
Proof.
  intros A B R l1 l2 H. induction H as [|x y l1 l2 Hxy _ IH]; intros t z Ht.
  - unfold idx in Ht. destruct (t <? 0); [discriminate|].
    destruct (Z.to_nat t); discriminate.
  - assert (Ht0 : 0 <= t) by (apply idx_Some_range in Ht; lia).
    destruct (Z.eq_dec t 0) as [->|Hne].
    + rewrite idx_cons_0 in Ht. inversion Ht; subst.
      exists x. split; [reflexivity|assumption].
    + rewrite idx_cons_pos in Ht |- * by lia. now apply IH.
Qed.

Lemma idx_app_l :
  forall (A : Type) (l1 l2 : list A) (t : Z),
    0 <= t < len l1 -> idx (l1 ++ l2) t = idx l1 t.
Proof.
  intros A l1 l2 t Ht. unfold idx, len in *.
  destruct (t <? 0); [reflexivity|]. apply nth_error_app1. lia.
Qed.

Lemma idx_app_r :
  forall (A : Type) (l1 l2 : list A) (t : Z),
    len l1 <= t -> idx (l1 ++ l2) t = idx l2 (t - len l1).
Proof.
  intros A l1 l2 t Ht. unfold idx, len in *.
  destruct (t <? 0) eqn:E1; [apply Z.ltb_lt in E1; lia|].
  destruct (t - Z.of_nat (length l1) <? 0) eqn:E2; [apply Z.ltb_lt in E2; lia|].
  rewrite nth_error_app2 by lia. f_equal. lia.
Qed.

Lemma Forall_idx :
  forall (A : Type) (P : A -> Prop) (l : list A) (t : Z) (x : A),
    Forall P l -> idx l t = Some x -> P x.
Proof.
  intros A P l t x H Ht. rewrite Forall_forall in H. apply H.
  unfold idx in Ht. destruct (t <? 0); [discriminate|].
  eapply nth_error_In; eassumption.
Qed.

(** [reconstruct] on a value column that agrees with the source blocks of
    the message. *)
Lemma reconstruct_agrees :
  forall (message : list Z) (p : Z) (X : list block) (m : sparseMatrix)
         (lenLong lenShort numLong numShort : Z),
    len message < 2 ^ 53 -> 0 < p <= max_int ->
    sourceBlocks message p = Ok X ->
    partition (len message) p = Ok (lenLong, lenShort, numLong, numShort) ->
    Forall2 agrees (v m) X ->
    reconstruct m (len message) lenLong lenShort numLong numShort = Ok message.
Proof.
  intros message p X m lenLong lenShort numLong numShort Hlen Hp HX Hpart Hag.
  pose proof (len_nonneg _ message) as H0.
  pose proof (Z.mod_pos_bound (len message) p ltac:(lia)) as Hr.
  assert (Hmax : max_int = 9223372036854775807) by reflexivity.
  rewrite partition_eval in Hpart by lia. inversion Hpart; subst; clear Hpart.
  destruct (sourceBlocks_shape message p Hlen Hp)
    as [long [short [E [HlL [HlS [HaL [HaS Hcat]]]]]]].
  rewrite E in HX. inversion HX; subst X; clear HX.
  unfold reconstruct.
  destruct (len message <? 0) eqn:E0; [apply Z.ltb_lt in E0; lia|].
  replace (len message mod p + (p - len message mod p)) with p by lia.
  rewrite (wrap64_small p) by lia.
  rewrite (append_rows_agree _ 0 _ (v m) (long ++ short) []).
  - cbn [bind].
    rewrite (append_rows_agree _ (len message mod p) _ (v m) (long ++ short)).
    + f_equal. cbn [app Z.to_nat skipn].
      rewrite <- HlL. unfold len at 1 3. rewrite !Nat2Z.id.
      rewrite firstn_app, firstn_all, Nat.sub_diag, firstn_O, app_nil_r.
      rewrite skipn_app, skipn_all, Nat.sub_diag, skipn_O. cbn [app].
      rewrite HlL.
      replace (Z.to_nat (p - len message mod p)) with (length short)
        by (unfold len at 1 in HlS; lia).
      rewrite firstn_all. exact Hcat.
    + lia.
    + intros t Ht. rewrite Z2Nat.id in Ht by lia.
      destruct (idx_in_range _ short (t - len long)
                  ltac:(rewrite HlL, HlS; lia)) as [xb Hxb].
      assert (Hx : idx (long ++ short) t = Some xb)
        by (rewrite idx_app_r by lia; assumption).
      destruct (Forall2_idx _ _ _ _ _ Hag t xb Hx) as [vb [Hvb Hab]].
      exists vb, xb. split; [assumption|]. split; [assumption|].
      split; [assumption|].
      exact (proj1 (Forall_idx _ _ _ _ _ HaS Hxb)).
  - lia.
  - intros t Ht. rewrite Z2Nat.id in Ht by lia.
    destruct (idx_in_range _ long t ltac:(lia)) as [xb Hxb].
    assert (Hx : idx (long ++ short) t = Some xb)
      by (rewrite idx_app_l by lia; assumption).
    destruct (Forall2_idx _ _ _ _ _ Hag t xb Hx) as [vb [Hvb Hab]].
    exists vb, xb. split; [assumption|]. split; [assumption|].
    split; [assumption|].
    pose proof (proj1 (Forall_idx _ _ _ _ _ HaL Hxb)) as Hd. cbn beta in Hd.
    rewrite Hd.
    destruct (len message mod p =? 0) eqn:Em; [|reflexivity].
    apply Z.eqb_eq in Em. lia.
Qed.

(** ** Equations that are true of the source blocks *)

Lemma xor_sum_xor_indices :
  forall (X : list block) (a b : list Z) (k : nat),
    xor_sum X (xor_indices a b) k = Z.lxor (xor_sum X a k) (xor_sum X b k).
Proof.
  intros X a. induction a as [|c cs IHa]; intros b k.
  - cbn [xor_indices xor_sum fold_right]. now rewrite Z.lxor_0_l.
  - induction b as [|x xs IHb].
    + rewrite xor_indices_nil_r. cbn [xor_sum fold_right].
      now rewrite Z.lxor_0_r.
    + simpl xor_indices. destruct (c =? x) eqn:E1.
      * apply Z.eqb_eq in E1. subst x. rewrite IHa.
        cbn [xor_sum fold_right]. fold (xor_sum X cs k). fold (xor_sum X xs k).
        set (s := source_byte X c k). set (A := xor_sum X cs k).
        set (B := xor_sum X xs k).
        rewrite (Z.lxor_comm s B), Z.lxor_assoc, <- (Z.lxor_assoc A B s).
        rewrite (Z.lxor_comm (Z.lxor A B) s), <- Z.lxor_assoc.
        now rewrite Z.lxor_nilpotent, Z.lxor_0_l.
      * destruct (c <? x).
        -- cbn [xor_sum fold_right]. fold (xor_sum X (xor_indices cs (x :: xs)) k).
           rewrite IHa. cbn [xor_sum fold_right]. now rewrite Z.lxor_assoc.
        -- change (xor_sum X (x :: xor_indices (c :: cs) xs) k =
                   Z.lxor (xor_sum X (c :: cs) k) (xor_sum X (x :: xs) k)).
           cbn [xor_sum fold_right] in *. fold (xor_sum X xs k) in *.
           fold (xor_sum X cs k) in *.
           fold (xor_sum X (xor_indices (c :: cs) xs) k). rewrite IHb.
           set (sc := source_byte X c k). set (sx := source_byte X x k).
           set (A := xor_sum X cs k). set (B := xor_sum X xs k).
           rewrite <- Z.lxor_assoc, (Z.lxor_comm sx (Z.lxor sc A)).
           now rewrite Z.lxor_assoc.
Qed.

Lemma covers_weaken :
  forall (X : list block) (indices : list Z) (b b' : block),
    covers X indices b -> len (data b) <= len (data b') -> covers X indices b'.
Proof.
  intros X indices b b' H Hl. unfold covers in *.
  eapply Forall_impl; [|exact H]. cbn beta. intros t Ht x Hx.
  specialize (Ht x Hx). lia.
Qed.

Lemma covers_xor :
  forall (X : list block) (row comps : list Z) (vs b : block),
    covers X row vs -> covers X comps b ->
    covers X (xor_indices row comps) (block_xor b vs).
Proof.
  intros X row comps vs b Hr Hc. unfold covers.
  apply xor_indices_Forall.
  - apply (covers_weaken X row vs); [assumption|].
    rewrite block_xor_data_len. lia.
  - apply (covers_weaken X comps b); [assumption|].
    rewrite block_xor_data_len. lia.
Qed.

Lemma equation_holds_xor :
  forall (X : list block) (row comps : list Z) (vs b : block),
    equation_holds X row vs -> equation_holds X comps b ->
    equation_holds X (xor_indices row comps) (block_xor b vs).
Proof.
  intros X row comps vs b Hr Hc k.
  rewrite byte_at_block_xor, xor_sum_xor_indices, (Hr k), (Hc k).
  apply Z.lxor_comm.
Qed.

Lemma rows_hold_set_row :
  forall (X : list block) (m : sparseMatrix) (s : Z) (row : list Z) (b : block)
         (coeff' : list (list Z)) (v' : list block),
    rows_hold X m -> equation_holds X row b -> covers X row b ->
    upd (coeff m) s row = Some coeff' -> upd (v m) s b = Some v' ->
    rows_hold X {| coeff := coeff'; v := v' |}.
Proof.
  intros X m s row b coeff' v' Hm He Hc Hu1 Hu2 i r vb Hr Hv.
  cbn [coeff v] in Hr, Hv. destruct (Z.eq_dec s i) as [->|Hne].
  - rewrite (idx_upd_same _ _ _ _ _ Hu1) in Hr.
    rewrite (idx_upd_same _ _ _ _ _ Hu2) in Hv.
    inversion Hr; inversion Hv; subst. now split.
  - rewrite (idx_upd_other _ _ _ _ _ _ Hu1 Hne) in Hr.
    rewrite (idx_upd_other _ _ _ _ _ _ Hu2 Hne) in Hv.
    exact (Hm i r vb Hr Hv).
Qed.

(** The loop of [addEquation] keeps the equations true. *)
Lemma addEquation_loop_sound :
  forall (X : list block) (fuel : nat) (m : sparseMatrix) (components : list Z)
         (b : block) (m1 : sparseMatrix) (c1 : list Z) (b1 : block),
    addEquation_loop fuel m components b = Ok (m1, c1, b1) ->
    rows_hold X m -> equation_holds X components b -> covers X components b ->
    rows_hold X m1 /\ equation_holds X c1 b1 /\ covers X c1 b1.
Proof.
  intros X fuel. induction fuel as [|fuel IH];
    intros m components b m1 c1 b1 E Hm He Hc;
    rewrite addEquation_loop_unfold in E;
    (destruct components as [|s tl]; [inversion E; subst; auto|]);
    apply bind_Ok_inv in E; destruct E as [row [Hrow E]];
    apply of_option_Ok_inv in Hrow;
    (destruct row as [|r0 rtl]; [inversion E; subst; auto|]);
    [discriminate|].
  destruct (len (r0 :: rtl) <=? len (s :: tl)).
  - apply bind_Ok_inv in E. destruct E as [r [Hr E]].
    unfold xorRow in Hr.
    apply bind_Ok_inv in Hr. destruct Hr as [vs [Hvs Hr]].
    apply of_option_Ok_inv in Hvs.
    apply bind_Ok_inv in Hr. destruct Hr as [row' [Hrow' Hr]].
    apply of_option_Ok_inv in Hrow'.
    inversion Hr; subst r; clear Hr. cbn [fst snd] in E.
    rewrite Hrow in Hrow'. inversion Hrow'; subst row'; clear Hrow'.
    destruct (Hm s (r0 :: rtl) vs Hrow Hvs) as [Hre Hrc].
    refine (IH _ _ _ _ _ _ E Hm _ _).
    + now apply equation_holds_xor.
    + now apply covers_xor.
  - apply bind_Ok_inv in E. destruct E as [coeff' [Hu1 E]].
    apply of_option_Ok_inv in Hu1.
    apply bind_Ok_inv in E. destruct E as [vs [Hvs E]].
    apply of_option_Ok_inv in Hvs.
    apply bind_Ok_inv in E. destruct E as [v' [Hu2 E]].
    apply of_option_Ok_inv in Hu2.
    destruct (Hm s (r0 :: rtl) vs Hrow Hvs) as [Hre Hrc].
    refine (IH _ _ _ _ _ _ E _ Hre Hrc).
    exact (rows_hold_set_row X m s (s :: tl) b coeff' v' Hm He Hc Hu1 Hu2).
Qed.

Lemma addEquation_sound :
  forall (X : list block) (fuel : nat) (m : sparseMatrix) (components : list Z)
         (b : block) (m' : sparseMatrix),
    addEquation fuel m components b = Ok m' ->
    rows_hold X m -> equation_holds X components b -> covers X components b ->
    rows_hold X m'.
Proof.
  intros X fuel m components b m' E Hm He Hc. unfold addEquation in E.
  apply bind_Ok_inv in E. destruct E as [[[m1 c1] b1] [Hloop E]].
  destruct (addEquation_loop_sound X _ _ _ _ _ _ _ Hloop Hm He Hc)
    as [Hm1 [He1 Hc1]].
  destruct c1 as [|s1 tl1]; [inversion E; subst; assumption|].
  apply bind_Ok_inv in E. destruct E as [coeff' [Hu1 E]].
  apply of_option_Ok_inv in Hu1.
  apply bind_Ok_inv in E. destruct E as [v' [Hu2 E]].
  apply of_option_Ok_inv in Hu2.
  inversion E; subst m'. eapply rows_hold_set_row; eassumption.
Qed.

Lemma newSparseMatrix_rows_hold :
  forall (X : list block) (L : Z), rows_hold X (newSparseMatrix L).
Proof.
  intros X L i row b Hr Hv. unfold newSparseMatrix in *. cbn [coeff v] in *.
  unfold idx in Hr, Hv. destruct (i <? 0); [discriminate|].
  apply nth_error_In in Hr. apply nth_error_In in Hv.
  apply repeat_spec in Hr. apply repeat_spec in Hv. subst.
  split; [|constructor]. intro k. unfold byte_at. cbn. now destruct k.
Qed.

(** ** Back substitution *)

Lemma reduce_row_spec :
  forall (ci : list Z) (i j : Z) (vi : block) (tail : list Z)
         (vs : list block) (vj : block),
    idx ci 0 = Some i -> i <> j -> StronglySorted Z.lt tail ->
    idx vs i = Some vi -> idx vs j = Some vj ->
    exists vs',
      reduce_row ci tail i j vs = Ok vs' /\
      len vs' = len vs /\
      (forall t, t <> j -> idx vs' t = idx vs t) /\
      idx vs' j = Some (if member i tail then block_xor vj vi else vj).
Proof.
  intros ci i j vi tail. induction tail as [|c rest IH];
    intros vs vj Hci Hij Hs Hvi Hvj.
  - exists vs. simpl. auto.
  - inversion Hs as [|? ? Hrest Hc]; subst.
    cbn [reduce_row]. rewrite Hci. cbn [of_option bind].
    rewrite member_cons, (Z.eqb_sym i c).
    destruct (c =? i) eqn:E.
    + apply Z.eqb_eq in E. subst c. rewrite Hvj, Hvi. cbn [of_option bind].
      pose proof (idx_Some_range _ _ _ _ Hvj) as Hjr.
      destruct (upd vs j (block_xor vj vi)) as [vs1|] eqn:Hu;
        [|rewrite upd_in_range in Hu by assumption; discriminate].
      cbn [of_option bind].
      destruct (IH vs1 (block_xor vj vi) Hci Hij Hrest) as [vs' [E' [Hl [Ho Hj]]]].
      * rewrite (idx_upd_other _ _ _ _ _ _ Hu) by congruence. assumption.
      * apply (idx_upd_same _ _ _ _ _ Hu).
      * exists vs'. split; [assumption|].
        split; [rewrite Hl; apply (upd_len _ _ _ _ _ Hu)|]. split.
        -- intros t Ht. rewrite Ho by assumption.
           apply (idx_upd_other _ _ _ _ _ _ Hu). congruence.
        -- rewrite Hj, (member_above i rest Hc). reflexivity.
    + cbn [orb]. now apply IH.
Qed.

Lemma filter_above :
  forall (i : Z) (l : list Z),
    Forall (Z.le i) l -> filter (fun u => u <? i) l = [].
Proof.
  intros i l H. induction H as [|x l Hx _ IH]; [reflexivity|].
  simpl. destruct (x <? i) eqn:E; [apply Z.ltb_lt in E; lia|assumption].
Qed.

Lemma xor_sum_app :
  forall (X : list block) (a b : list Z) (k : nat),
    xor_sum X (a ++ b) k = Z.lxor (xor_sum X a k) (xor_sum X b k).
Proof.
  intros X a b k. induction a as [|x a IH].
  - cbn [app xor_sum fold_right]. symmetry. apply Z.lxor_0_l.
  - cbn [app xor_sum fold_right] in *. fold (xor_sum X (a ++ b) k).
    fold (xor_sum X a k). rewrite IH. now rewrite Z.lxor_assoc.
Qed.

(** One more index cancelled from a strictly ascending row. *)
Lemma xor_sum_filter_step :
  forall (X : list block) (i : Z) (row : list Z) (k : nat),
    StronglySorted Z.lt row ->
    xor_sum X (filter (fun u => u <? i + 1) row) k =
    Z.lxor (xor_sum X (filter (fun u => u <? i) row) k)
           (if member i row then source_byte X i k else 0).
Proof.
  intros X i row k H. induction H as [|x row Hs IH Hx].
  - reflexivity.
  - rewrite member_cons. cbn [filter].
    destruct (Z.lt_trichotomy x i) as [Hlt|[->|Hgt]].
    + assert (E1 : (x <? i + 1) = true) by (apply Z.ltb_lt; lia).
      assert (E2 : (x <? i) = true) by (apply Z.ltb_lt; lia).
      assert (E3 : (i =? x) = false) by (apply Z.eqb_neq; lia).
      rewrite E1, E2, E3. cbn [orb xor_sum fold_right].
      fold (xor_sum X (filter (fun u => u <? i + 1) row) k).
      fold (xor_sum X (filter (fun u => u <? i) row) k).
      rewrite IH. now rewrite Z.lxor_assoc.
    + assert (E1 : (i <? i + 1) = true) by (apply Z.ltb_lt; lia).
      rewrite E1, Z.ltb_irrefl, Z.eqb_refl. cbn [orb].
      rewrite (filter_above (i + 1) row), (filter_above i row).
      * cbn [xor_sum fold_right]. now rewrite Z.lxor_0_r, Z.lxor_0_l.
      * eapply Forall_impl; [|exact Hx]. cbn beta. intros; lia.
      * eapply Forall_impl; [|exact Hx]. cbn beta. intros; lia.
    + assert (E1 : (x <? i + 1) = false) by (apply Z.ltb_ge; lia).
      assert (E2 : (x <? i) = false) by (apply Z.ltb_ge; lia).
      assert (E3 : (i =? x) = false) by (apply Z.eqb_neq; lia).
      rewrite E1, E2, E3. cbn [orb].
      rewrite (filter_above (i + 1) row), (filter_above i row).
      * rewrite (member_above i row); [reflexivity|].
        eapply Forall_lt_trans; eassumption.
      * eapply Forall_impl; [|exact Hx]. cbn beta. intros; lia.
      * eapply Forall_impl; [|exact Hx]. cbn beta. intros; lia.
Qed.

(** The part of a led row up to its leading index is that index. *)
Lemma xor_sum_led :
  forall (X : list block) (t : Z) (row : list Z) (k : nat),
    idx row 0 = Some t -> StronglySorted Z.lt row ->
    xor_sum X (filter (fun u => u <? t + 1) row) k = source_byte X t k.
Proof.
  intros X t row k Hhd Hs. destruct row as [|x row]; [discriminate|].
  rewrite idx_cons_0 in Hhd. inversion Hhd; subst x.
  cbn [filter]. assert (E : (t <? t + 1) = true) by (apply Z.ltb_lt; lia).
  rewrite E, (filter_above (t + 1) row).
  - cbn [xor_sum fold_right]. apply Z.lxor_0_r.
  - apply sorted_tail_gt in Hs. eapply Forall_impl; [|exact Hs].
    cbn beta. intros; lia.
Qed.

Lemma reduced_to_ext :
  forall (X : list block) (cf : list (list Z)) (f g : Z -> Z) (vs : list block),
    (forall t, 0 <= t < len cf -> f t = g t) ->
    reduced_to X cf f vs -> reduced_to X cf g vs.
Proof.
  intros X cf f g vs Hfg [Hl H]. split; [assumption|].
  intros t row Hrow. destruct (H t row Hrow) as [vb [Hvb [Hb Hc]]].
  exists vb. split; [assumption|]. split; [|assumption].
  intro k. rewrite Hb, (Hfg t); [reflexivity|].
  eapply idx_Some_range; eassumption.
Qed.

Lemma reduce_cols_spec :
  forall (X : list block) (cf0 : list (list Z)) (i : Z) (n : nat) (j : Z)
         (cf : list (list Z)) (vs : list block),
    rows_led cf0 -> 0 <= j -> j + Z.of_nat n = i -> i < len cf0 ->
    (forall t, t <= i -> idx cf t = idx cf0 t) ->
    reduced_to X cf0 (fun t => if t <? j then i else Z.max (i + 1) (t + 1)) vs ->
    exists vs',
      reduce_cols n j i cf vs = Ok vs' /\
      reduced_to X cf0 (fun t => if t <? i then i else Z.max (i + 1) (t + 1)) vs'.
Proof.
  intros X cf0 i n. induction n as [|n IH]; intros j cf vs Hled Hj Hn Hi Hcf Hred.
  - exists vs. split; [reflexivity|].
    replace i with j by lia. replace i with j in Hred by lia. assumption.
  - destruct Hred as [Hlen Hred].
    destruct (idx_in_range _ cf0 i ltac:(lia)) as [ri Hri].
    destruct (idx_in_range _ cf0 j ltac:(lia)) as [rj Hrj].
    destruct (Hled i ri Hri) as [Hhi Hsi].
    destruct (Hled j rj Hrj) as [Hhj Hsj].
    destruct (Hred i ri Hri) as [vi [Hvi [Hbi Hci]]].
    destruct (Hred j rj Hrj) as [vj [Hvj [Hbj Hcj]]].
    assert (Ei : (i <? j) = false) by (apply Z.ltb_ge; lia).
    assert (Ej : (j <? j) = false) by apply Z.ltb_irrefl.
    rewrite Ei in Hbi. rewrite Ej in Hbj.
    rewrite Z.max_id in Hbi. rewrite Z.max_l in Hbj by lia.
    cbn [reduce_cols]. rewrite (Hcf i), Hri by lia. cbn [of_option bind].
    rewrite (Hcf j), Hrj by lia. cbn [of_option bind].
    destruct rj as [|x tail]; [discriminate|].
    rewrite idx_cons_0 in Hhj. inversion Hhj; subst x. cbn [tl].
    assert (Hst : StronglySorted Z.lt tail) by (now inversion Hsj).
    destruct (reduce_row_spec ri i j vi tail vs vj Hhi ltac:(lia) Hst Hvi Hvj)
      as [vs1 [E1 [Hl1 [Ho1 Hj1]]]].
    rewrite E1. cbn [bind].
    apply (IH (j + 1) cf vs1 Hled); try lia; [assumption|].
    split; [lia|]. intros t row Hrow.
    destruct (Z.eq_dec t j) as [->|Hne].
    + rewrite Hrj in Hrow. inversion Hrow; subst row; clear Hrow.
      eexists. split; [exact Hj1|].
      assert (Et : (j <? j + 1) = true) by (apply Z.ltb_lt; lia).
      rewrite Et.
      assert (Hm : member i (j :: tail) = member i tail).
      { rewrite member_cons.
        assert (E : (i =? j) = false) by (apply Z.eqb_neq; lia).
        now rewrite E. }
      split.
      * intro k.
        pose proof (xor_sum_filter_step X i (j :: tail) k Hsj) as Hstep.
        rewrite Hm in Hstep. rewrite <- (Hbj k) in Hstep.
        destruct (member i tail).
        -- rewrite byte_at_block_xor, (Hbi k), (xor_sum_led X i ri k Hhi Hsi).
           rewrite Hstep, Z.lxor_assoc, Z.lxor_nilpotent. apply Z.lxor_0_r.
        -- rewrite Hstep. apply Z.lxor_0_r.
      * destruct (member i tail); [|assumption].
        apply (covers_weaken X _ vj); [assumption|].
        rewrite block_xor_data_len. lia.
    + destruct (Hred t row Hrow) as [vb [Hvb [Hb Hc]]].
      exists vb. rewrite (Ho1 t Hne). split; [assumption|].
      split; [|assumption]. intro k. rewrite (Hb k).
      destruct (t <? j) eqn:E2.
      * apply Z.ltb_lt in E2.
        assert (E3 : (t <? j + 1) = true) by (apply Z.ltb_lt; lia).
        now rewrite E3.
      * apply Z.ltb_ge in E2.
        assert (E3 : (t <? j + 1) = false) by (apply Z.ltb_ge; lia).
        now rewrite E3.
Qed.

Lemma firstn_1_led :
  forall (t : Z) (row : list Z),
    idx row 0 = Some t -> slice_to row 1 = Some [t].
Proof.
  intros t [|x row] H; [discriminate|].
  rewrite idx_cons_0 in H. inversion H; subst.
  unfold slice_to. rewrite len_cons. pose proof (len_nonneg _ row).
  destruct (1 <=? len row + 1) eqn:E; [reflexivity|].
  apply Z.leb_gt in E. lia.
Qed.

Lemma reduce_rows_spec :
  forall (X : list block) (cf0 : list (list Z)) (n : nat) (m : sparseMatrix),
    rows_led cf0 -> Z.of_nat n <= len cf0 -> len (coeff m) = len cf0 ->
    (forall t, t < Z.of_nat n -> idx (coeff m) t = idx cf0 t) ->
    (forall t, Z.of_nat n <= t < len cf0 -> idx (coeff m) t = Some [t]) ->
    reduced_to X cf0 (fun t => Z.max (Z.of_nat n) (t + 1)) (v m) ->
    exists m',
      reduce_rows n m = Ok m' /\
      len (coeff m') = len cf0 /\
      (forall t, 0 <= t < len cf0 -> idx (coeff m') t = Some [t]) /\
      reduced_to X cf0 (fun t => t + 1) (v m').
Proof.
  intros X cf0 n. induction n as [|n IH]; intros m Hled Hn Hlen Hlow Hhigh Hred.
  - exists m. split; [reflexivity|]. split; [assumption|].
    split; [intros t Ht; apply Hhigh; lia|].
    eapply reduced_to_ext; [|exact Hred]. cbn beta. intros t Ht. lia.
  - cbn [reduce_rows]. set (i := Z.of_nat n).
    assert (Hi : i + 1 = Z.of_nat (S n)) by lia.
    destruct (reduce_cols_spec X cf0 i n 0 (coeff m) (v m) Hled)
      as [vs' [E Hred']]; try lia.
    { intros t Ht. apply Hlow. lia. }
    { eapply reduced_to_ext; [|exact Hred]. cbn beta. intros t Ht.
      assert (E : (t <? 0) = false) by (apply Z.ltb_ge; lia).
      rewrite E. lia. }
    rewrite E. cbn [bind].
    destruct (idx_in_range _ cf0 i ltac:(lia)) as [ri Hri].
    destruct (Hled i ri Hri) as [Hhi Hsi].
    rewrite (Hlow i), Hri by lia. cbn [of_option bind].
    rewrite (firstn_1_led i ri Hhi). cbn [of_option bind].
    destruct (upd (coeff m) i [i]) as [coeff'|] eqn:Hu;
      [|rewrite upd_in_range in Hu by lia; discriminate].
    cbn [of_option bind].
    apply IH; cbn [coeff v]; try assumption; try lia.
    + rewrite (upd_len _ _ _ _ _ Hu). assumption.
    + intros t Ht. rewrite (idx_upd_other _ _ _ _ _ _ Hu) by lia.
      apply Hlow. lia.
    + intros t Ht. destruct (Z.eq_dec i t) as [<-|Hne].
      * apply (idx_upd_same _ _ _ _ _ Hu).
      * rewrite (idx_upd_other _ _ _ _ _ _ Hu Hne). apply Hhigh. lia.
    + eapply reduced_to_ext; [|exact Hred']. cbn beta. intros t Ht.
      fold i. destruct (t <? i) eqn:E2.
      * apply Z.ltb_lt in E2. lia.
      * apply Z.ltb_ge in E2. lia.
Qed.

Lemma Forall2_of_idx :
  forall (A B : Type) (R : A -> B -> Prop) (l1 : list A) (l2 : list B),
    len l1 = len l2 ->
    (forall t x y, idx l1 t = Some x -> idx l2 t = Some y -> R x y) ->
    Forall2 R l1 l2.
Proof.
  intros A B R l1. induction l1 as [|x l1 IH]; intros [|y l2] Hl H.
  - constructor.
  - rewrite len_cons in Hl. change (len []) with 0 in Hl.
    pose proof (len_nonneg _ l2). lia.
  - rewrite len_cons in Hl. change (len []) with 0 in Hl.
    pose proof (len_nonneg _ l1). lia.
  - constructor.
    + apply (H 0); apply idx_cons_0.
    + apply IH.
      * rewrite !len_cons in Hl. lia.
      * intros t a b Ha Hb.
        assert (Ht : 0 <= t) by (apply idx_Some_range in Ha; lia).
        apply (H (t + 1)); rewrite idx_cons_pos by lia;
          now replace (t + 1 - 1) with t by lia.
Qed.

Lemma determined_rows :
  forall (m : sparseMatrix) (t : Z) (row : list Z),
    determined m = true -> idx (coeff m) t = Some row -> row <> [].
Proof.
  intros m t row Hd Hrow. unfold determined in Hd.
  rewrite forallb_forall in Hd.
  assert (Hin : In row (coeff m)).
  { unfold idx in Hrow. destruct (t <? 0); [discriminate|].
    eapply nth_error_In; eassumption. }
  specialize (Hd row Hin). intros ->. discriminate.
Qed.

(** Back substitution solves a determined triangular matrix of true
    equations. *)
Lemma reduce_solves :
  forall (X : list block) (L : Z) (m : sparseMatrix),
    matrix_inv L m -> determined m = true -> rows_hold X m -> len X = L ->
    exists m',
      reduce m = Ok m' /\
      len (coeff m') = L /\
      (forall t, 0 <= t < L -> idx (coeff m') t = Some [t]) /\
      Forall2 agrees (v m') X.
Proof.
  intros X L m Hinv Hdet Hrows HX.
  pose proof Hinv as [Hc [Hv Hrow]].
  assert (Hled : rows_led (coeff m)).
  { intros t row Ht. destruct (Hrow t row Ht) as [->|[Hhd [Hs _]]].
    - exfalso. exact (determined_rows m t [] Hdet Ht eq_refl).
    - now split. }
  assert (Hstart : reduced_to X (coeff m)
            (fun t => Z.max (Z.of_nat (length (coeff m))) (t + 1)) (v m)).
  { split; [lia|]. intros t row Ht.
    pose proof (idx_Some_range _ _ _ _ Ht) as Htr.
    destruct (idx_in_range _ (v m) t ltac:(lia)) as [vb Hvb].
    destruct (Hrows t row vb Ht Hvb) as [He Hcov].
    exists vb. split; [assumption|]. split; [|assumption].
    intro k. rewrite (He k). f_equal.
    destruct (Hrow t row Ht) as [->|[_ [_ Hrange]]]; [reflexivity|].
    clear - Hrange Hc. induction Hrange as [|x l Hx _ IH]; [reflexivity|].
    cbn [filter].
    assert (E : (x <? Z.max (Z.of_nat (length (coeff m))) (t + 1)) = true).
    { apply Z.ltb_lt. fold (len (coeff m)). lia. }
    rewrite E. now f_equal. }
  destruct (reduce_rows_spec X (coeff m) (length (coeff m)) m Hled
              ltac:(unfold len; lia) eq_refl
              (fun t _ => eq_refl)
              ltac:(intros t Ht; unfold len in Ht; lia) Hstart)
    as [m' [E [Hl' [Hc' Hred]]]].
  exists m'. split; [exact E|]. split; [lia|].
  split; [intros t Ht; apply Hc'; lia|].
  destruct Hred as [Hlv Hred].
  apply Forall2_of_idx; [lia|].
  intros t vb xb Hvb Hxb.
  pose proof (idx_Some_range _ _ _ _ Hxb) as Htr.
  destruct (idx_in_range _ (coeff m) t ltac:(lia)) as [row Ht].
  destruct (Hred t row Ht) as [vb' [Hvb' [Hb Hcov]]].
  rewrite Hvb in Hvb'. inversion Hvb'; subst vb'; clear Hvb'.
  destruct (Hled t row Ht) as [Hhd Hs].
  split.
  - intro k. rewrite (Hb k), (xor_sum_led X t row k Hhd Hs).
    unfold source_byte. now rewrite Hxb.
  - destruct row as [|x row]; [discriminate|].
    rewrite idx_cons_0 in Hhd. inversion Hhd; subst x.
    unfold covers in Hcov. apply Forall_inv in Hcov. now apply Hcov.
Qed.

(** ** Encoded blocks are true equations *)

Lemma byte_at_fold_selected :
  forall (X : list block) (l : list Z) (sym : block) (k : nat),
    byte_at (fold_left block_xor (selected_blocks X l) sym) k =
    Z.lxor (byte_at sym k) (xor_sum X l k).
Proof.
  intros X l. induction l as [|i l IH]; intros sym k.
  - cbn [selected_blocks flat_map fold_left xor_sum fold_right].
    symmetry. apply Z.lxor_0_r.
  - unfold selected_blocks. cbn [flat_map]. fold (selected_blocks X l).
    rewrite fold_left_app. cbn [xor_sum fold_right]. fold (xor_sum X l k).
    unfold source_byte. destruct (idx X i) as [b|]; cbn [fold_left].
    + rewrite IH, byte_at_block_xor. apply Z.lxor_assoc.
    + rewrite IH. now rewrite Z.lxor_0_l.
Qed.

Lemma fold_xor_data_len_mono :
  forall (bs : list block) (sym : block),
    len (data sym) <= len (data (fold_left block_xor bs sym)).
Proof.
  induction bs as [|b bs IH]; intro sym; [cbn; lia|].
  cbn [fold_left]. specialize (IH (block_xor sym b)).
  rewrite block_xor_data_len in IH. lia.
Qed.

Lemma fold_xor_data_len_in :
  forall (bs : list block) (sym b : block),
    In b bs -> len (data b) <= len (data (fold_left block_xor bs sym)).
Proof.
  induction bs as [|b0 bs IH]; intros sym b Hin; [contradiction|].
  cbn [fold_left]. destruct Hin as [->|Hin].
  - pose proof (fold_xor_data_len_mono bs (block_xor sym b)) as H.
    rewrite block_xor_data_len in H. lia.
  - now apply IH.
Qed.

Lemma covers_selected :
  forall (X : list block) (l : list Z) (sym : block),
    covers X l (fold_left block_xor (selected_blocks X l) sym).
Proof.
  intros X l sym. unfold covers. apply Forall_forall. intros t Ht x Hx.
  apply fold_xor_data_len_in. unfold selected_blocks. apply in_flat_map.
  exists t. split; [assumption|]. rewrite Hx. now left.
Qed.

(** The equation of an encoded block: its data against the indices it
    was made from. *)
Lemma encoded_block_holds :
  forall (X : list block) (l : list Z),
    let b := {| data := data (fold_left block_xor (selected_blocks X l)
                                        (newBlock 0));
                padding := 0 |} in
    equation_holds X l b /\ covers X l b.
Proof.
  intros X l b. split.
  - intro k. unfold b, byte_at. cbn [data].
    change (nth k (data (fold_left block_xor (selected_blocks X l) (newBlock 0))) 0)
      with (byte_at (fold_left block_xor (selected_blocks X l) (newBlock 0)) k).
    rewrite byte_at_fold_selected. unfold byte_at, newBlock. cbn [data].
    destruct k; apply Z.lxor_0_l.
  - exact (covers_selected X l (newBlock 0)).
Qed.

(** ** Receiving blocks *)

Lemma addBlocks_loop_ok :
  forall (X : list block) (L : Z) (fuel : nat) (pick : Z -> outcome (list Z))
         (received : list LTBlock) (m : sparseMatrix),
    2 * L + 1 <= Z.of_nat fuel ->
    matrix_inv L m -> rows_hold X m ->
    Forall (fun blk =>
              exists l, pick (BlockCode blk) = Ok l /\ sorted_indices L l /\
                        equation_holds X l {| data := Data blk; padding := 0 |} /\
                        covers X l {| data := Data blk; padding := 0 |})
           received ->
    exists m',
      addBlocks_loop fuel pick m received = Ok m' /\
      matrix_inv L m' /\ rows_hold X m'.
Proof.
  intros X L fuel pick received. induction received as [|blk rest IH];
    intros m Hfuel Hinv Hrows Hall.
  - exists m. split; [reflexivity|]. now split.
  - inversion Hall as [|? ? [l [Hl [Hs [He Hc]]]] Hrest]; subst.
    cbn [addBlocks_loop]. rewrite Hl. cbn [bind].
    destruct (addEquation_ok L fuel m l {| data := Data blk; padding := 0 |}
                Hinv Hs Hfuel) as [m1 [c1 [b1 [m' [_ [E [Hinv' _]]]]]]].
    rewrite E. cbn [bind].
    apply IH; try assumption.
    exact (addEquation_sound X fuel m l _ m' E Hrows He Hc).
Qed.

(** Encoding with a codec whose intermediate blocks are the source
    blocks, then decoding from any of the encoded blocks. *)
Lemma solver_round_trip :
  forall (c : Codec) (message ids : list Z) (fuel : nat),
    0 < SourceBlocks c <= max_int -> len message < 2 ^ 53 ->
    2 * SourceBlocks c + 1 <= Z.of_nat fuel ->
    GenerateIntermediateBlocks c message (SourceBlocks c) =
      sourceBlocks message (SourceBlocks c) ->
    (forall id, In id ids ->
       exists l, PickIndices c id = Ok l /\ sorted_indices (SourceBlocks c) l) ->
    exists blocks,
      EncodeLTBlocks message ids c = Ok blocks /\
      forall received,
        incl received blocks ->
        exists m,
          addBlocks_loop fuel (PickIndices c) (newSparseMatrix (SourceBlocks c))
            received = Ok m /\
          (determined m = true ->
           exists m', reduce_and_reconstruct m (len message) (SourceBlocks c)
                      = Ok (message, m')).
Proof.
  intros c message ids fuel HK Hlen Hfuel Hgen Hpick.
  set (K := SourceBlocks c) in *.
  destruct (sourceBlocks_shape message K Hlen HK)
    as [long [short [EX [HlL [HlS [HaL [HaS Hcat]]]]]]].
  set (X := long ++ short) in *.
  pose proof (len_nonneg _ message) as H0.
  pose proof (Z.mod_pos_bound (len message) K ltac:(lia)) as Hr.
  assert (Hq2 : len message / K <= len message)
    by (apply Z.div_le_upper_bound; nia).
  assert (H53 : 2 ^ 53 = 9007199254740992) by reflexivity.
  assert (Hmax : max_int = 9223372036854775807) by reflexivity.
  assert (HlX : len X = K) by (unfold X; rewrite len_app; lia).
  assert (Hsrc : Forall (fun b => len (data b) <= max_int) X).
  { unfold X. apply Forall_app. split.
    - eapply Forall_impl; [|exact HaL]. cbn beta. intros b [Hb _]. lia.
    - eapply Forall_impl; [|exact HaS]. cbn beta. intros b [Hb _]. lia. }
  destruct (encode_loop_spec c X ids Hsrc) as [blocks [Eenc HF]].
  { intros id Hid. destruct (Hpick id Hid) as [l [Hl [_ Hrange]]].
    exists l. split; [assumption|].
    eapply Forall_impl; [|exact Hrange]. cbn beta. intros; lia. }
  exists blocks. split.
  { unfold EncodeLTBlocks. fold K. rewrite Hgen, EX. exact Eenc. }
  intros received Hincl.
  assert (Hall : Forall (fun blk =>
            exists l, PickIndices c (BlockCode blk) = Ok l /\
                      sorted_indices K l /\
                      equation_holds X l {| data := Data blk; padding := 0 |} /\
                      covers X l {| data := Data blk; padding := 0 |})
          received).
  { apply Forall_forall. intros blk Hin. apply Hincl in Hin.
    assert (Hblk : exists id, In id ids /\ BlockCode blk = id /\
              exists l, PickIndices c id = Ok l /\
                Data blk = data (fold_left block_xor (selected_blocks X l)
                                           (newBlock 0))).
    { clear - HF Hin. induction HF as [|id b ids' blocks' [Hb Hd] _ IH].
      - contradiction.
      - destruct Hin as [<-|Hin].
        + exists id. split; [now left|]. split; assumption.
        + destruct (IH Hin) as [id' [H1 H2]]. exists id'.
          split; [now right|assumption]. }
    destruct Hblk as [id [Hid [Hcode [l [Hl HD]]]]].
    destruct (Hpick id Hid) as [l' [Hl' Hs]].
    rewrite Hl in Hl'. inversion Hl'; subst l'.
    exists l. rewrite Hcode. split; [assumption|]. split; [assumption|].
    rewrite HD. exact (encoded_block_holds X l). }
  destruct (addBlocks_loop_ok X K fuel (PickIndices c) received
              (newSparseMatrix K) Hfuel
              (newSparseMatrix_inv K ltac:(lia))
              (newSparseMatrix_rows_hold X K) Hall) as [m [Em [Hinv Hrows]]].
  exists m. split; [exact Em|]. intro Hdet.
  destruct (reduce_solves X K m Hinv Hdet Hrows HlX) as [m' [Er [_ [_ Hag]]]].
  exists m'. unfold reduce_and_reconstruct. rewrite Er. cbn [bind].
  rewrite partition_eval by lia. cbn [bind].
  rewrite (reconstruct_agrees message K X m' _ _ _ _ Hlen HK EX
             (partition_eval (len message) K ltac:(lia) HK) Hag).
  reflexivity.
Qed.

(** ** The Binary codec *)

Lemma sorted_snoc :
  forall (l : list Z) (b : Z),
    StronglySorted Z.lt l -> Forall (fun x => x < b) l ->
    StronglySorted Z.lt (l ++ [b]).
Proof.
  intros l b Hs Hb. induction Hs as [|x l Hs IH Hx].
  - repeat constructor.
  - inversion Hb; subst. cbn [app]. constructor; [now apply IH|].
    apply Forall_app. split; [assumption|]. now repeat constructor.
Qed.

Section BinaryCodec.

Context {R : RandOps}.

Lemma binary_pick_loop_sorted :
  forall (n : nat) (b : Z) (random : Rand) (indices : list Z),
    0 <= b -> sorted_indices b indices ->
    exists l,
      binary_pick_loop n b random indices = Ok l /\
      sorted_indices (b + Z.of_nat n) l.
Proof.
  induction n as [|n IH]; intros b random indices Hb Hs.
  - exists indices. split; [reflexivity|]. now rewrite Z.add_0_r.
  - cbn [binary_pick_loop]. unfold Intn. cbn [Z.leb Z.compare bind snd fst].
    replace (b + Z.of_nat (S n)) with (b + 1 + Z.of_nat n) by lia.
    apply IH; [lia|]. destruct Hs as [Hs Hr].
    destruct (fst (rand_Intn random 2) =? 1).
    + split.
      * apply sorted_snoc; [assumption|].
        eapply Forall_impl; [|exact Hr]. cbn beta. intros; lia.
      * apply Forall_app. split.
        -- eapply Forall_impl; [|exact Hr]. cbn beta. intros; lia.
        -- repeat constructor; lia.
    + split; [assumption|].
      eapply Forall_impl; [|exact Hr]. cbn beta. intros; lia.
Qed.

Lemma binaryCodec_PickIndices_sorted :
  forall (c : binaryCodec) (codeBlockIndex : Z),
    0 <= b_numSourceBlocks c ->
    exists l,
      binaryCodec_PickIndices c codeBlockIndex = Ok l /\
      sorted_indices (b_numSourceBlocks c) l.
Proof.
  intros c id HK. unfold binaryCodec_PickIndices.
  destruct (binary_pick_loop_sorted (Z.to_nat (b_numSourceBlocks c)) 0
              (rand_New (SourceMT (NewMersenneTwister id))) [])
    as [l [E Hs]]; [lia|split; constructor|].
  exists l. split; [assumption|].
  now rewrite Z.add_0_l, Z2Nat.id in Hs by lia.
Qed.


End BinaryCodec.


(** ** The solver, as its callers see it *)

(** X5: [xorRow] against row [s] returns the symmetric difference of the
    two strictly ascending index lists, strictly ascending again, together
    with the XOR of the two values; it panics when [s] is not a row of the
    matrix. *)
Theorem xorRow_symmetric_difference :
  forall (m : sparseMatrix) (s : Z) (indices : list Z) (b : block),
    (forall row vs,
       idx (coeff m) s = Some row -> idx (v m) s = Some vs ->
       StronglySorted Z.lt row -> StronglySorted Z.lt indices ->
       exists r,
         xorRow m s indices b = Ok (r, block_xor b vs) /\
         StronglySorted Z.lt r /\
         forall j, member j r = xorb (member j row) (member j indices)) /\
    (idx (v m) s = None -> xorRow m s indices b = Panic) /\
    (idx (coeff m) s = None -> xorRow m s indices b = Panic).
Proof.
  intros m s indices b. split; [|split].
  - intros row vs Hrow Hvs Hsr Hsi. unfold xorRow. rewrite Hvs, Hrow.
    cbn [of_option bind]. eexists. split; [reflexivity|].
    split; [now apply xor_indices_sorted|].
    intro j. now apply xor_indices_member.
  - intro H. unfold xorRow. now rewrite H.
  - intro H. unfold xorRow. rewrite H. now destruct (idx (v m) s).
Qed.

Lemma determined_iff_occupied :
  forall m : sparseMatrix,
    determined m = true <->
    (forall i, 0 <= i < len (coeff m) -> occupied m i = true).
Proof.
  intro m. unfold determined, occupied. rewrite forallb_forall. split.
  - intros H i Hi. destruct (idx_in_range _ (coeff m) i Hi) as [row Hrow].
    rewrite Hrow.
    assert (Hin : In row (coeff m)).
    { unfold idx in Hrow. destruct (i <? 0); [discriminate|].
      eapply nth_error_In; eassumption. }
    specialize (H row Hin). destruct row; [discriminate|reflexivity].
  - intros H row Hin. apply In_nth_error in Hin. destruct Hin as [n Hn].
    assert (Hr : (n < length (coeff m))%nat)
      by (apply nth_error_Some; congruence).
    specialize (H (Z.of_nat n) ltac:(unfold len; lia)).
    unfold idx in H.
    destruct (Z.of_nat n <? 0) eqn:E; [apply Z.ltb_lt in E; lia|].
    rewrite Nat2Z.id, Hn in H. destruct row; [discriminate|reflexivity].
Qed.

Lemma addEquation_occupied :
  forall (L : Z) (fuel : nat) (m : sparseMatrix) (components : list Z)
         (b : block),
    matrix_inv L m -> sorted_indices L components ->
    2 * L + 1 <= Z.of_nat fuel ->
    exists m',
      addEquation fuel m components b = Ok m' /\
      matrix_inv L m' /\
      (forall i, occupied m i = true -> occupied m' i = true).
Proof.
  intros L fuel m components b Hinv Hs Hfuel.
  assert (HL : 0 <= L).
  { destruct Hinv as [Hc _]. rewrite <- Hc. apply len_nonneg. }
  destruct (addEquation_loop_ok L fuel m components b Hinv Hs)
    as [m1 [c1 [b1 [E [H1 [H2 [H3 [H4 _]]]]]]]].
  { pose proof (loop_measure_bound L m components HL Hs). lia. }
  unfold addEquation. rewrite E. cbn [bind].
  destruct c1 as [|s1 tl1].
  - exists m1. split; [reflexivity|]. split; [assumption|].
    intros i Hi. now rewrite H4.
  - pose proof (sorted_indices_head _ _ _ H2) as Hs1.
    pose proof H1 as [Hc1 [Hv1 _]].
    destruct (upd (coeff m1) s1 (s1 :: tl1)) as [coeff'|] eqn:Hu1;
      [|rewrite upd_in_range in Hu1 by lia; discriminate].
    destruct (upd (v m1) s1 b1) as [v'|] eqn:Hu2;
      [|rewrite upd_in_range in Hu2 by lia; discriminate].
    cbn [of_option bind].
    exists {| coeff := coeff'; v := v' |}. split; [reflexivity|]. split.
    + eapply matrix_inv_set_row; try eassumption.
      right. split; [reflexivity|assumption].
    + intros i Hi. rewrite <- H4 in Hi. unfold occupied in *. cbn [coeff].
      destruct (Z.eq_dec s1 i) as [->|Hne].
      * now rewrite (idx_upd_same _ _ _ _ _ Hu1).
      * now rewrite (idx_upd_other _ _ _ _ _ _ Hu1 Hne).
Qed.

(** X6: [addEquation] never gives up a row: against a matrix that
    satisfies the matrix invariant, with a strictly ascending index list in
    range, the call returns, every row that held an equation before the
    call holds one after it, and a determined matrix stays determined. *)
Theorem addEquation_keeps_rows :
  forall (L : Z) (fuel : nat) (m : sparseMatrix) (components : list Z)
         (b : block),
    matrix_inv L m -> sorted_indices L components ->
    2 * L + 1 <= Z.of_nat fuel ->
    exists m',
      addEquation fuel m components b = Ok m' /\
      (forall i, occupied m i = true -> occupied m' i = true) /\
      (determined m = true -> determined m' = true).
Proof.
  intros L fuel m components b Hinv Hs Hfuel.
  destruct (addEquation_occupied L fuel m components b Hinv Hs Hfuel)
    as [m' [E [Hinv' Hocc]]].
  exists m'. split; [assumption|]. split; [assumption|].
  intro Hd. apply determined_iff_occupied. intros i Hi. apply Hocc.
  apply (proj1 (determined_iff_occupied m) Hd).
  destruct Hinv as [Hc _]. destruct Hinv' as [Hc' _]. lia.
Qed.

Lemma matrix_inv_example :
  matrix_inv 2 {| coeff := [[0; 1]; [1]];
                  v := [mkBlock [3] 0; mkBlock [2] 0] |}.
Proof.
  split; [reflexivity|]. split; [reflexivity|].
  intros i row H. unfold idx in H.
  destruct (i <? 0) eqn:E; [discriminate|]. apply Z.ltb_ge in E.
  destruct (Z.to_nat i) as [|[|n]] eqn:En; cbn in H;
    try (destruct n; discriminate); inversion H; subst.
  - right. replace i with 0 by lia. split; [reflexivity|].
    split; repeat constructor; lia.
  - right. replace i with 1 by lia. split; [reflexivity|].
    split; repeat constructor; lia.
Qed.

Lemma addEquation_keeps_rows_witness :
  matrix_inv 2 {| coeff := [[0; 1]; [1]];
                  v := [mkBlock [3] 0; mkBlock [2] 0] |} /\
  sorted_indices 2 [0] /\
  2 * 2 + 1 <= Z.of_nat 5 /\
  exists m',
    addEquation 5 {| coeff := [[0; 1]; [1]];
                     v := [mkBlock [3] 0; mkBlock [2] 0] |}
      [0] (mkBlock [1] 0) = Ok m' /\
    (forall i,
       occupied {| coeff := [[0; 1]; [1]];
                   v := [mkBlock [3] 0; mkBlock [2] 0] |} i = true ->
       occupied m' i = true) /\
    (determined {| coeff := [[0; 1]; [1]];
                   v := [mkBlock [3] 0; mkBlock [2] 0] |} = true ->
     determined m' = true).
Proof.
  assert (Hs : sorted_indices 2 [0]) by (split; repeat constructor; lia).
  assert (Hf : 2 * 2 + 1 <= Z.of_nat 5) by discriminate.
  split; [exact matrix_inv_example|]. split; [exact Hs|]. split; [exact Hf|].
  exact (addEquation_keeps_rows 2 5 _ [0] (mkBlock [1] 0)
           matrix_inv_example Hs Hf).
Defined.


Lemma equation_example :
  equation_holds [mkBlock [1] 0; mkBlock [2] 0] [0; 1] (mkBlock [3] 0) /\
  covers [mkBlock [1] 0; mkBlock [2] 0] [0; 1] (mkBlock [3] 0).
Proof.
  split.
  - intro k. destruct k as [|[|k]]; reflexivity.
  - repeat constructor; intros x Hx; cbn in Hx; inversion Hx; subst;
      cbn; lia.
Qed.


(** X8: [reduce] solves a determined matrix.  When the matrix satisfies
    the matrix invariant, every row holds an equation and the equations
    are true of the source blocks [X], the call returns, every row [i] is
    cut down to [[i]], and the value of row [i] reads as source block
    [i], byte by byte, with at least as many data bytes. *)
Theorem reduce_back_substitution :
  forall (X : list block) (L : Z) (m : sparseMatrix),
    matrix_inv L m -> determined m = true -> rows_hold X m -> len X = L ->
    exists m',
      reduce m = Ok m' /\
      len (coeff m') = L /\
      (forall t, 0 <= t < L -> idx (coeff m') t = Some [t]) /\
      Forall2 agrees (v m') X.
Proof. exact reduce_solves. Qed.

Lemma rows_hold_example :
  rows_hold [mkBlock [1] 0; mkBlock [2] 0]
    {| coeff := [[0; 1]; [1]]; v := [mkBlock [3] 0; mkBlock [2] 0] |}.
Proof.
  intros i row b Hr Hv. unfold idx in Hr, Hv. cbn [coeff v] in Hr, Hv.
  destruct (i <? 0) eqn:E; [discriminate|].
  destruct (Z.to_nat i) as [|[|n]] eqn:En; cbn in Hr, Hv;
    try (destruct n; discriminate); inversion Hr; inversion Hv; subst.
  - exact equation_example.
  - split.
    + intro k. destruct k as [|[|k]]; reflexivity.
    + repeat constructor; intros x Hx; cbn in Hx; inversion Hx; subst;
        cbn; lia.
Qed.

Lemma reduce_back_substitution_witness :
  matrix_inv 2 {| coeff := [[0; 1]; [1]];
                  v := [mkBlock [3] 0; mkBlock [2] 0] |} /\
  determined {| coeff := [[0; 1]; [1]];
                v := [mkBlock [3] 0; mkBlock [2] 0] |} = true /\
  rows_hold [mkBlock [1] 0; mkBlock [2] 0]
    {| coeff := [[0; 1]; [1]]; v := [mkBlock [3] 0; mkBlock [2] 0] |} /\
  len [mkBlock [1] 0; mkBlock [2] 0] = 2 /\
  reduce {| coeff := [[0; 1]; [1]]; v := [mkBlock [3] 0; mkBlock [2] 0] |}
  = Ok {| coeff := [[0]; [1]]; v := [mkBlock [1] 0; mkBlock [2] 0] |}.
Proof.
  split; [exact matrix_inv_example|]. split; [reflexivity|].
  split; [exact rows_hold_example|]. split; [reflexivity|].
  destruct (reduce_back_substitution _ 2 _ matrix_inv_example eq_refl
              rows_hold_example eq_refl) as [m' [E _]].
  rewrite E. vm_compute in E. exact (eq_sym E).
Defined.

Lemma reduce_row_no_timeout :
  forall ci tail i j vs, reduce_row ci tail i j vs <> Timeout.
Proof.
  intros ci tail i j. induction tail as [|c rest IH]; intro vs; [discriminate|].
  cbn [reduce_row]. destruct (idx ci 0) as [ci0|]; [|discriminate].
  cbn [of_option bind]. destruct (c =? ci0); [|apply IH].
  destruct (idx vs j) as [vj|]; [|discriminate].
  destruct (idx vs i) as [vi|]; [|discriminate].
  cbn [of_option bind].
  destruct (upd vs j (block_xor vj vi)); [|discriminate].
  cbn [of_option bind]. apply IH.
Qed.

Lemma reduce_cols_no_timeout :
  forall n j i cf vs, reduce_cols n j i cf vs <> Timeout.
Proof.
  induction n as [|n IH]; intros j i cf vs; [discriminate|].
  cbn [reduce_cols]. destruct (idx cf i) as [ci|]; [|discriminate].
  destruct (idx cf j) as [cj|]; [|discriminate]. cbn [of_option bind].
  destruct (reduce_row ci (tl cj) i j vs) as [vs'| |] eqn:E;
    [|discriminate|exfalso; eapply reduce_row_no_timeout; eassumption].
  cbn [bind]. apply IH.
Qed.

Lemma reduce_rows_no_timeout :
  forall n m, reduce_rows n m <> Timeout.
Proof.
  induction n as [|n IH]; intro m; [discriminate|].
  cbn [reduce_rows].
  destruct (reduce_cols n 0 (Z.of_nat n) (coeff m) (v m)) as [vs'| |] eqn:E;
    [|discriminate|exfalso; eapply reduce_cols_no_timeout; eassumption].
  cbn [bind]. destruct (idx (coeff m) (Z.of_nat n)) as [ci|]; [|discriminate].
  cbn [of_option bind]. destruct (slice_to ci 1); [|discriminate].
  cbn [of_option bind].
  destruct (upd (coeff m) (Z.of_nat n) l); [|discriminate].
  cbn [of_option bind]. apply IH.
Qed.

Lemma reduce_rows_Ok_rows :
  forall n m m',
    reduce_rows n m = Ok m' ->
    forall t row, 0 <= t < Z.of_nat n -> idx (coeff m) t = Some row -> row <> [].
Proof.
  induction n as [|n IH]; intros m m' E t row Ht Hrow; [lia|].
  cbn [reduce_rows] in E.
  apply bind_Ok_inv in E. destruct E as [vs' [_ E]].
  apply bind_Ok_inv in E. destruct E as [ci [Hci E]].
  apply of_option_Ok_inv in Hci.
  apply bind_Ok_inv in E. destruct E as [ci' [Hsl E]].
  apply of_option_Ok_inv in Hsl.
  apply bind_Ok_inv in E. destruct E as [coeff' [Hu E]].
  apply of_option_Ok_inv in Hu.
  destruct (Z.eq_dec t (Z.of_nat n)) as [->|Hne].
  - rewrite Hrow in Hci. inversion Hci; subst ci. intros ->.
    discriminate.
  - apply (IH _ _ E t row); [lia|]. cbn [coeff].
    now rewrite (idx_upd_other _ _ _ _ _ _ Hu) by lia.
Qed.

(** X9: [reduce] must not be called before the matrix is determined: on
    every matrix with an empty row the call panics (the empty row has no
    element to lead with). *)
Theorem reduce_undetermined_panics :
  forall m : sparseMatrix, determined m = false -> reduce m = Panic.
Proof.
  intros m Hd. unfold reduce.
  destruct (reduce_rows (length (coeff m)) m) as [m'| |] eqn:E.
  - exfalso. unfold determined in Hd.
    assert (Hex : exists row, In row (coeff m) /\ row = []).
    { clear E. induction (coeff m) as [|r rows IH]; [discriminate|].
      cbn [forallb] in Hd. apply andb_false_iff in Hd.
      destruct Hd as [Hd|Hd].
      - exists r. split; [now left|]. destruct r; [reflexivity|].
        rewrite len_cons in Hd. pose proof (len_nonneg _ r).
        apply negb_false_iff, Z.eqb_eq in Hd. lia.
      - destruct (IH Hd) as [row [Hin Hrow]]. exists row.
        split; [now right|assumption]. }
    destruct Hex as [row [Hin ->]].
    apply In_nth_error in Hin. destruct Hin as [n Hn].
    assert (Hr : (n < length (coeff m))%nat)
      by (apply nth_error_Some; congruence).
    apply (reduce_rows_Ok_rows _ _ _ E (Z.of_nat n) []); [lia| |reflexivity].
    unfold idx. destruct (Z.of_nat n <? 0) eqn:E0; [apply Z.ltb_lt in E0; lia|].
    now rewrite Nat2Z.id.
  - reflexivity.
  - exfalso. eapply reduce_rows_no_timeout; eassumption.
Qed.

Lemma reduce_undetermined_panics_witness :
  determined {| coeff := [[0; 1]; []]; v := [mkBlock [3] 0; newBlock 0] |}
  = false /\
  reduce {| coeff := [[0; 1]; []]; v := [mkBlock [3] 0; newBlock 0] |} = Panic.
Proof.
  split; [reflexivity|].
  exact (reduce_undetermined_panics
           {| coeff := [[0; 1]; []]; v := [mkBlock [3] 0; newBlock 0] |}
           eq_refl).
Defined.

(** X10: [reconstruct] undoes the partition.  Called with the numbers
    that [partition] gives for the length of the message and [p], on a
    value column that reads as the source blocks of the message (each
    value byte by byte, with at least as many data bytes), it returns the
    message. *)
Theorem reconstruct_inverts_partition :
  forall (message : list Z) (p : Z) (X : list block) (m : sparseMatrix)
         (lenLong lenShort numLong numShort : Z),
    len message < 2 ^ 53 -> 0 < p <= max_int ->
    sourceBlocks message p = Ok X ->
    partition (len message) p = Ok (lenLong, lenShort, numLong, numShort) ->
    Forall2 agrees (v m) X ->
    reconstruct m (len message) lenLong lenShort numLong numShort = Ok message.
Proof. exact reconstruct_agrees. Qed.

Lemma reconstruct_inverts_partition_witness :
  len [1; 2; 3; 4; 5; 6; 7] < 2 ^ 53 /\
  0 < 3 <= max_int /\
  sourceBlocks [1; 2; 3; 4; 5; 6; 7] 3 =
    Ok [mkBlock [1; 2; 3] 0; mkBlock [4; 5] 1; mkBlock [6; 7] 1] /\
  partition (len [1; 2; 3; 4; 5; 6; 7]) 3 = Ok (3, 2, 1, 2) /\
  Forall2 agrees
    [mkBlock [1; 2; 3] 0; mkBlock [4; 5; 0] 0; mkBlock [6; 7; 0] 0]
    [mkBlock [1; 2; 3] 0; mkBlock [4; 5] 1; mkBlock [6; 7] 1] /\
  reconstruct
    {| coeff := [[0]; [1]; [2]];
       v := [mkBlock [1; 2; 3] 0; mkBlock [4; 5; 0] 0; mkBlock [6; 7; 0] 0] |}
    (len [1; 2; 3; 4; 5; 6; 7]) 3 2 1 2 = Ok [1; 2; 3; 4; 5; 6; 7].
Proof.
  assert (H1 : len [1; 2; 3; 4; 5; 6; 7] < 2 ^ 53) by reflexivity.
  assert (H2 : 0 < 3 <= max_int) by (split; [reflexivity|discriminate]).
  assert (H3 : sourceBlocks [1; 2; 3; 4; 5; 6; 7] 3 =
               Ok [mkBlock [1; 2; 3] 0; mkBlock [4; 5] 1; mkBlock [6; 7] 1])
    by (vm_compute; reflexivity).
  assert (H4 : partition (len [1; 2; 3; 4; 5; 6; 7]) 3 = Ok (3, 2, 1, 2))
    by (vm_compute; reflexivity).
  assert (H5 : Forall2 agrees
    [mkBlock [1; 2; 3] 0; mkBlock [4; 5; 0] 0; mkBlock [6; 7; 0] 0]
    [mkBlock [1; 2; 3] 0; mkBlock [4; 5] 1; mkBlock [6; 7] 1]).
  { repeat constructor; try (cbn; lia);
      intro k; destruct k as [|[|[|k]]]; try reflexivity;
      destruct k; reflexivity. }
  split; [exact H1|]. split; [exact H2|]. split; [exact H3|].
  split; [exact H4|]. split; [exact H5|].
  exact (reconstruct_inverts_partition _ 3 _
           {| coeff := [[0]; [1]; [2]];
              v := [mkBlock [1; 2; 3] 0; mkBlock [4; 5; 0] 0;
                    mkBlock [6; 7; 0] 0] |} 3 2 1 2 H1 H2 H3 H4 H5).
Defined.

(** ** Sorting *)

Lemma insert_sorted_perm :
  forall (x : Z) (l : list Z), Permutation (insert_sorted x l) (x :: l).
Proof.
  intros x l. induction l as [|y l IH]; [reflexivity|].
  cbn [insert_sorted]. destruct (x <=? y); [reflexivity|].
  rewrite IH. apply perm_swap.
Qed.

Lemma sort_ints_perm : forall l : list Z, Permutation (sort_ints l) l.
Proof.
  induction l as [|x l IH]; [reflexivity|].
  cbn [sort_ints fold_right]. fold (sort_ints l).
  rewrite insert_sorted_perm. now constructor.
Qed.

Lemma insert_sorted_sorted :
  forall (x : Z) (l : list Z),
    StronglySorted Z.le l -> StronglySorted Z.le (insert_sorted x l).
Proof.
  intros x l H. induction H as [|y l Hs IH Hy].
  - repeat constructor.
  - cbn [insert_sorted]. destruct (x <=? y) eqn:E.
    + apply Z.leb_le in E. constructor; [now constructor|].
      constructor; [assumption|].
      eapply Forall_impl; [|exact Hy]. cbn beta. intros; lia.
    + apply Z.leb_gt in E. constructor; [assumption|].
      apply (Permutation_Forall (Permutation_sym (insert_sorted_perm x l))).
      constructor; [lia|assumption].
Qed.

Lemma sort_ints_sorted : forall l : list Z, StronglySorted Z.le (sort_ints l).
Proof.
  induction l as [|x l IH]; [constructor|].
  cbn [sort_ints fold_right]. fold (sort_ints l).
  now apply insert_sorted_sorted.
Qed.

Lemma sorted_le_NoDup_lt :
  forall l : list Z,
    StronglySorted Z.le l -> NoDup l -> StronglySorted Z.lt l.
Proof.
  intros l H. induction H as [|x l Hs IH Hx]; intro Hnd; [constructor|].
  inversion Hnd as [|? ? Hnin Hnd']; subst.
  constructor; [now apply IH|].
  apply Forall_forall. intros y Hy. rewrite Forall_forall in Hx.
  specialize (Hx y Hy). destruct (Z.eq_dec x y) as [->|Hne]; [contradiction|lia].
Qed.

(** [sort.Ints] on a slice without duplicates whose elements lie in
    [0, L). *)
Lemma sort_ints_indices :
  forall (L : Z) (l : list Z),
    NoDup l -> Forall (fun x => 0 <= x < L) l ->
    sorted_indices L (sort_ints l) /\ length (sort_ints l) = length l.
Proof.
  intros L l Hnd Hr. pose proof (sort_ints_perm l) as Hp. split; [split|].
  - apply sorted_le_NoDup_lt; [apply sort_ints_sorted|].
    exact (Permutation_NoDup (Permutation_sym Hp) Hnd).
  - exact (Permutation_Forall (Permutation_sym Hp) Hr).
  - now apply Permutation_length.
Qed.

(** ** The index walk of the Raptor codes *)

Lemma In_firstn :
  forall (A : Type) (k : nat) (l : list A) (x : A),
    In x (firstn k l) -> In x l.
Proof.
  intros A k l x H. rewrite <- (firstn_skipn k l). apply in_or_app. now left.
Qed.

Lemma NoDup_firstn :
  forall (A : Type) (k : nat) (l : list A), NoDup l -> NoDup (firstn k l).
Proof.
  intros A k l H. rewrite <- (firstn_skipn k l) in H.
  now apply NoDup_app_remove_r in H.
Qed.

Section Walk.

Variables l a lprime b : Z.
Hypothesis Hl : 0 < l <= lprime.
Hypothesis Hlp : lprime < 2 ^ 31.
Hypothesis Ha : 1 <= a < lprime.
Hypothesis Hb : 0 <= b < lprime.
Hypothesis Hgcd : Z.gcd a lprime = 1.

Lemma walk_range : forall n, 0 <= walk lprime a b n < lprime.
Proof. intro n. unfold walk. apply Z.mod_pos_bound. lia. Qed.

Lemma walk_0 : walk lprime a b 0 = b.
Proof. unfold walk. cbn. rewrite Z.add_0_r. apply Z.mod_small. lia. Qed.

Lemma walk_step :
  forall n, wrap_u32 (walk lprime a b n + a) mod lprime = walk lprime a b (S n).
Proof.
  intro n. pose proof (walk_range n) as Hr.
  assert (H31 : 2 ^ 31 = 2147483648) by reflexivity.
  assert (H32 : 2 ^ 32 = 4294967296) by reflexivity.
  unfold wrap_u32. rewrite (Z.mod_small (walk lprime a b n + a)) by lia.
  unfold walk. rewrite Zplus_mod_idemp_l. f_equal. lia.
Qed.

Lemma walk_inj :
  forall n1 n2 : nat,
    (n1 < n2)%nat -> (n2 < n1 + Z.to_nat lprime)%nat ->
    walk lprime a b n1 <> walk lprime a b n2.
Proof.
  intros n1 n2 H12 H21 Heq. unfold walk in Heq.
  assert (Hd : (lprime | (Z.of_nat n2 - Z.of_nat n1) * a)).
  { apply Z.mod_divide; [lia|].
    replace ((Z.of_nat n2 - Z.of_nat n1) * a)
      with ((b + Z.of_nat n2 * a) - (b + Z.of_nat n1 * a)) by ring.
    rewrite Zminus_mod, Heq, Z.sub_diag. apply Z.mod_0_l. lia. }
  rewrite Z.mul_comm in Hd.
  apply Z.gauss in Hd; [|now rewrite Z.gcd_comm].
  destruct Hd as [k Hk].
  assert (0 < k) by nia. nia.
Qed.

Lemma walk_surj :
  forall w, 0 <= w < lprime ->
    exists n : nat, (n < Z.to_nat lprime)%nat /\ walk lprime a b n = w.
Proof.
  intros w Hw. destruct (Z.gcd_bezout a lprime 1 Hgcd) as [u [v Huv]].
  set (n := ((w - b) * u) mod lprime).
  pose proof (Z.mod_pos_bound ((w - b) * u) lprime ltac:(lia)) as Hn.
  fold n in Hn. exists (Z.to_nat n). split; [lia|].
  unfold walk. rewrite Z2Nat.id by lia.
  assert (En : n = (w - b) * u - ((w - b) * u) / lprime * lprime)
    by (unfold n; apply Zmod_eq_full; lia).
  set (q := ((w - b) * u) / lprime) in En.
  replace (b + n * a)
    with (w + (- ((w - b) * v) - q * a) * lprime).
  - rewrite Z_mod_plus_full. apply Z.mod_small. assumption.
  - rewrite En.
    assert (Hua : (w - b) * u * a = (w - b) * (1 - v * lprime))
      by (rewrite <- Z.mul_assoc; f_equal; lia).
    nia.
Qed.

Lemma walk_stops_many : (Z.to_nat l <= length (walk_stops l lprime a b))%nat.
Proof.
  assert (Hincl : incl (map Z.of_nat (seq 0 (Z.to_nat l)))
                       (map (walk lprime a b) (walk_stops l lprime a b))).
  { intros w Hw. apply in_map_iff in Hw. destruct Hw as [k [<- Hk]].
    apply in_seq in Hk.
    destruct (walk_surj (Z.of_nat k) ltac:(lia)) as [n [Hn Hon]].
    apply in_map_iff. exists n. split; [assumption|].
    unfold walk_stops. apply filter_In. split.
    - apply in_seq. lia.
    - unfold walk_good. rewrite Hon. apply Z.ltb_lt. lia. }
  assert (Hnd : NoDup (map Z.of_nat (seq 0 (Z.to_nat l)))).
  { apply NoDup_map_NoDup_ForallPairs; [|apply seq_NoDup].
    intros x y _ _ H. now apply Nat2Z.inj. }
  pose proof (NoDup_incl_length Hnd Hincl) as H.
  now rewrite !length_map, length_seq in H.
Qed.

Lemma filter_seq_first :
  forall (good : nat -> bool) (m n0 p : nat) (rest : list nat),
    filter good (seq n0 m) = p :: rest ->
    (n0 <= p < n0 + m)%nat /\
    (forall t, (n0 <= t < p)%nat -> good t = false) /\
    good p = true /\
    rest = filter good (seq (S p) (n0 + m - S p)).
Proof.
  intro good. induction m as [|m IH]; intros n0 p rest H; [discriminate|].
  cbn [seq filter] in H. destruct (good n0) eqn:E.
  - inversion H; subst. split; [lia|]. split; [intros; lia|].
    split; [assumption|]. f_equal. f_equal. lia.
  - destruct (IH (S n0) p rest H) as [H1 [H2 [H3 H4]]].
    split; [lia|]. split.
    + intros t Ht. destruct (Nat.eq_dec t n0) as [->|Hne]; [assumption|].
      apply H2. lia.
    + split; [assumption|]. rewrite H4. f_equal. f_equal. lia.
Qed.

Lemma skip_loop_spec :
  forall (fuel : nat) (n p : nat),
    (n <= p)%nat -> (p - n <= fuel)%nat ->
    (forall t, (n <= t < p)%nat -> walk_good l lprime a b t = false) ->
    walk_good l lprime a b p = true ->
    skip_loop fuel l a lprime (walk lprime a b n) = Ok (walk lprime a b p).
Proof.
  assert (Hw : wrap_u32 l = l).
  { unfold wrap_u32. apply Z.mod_small.
    assert (H31 : 2 ^ 31 = 2147483648) by reflexivity.
    assert (H32 : 2 ^ 32 = 4294967296) by reflexivity. lia. }
  induction fuel as [|fuel IH]; intros n p Hnp Hf Hbad Hgood.
  - assert (n = p) by lia. subst p. cbn [skip_loop]. rewrite Hw.
    unfold walk_good in Hgood. apply Z.ltb_lt in Hgood.
    destruct (l <=? walk lprime a b n) eqn:E;
      [apply Z.leb_le in E; lia|reflexivity].
  - cbn [skip_loop]. rewrite Hw.
    destruct (Nat.eq_dec n p) as [->|Hne].
    + unfold walk_good in Hgood. apply Z.ltb_lt in Hgood.
      destruct (l <=? walk lprime a b p) eqn:E;
        [apply Z.leb_le in E; lia|reflexivity].
    + assert (Hn : walk_good l lprime a b n = false) by (apply Hbad; lia).
      unfold walk_good in Hn. apply Z.ltb_ge in Hn.
      destruct (l <=? walk lprime a b n) eqn:E; [|apply Z.leb_gt in E; lia].
      destruct (lprime =? 0) eqn:E0; [apply Z.eqb_eq in E0; lia|].
      rewrite walk_step. apply (IH (S n) p); [lia|lia| |assumption].
      intros t Ht. apply Hbad. lia.
Qed.

Lemma indices_loop_spec :
  forall (fuel : nat) (k : nat) (p m : nat) (acc : list Z),
    (m <= fuel)%nat ->
    (k <= length (filter (walk_good l lprime a b) (seq (S p) m)))%nat ->
    indices_loop fuel k l a lprime (walk lprime a b p) acc =
    Ok (acc ++ map (walk lprime a b)
                   (firstn k (filter (walk_good l lprime a b)
                                     (seq (S p) m)))).
Proof.
  intros fuel k. induction k as [|k IH]; intros p m acc Hf Hk.
  - cbn. now rewrite app_nil_r.
  - cbn [indices_loop].
    destruct (lprime =? 0) eqn:E0; [apply Z.eqb_eq in E0; lia|].
    rewrite walk_step.
    destruct (filter (walk_good l lprime a b) (seq (S p) m))
      as [|p1 rest] eqn:EP; [cbn in Hk; lia|].
    destruct (filter_seq_first _ m (S p) p1 rest EP) as [H1 [H2 [H3 H4]]].
    rewrite (skip_loop_spec fuel (S p) p1); try assumption; try lia.
    cbn [bind firstn map].
    rewrite (IH p1 (S p + m - S p1)%nat (acc ++ [walk lprime a b p1])).
    + rewrite <- H4, <- app_assoc. reflexivity.
    + lia.
    + rewrite <- H4. cbn in Hk. lia.
Qed.

Lemma walk_stops_firstn :
  forall k : nat,
    NoDup (map (walk lprime a b) (firstn k (walk_stops l lprime a b))) /\
    Forall (fun x => 0 <= x < l)
           (map (walk lprime a b) (firstn k (walk_stops l lprime a b))).
Proof.
  intro k. split.
  - apply NoDup_map_NoDup_ForallPairs.
    + intros x y Hx Hy Heq. apply In_firstn in Hx. apply In_firstn in Hy.
      unfold walk_stops in Hx, Hy. apply filter_In in Hx. apply filter_In in Hy.
      destruct Hx as [Hx _]. destruct Hy as [Hy _].
      apply in_seq in Hx. apply in_seq in Hy.
      destruct (Nat.lt_trichotomy x y) as [Hlt|[Heq'|Hgt]]; [|assumption|].
      * exfalso. apply (walk_inj x y); [assumption|lia|assumption].
      * exfalso. apply (walk_inj y x); [assumption|lia|now symmetry].
    + apply NoDup_firstn. unfold walk_stops. apply NoDup_filter, seq_NoDup.
  - apply Forall_forall. intros x Hx. apply in_map_iff in Hx.
    destruct Hx as [n [<- Hn]]. apply In_firstn in Hn.
    unfold walk_stops in Hn. apply filter_In in Hn. destruct Hn as [_ Hn].
    unfold walk_good in Hn. apply Z.ltb_lt in Hn. pose proof (walk_range n). lia.
Qed.

(** The walk from the triple [(d, a, b)] on. *)
Lemma ltIndices_walk :
  forall (fuel : nat) (d : Z),
    1 <= d -> lprime <= Z.of_nat fuel ->
    ltIndices fuel l lprime d a b =
    Ok (sort_ints (map (walk lprime a b)
                       (firstn (Z.to_nat (Z.min d l))
                               (walk_stops l lprime a b)))).
Proof.
  intros fuel d Hd Hfuel. unfold ltIndices.
  pose proof walk_stops_many as Hmany.
  destruct (walk_stops l lprime a b) as [|p0 rest] eqn:EP;
    [cbn in Hmany; lia|].
  unfold walk_stops in EP.
  destruct (filter_seq_first _ _ 0%nat p0 rest EP) as [H1 [H2 [H3 H4]]].
  rewrite <- walk_0 at 1.
  rewrite (skip_loop_spec fuel 0 p0); try assumption; try lia.
  cbn [bind].
  set (d' := if l <? d then l else d).
  assert (Hd' : d' = Z.min d l).
  { unfold d'. destruct (l <? d) eqn:E;
      [apply Z.ltb_lt in E|apply Z.ltb_ge in E]; lia. }
  rewrite (indices_loop_spec fuel (Z.to_nat (d' - 1)) p0
             (0 + Z.to_nat lprime - S p0)%nat [walk lprime a b p0]).
  - cbn [bind]. rewrite <- H4. f_equal. f_equal.
    replace (Z.to_nat (Z.min d l)) with (S (Z.to_nat (d' - 1))) by lia.
    reflexivity.
  - lia.
  - rewrite <- H4. cbn [length] in Hmany. lia.
Qed.

End Walk.

(** X14: the index walk that [findLTIndices] and the RU10 [PickIndices]
    share.  With [0 < l <= lprime < 2^31], a step [a] in [1, lprime) that
    has no common divisor with [lprime] (any step, when [lprime] is a
    prime), a start [b] in [0, lprime) and a degree [d >= 1], the walk
    returns within [lprime] rounds of each of its loops, with
    [min(d, l)] indices that are strictly ascending and lie in [0, l):
    an index list as [addEquation] expects it. *)
Theorem ltIndices_sorted :
  forall (l a lprime b d : Z) (fuel : nat),
    0 < l <= lprime -> lprime < 2 ^ 31 -> 1 <= a < lprime ->
    0 <= b < lprime -> Z.gcd a lprime = 1 -> 1 <= d ->
    lprime <= Z.of_nat fuel ->
    exists indices,
      ltIndices fuel l lprime d a b = Ok indices /\
      len indices = Z.min d l /\
      sorted_indices l indices.
Proof.
  intros l a lprime b d fuel Hl Hlp Ha Hb Hgcd Hd Hfuel.
  rewrite (ltIndices_walk l a lprime b Hl Hlp Ha Hb Hgcd fuel d Hd Hfuel).
  destruct (walk_stops_firstn l a lprime b Ha Hgcd
              (Z.to_nat (Z.min d l))) as [Hnd Hr].
  destruct (sort_ints_indices l _ Hnd Hr) as [Hs Hlen].
  eexists. split; [reflexivity|]. split; [|assumption].
  unfold len. rewrite Hlen, length_map, length_firstn.
  pose proof (walk_stops_many l a lprime b Hl Ha Hgcd). lia.
Qed.

Lemma ltIndices_sorted_witness :
  0 < 4 <= 5 /\ 5 < 2 ^ 31 /\ 1 <= 2 < 5 /\ 0 <= 4 < 5 /\
  Z.gcd 2 5 = 1 /\ 1 <= 3 /\ 5 <= Z.of_nat 5 /\
  ltIndices 5 4 5 3 2 4 = Ok [0; 1; 3].
Proof.
  assert (H1 : 0 < 4 <= 5) by lia.
  assert (H2 : 5 < 2 ^ 31) by reflexivity.
  assert (H3 : 1 <= 2 < 5) by lia.
  assert (H4 : 0 <= 4 < 5) by lia.
  assert (H5 : Z.gcd 2 5 = 1) by reflexivity.
  assert (H6 : 1 <= 3) by lia.
  assert (H7 : 5 <= Z.of_nat 5) by (cbn; lia).
  repeat (split; [assumption|]).
  destruct (ltIndices_sorted 4 2 5 4 3 5 H1 H2 H3 H4 H5 H6 H7)
    as [indices [E _]].
  rewrite E. vm_compute in E. exact (eq_sym E).
Defined.

(** ** Sampling without replacement *)

Lemma seqZ_spec :
  forall (n : nat) (s : Z),
    StronglySorted Z.lt (seqZ s n) /\
    Forall (fun x => s <= x < s + Z.of_nat n) (seqZ s n) /\
    length (seqZ s n) = n.
Proof.
  induction n as [|n IH]; intro s.
  - repeat split; constructor.
  - destruct (IH (s + 1)) as [H1 [H2 H3]]. cbn [seqZ]. split; [|split].
    + constructor; [assumption|].
      eapply Forall_impl; [|exact H2]. cbn beta. intros; lia.
    + constructor; [lia|].
      eapply Forall_impl; [|exact H2]. cbn beta. intros; lia.
    + cbn [length]. now rewrite H3.
Qed.

Section Sampling.

Context {R : RandOps}.
Hypothesis HIntn : Intn_in_range R.

Lemma draw_unseen_spec :
  forall (fuel : nat) (random : Rand) (max : Z) (seen : list Z),
    0 < max ->
    draw_unseen fuel random max seen <> Panic /\
    forall p r',
      draw_unseen fuel random max seen = Ok (p, r') ->
      member p seen = false /\ 0 <= p < max.
Proof.
  induction fuel as [|fuel IH]; intros random max seen Hmax;
    cbn [draw_unseen]; unfold Intn;
    (destruct (max <=? 0) eqn:E0; [apply Z.leb_le in E0; lia|]);
    cbn [bind];
    fold (member (fst (rand_Intn random max)) seen);
    destruct (member (fst (rand_Intn random max)) seen) eqn:Em.
  - split; [discriminate|]. intros p r' H. discriminate.
  - split; [discriminate|]. intros p r' H. inversion H; subst.
    destruct (rand_Intn random max) as [x r0] eqn:Er. cbn [fst] in *.
    inversion H; subst. split; [assumption|].
    pose proof (HIntn random max Hmax) as Hr. now rewrite Er in Hr.
  - apply IH. assumption.
  - split; [discriminate|]. intros p r' H.
    destruct (rand_Intn random max) as [x r0] eqn:Er. cbn [fst] in *.
    inversion H; subst. split; [assumption|].
    pose proof (HIntn random max Hmax) as Hr. now rewrite Er in Hr.
Qed.

Lemma sample_loop_spec :
  forall (fuel : nat) (n : nat) (random : Rand) (max : Z)
         (picks seen : list Z),
    0 < max ->
    (forall x, In x seen <-> In x picks) ->
    NoDup picks -> Forall (fun x => 0 <= x < max) picks ->
    sample_loop fuel n random max picks seen <> Panic /\
    forall picks' r',
      sample_loop fuel n random max picks seen = Ok (picks', r') ->
      NoDup picks' /\ Forall (fun x => 0 <= x < max) picks' /\
      length picks' = (length picks + n)%nat.
Proof.
  intros fuel n. induction n as [|n IH];
    intros random max picks seen Hmax Hseen Hnd Hr.
  - split; [discriminate|]. intros picks' r' H. inversion H; subst.
    split; [assumption|]. split; [assumption|]. lia.
  - cbn [sample_loop].
    destruct (draw_unseen_spec fuel random max seen Hmax) as [Hnp Hok].
    destruct (draw_unseen fuel random max seen) as [[p r0]| |] eqn:Ed;
      [|contradiction|split; [discriminate|intros; discriminate]].
    cbn [bind fst snd]. destruct (Hok p r0 eq_refl) as [Hm Hp].
    assert (Hnin : ~ In p picks).
    { intro Hin. apply Hseen in Hin. apply member_In in Hin. congruence. }
    destruct (IH r0 max (picks ++ [p]) (p :: seen) Hmax) as [Hnp' Hok'].
    + intro x. cbn [In]. rewrite in_app_iff, Hseen. cbn [In]. tauto.
    + apply NoDup_app; [assumption|repeat constructor; intros []|].
      intros x Hx [<-|[]]. contradiction.
    + apply Forall_app. split; [assumption|]. now repeat constructor.
    + split; [assumption|]. intros picks' r' H.
      destruct (Hok' picks' r' H) as [H1 [H2 H3]].
      split; [assumption|]. split; [assumption|].
      rewrite H3, length_app. cbn [length]. lia.
Qed.

(** What [sampleUniform] returns. *)
Lemma sampleUniform_props :
  forall (fuel : nat) (random : Rand) (num max : Z),
    (max <= num -> 0 <= max ->
     sampleUniform fuel random num max = Ok (seqZ 0 (Z.to_nat max), random)) /\
    (forall picks r',
       sampleUniform fuel random num max = Ok (picks, r') ->
       len picks = Z.min num max /\ sorted_indices max picks) /\
    (0 <= num -> 0 <= max -> sampleUniform fuel random num max <> Panic).
Proof.
  intros fuel random num max. unfold sampleUniform.
  destruct (max <=? num) eqn:E1.
  - apply Z.leb_le in E1. destruct (max <? 0) eqn:E2.
    + apply Z.ltb_lt in E2. split; [intros; lia|].
      split; [intros; discriminate|intros; lia].
    + apply Z.ltb_ge in E2. split; [reflexivity|]. split; [|discriminate].
      intros picks r' H. inversion H; subst.
      destruct (seqZ_spec (Z.to_nat max) 0) as [H1 [H2 H3]].
      split; [unfold len; rewrite H3; lia|]. split; [assumption|].
      eapply Forall_impl; [|exact H2]. cbn beta. intros; lia.
  - apply Z.leb_gt in E1. split; [intros; lia|].
    destruct (num <? 0) eqn:E2.
    + apply Z.ltb_lt in E2. split; [intros; discriminate|intros; lia].
    + apply Z.ltb_ge in E2.
      destruct (sample_loop_spec fuel (Z.to_nat num) random max [] []
                  ltac:(lia) ltac:(tauto) (NoDup_nil _) (Forall_nil _))
        as [Hnp Hok].
      destruct (sample_loop fuel (Z.to_nat num) random max [] [])
        as [[picks0 r0]| |] eqn:Es; [|contradiction|].
      * cbn [bind fst snd]. split; [|discriminate].
        intros picks r' H. inversion H; subst.
        destruct (Hok picks0 r' eq_refl) as [H1 [H2 H3]].
        destruct (sort_ints_indices max picks0 H1 H2) as [H4 H5].
        split; [|assumption]. unfold len. rewrite H5, H3. cbn [length]. lia.
      * cbn [bind]. split; [intros; discriminate|discriminate].
Qed.

(** X13: [sampleUniform(random, num, max)], for a generator whose [Intn]
    keeps to its range.  With [num >= max >= 0] the result is
    [0, 1, ..., max-1] and the generator is not touched.  Whenever the
    call returns, the picks are strictly ascending (so without
    duplicates), lie in [0, max), and there are [min(num, max)] of them.
    With [num] and [max] not negative there is no panic: the call returns
    or keeps drawing. *)
Theorem sampleUniform_spec :
  forall (fuel : nat) (random : Rand) (num max : Z),
    (max <= num -> 0 <= max ->
     sampleUniform fuel random num max = Ok (seqZ 0 (Z.to_nat max), random)) /\
    (forall picks r',
       sampleUniform fuel random num max = Ok (picks, r') ->
       len picks = Z.min num max /\ sorted_indices max picks) /\
    (0 <= num -> 0 <= max -> sampleUniform fuel random num max <> Panic).
Proof. exact sampleUniform_props. Qed.

End Sampling.

Lemma plainRand_Intn_in_range : Intn_in_range plainRand.
Proof.
  intros r n Hn. cbn [rand_Intn plainRand fst].
  apply Z.mod_pos_bound. assumption.
Qed.

Lemma sampleUniform_spec_witness :
  Intn_in_range plainRand /\
  exists picks r',
    @sampleUniform plainRand 8 (SourceMT (NewMersenneTwister 7)) 3 10
    = Ok (picks, r') /\
    len picks = Z.min 3 10 /\ sorted_indices 10 picks.
Proof.
  split; [exact plainRand_Intn_in_range|].
  destruct (@sampleUniform plainRand 8 (SourceMT (NewMersenneTwister 7)) 3 10)
    as [[picks r']| |] eqn:E.
  - exists picks, r'. split; [reflexivity|].
    exact (proj1 (proj2 (@sampleUniform_spec plainRand plainRand_Intn_in_range
                           8 (SourceMT (NewMersenneTwister 7)) 3 10))
             picks r' E).
  - vm_compute in E. discriminate.
  - vm_compute in E. discriminate.
Defined.

(** ** The Luby codec *)

Section LubyCodec.

Context {R : RandOps}.
Hypothesis HIntn : Intn_in_range R.
Hypothesis HSeed : Seed_resets R.

Lemma lubyCodec_PickIndices_sorted :
  forall (fuel : nat) (c : lubyCodec) (random : Rand) (id : Z)
         (l : list Z) (r' : Rand),
    lubyCodec_PickIndices fuel c random id = Ok (l, r') ->
    sorted_indices (l_sourceBlocks c) l.
Proof.
  intros fuel c random id l r' H. unfold lubyCodec_PickIndices in H.
  apply bind_Ok_inv in H. destruct H as [d [_ H]].
  exact (proj2 (proj1 (proj2 (sampleUniform_props HIntn fuel _ d
                                (l_sourceBlocks c))) l r' H)).
Qed.

Lemma lubyCodec_PickIndices_reseeds :
  forall (fuel : nat) (c : lubyCodec) (r1 r2 : Rand) (id : Z),
    lubyCodec_PickIndices fuel c r1 id = lubyCodec_PickIndices fuel c r2 id.
Proof.
  intros fuel c r1 r2 id. unfold lubyCodec_PickIndices.
  now rewrite (HSeed r1 r2 id).
Qed.

Lemma lubyDecoder_AddBlocks_loop_pure :
  forall (fuel : nat) (c : lubyCodec) (random0 : Rand)
         (blocks : list LTBlock) (random : Rand) (m : sparseMatrix),
    Forall (fun blk => exists l r',
              lubyCodec_PickIndices fuel c random0 (BlockCode blk) = Ok (l, r'))
           blocks ->
    exists random',
      lubyDecoder_AddBlocks_loop fuel c random m blocks =
      (m' <- addBlocks_loop fuel
               (fun id => r <- lubyCodec_PickIndices fuel c random0 id ;;
                          Ok (fst r)) m blocks ;;
       Ok (m', random')).
Proof.
  intros fuel c random0 blocks. induction blocks as [|blk rest IH];
    intros random m Hall.
  - exists random. reflexivity.
  - inversion Hall as [|? ? [l [r' Hl]] Hrest]; subst.
    cbn [lubyDecoder_AddBlocks_loop addBlocks_loop].
    rewrite (lubyCodec_PickIndices_reseeds fuel c random random0), Hl.
    cbn [bind fst snd].
    destruct (addEquation fuel m l {| data := Data blk; padding := 0 |})
      as [m'| |]; cbn [bind].
    + apply IH. assumption.
    + exists random. reflexivity.
    + exists random. reflexivity.
Qed.


End LubyCodec.

Lemma countingRand_Intn_in_range : Intn_in_range countingRand.
Proof.
  intros r n Hn. cbn [rand_Intn countingRand fst].
  apply Z.mod_pos_bound. assumption.
Qed.

Lemma countingRand_Seed_resets : Seed_resets countingRand.
Proof. intros r r' seed. reflexivity. Qed.


(** ** Bounds of the bit operations *)

Lemma land_bound :
  forall n x y, 0 <= n -> 0 <= x < 2 ^ n -> 0 <= y -> 0 <= Z.land x y < 2 ^ n.
Proof.
  intros n x y Hn Hx Hy.
  assert (H0 : 0 <= Z.land x y) by (apply Z.land_nonneg; lia).
  split; [assumption|].
  destruct (Z.eq_dec (Z.land x y) 0) as [->|Hne]; [lia|].
  apply (proj2 (Z.log2_lt_pow2 (Z.land x y) n ltac:(lia))).
  pose proof (Z.log2_land x y ltac:(lia) ltac:(lia)) as Hl.
  destruct (Z.eq_dec x 0) as [->|Hx0]; [now rewrite Z.land_0_l in Hne|].
  pose proof (proj1 (Z.log2_lt_pow2 x n ltac:(lia)) ltac:(lia)). lia.
Qed.

Lemma lor_bound :
  forall n x y,
    0 <= n -> 0 <= x < 2 ^ n -> 0 <= y < 2 ^ n -> 0 <= Z.lor x y < 2 ^ n.
Proof.
  intros n x y Hn Hx Hy.
  assert (H0 : 0 <= Z.lor x y) by (apply Z.lor_nonneg; lia).
  split; [assumption|].
  destruct (Z.eq_dec (Z.lor x y) 0) as [->|Hne]; [lia|].
  apply (proj2 (Z.log2_lt_pow2 (Z.lor x y) n ltac:(lia))).
  rewrite (Z.log2_lor x y) by lia.
  destruct (Z.eq_dec x 0) as [->|Hx0]; destruct (Z.eq_dec y 0) as [->|Hy0].
  - now rewrite Z.lor_0_l in Hne.
  - pose proof (proj1 (Z.log2_lt_pow2 y n ltac:(lia)) ltac:(lia)).
    change (Z.log2 0) with 0. pose proof (Z.log2_nonneg y). lia.
  - pose proof (proj1 (Z.log2_lt_pow2 x n ltac:(lia)) ltac:(lia)).
    change (Z.log2 0) with 0. pose proof (Z.log2_nonneg x). lia.
  - pose proof (proj1 (Z.log2_lt_pow2 x n ltac:(lia)) ltac:(lia)).
    pose proof (proj1 (Z.log2_lt_pow2 y n ltac:(lia)) ltac:(lia)). lia.
Qed.

Lemma shiftr_bound :
  forall n x k, 0 <= k -> 0 <= x < 2 ^ n -> 0 <= Z.shiftr x k < 2 ^ n.
Proof.
  intros n x k Hk Hx. rewrite Z.shiftr_div_pow2 by assumption.
  assert (Hp : 0 < 2 ^ k) by (apply Z.pow_pos_nonneg; lia).
  split; [apply Z.div_pos; lia|].
  apply Z.le_lt_trans with x; [|lia].
  apply Z.div_le_upper_bound; [lia|]. nia.
Qed.

Lemma wrap_u32_range : forall z, 0 <= wrap_u32 z < 2 ^ 32.
Proof. intro z. unfold wrap_u32. apply Z.mod_pos_bound. reflexivity. Qed.

Lemma wrap_u64_range : forall z, 0 <= wrap_u64 z < 2 ^ 64.
Proof. intro z. unfold wrap_u64. apply Z.mod_pos_bound. reflexivity. Qed.

(** ** Arrays *)

Lemma arr_get_Forall :
  forall (P : Z -> Prop) (a : list Z) (i : Z),
    Forall P a -> P 0 -> P (arr_get a i).
Proof.
  intros P a i Ha H0. unfold arr_get.
  destruct (nth_in_or_default (Z.to_nat i) a 0) as [Hin| ->]; [|assumption].
  rewrite Forall_forall in Ha. now apply Ha.
Qed.

Lemma list_set_Forall :
  forall (P : Z -> Prop) (a : list Z) (n : nat) (x : Z),
    Forall P a -> P x -> Forall P (list_set a n x).
Proof.
  intros P a. induction a as [|y a IH]; intros n x Ha Hx; [constructor|].
  inversion Ha; subst. destruct n; cbn [list_set]; constructor; auto.
Qed.

Lemma arr_set_Forall :
  forall (P : Z -> Prop) (a : list Z) (i x : Z),
    Forall P a -> P x -> Forall P (arr_set a i x).
Proof. intros. unfold arr_set. now apply list_set_Forall. Qed.

Lemma arr_set_length :
  forall (a : list Z) (i x : Z), length (arr_set a i x) = length a.
Proof. intros. unfold arr_set. apply list_set_length. Qed.

(** ** The 32-bit twister *)

Lemma initialize_loop_ok :
  forall (n : nat) (i : Z) (a : list Z),
    Forall (fun x => 0 <= x < 2 ^ 32) a ->
    length (initialize_loop n i a) = length a /\
    Forall (fun x => 0 <= x < 2 ^ 32) (initialize_loop n i a).
Proof.
  induction n as [|n IH]; intros i a Ha; [now split|].
  cbn [initialize_loop].
  match goal with |- context [arr_set a i ?x] => set (w := x) end.
  assert (Hw : 0 <= w < 2 ^ 32).
  { unfold w. apply land_bound; [lia|apply wrap_u32_range|lia]. }
  destruct (IH (i + 1) (arr_set a i w)) as [H1 H2].
  - now apply arr_set_Forall.
  - split; [|assumption]. now rewrite H1, arr_set_length.
Qed.

Lemma MersenneTwister_initialize_ok :
  forall (t : MersenneTwister) (seed : Z),
    length (mt t) = 624%nat -> Forall (fun x => 0 <= x < 2 ^ 32) (mt t) ->
    0 <= seed < 2 ^ 32 ->
    MersenneTwister_ok (MersenneTwister_initialize t seed).
Proof.
  intros t seed Hl Ha Hs. unfold MersenneTwister_ok, MersenneTwister_initialize.
  cbn [mt index].
  destruct (initialize_loop_ok (Z.to_nat (len (mt t) - 1)) 1
              (arr_set (mt t) 0 seed)) as [H1 H2].
  - now apply arr_set_Forall.
  - split; [now rewrite H1, arr_set_length|]. split; [lia|assumption].
Qed.

Lemma mag01_range : forall b, 0 <= mag01 b < 2 ^ 32.
Proof.
  intro b. unfold mag01. destruct (b =? 0); split; try lia; reflexivity.
Qed.

Lemma generateUntempered_loop_ok :
  forall (n : nat) (i : Z) (a : list Z),
    Forall (fun x => 0 <= x < 2 ^ 32) a ->
    length (generateUntempered_loop n i a) = length a /\
    Forall (fun x => 0 <= x < 2 ^ 32) (generateUntempered_loop n i a).
Proof.
  induction n as [|n IH]; intros i a Ha; [now split|].
  cbn [generateUntempered_loop].
  match goal with |- context [arr_set a i ?x] => set (w := x) end.
  assert (H0 : 0 <= 0 < 2 ^ 32) by (split; [lia|reflexivity]).
  assert (Hw : 0 <= w < 2 ^ 32).
  { unfold w.
    assert (Hy : 0 <= Z.lor (Z.land (arr_get a i) 2147483648)
                        (Z.land (arr_get a ((i + 1) mod len a)) 2147483647)
                 < 2 ^ 32).
    { apply lor_bound; [lia| |].
      - apply land_bound; [lia| |lia].
        apply (arr_get_Forall (fun x => 0 <= x < 2 ^ 32)); assumption.
      - apply land_bound; [lia| |lia].
        apply (arr_get_Forall (fun x => 0 <= x < 2 ^ 32)); assumption. }
    apply lxor_bound; [lia| |apply mag01_range].
    apply lxor_bound; [lia| |].
    - apply (arr_get_Forall (fun x => 0 <= x < 2 ^ 32)); assumption.
    - apply shiftr_bound; [lia|assumption]. }
  destruct (IH (i + 1) (arr_set a i w)) as [H1 H2].
  - now apply arr_set_Forall.
  - split; [|assumption]. now rewrite H1, arr_set_length.
Qed.

Lemma temper_range : forall y, 0 <= y < 2 ^ 32 -> 0 <= temper y < 2 ^ 32.
Proof.
  intros y Hy. unfold temper.
  set (y1 := Z.lxor y (Z.shiftr y 11)).
  assert (H1 : 0 <= y1 < 2 ^ 32).
  { apply lxor_bound; [lia|assumption|]. apply shiftr_bound; [lia|assumption]. }
  set (y2 := Z.lxor y1 (Z.land (wrap_u32 (Z.shiftl y1 7)) 2636928640)).
  assert (H2 : 0 <= y2 < 2 ^ 32).
  { apply lxor_bound; [lia|assumption|].
    apply land_bound; [lia|apply wrap_u32_range|lia]. }
  set (y3 := Z.lxor y2 (Z.land (wrap_u32 (Z.shiftl y2 15)) 4022730752)).
  assert (H3 : 0 <= y3 < 2 ^ 32).
  { apply lxor_bound; [lia|assumption|].
    apply land_bound; [lia|apply wrap_u32_range|lia]. }
  apply lxor_bound; [lia|assumption|]. apply shiftr_bound; [lia|assumption].
Qed.

Lemma MersenneTwister_Uint32_ok :
  forall t : MersenneTwister,
    MersenneTwister_ok t ->
    0 <= fst (MersenneTwister_Uint32 t) < 2 ^ 32 /\
    MersenneTwister_ok (snd (MersenneTwister_Uint32 t)).
Proof.
  intros t Ht. unfold MersenneTwister_Uint32.
  set (t1 := if initialized t then t else MersenneTwister_initialize t 4357).
  assert (H1 : MersenneTwister_ok t1).
  { unfold t1. destruct (initialized t); [assumption|].
    destruct Ht as [Hl [_ Ha]].
    apply MersenneTwister_initialize_ok; try assumption.
    split; [lia|reflexivity]. }
  set (t2 := if index t1 =? 0 then MersenneTwister_generateUntempered t1
             else t1).
  assert (H2 : MersenneTwister_ok t2).
  { unfold t2. destruct (index t1 =? 0); [|assumption].
    destruct H1 as [Hl [Hi Ha]].
    unfold MersenneTwister_ok, MersenneTwister_generateUntempered.
    cbn [mt index].
    destruct (generateUntempered_loop_ok (length (mt t1)) 0 (mt t1) Ha)
      as [G1 G2].
    split; [now rewrite G1|]. now split. }
  destruct H2 as [Hl [Hi Ha]]. cbn [fst snd]. split.
  - apply temper_range.
    apply (arr_get_Forall (fun x => 0 <= x < 2 ^ 32)); [assumption|].
    split; [lia|reflexivity].
  - unfold MersenneTwister_ok. cbn [mt index].
    split; [assumption|]. split; [|assumption].
    unfold len. rewrite Hl.
    destruct (Z.of_nat 624 <=? index t2 + 1) eqn:E;
      [lia|apply Z.leb_gt in E; lia].
Qed.

(** X15: the 32-bit twister keeps to the contract of [rand.Source].  A
    twister made by [NewMersenneTwister] satisfies the invariant of the
    state (624 words of 32 bits, the index inside the array), whatever the
    seed; on a state that satisfies it, [Uint32] returns a value in
    [0, 2^32) and [Int63] a value in [0, 2^63), and both leave a state
    that satisfies it: no call reads or writes outside the array. *)
Theorem MersenneTwister_Int63_range :
  (forall seed : Z, MersenneTwister_ok (NewMersenneTwister seed)) /\
  (forall t : MersenneTwister,
     MersenneTwister_ok t ->
     0 <= fst (MersenneTwister_Uint32 t) < 2 ^ 32 /\
     MersenneTwister_ok (snd (MersenneTwister_Uint32 t)) /\
     0 <= fst (MersenneTwister_Int63 t) < 2 ^ 63 /\
     MersenneTwister_ok (snd (MersenneTwister_Int63 t))).
Proof.
  split.
  - intro seed. unfold NewMersenneTwister, MersenneTwister_Seed.
    apply MersenneTwister_initialize_ok.
    + reflexivity.
    + apply Forall_forall. intros x Hx. apply repeat_spec in Hx. subst.
      split; [lia|reflexivity].
    + apply wrap_u32_range.
  - intros t Ht.
    destruct (MersenneTwister_Uint32_ok t Ht) as [Ha Hta].
    split; [assumption|]. split; [assumption|].
    destruct (MersenneTwister_Uint32_ok _ Hta) as [Hb Htb].
    unfold MersenneTwister_Int63. cbn [fst snd]. split; [|assumption].
    set (a := fst (MersenneTwister_Uint32 t)) in *.
    set (b := fst (MersenneTwister_Uint32 (snd (MersenneTwister_Uint32 t)))) in *.
    assert (H32 : 2 ^ 32 = 4294967296) by reflexivity.
    assert (H63 : 2 ^ 63 = 9223372036854775808) by reflexivity.
    assert (Hs : 0 <= Z.shiftl a 31 < 2 ^ 63).
    { rewrite Z.shiftl_mul_pow2 by lia.
      change (2 ^ 31) with 2147483648. lia. }
    rewrite wrap64_small by (unfold max_int; lia).
    apply lxor_bound; [lia|assumption|lia].
Qed.

Lemma MersenneTwister_Int63_range_witness :
  MersenneTwister_ok (NewMersenneTwister 5489) /\
  0 <= fst (MersenneTwister_Int63 (NewMersenneTwister 5489)) < 2 ^ 63.
Proof.
  destruct MersenneTwister_Int63_range as [Hnew Hstep].
  split; [exact (Hnew 5489)|].
  destruct (Hstep (NewMersenneTwister 5489) (Hnew 5489)) as [_ [_ [H _]]].
  exact H.
Defined.

(** X16: the 32-bit twister folds its seed.  [Seed] XORs the two halves
    of the [int64] seed, so every seed gives the twister of a seed below
    [2^32]: the seeds [s] and [(s >> 32) ^ s], cut to 32 bits, are not
    told apart. *)
Theorem MersenneTwister_Seed_folds :
  forall seed : Z,
    0 <= Z.land (Z.lxor (Z.shiftr seed 32) seed) 4294967295 < 2 ^ 32 /\
    NewMersenneTwister (Z.land (Z.lxor (Z.shiftr seed 32) seed) 4294967295)
    = NewMersenneTwister seed.
Proof.
  intro seed. set (s := Z.land (Z.lxor (Z.shiftr seed 32) seed) 4294967295).
  assert (Hs : 0 <= s < 2 ^ 32).
  { unfold s. change 4294967295 with (Z.ones 32). rewrite Z.land_ones by lia.
    apply Z.mod_pos_bound. reflexivity. }
  split; [assumption|].
  unfold NewMersenneTwister, MersenneTwister_Seed. f_equal. fold s.
  assert (Hw : wrap_u32 s = s) by (unfold wrap_u32; apply Z.mod_small; lia).
  rewrite Hw.
  assert (H0 : Z.shiftr s 32 = 0).
  { rewrite Z.shiftr_div_pow2 by lia. apply Z.div_small. lia. }
  rewrite H0, Z.lxor_0_l.
  change 4294967295 with (Z.ones 32). rewrite Z.land_ones by lia.
  rewrite (Z.mod_small s) by lia. exact Hw.
Qed.

(** ** The 64-bit twister *)

Lemma initialize64_loop_ok :
  forall (n : nat) (i : Z) (a : list Z),
    Forall (fun x => 0 <= x < 2 ^ 64) a ->
    length (initialize64_loop n i a) = length a /\
    Forall (fun x => 0 <= x < 2 ^ 64) (initialize64_loop n i a).
Proof.
  induction n as [|n IH]; intros i a Ha; [now split|].
  cbn [initialize64_loop].
  match goal with |- context [arr_set a i ?x] => set (w := x) end.
  assert (Hw : 0 <= w < 2 ^ 64) by apply wrap_u64_range.
  destruct (IH (i + 1) (arr_set a i w)) as [H1 H2].
  - now apply arr_set_Forall.
  - split; [|assumption]. now rewrite H1, arr_set_length.
Qed.

Lemma MersenneTwister64_initialize_ok :
  forall (t : MersenneTwister64) (seed : Z),
    length (mt64 t) = 312%nat -> Forall (fun x => 0 <= x < 2 ^ 64) (mt64 t) ->
    0 <= seed < 2 ^ 64 ->
    MersenneTwister64_ok (MersenneTwister64_initialize t seed).
Proof.
  intros t seed Hl Ha Hs.
  unfold MersenneTwister64_ok, MersenneTwister64_initialize.
  cbn [mt64 index64].
  destruct (initialize64_loop_ok (Z.to_nat (len (mt64 t) - 1)) 1
              (arr_set (mt64 t) 0 seed)) as [H1 H2].
  - now apply arr_set_Forall.
  - split; [now rewrite H1, arr_set_length|]. split; [lia|assumption].
Qed.

Lemma mag01_64_range : forall b, 0 <= mag01_64 b < 2 ^ 64.
Proof.
  intro b. unfold mag01_64. destruct (b =? 0); split; try lia; reflexivity.
Qed.

Lemma generateUntempered64_loop_ok :
  forall (n : nat) (i : Z) (a : list Z),
    Forall (fun x => 0 <= x < 2 ^ 64) a ->
    length (generateUntempered64_loop n i a) = length a /\
    Forall (fun x => 0 <= x < 2 ^ 64) (generateUntempered64_loop n i a).
Proof.
  induction n as [|n IH]; intros i a Ha; [now split|].
  cbn [generateUntempered64_loop].
  match goal with |- context [arr_set a i ?x] => set (w := x) end.
  assert (H0 : 0 <= 0 < 2 ^ 64) by (split; [lia|reflexivity]).
  assert (Hw : 0 <= w < 2 ^ 64).
  { unfold w.
    assert (Hy : 0 <= Z.lor (Z.land (arr_get a i) 18446744071562067968)
                        (Z.land (arr_get a ((i + 1) mod len a)) 2147483647)
                 < 2 ^ 64).
    { apply lor_bound; [lia| |].
      - apply land_bound; [lia| |lia].
        apply (arr_get_Forall (fun x => 0 <= x < 2 ^ 64)); assumption.
      - apply land_bound; [lia| |lia].
        apply (arr_get_Forall (fun x => 0 <= x < 2 ^ 64)); assumption. }
    apply lxor_bound; [lia| |apply mag01_64_range].
    apply lxor_bound; [lia| |].
    - apply (arr_get_Forall (fun x => 0 <= x < 2 ^ 64)); assumption.
    - apply shiftr_bound; [lia|assumption]. }
  destruct (IH (i + 1) (arr_set a i w)) as [H1 H2].
  - now apply arr_set_Forall.
  - split; [|assumption]. now rewrite H1, arr_set_length.
Qed.

Lemma temper64_range : forall y, 0 <= y < 2 ^ 64 -> 0 <= temper64 y < 2 ^ 64.
Proof.
  intros y Hy. unfold temper64.
  set (y1 := Z.lxor y (Z.land (Z.shiftr y 29) 6148914691236517205)).
  assert (H1 : 0 <= y1 < 2 ^ 64).
  { apply lxor_bound; [lia|assumption|].
    apply land_bound; [lia| |lia]. apply shiftr_bound; [lia|assumption]. }
  set (y2 := Z.lxor y1 (Z.land (wrap_u64 (Z.shiftl y1 17)) 8202884508482404352)).
  assert (H2 : 0 <= y2 < 2 ^ 64).
  { apply lxor_bound; [lia|assumption|].
    apply land_bound; [lia|apply wrap_u64_range|lia]. }
  set (y3 := Z.lxor y2 (Z.land (wrap_u64 (Z.shiftl y2 37)) 18444473444759240704)).
  assert (H3 : 0 <= y3 < 2 ^ 64).
  { apply lxor_bound; [lia|assumption|].
    apply land_bound; [lia|apply wrap_u64_range|lia]. }
  apply lxor_bound; [lia|assumption|]. apply shiftr_bound; [lia|assumption].
Qed.

Lemma MersenneTwister64_Uint64_ok :
  forall t : MersenneTwister64,
    MersenneTwister64_ok t ->
    0 <= fst (MersenneTwister64_Uint64 t) < 2 ^ 64 /\
    MersenneTwister64_ok (snd (MersenneTwister64_Uint64 t)).
Proof.
  intros t Ht. unfold MersenneTwister64_Uint64.
  set (t1 := if initialized64 t then t else MersenneTwister64_initialize t 5489).
  assert (H1 : MersenneTwister64_ok t1).
  { unfold t1. destruct (initialized64 t); [assumption|].
    destruct Ht as [Hl [_ Ha]].
    apply MersenneTwister64_initialize_ok; try assumption.
    split; [lia|reflexivity]. }
  set (t2 := if index64 t1 =? 0 then MersenneTwister64_generateUntempered t1
             else t1).
  assert (H2 : MersenneTwister64_ok t2).
  { unfold t2. destruct (index64 t1 =? 0); [|assumption].
    destruct H1 as [Hl [Hi Ha]].
    unfold MersenneTwister64_ok, MersenneTwister64_generateUntempered.
    cbn [mt64 index64].
    destruct (generateUntempered64_loop_ok (length (mt64 t1)) 0 (mt64 t1) Ha)
      as [G1 G2].
    split; [now rewrite G1|]. now split. }
  destruct H2 as [Hl [Hi Ha]]. cbn [fst snd]. split.
  - apply temper64_range.
    apply (arr_get_Forall (fun x => 0 <= x < 2 ^ 64)); [assumption|].
    split; [lia|reflexivity].
  - unfold MersenneTwister64_ok. cbn [mt64 index64].
    split; [assumption|]. split; [|assumption].
    unfold len. rewrite Hl.
    destruct (Z.of_nat 312 <=? index64 t2 + 1) eqn:E;
      [lia|apply Z.leb_gt in E; lia].
Qed.

(** X17: the 64-bit twister keeps to the contract of [rand.Source].  A
    twister made by [NewMersenneTwister64] satisfies the invariant of the
    state (312 words of 64 bits, the index inside the array), whatever the
    seed; on a state that satisfies it, [Uint64] returns a value in
    [0, 2^64) and [Int63] a value in [0, 2^63), and both leave a state
    that satisfies it. *)
Theorem MersenneTwister64_Int63_range :
  (forall seed : Z, MersenneTwister64_ok (NewMersenneTwister64 seed)) /\
  (forall t : MersenneTwister64,
     MersenneTwister64_ok t ->
     0 <= fst (MersenneTwister64_Uint64 t) < 2 ^ 64 /\
     MersenneTwister64_ok (snd (MersenneTwister64_Uint64 t)) /\
     0 <= fst (MersenneTwister64_Int63 t) < 2 ^ 63 /\
     MersenneTwister64_ok (snd (MersenneTwister64_Int63 t))).
Proof.
  split.
  - intro seed. unfold NewMersenneTwister64, MersenneTwister64_Seed.
    apply MersenneTwister64_initialize_ok.
    + reflexivity.
    + apply Forall_forall. intros x Hx. apply repeat_spec in Hx. subst.
      split; [lia|reflexivity].
    + apply wrap_u64_range.
  - intros t Ht.
    destruct (MersenneTwister64_Uint64_ok t Ht) as [Ha Hta].
    split; [assumption|]. split; [assumption|].
    unfold MersenneTwister64_Int63. cbn [fst snd]. split; [|assumption].
    rewrite Z.land_comm.
    apply land_bound; [lia|split; [lia|reflexivity]|lia].
Qed.

Lemma MersenneTwister64_Int63_range_witness :
  MersenneTwister64_ok (NewMersenneTwister64 5489) /\
  0 <= fst (MersenneTwister64_Int63 (NewMersenneTwister64 5489)) < 2 ^ 63.
Proof.
  destruct MersenneTwister64_Int63_range as [Hnew Hstep].
  split; [exact (Hnew 5489)|].
  destruct (Hstep (NewMersenneTwister64 5489) (Hnew 5489)) as [_ [_ [H _]]].
  exact H.
Defined.

(** *** [SeedSlice] *)

Lemma nth_list_set_same :
  forall (a : list Z) (n : nat) (x d : Z),
    (n < length a)%nat -> nth n (list_set a n x) d = x.
Proof.
  induction a as [|y a IH]; intros n x d Hn; [simpl in Hn; lia|].
  destruct n; cbn [list_set nth]; [reflexivity|].
  apply IH. simpl in Hn. lia.
Qed.

(** The state of the loops of [SeedSlice]: an array of 312 words with the
    counter [i] inside it, from 1 on. *)
Lemma seedSlice_wrap_ok :
  forall (a : list Z) (i x : Z),
    length a = 312%nat -> Forall (fun x => 0 <= x < 2 ^ 64) a ->
    1 <= i < 312 -> 0 <= x < 2 ^ 64 ->
    forall a' i',
      (if len (arr_set a i x) <=? i + 1
       then (arr_set (arr_set a i x) 0
               (arr_get (arr_set a i x) (len (arr_set a i x) - 1)), 1)
       else (arr_set a i x, i + 1)) = (a', i') ->
      length a' = 312%nat /\ Forall (fun x => 0 <= x < 2 ^ 64) a' /\
      1 <= i' < 312.
Proof.
  intros a i x Hl Ha Hi Hx a' i' E.
  assert (Hl1 : length (arr_set a i x) = 312%nat)
    by now rewrite arr_set_length.
  assert (Ha1 : Forall (fun x => 0 <= x < 2 ^ 64) (arr_set a i x))
    by now apply arr_set_Forall.
  unfold len in E. rewrite Hl1 in E.
  destruct (Z.of_nat 312 <=? i + 1) eqn:C; inversion E; subst; clear E.
  - split; [now rewrite arr_set_length|]. split; [|lia].
    apply arr_set_Forall; [assumption|].
    apply (arr_get_Forall (fun x => 0 <= x < 2 ^ 64)); [assumption|].
    split; [lia|reflexivity].
  - apply Z.leb_gt in C. split; [assumption|]. split; [assumption|lia].
Qed.

Lemma seedSlice_loop1_ok :
  forall (seed : list Z) (n : nat) (a : list Z) (i j : Z),
    length a = 312%nat -> Forall (fun x => 0 <= x < 2 ^ 64) a ->
    1 <= i < 312 -> 0 <= j < len seed ->
    exists a' i' j',
      seedSlice_loop1 n seed (a, i, j) = Ok (a', i', j') /\
      length a' = 312%nat /\ Forall (fun x => 0 <= x < 2 ^ 64) a' /\
      1 <= i' < 312.
Proof.
  intros seed. induction n as [|n IH]; intros a i j Hl Ha Hi Hj.
  - exists a, i, j. cbn [seedSlice_loop1]. auto.
  - cbn [seedSlice_loop1]. unfold seedSlice_step1.
    destruct (idx_in_range Z seed j Hj) as [sj Hsj]. rewrite Hsj.
    cbn [of_option bind].
    match goal with |- context [arr_set a i ?x] => set (w := x) end.
    assert (Hw : 0 <= w < 2 ^ 64) by apply wrap_u64_range.
    destruct (if len (arr_set a i w) <=? i + 1
              then (arr_set (arr_set a i w) 0
                      (arr_get (arr_set a i w) (len (arr_set a i w) - 1)), 1)
              else (arr_set a i w, i + 1)) as [a1 i1] eqn:E.
    destruct (seedSlice_wrap_ok a i w Hl Ha Hi Hw a1 i1 E) as [Hl1 [Ha1 Hi1]].
    cbn [bind].
    apply IH; try assumption.
    destruct (len seed <=? j + 1) eqn:C; [lia|apply Z.leb_gt in C; lia].
Qed.

Lemma seedSlice_loop2_ok :
  forall (n : nat) (a : list Z) (i : Z),
    length a = 312%nat -> Forall (fun x => 0 <= x < 2 ^ 64) a ->
    1 <= i < 312 ->
    length (fst (seedSlice_loop2 n a i)) = 312%nat /\
    Forall (fun x => 0 <= x < 2 ^ 64) (fst (seedSlice_loop2 n a i)).
Proof.
  induction n as [|n IH]; intros a i Hl Ha Hi; [now split|].
  cbn [seedSlice_loop2].
  match goal with |- context [arr_set a i ?x] => set (w := x) end.
  assert (Hw : 0 <= w < 2 ^ 64) by apply wrap_u64_range.
  destruct (if len (arr_set a i w) <=? i + 1
            then (arr_set (arr_set a i w) 0
                    (arr_get (arr_set a i w) (len (arr_set a i w) - 1)), 1)
            else (arr_set a i w, i + 1)) as [a1 i1] eqn:E.
  destruct (seedSlice_wrap_ok a i w Hl Ha Hi Hw a1 i1 E) as [Hl1 [Ha1 Hi1]].
  now apply IH.
Qed.

(** X18: [SeedSlice] needs a seed.  With an empty slice the first round
    of the first loop reads [seed[0]] and the call panics.  With any other
    slice the call returns, on every twister that satisfies the invariant
    of the state: the twister it leaves satisfies the invariant, is
    initialized with index 0, and its first word is [1 << 63]. *)
Theorem MersenneTwister64_SeedSlice_spec :
  forall (t : MersenneTwister64) (seed : list Z),
    MersenneTwister64_ok t ->
    (seed = [] -> MersenneTwister64_SeedSlice t seed = Panic) /\
    (seed <> [] ->
     exists t',
       MersenneTwister64_SeedSlice t seed = Ok t' /\
       MersenneTwister64_ok t' /\
       index64 t' = 0 /\ initialized64 t' = true /\
       arr_get (mt64 t') 0 = 2 ^ 63).
Proof.
  intros t seed [Hl [_ Ha]].
  assert (Hinit : MersenneTwister64_ok (MersenneTwister64_initialize t 19650218)).
  { apply MersenneTwister64_initialize_ok; try assumption.
    split; [lia|reflexivity]. }
  destruct Hinit as [Hl0 [_ Ha0]].
  unfold MersenneTwister64_SeedSlice.
  set (t0 := MersenneTwister64_initialize t 19650218) in *.
  assert (HL : len (mt64 t0) = 312) by (unfold len; rewrite Hl0; reflexivity).
  rewrite !HL.
  split.
  - intros ->. change (len (@nil Z)) with 0.
    change (0 <? 312) with true. cbv iota.
    change (Z.to_nat 312) with (S 311).
    cbn [seedSlice_loop1]. reflexivity.
  - intros Hne.
    assert (Hj : 0 <= 0 < len seed).
    { destruct seed; [congruence|]. unfold len. simpl length. lia. }
    destruct (seedSlice_loop1_ok seed
                (Z.to_nat (if len seed <? 312 then 312 else len seed))
                (mt64 t0) 1 0 Hl0 Ha0 ltac:(lia) Hj)
      as [a1 [i1 [j1 [E [Hl1 [Ha1 Hi1]]]]]].
    rewrite E. cbn [bind].
    destruct (seedSlice_loop2_ok (Z.to_nat (len a1 - 1)) a1 i1 Hl1 Ha1 Hi1)
      as [Hl2 Ha2].
    eexists. split; [reflexivity|].
    unfold MersenneTwister64_ok. cbn [mt64 index64 initialized64].
    rewrite arr_set_length, Hl2.
    split; [|split; [reflexivity|split; [reflexivity|]]].
    + split; [reflexivity|]. split; [unfold t0; cbn; lia|].
      apply arr_set_Forall; [assumption|]. split; [|reflexivity].
      apply Z.shiftl_nonneg. lia.
    + unfold arr_get, arr_set. change (Z.to_nat 0) with O.
      rewrite nth_list_set_same by (rewrite Hl2; lia). reflexivity.
Qed.

Lemma MersenneTwister64_SeedSlice_spec_witness :
  MersenneTwister64_ok MersenneTwister64_zero /\
  exists t',
    MersenneTwister64_SeedSlice MersenneTwister64_zero
      [74565; 144470; 214375; 284280] = Ok t' /\
    MersenneTwister64_ok t' /\
    index64 t' = 0 /\ initialized64 t' = true /\
    arr_get (mt64 t') 0 = 2 ^ 63.
Proof.
  assert (H : MersenneTwister64_ok MersenneTwister64_zero).
  { unfold MersenneTwister64_ok, MersenneTwister64_zero. cbn [mt64 index64].
    split; [reflexivity|]. split; [lia|].
    apply Forall_forall. intros x Hx. apply repeat_spec in Hx. subst.
    split; [lia|reflexivity]. }
  split; [exact H|].
  apply (MersenneTwister64_SeedSlice_spec MersenneTwister64_zero
           [74565; 144470; 214375; 284280] H).
  discriminate.
Defined.

(** ** The solver keeps every relation that XOR keeps

    The solver does nothing to an equation but XOR it with another one.
    So a relation [Q] between index lists and values that the XOR of two
    equations keeps is kept by [addEquation], and [reduce] ends with [Q]
    between [[t]] and the value of row [t]. *)

Lemma filter_sorted :
  forall (f : Z -> bool) (l : list Z),
    StronglySorted Z.lt l -> StronglySorted Z.lt (filter f l).
Proof.
  intros f l H. induction H as [|x l Hs IH Hx]; [constructor|].
  cbn [filter]. destruct (f x); [|assumption].
  constructor; [assumption|].
  rewrite Forall_forall in *. intros y Hy. apply filter_In in Hy.
  now apply Hx.
Qed.

(** The part of a strictly ascending row below [i + 1], once [i] is
    cancelled. *)
Lemma xor_indices_cancel :
  forall (i : Z) (row : list Z),
    StronglySorted Z.lt row -> member i row = true ->
    xor_indices [i] (filter (fun u => u <? i + 1) row) =
    filter (fun u => u <? i) row.
Proof.
  intros i row H. induction H as [|x row Hs IH Hx]; intro Hm.
  - discriminate.
  - rewrite member_cons in Hm. cbn [filter].
    destruct (Z.lt_trichotomy x i) as [Hlt|[->|Hgt]].
    + assert (E1 : (x <? i + 1) = true) by (apply Z.ltb_lt; lia).
      assert (E2 : (x <? i) = true) by (apply Z.ltb_lt; lia).
      assert (E3 : (i =? x) = false) by (apply Z.eqb_neq; lia).
      assert (E4 : (i <? x) = false) by (apply Z.ltb_ge; lia).
      rewrite E1, E2. rewrite E3 in Hm. cbn [orb] in Hm.
      change (xor_indices [i] (x :: filter (fun u => u <? i + 1) row))
        with (if i =? x then xor_indices [] (filter (fun u => u <? i + 1) row)
              else if i <? x
                   then i :: xor_indices [] (x :: filter (fun u => u <? i + 1) row)
                   else x :: xor_indices [i] (filter (fun u => u <? i + 1) row)).
      rewrite E3, E4. f_equal. now apply IH.
    + assert (E1 : (i <? i + 1) = true) by (apply Z.ltb_lt; lia).
      rewrite E1, Z.ltb_irrefl.
      rewrite (filter_above (i + 1) row), (filter_above i row).
      * cbn. now rewrite Z.eqb_refl.
      * eapply Forall_impl; [|exact Hx]. cbn beta. intros; lia.
      * eapply Forall_impl; [|exact Hx]. cbn beta. intros; lia.
    + assert (E3 : (i =? x) = false) by (apply Z.eqb_neq; lia).
      rewrite E3 in Hm. cbn [orb] in Hm.
      rewrite (member_above i row) in Hm; [discriminate|].
      eapply Forall_lt_trans; eassumption.
Qed.

Lemma filter_no_member :
  forall (i : Z) (row : list Z),
    member i row = false ->
    filter (fun u => u <? i + 1) row = filter (fun u => u <? i) row.
Proof.
  intros i row. induction row as [|x row IH]; intro Hm; [reflexivity|].
  rewrite member_cons in Hm. apply orb_false_iff in Hm. destruct Hm as [E Hm].
  apply Z.eqb_neq in E. cbn [filter]. rewrite (IH Hm).
  destruct (x <? i + 1) eqn:E1, (x <? i) eqn:E2; try reflexivity.
  - apply Z.ltb_lt in E1. apply Z.ltb_ge in E2. lia.
  - apply Z.ltb_ge in E1. apply Z.ltb_lt in E2. lia.
Qed.

Lemma filter_led :
  forall (t : Z) (row : list Z),
    idx row 0 = Some t -> StronglySorted Z.lt row ->
    filter (fun u => u <? t + 1) row = [t].
Proof.
  intros t row Hhd Hs. destruct row as [|x row]; [discriminate|].
  rewrite idx_cons_0 in Hhd. inversion Hhd; subst x.
  cbn [filter]. assert (E : (t <? t + 1) = true) by (apply Z.ltb_lt; lia).
  rewrite E, (filter_above (t + 1) row); [reflexivity|].
  apply sorted_tail_gt in Hs. eapply Forall_impl; [|exact Hs].
  cbn beta. intros; lia.
Qed.

Lemma filter_all :
  forall (b : Z) (row : list Z),
    Forall (fun x => x < b) row -> filter (fun u => u <? b) row = row.
Proof.
  intros b row H. induction H as [|x l Hx _ IH]; [reflexivity|].
  cbn [filter]. assert (E : (x <? b) = true) by (apply Z.ltb_lt; lia).
  rewrite E. now f_equal.
Qed.

Section XorClosed.

Variable Q : list Z -> block -> Prop.

Hypothesis Q_xor :
  forall (row comps : list Z) (vs b : block),
    Q row vs -> Q comps b -> Q (xor_indices row comps) (block_xor b vs).

Lemma rows_rel_set_row :
  forall (m : sparseMatrix) (s : Z) (row : list Z) (b : block)
         (coeff' : list (list Z)) (v' : list block),
    rows_rel Q m -> Q row b ->
    upd (coeff m) s row = Some coeff' -> upd (v m) s b = Some v' ->
    rows_rel Q {| coeff := coeff'; v := v' |}.
Proof.
  intros m s row b coeff' v' Hm Hq Hu1 Hu2 i r vb Hr Hv.
  cbn [coeff v] in Hr, Hv. destruct (Z.eq_dec s i) as [->|Hne].
  - rewrite (idx_upd_same _ _ _ _ _ Hu1) in Hr.
    rewrite (idx_upd_same _ _ _ _ _ Hu2) in Hv.
    inversion Hr; inversion Hv; subst. assumption.
  - rewrite (idx_upd_other _ _ _ _ _ _ Hu1 Hne) in Hr.
    rewrite (idx_upd_other _ _ _ _ _ _ Hu2 Hne) in Hv.
    exact (Hm i r vb Hr Hv).
Qed.

Lemma addEquation_loop_rel :
  forall (fuel : nat) (m : sparseMatrix) (components : list Z)
         (b : block) (m1 : sparseMatrix) (c1 : list Z) (b1 : block),
    addEquation_loop fuel m components b = Ok (m1, c1, b1) ->
    rows_rel Q m -> Q components b ->
    rows_rel Q m1 /\ Q c1 b1.
Proof.
  induction fuel as [|fuel IH];
    intros m components b m1 c1 b1 E Hm Hq;
    rewrite addEquation_loop_unfold in E;
    (destruct components as [|s tl]; [inversion E; subst; auto|]);
    apply bind_Ok_inv in E; destruct E as [row [Hrow E]];
    apply of_option_Ok_inv in Hrow;
    (destruct row as [|r0 rtl]; [inversion E; subst; auto|]);
    [discriminate|].
  destruct (len (r0 :: rtl) <=? len (s :: tl)).
  - apply bind_Ok_inv in E. destruct E as [r [Hr E]].
    unfold xorRow in Hr.
    apply bind_Ok_inv in Hr. destruct Hr as [vs [Hvs Hr]].
    apply of_option_Ok_inv in Hvs.
    apply bind_Ok_inv in Hr. destruct Hr as [row' [Hrow' Hr]].
    apply of_option_Ok_inv in Hrow'.
    inversion Hr; subst r; clear Hr. cbn [fst snd] in E.
    rewrite Hrow in Hrow'. inversion Hrow'; subst row'; clear Hrow'.
    pose proof (Hm s (r0 :: rtl) vs Hrow Hvs) as Hrq.
    refine (IH _ _ _ _ _ _ E Hm _). now apply Q_xor.
  - apply bind_Ok_inv in E. destruct E as [coeff' [Hu1 E]].
    apply of_option_Ok_inv in Hu1.
    apply bind_Ok_inv in E. destruct E as [vs [Hvs E]].
    apply of_option_Ok_inv in Hvs.
    apply bind_Ok_inv in E. destruct E as [v' [Hu2 E]].
    apply of_option_Ok_inv in Hu2.
    pose proof (Hm s (r0 :: rtl) vs Hrow Hvs) as Hrq.
    refine (IH _ _ _ _ _ _ E _ Hrq).
    exact (rows_rel_set_row m s (s :: tl) b coeff' v' Hm Hq Hu1 Hu2).
Qed.

Lemma addEquation_rel :
  forall (fuel : nat) (m : sparseMatrix) (components : list Z)
         (b : block) (m' : sparseMatrix),
    addEquation fuel m components b = Ok m' ->
    rows_rel Q m -> Q components b -> rows_rel Q m'.
Proof.
  intros fuel m components b m' E Hm Hq. unfold addEquation in E.
  apply bind_Ok_inv in E. destruct E as [[[m1 c1] b1] [Hloop E]].
  destruct (addEquation_loop_rel _ _ _ _ _ _ _ Hloop Hm Hq) as [Hm1 Hq1].
  destruct c1 as [|s1 tl1]; [inversion E; subst; assumption|].
  apply bind_Ok_inv in E. destruct E as [coeff' [Hu1 E]].
  apply of_option_Ok_inv in Hu1.
  apply bind_Ok_inv in E. destruct E as [v' [Hu2 E]].
  apply of_option_Ok_inv in Hu2.
  inversion E; subst m'. eapply rows_rel_set_row; eassumption.
Qed.

(** A run of [addEquation] calls on a matrix with the matrix invariant. *)
Lemma addEquations_rel :
  forall (L : Z) (fuel : nat) (eqs : list (list Z * block)) (m : sparseMatrix),
    2 * L + 1 <= Z.of_nat fuel ->
    matrix_inv L m -> rows_rel Q m ->
    Forall (fun e => sorted_indices L (fst e) /\ Q (fst e) (snd e)) eqs ->
    exists m',
      addEquations fuel m eqs = Ok m' /\ matrix_inv L m' /\ rows_rel Q m'.
Proof.
  intros L fuel eqs. induction eqs as [|[comps b] rest IH];
    intros m Hfuel Hinv Hrows Hall.
  - exists m. split; [reflexivity|]. now split.
  - inversion Hall as [|? ? [Hs Hq] Hrest]; subst. cbn [fst snd] in Hs, Hq.
    cbn [addEquations].
    destruct (addEquation_ok L fuel m comps b Hinv Hs Hfuel)
      as [m1 [c1 [b1 [m' [_ [E [Hinv' _]]]]]]].
    rewrite E. cbn [bind]. apply IH; try assumption.
    exact (addEquation_rel fuel m comps b m' E Hrows Hq).
Qed.

Lemma addBlocks_loop_rel :
  forall (L : Z) (fuel : nat) (pick : Z -> outcome (list Z))
         (received : list LTBlock) (m : sparseMatrix),
    2 * L + 1 <= Z.of_nat fuel ->
    matrix_inv L m -> rows_rel Q m ->
    Forall (fun blk =>
              exists l, pick (BlockCode blk) = Ok l /\ sorted_indices L l /\
                        Q l {| data := Data blk; padding := 0 |})
           received ->
    exists m',
      addBlocks_loop fuel pick m received = Ok m' /\
      matrix_inv L m' /\ rows_rel Q m'.
Proof.
  intros L fuel pick received. induction received as [|blk rest IH];
    intros m Hfuel Hinv Hrows Hall.
  - exists m. split; [reflexivity|]. now split.
  - inversion Hall as [|? ? [l [Hl [Hs Hq]]] Hrest]; subst.
    cbn [addBlocks_loop]. rewrite Hl. cbn [bind].
    destruct (addEquation_ok L fuel m l {| data := Data blk; padding := 0 |}
                Hinv Hs Hfuel) as [m1 [c1 [b1 [m' [_ [E [Hinv' _]]]]]]].
    rewrite E. cbn [bind].
    apply IH; try assumption.
    exact (addEquation_rel fuel m l _ m' E Hrows Hq).
Qed.

Lemma reduced_rel_ext :
  forall (cf : list (list Z)) (f g : Z -> Z) (vs : list block),
    (forall t, 0 <= t < len cf -> f t = g t) ->
    reduced_rel Q cf f vs -> reduced_rel Q cf g vs.
Proof.
  intros cf f g vs Hfg [Hl H]. split; [assumption|].
  intros t row Hrow. destruct (H t row Hrow) as [vb [Hvb Hq]].
  exists vb. split; [assumption|].
  rewrite <- (Hfg t); [assumption|].
  eapply idx_Some_range; eassumption.
Qed.

Lemma reduce_cols_rel :
  forall (cf0 : list (list Z)) (i : Z) (n : nat) (j : Z)
         (cf : list (list Z)) (vs : list block),
    rows_led cf0 -> 0 <= j -> j + Z.of_nat n = i -> i < len cf0 ->
    (forall t, t <= i -> idx cf t = idx cf0 t) ->
    reduced_rel Q cf0 (fun t => if t <? j then i else Z.max (i + 1) (t + 1)) vs ->
    exists vs',
      reduce_cols n j i cf vs = Ok vs' /\
      reduced_rel Q cf0 (fun t => if t <? i then i else Z.max (i + 1) (t + 1)) vs'.
Proof.
  intros cf0 i n. induction n as [|n IH]; intros j cf vs Hled Hj Hn Hi Hcf Hred.
  - exists vs. split; [reflexivity|].
    replace i with j by lia. replace i with j in Hred by lia. assumption.
  - destruct Hred as [Hlen Hred].
    destruct (idx_in_range _ cf0 i ltac:(lia)) as [ri Hri].
    destruct (idx_in_range _ cf0 j ltac:(lia)) as [rj Hrj].
    destruct (Hled i ri Hri) as [Hhi Hsi].
    destruct (Hled j rj Hrj) as [Hhj Hsj].
    destruct (Hred i ri Hri) as [vi [Hvi Hqi]].
    destruct (Hred j rj Hrj) as [vj [Hvj Hqj]].
    assert (Ei : (i <? j) = false) by (apply Z.ltb_ge; lia).
    assert (Ej : (j <? j) = false) by apply Z.ltb_irrefl.
    rewrite Ei in Hqi. rewrite Ej in Hqj.
    rewrite Z.max_id in Hqi. rewrite Z.max_l in Hqj by lia.
    rewrite (filter_led i ri Hhi Hsi) in Hqi.
    cbn [reduce_cols]. rewrite (Hcf i), Hri by lia. cbn [of_option bind].
    rewrite (Hcf j), Hrj by lia. cbn [of_option bind].
    destruct rj as [|x tail]; [discriminate|].
    rewrite idx_cons_0 in Hhj. inversion Hhj; subst x. cbn [tl].
    assert (Hst : StronglySorted Z.lt tail) by (now inversion Hsj).
    destruct (reduce_row_spec ri i j vi tail vs vj Hhi ltac:(lia) Hst Hvi Hvj)
      as [vs1 [E1 [Hl1 [Ho1 Hj1]]]].
    rewrite E1. cbn [bind].
    apply (IH (j + 1) cf vs1 Hled); try lia; [assumption|].
    split; [lia|]. intros t row Hrow.
    destruct (Z.eq_dec t j) as [->|Hne].
    + rewrite Hrj in Hrow. inversion Hrow; subst row; clear Hrow.
      eexists. split; [exact Hj1|].
      assert (Et : (j <? j + 1) = true) by (apply Z.ltb_lt; lia).
      rewrite Et.
      assert (Hm : member i (j :: tail) = member i tail).
      { rewrite member_cons.
        assert (E : (i =? j) = false) by (apply Z.eqb_neq; lia).
        now rewrite E. }
      destruct (member i tail) eqn:Emem.
      * rewrite <- (xor_indices_cancel i (j :: tail) Hsj) by congruence.
        now apply Q_xor.
      * rewrite <- (filter_no_member i (j :: tail)) by congruence.
        assumption.
    + destruct (Hred t row Hrow) as [vb [Hvb Hq]].
      exists vb. rewrite (Ho1 t Hne). split; [assumption|].
      destruct (t <? j) eqn:E2.
      * apply Z.ltb_lt in E2.
        assert (E3 : (t <? j + 1) = true) by (apply Z.ltb_lt; lia).
        now rewrite E3.
      * apply Z.ltb_ge in E2.
        assert (E3 : (t <? j + 1) = false) by (apply Z.ltb_ge; lia).
        now rewrite E3.
Qed.

Lemma reduce_rows_rel :
  forall (cf0 : list (list Z)) (n : nat) (m : sparseMatrix),
    rows_led cf0 -> Z.of_nat n <= len cf0 -> len (coeff m) = len cf0 ->
    (forall t, t < Z.of_nat n -> idx (coeff m) t = idx cf0 t) ->
    (forall t, Z.of_nat n <= t < len cf0 -> idx (coeff m) t = Some [t]) ->
    reduced_rel Q cf0 (fun t => Z.max (Z.of_nat n) (t + 1)) (v m) ->
    exists m',
      reduce_rows n m = Ok m' /\
      len (coeff m') = len cf0 /\
      (forall t, 0 <= t < len cf0 -> idx (coeff m') t = Some [t]) /\
      reduced_rel Q cf0 (fun t => t + 1) (v m').
Proof.
  intros cf0 n. induction n as [|n IH]; intros m Hled Hn Hlen Hlow Hhigh Hred.
  - exists m. split; [reflexivity|]. split; [assumption|].
    split; [intros t Ht; apply Hhigh; lia|].
    eapply reduced_rel_ext; [|exact Hred]. cbn beta. intros t Ht. lia.
  - cbn [reduce_rows]. set (i := Z.of_nat n).
    assert (Hi : i + 1 = Z.of_nat (S n)) by lia.
    destruct (reduce_cols_rel cf0 i n 0 (coeff m) (v m) Hled)
      as [vs' [E Hred']]; try lia.
    { intros t Ht. apply Hlow. lia. }
    { eapply reduced_rel_ext; [|exact Hred]. cbn beta. intros t Ht.
      assert (E : (t <? 0) = false) by (apply Z.ltb_ge; lia).
      rewrite E. lia. }
    rewrite E. cbn [bind].
    destruct (idx_in_range _ cf0 i ltac:(lia)) as [ri Hri].
    destruct (Hled i ri Hri) as [Hhi Hsi].
    rewrite (Hlow i), Hri by lia. cbn [of_option bind].
    rewrite (firstn_1_led i ri Hhi). cbn [of_option bind].
    destruct (upd (coeff m) i [i]) as [coeff'|] eqn:Hu;
      [|rewrite upd_in_range in Hu by lia; discriminate].
    cbn [of_option bind].
    apply IH; cbn [coeff v]; try assumption; try lia.
    + rewrite (upd_len _ _ _ _ _ Hu). assumption.
    + intros t Ht. rewrite (idx_upd_other _ _ _ _ _ _ Hu) by lia.
      apply Hlow. lia.
    + intros t Ht. destruct (Z.eq_dec i t) as [<-|Hne].
      * apply (idx_upd_same _ _ _ _ _ Hu).
      * rewrite (idx_upd_other _ _ _ _ _ _ Hu Hne). apply Hhigh. lia.
    + eapply reduced_rel_ext; [|exact Hred']. cbn beta. intros t Ht.
      fold i. destruct (t <? i) eqn:E2.
      * apply Z.ltb_lt in E2. lia.
      * apply Z.ltb_ge in E2. lia.
Qed.

(** [reduce] on a determined matrix ends with [Q] between [[t]] and the
    value of row [t]. *)
Lemma reduce_rel :
  forall (L : Z) (m : sparseMatrix),
    matrix_inv L m -> determined m = true -> rows_rel Q m ->
    exists m',
      reduce m = Ok m' /\
      len (coeff m') = L /\ len (v m') = L /\
      (forall t, 0 <= t < L -> idx (coeff m') t = Some [t]) /\
      (forall t, 0 <= t < L ->
         exists vb, idx (v m') t = Some vb /\ Q [t] vb).
Proof.
  intros L m Hinv Hdet Hrows.
  pose proof Hinv as [Hc [Hv Hrow]].
  assert (Hled : rows_led (coeff m)).
  { intros t row Ht. destruct (Hrow t row Ht) as [->|[Hhd [Hs _]]].
    - exfalso. exact (determined_rows m t [] Hdet Ht eq_refl).
    - now split. }
  assert (Hstart : reduced_rel Q (coeff m)
            (fun t => Z.max (Z.of_nat (length (coeff m))) (t + 1)) (v m)).
  { split; [lia|]. intros t row Ht.
    pose proof (idx_Some_range _ _ _ _ Ht) as Htr.
    destruct (idx_in_range _ (v m) t ltac:(lia)) as [vb Hvb].
    exists vb. split; [assumption|].
    rewrite filter_all; [exact (Hrows t row vb Ht Hvb)|].
    destruct (Hrow t row Ht) as [->|[_ [_ Hrange]]]; [constructor|].
    eapply Forall_impl; [|exact Hrange]. cbn beta. intros x Hx.
    fold (len (coeff m)). lia. }
  destruct (reduce_rows_rel (coeff m) (length (coeff m)) m Hled
              ltac:(unfold len; lia) eq_refl
              (fun t _ => eq_refl)
              ltac:(intros t Ht; unfold len in Ht; lia) Hstart)
    as [m' [E [Hl' [Hc' Hred]]]].
  exists m'. split; [exact E|]. destruct Hred as [Hlv Hred].
  split; [lia|]. split; [lia|].
  split; [intros t Ht; apply Hc'; lia|].
  intros t Ht.
  destruct (idx_in_range _ (coeff m) t ltac:(lia)) as [row Hr].
  destruct (Hred t row Hr) as [vb [Hvb Hq]].
  destruct (Hled t row Hr) as [Hhd Hs].
  exists vb. split; [assumption|].
  now rewrite (filter_led t row Hhd Hs) in Hq.
Qed.

End XorClosed.

(** ** Sums of equations *)

Lemma combination_none :
  forall (rows : list (list Z)) (sel : Z -> bool) (i j : Z),
    (forall t, i <= t < i + len rows -> sel t = false) ->
    combination sel i rows j = false.
Proof.
  induction rows as [|r rows IH]; intros sel i j H; [reflexivity|].
  cbn [combination]. rewrite len_cons in H. pose proof (len_nonneg _ rows).
  rewrite (H i) by lia. rewrite IH; [reflexivity|].
  intros t Ht. apply H. lia.
Qed.

Lemma combination_xorb :
  forall (rows : list (list Z)) (s1 s2 : Z -> bool) (i j : Z),
    combination (fun t => xorb (s1 t) (s2 t)) i rows j =
    xorb (combination s1 i rows j) (combination s2 i rows j).
Proof.
  induction rows as [|r rows IH]; intros s1 s2 i j; [reflexivity|].
  cbn [combination]. rewrite IH.
  destruct (s1 i), (s2 i), (member j r), (combination s1 (i + 1) rows j),
    (combination s2 (i + 1) rows j); reflexivity.
Qed.

Lemma combination_single :
  forall (rows : list (list Z)) (i s j : Z),
    combination (fun t => t =? s) i rows j =
    match idx rows (s - i) with
    | Some e => member j e
    | None => false
    end.
Proof.
  induction rows as [|r rows IH]; intros i s j.
  - cbn [combination]. unfold idx. destruct (s - i <? 0); [reflexivity|].
    now destruct (Z.to_nat (s - i)).
  - cbn [combination]. rewrite IH.
    destruct (Z.lt_trichotomy s i) as [Hlt|[->|Hgt]].
    + assert (E : (i =? s) = false) by (apply Z.eqb_neq; lia).
      rewrite E. cbn [andb]. unfold idx.
      assert (E1 : (s - (i + 1) <? 0) = true) by (apply Z.ltb_lt; lia).
      assert (E2 : (s - i <? 0) = true) by (apply Z.ltb_lt; lia).
      now rewrite E1, E2.
    + rewrite Z.eqb_refl, Z.sub_diag, idx_cons_0. cbn [andb]. unfold idx.
      assert (E1 : (i - (i + 1) <? 0) = true) by (apply Z.ltb_lt; lia).
      rewrite E1. apply xorb_false_r.
    + assert (E : (i =? s) = false) by (apply Z.eqb_neq; lia).
      rewrite E. cbn [andb xorb]. rewrite idx_cons_pos by lia.
      now replace (s - i - 1) with (s - (i + 1)) by lia.
Qed.

Lemma in_span_nil : forall E : list (list Z), in_span E [].
Proof.
  intro E. exists (fun _ => false). intro j. cbn [member existsb].
  symmetry. now apply combination_none.
Qed.

Lemma in_span_member :
  forall (E : list (list Z)) (s : Z) (e : list Z),
    idx E s = Some e -> in_span E e.
Proof.
  intros E s e H. exists (fun t => t =? s). intro j.
  now rewrite combination_single, Z.sub_0_r, H.
Qed.

Lemma in_span_xor :
  forall (E : list (list Z)) (a b : list Z),
    StronglySorted Z.lt a -> StronglySorted Z.lt b ->
    in_span E a -> in_span E b -> in_span E (xor_indices a b).
Proof.
  intros E a b Ha Hb [s1 H1] [s2 H2].
  exists (fun t => xorb (s1 t) (s2 t)). intro j.
  now rewrite combination_xorb, xor_indices_member, H1, H2.
Qed.

(** The relation of a decoder with auxiliary equations is kept by XOR. *)
Lemma full_equation_xor :
  forall (X : list block) (n : Z) (E : list (list Z))
         (row comps : list Z) (vs b : block),
    full_equation X n E row vs -> full_equation X n E comps b ->
    full_equation X n E (xor_indices row comps) (block_xor b vs).
Proof.
  intros X n E row comps vs b [Hs1 [He1 Hl1]] [Hs2 [He2 Hl2]].
  split; [now apply xor_indices_sorted|].
  split; [now apply equation_holds_xor|].
  rewrite block_xor_data_len.
  destruct Hl1 as [Hl1|Hl1]; [left; lia|].
  destruct Hl2 as [Hl2|Hl2]; [left; lia|].
  right. now apply in_span_xor.
Qed.

Lemma full_equation_zero :
  forall (X : list block) (n : Z) (E : list (list Z)) (L : Z),
    rows_rel (full_equation X n E) (newSparseMatrix L).
Proof.
  intros X n E L i row b Hr Hv. unfold newSparseMatrix in *. cbn [coeff v] in *.
  unfold idx in Hr, Hv. destruct (i <? 0); [discriminate|].
  apply nth_error_In in Hr. apply nth_error_In in Hv.
  apply repeat_spec in Hr. apply repeat_spec in Hv. subst.
  split; [constructor|]. split; [|right; apply in_span_nil].
  intro k. unfold byte_at. cbn. now destruct k.
Qed.

(** ** The equations of the auxiliary blocks *)

Lemma len_append_own_index :
  forall (comps : list (list Z)) (i K : Z),
    len (append_own_index i K comps) = len comps.
Proof.
  induction comps as [|c comps IH]; intros i K; [reflexivity|].
  cbn [append_own_index]. rewrite !len_cons. now rewrite IH.
Qed.

Lemma idx_append_own_index :
  forall (comps : list (list Z)) (i K j : Z) (cj : list Z),
    idx comps j = Some cj ->
    idx (append_own_index i K comps) j = Some (cj ++ [wrap64 (i + j + K)]).
Proof.
  induction comps as [|c comps IH]; intros i K j cj H.
  - apply idx_Some_range in H. change (len []) with 0 in H. lia.
  - pose proof (idx_Some_range _ _ _ _ H) as Hr. cbn [append_own_index].
    destruct (Z.eq_dec j 0) as [->|Hne].
    + rewrite idx_cons_0 in *. inversion H; subst.
      now rewrite Z.add_0_r.
    + rewrite idx_cons_pos in * by lia.
      rewrite (IH (i + 1) K (j - 1) cj H).
      now replace (i + 1 + (j - 1) + K) with (i + j + K) by lia.
Qed.

(** Only equation [j] names the auxiliary block [j]. *)
Lemma combination_own_index :
  forall (comps : list (list Z)) (sel : Z -> bool) (i K j : Z),
    0 <= i -> i + len comps + K <= max_int -> 0 <= K -> 0 <= j ->
    Forall (Forall (fun x => 0 <= x < K)) comps ->
    combination sel i (append_own_index i K comps) (K + j) =
    if (i <=? j) && (j <? i + len comps) then sel j else false.
Proof.
  assert (Hmax : max_int = 9223372036854775807) by reflexivity.
  induction comps as [|c comps IH]; intros sel i K j Hi Hb HK Hj Hall.
  - cbn [append_own_index combination]. change (len []) with 0.
    destruct (i <=? j) eqn:E1, (j <? i + 0) eqn:E2; try reflexivity.
    apply Z.leb_le in E1. apply Z.ltb_lt in E2. lia.
  - inversion Hall as [|? ? Hc Hrest]; subst.
    rewrite len_cons in *. pose proof (len_nonneg _ comps) as Hn.
    cbn [append_own_index combination].
    rewrite (IH sel (i + 1) K j) by (try assumption; lia).
    assert (Hm : member (K + j) (c ++ [wrap64 (i + K)]) = (j =? i)).
    { rewrite wrap64_small by lia.
      destruct (member (K + j) (c ++ [i + K])) eqn:Em.
      - apply member_In in Em. apply in_app_iff in Em.
        destruct Em as [Em|[Em|[]]].
        + rewrite Forall_forall in Hc. specialize (Hc _ Em).
          cbn beta in Hc. lia.
        + symmetry. apply Z.eqb_eq. lia.
      - destruct (Z.eqb_spec j i) as [->|Hne]; [|reflexivity].
        assert (Hin : In (K + i) (c ++ [i + K])).
        { apply in_app_iff. right. left. lia. }
        apply member_In in Hin. congruence. }
    rewrite Hm.
    destruct (Z.eqb_spec j i) as [->|Hne].
    + assert (E1 : (i + 1 <=? i) = false) by (apply Z.leb_gt; lia).
      assert (E2 : (i <=? i) = true) by (apply Z.leb_le; lia).
      assert (E3 : (i <? i + (len comps + 1)) = true) by (apply Z.ltb_lt; lia).
      rewrite E1, E2, E3. cbn [andb]. rewrite andb_true_r. apply xorb_false_r.
    + rewrite andb_false_r. cbn [xorb].
      destruct (i + 1 <=? j) eqn:E1, (j <? i + 1 + len comps) eqn:E2,
               (i <=? j) eqn:E3, (j <? i + (len comps + 1)) eqn:E4;
        cbn [andb]; try reflexivity;
        repeat match goal with
               | H : (_ <=? _) = true |- _ => apply Z.leb_le in H
               | H : (_ <=? _) = false |- _ => apply Z.leb_gt in H
               | H : (_ <? _) = true |- _ => apply Z.ltb_lt in H
               | H : (_ <? _) = false |- _ => apply Z.ltb_ge in H
               end; lia.
Qed.

(** No source block is named by a sum of auxiliary equations alone. *)
Lemma span_not_source :
  forall (comps : list (list Z)) (K t : Z),
    0 <= K -> len comps + K <= max_int ->
    Forall (Forall (fun x => 0 <= x < K)) comps ->
    0 <= t < K -> ~ in_span (append_own_index 0 K comps) [t].
Proof.
  intros comps K t HK Hb Hall Ht [sel Hsel].
  assert (Hoff : forall j, 0 <= j < len comps -> sel j = false).
  { intros j Hj.
    pose proof (combination_own_index comps sel 0 K j ltac:(lia) ltac:(lia)
                  HK ltac:(lia) Hall) as Hc.
    rewrite <- Hsel in Hc.
    assert (E1 : (0 <=? j) = true) by (apply Z.leb_le; lia).
    assert (E2 : (j <? 0 + len comps) = true) by (apply Z.ltb_lt; lia).
    rewrite E1, E2 in Hc. cbn [andb] in Hc. rewrite <- Hc.
    cbn [member existsb].
    assert (E : (K + j =? t) = false) by (apply Z.eqb_neq; lia).
    now rewrite E. }
  specialize (Hsel t). cbn [member existsb] in Hsel.
  rewrite Z.eqb_refl in Hsel. cbn [orb] in Hsel.
  rewrite combination_none in Hsel; [discriminate|].
  intros j Hj. rewrite len_append_own_index in Hj. apply Hoff. lia.
Qed.

Lemma xor_sum_app_l :
  forall (source aux : list block) (l : list Z) (k : nat),
    Forall (fun x => 0 <= x < len source) l ->
    xor_sum (source ++ aux) l k = xor_sum source l k.
Proof.
  intros source aux l k H. induction H as [|x l Hx _ IH]; [reflexivity|].
  cbn [xor_sum fold_right]. fold (xor_sum (source ++ aux) l k).
  fold (xor_sum source l k). rewrite IH. f_equal.
  unfold source_byte. now rewrite idx_app_l.
Qed.

Lemma aux_entry_ok_weaken :
  forall (source : list block) (n b1 b2 : Z) (a : block) (cj : list Z),
    b1 <= b2 -> aux_entry_ok source n b1 a cj -> aux_entry_ok source n b2 a cj.
Proof.
  intros source n b1 b2 a cj Hb [H1 [H2 [H3 H4]]].
  split; [assumption|]. split; [assumption|]. split; [assumption|].
  eapply Forall_impl; [|exact H4]. cbn beta. intros; lia.
Qed.

Lemma touch_aux_spec :
  forall (source : list block) (n i : Z) (touch : list Z)
         (aux : list block) (comps : list (list Z)) (aux' : list block),
    0 <= i ->
    Forall (fun b => len (data b) <= n) source ->
    StronglySorted Z.lt touch ->
    len aux = len comps ->
    (forall j a cj,
       idx aux j = Some a -> idx comps j = Some cj ->
       aux_entry_ok source n (i + 1) a cj /\
       (In j touch -> Forall (fun x => x < i) cj)) ->
    touch_aux aux source i touch = Ok aux' ->
    exists comps',
      touch_compositions comps i touch = Ok comps' /\
      len aux' = len comps' /\ len aux' = len aux /\
      forall j a cj,
        idx aux' j = Some a -> idx comps' j = Some cj ->
        aux_entry_ok source n (i + 1) a cj.
Proof.
  intros source n i touch. induction touch as [|j rest IH];
    intros aux comps aux' Hi Hsrc Hs Hlen Hok E.
  - inversion E; subst. exists comps. split; [reflexivity|].
    split; [assumption|]. split; [reflexivity|].
    intros j a cj Ha Hc. exact (proj1 (Hok j a cj Ha Hc)).
  - cbn [touch_aux] in E.
    apply bind_Ok_inv in E. destruct E as [a [Ha E]].
    apply of_option_Ok_inv in Ha.
    apply bind_Ok_inv in E. destruct E as [s [Hsi E]].
    apply of_option_Ok_inv in Hsi.
    apply bind_Ok_inv in E. destruct E as [aux1 [Hu E]].
    apply of_option_Ok_inv in Hu.
    pose proof (idx_Some_range _ _ _ _ Ha) as Hj.
    destruct (idx_in_range _ comps j ltac:(lia)) as [cj Hcj].
    cbn [touch_compositions]. rewrite Hcj. cbn [of_option bind].
    destruct (upd comps j (cj ++ [i])) as [comps1|] eqn:Hu2;
      [|rewrite upd_in_range in Hu2 by lia; discriminate].
    cbn [of_option bind].
    inversion Hs as [|? ? Hrest Hgt]; subst.
    destruct (Hok j a cj Ha Hcj) as [[Hb [Hl [Hsc Hrc]]] Hlt].
    specialize (Hlt (or_introl eq_refl)).
    destruct (IH aux1 comps1 aux' Hi Hsrc Hrest) as [comps' [E' [H1 [H2 H3]]]].
    + rewrite (upd_len _ _ _ _ _ Hu), (upd_len _ _ _ _ _ Hu2). assumption.
    + intros j' a' cj' Ha' Hc'. destruct (Z.eq_dec j j') as [<-|Hne].
      * rewrite (idx_upd_same _ _ _ _ _ Hu) in Ha'.
        rewrite (idx_upd_same _ _ _ _ _ Hu2) in Hc'.
        inversion Ha'; inversion Hc'; subst; clear Ha' Hc'.
        split.
        -- split.
           ++ intro k. rewrite byte_at_block_xor, xor_sum_app, (Hb k).
              f_equal. cbn [xor_sum fold_right]. unfold source_byte.
              rewrite Hsi. symmetry. apply Z.lxor_0_r.
           ++ split.
              ** rewrite block_xor_data_len.
                 pose proof (Forall_idx _ _ _ _ _ Hsrc Hsi) as Hls.
                 cbn beta in Hls. lia.
              ** split; [now apply sorted_snoc|].
                 apply Forall_app. split; [assumption|].
                 repeat constructor; lia.
        -- intro Hin. exfalso. rewrite Forall_forall in Hgt.
           specialize (Hgt _ Hin). lia.
      * rewrite (idx_upd_other _ _ _ _ _ _ Hu Hne) in Ha'.
        rewrite (idx_upd_other _ _ _ _ _ _ Hu2 Hne) in Hc'.
        destruct (Hok j' a' cj' Ha' Hc') as [Hok1 Hok2].
        split; [assumption|]. intro Hin. apply Hok2. now right.
    + assumption.
    + exists comps'. split; [assumption|]. split; [assumption|].
      split; [|assumption]. rewrite H2. apply (upd_len _ _ _ _ _ Hu).
Qed.

Lemma xor_outer_spec :
  forall (source aux : list block) (l : list Z) (sym : block),
    Forall (fun i => 0 <= i < len source + len aux) l ->
    xor_outer sym source aux l =
    Ok (fold_left block_xor (selected_blocks (source ++ aux) l) sym).
Proof.
  intros source aux l. induction l as [|i l IH]; intros sym H; [reflexivity|].
  inversion H as [|? ? Hi Hl]; subst.
  cbn [xor_outer]. unfold selected_blocks. cbn [flat_map].
  fold (selected_blocks (source ++ aux) l). rewrite fold_left_app.
  destruct (i <? len source) eqn:E.
  - apply Z.ltb_lt in E. rewrite idx_app_l by lia.
    destruct (idx_in_range _ source i ltac:(lia)) as [b Hb]. rewrite Hb.
    cbn [of_option bind fold_left]. now apply IH.
  - apply Z.ltb_ge in E. rewrite idx_app_r by lia.
    destruct (idx_in_range _ aux (i - len source) ltac:(lia)) as [b Hb].
    rewrite Hb. cbn [of_option bind fold_left]. now apply IH.
Qed.

Lemma copy_bytes_zeros :
  forall (N : nat) (src : list Z),
    (length src <= N)%nat ->
    copy_bytes (repeat 0 N) src = src ++ repeat 0 (N - length src).
Proof.
  intros N src H. unfold copy_bytes. rewrite repeat_length.
  rewrite firstn_all2 by assumption. f_equal.
  replace N with (length src + (N - length src))%nat at 1 by lia.
  rewrite repeat_app, skipn_app, repeat_length, Nat.sub_diag, skipn_O.
  rewrite skipn_all2 by (rewrite repeat_length; lia). reflexivity.
Qed.

(** The first source block is as long as any. *)
Lemma source_first_length :
  forall (message : list Z) (p : Z) (X : list block),
    len message < 2 ^ 53 -> 0 < p <= max_int ->
    sourceBlocks message p = Ok X ->
    len X = p /\
    exists s0,
      idx X 0 = Some s0 /\ 0 <= block_length s0 /\
      Forall (fun b => len (data b) <= block_length s0) X.
Proof.
  intros message p X Hlen Hp HX.
  pose proof (len_nonneg _ message) as H0.
  pose proof (Z.mod_pos_bound (len message) p ltac:(lia)) as Hr.
  assert (Hq : 0 <= len message / p) by (apply Z.div_pos; lia).
  assert (Hq2 : len message / p <= len message)
    by (apply Z.div_le_upper_bound; nia).
  assert (H53 : 2 ^ 53 = 9007199254740992) by reflexivity.
  assert (Hmax : max_int = 9223372036854775807) by reflexivity.
  destruct (sourceBlocks_shape message p Hlen Hp)
    as [long [short [E [HlL [HlS [HaL [HaS _]]]]]]].
  rewrite E in HX. inversion HX; subst X; clear HX.
  split; [rewrite len_app; lia|].
  destruct long as [|l0 long].
  - change (len []) with 0 in HlL. rewrite <- HlL in *.
    change (0 =? 0) with true in HaS. cbn iota in HaS.
    destruct short as [|s0 short]; [change (len []) with 0 in HlS; lia|].
    exists s0. cbn [app]. split; [apply idx_cons_0|].
    pose proof (Forall_inv HaS) as [Hd0 Hp0]. cbn beta in Hd0, Hp0.
    assert (Hbl : block_length s0 = len message / p).
    { unfold block_length. rewrite Hd0, Hp0, Z.add_0_r.
      apply wrap64_small. lia. }
    rewrite Hbl. split; [lia|].
    eapply Forall_impl; [|exact HaS]. cbn beta. intros b [Hb _]. lia.
  - exists l0. cbn [app]. split; [apply idx_cons_0|].
    pose proof (Forall_inv HaL) as [Hd0 Hp0]. cbn beta in Hd0, Hp0.
    assert (Hbl : block_length l0 = len message / p + 1).
    { unfold block_length. rewrite Hd0, Hp0, Z.add_0_r.
      apply wrap64_small. lia. }
    rewrite Hbl. split; [lia|].
    change (l0 :: long ++ short) with ((l0 :: long) ++ short).
    apply Forall_app. split.
    + eapply Forall_impl; [|exact HaL]. cbn beta. intros b [Hb _]. lia.
    + eapply Forall_impl; [|exact HaS]. cbn beta. intros b [Hb _]. lia.
Qed.


(** [reconstruct] reads the rows of the source blocks only. *)
Lemma reconstruct_rows :
  forall (message : list Z) (p : Z) (X : list block) (m : sparseMatrix)
         (lenLong lenShort numLong numShort : Z),
    len message < 2 ^ 53 -> 0 < p <= max_int ->
    sourceBlocks message p = Ok X ->
    partition (len message) p = Ok (lenLong, lenShort, numLong, numShort) ->
    (forall t xb, idx X t = Some xb ->
       exists vb, idx (v m) t = Some vb /\ agrees vb xb) ->
    reconstruct m (len message) lenLong lenShort numLong numShort = Ok message.
Proof.
  intros message p X m lenLong lenShort numLong numShort Hlen Hp HX Hpart Hag.
  pose proof (len_nonneg _ message) as H0.
  pose proof (Z.mod_pos_bound (len message) p ltac:(lia)) as Hr.
  assert (Hmax : max_int = 9223372036854775807) by reflexivity.
  rewrite partition_eval in Hpart by lia. inversion Hpart; subst; clear Hpart.
  destruct (sourceBlocks_shape message p Hlen Hp)
    as [long [short [E [HlL [HlS [HaL [HaS Hcat]]]]]]].
  rewrite E in HX. inversion HX; subst X; clear HX.
  unfold reconstruct.
  destruct (len message <? 0) eqn:E0; [apply Z.ltb_lt in E0; lia|].
  replace (len message mod p + (p - len message mod p)) with p by lia.
  rewrite (wrap64_small p) by lia.
  rewrite (append_rows_agree _ 0 _ (v m) (long ++ short) []).
  - cbn [bind].
    rewrite (append_rows_agree _ (len message mod p) _ (v m) (long ++ short)).
    + f_equal. cbn [app Z.to_nat skipn].
      rewrite <- HlL. unfold len at 1 3. rewrite !Nat2Z.id.
      rewrite firstn_app, firstn_all, Nat.sub_diag, firstn_O, app_nil_r.
      rewrite skipn_app, skipn_all, Nat.sub_diag, skipn_O. cbn [app].
      rewrite HlL.
      replace (Z.to_nat (p - len message mod p)) with (length short)
        by (unfold len at 1 in HlS; lia).
      rewrite firstn_all. exact Hcat.
    + lia.
    + intros t Ht. rewrite Z2Nat.id in Ht by lia.
      destruct (idx_in_range _ short (t - len long)
                  ltac:(rewrite HlL, HlS; lia)) as [xb Hxb].
      assert (Hx : idx (long ++ short) t = Some xb)
        by (rewrite idx_app_r by lia; assumption).
      destruct (Hag t xb Hx) as [vb [Hvb Hab]].
      exists vb, xb. split; [assumption|]. split; [assumption|].
      split; [assumption|].
      exact (proj1 (Forall_idx _ _ _ _ _ HaS Hxb)).
  - lia.
  - intros t Ht. rewrite Z2Nat.id in Ht by lia.
    destruct (idx_in_range _ long t ltac:(lia)) as [xb Hxb].
    assert (Hx : idx (long ++ short) t = Some xb)
      by (rewrite idx_app_l by lia; assumption).
    destruct (Hag t xb Hx) as [vb [Hvb Hab]].
    exists vb, xb. split; [assumption|]. split; [assumption|].
    split; [assumption|].
    pose proof (proj1 (Forall_idx _ _ _ _ _ HaL Hxb)) as Hd. cbn beta in Hd.
    rewrite Hd.
    destruct (len message mod p =? 0) eqn:Em; [|reflexivity].
    apply Z.eqb_eq in Em. lia.
Qed.

(** ** The Online codec *)

Section OnlineCodec.

Context {R : RandOps}.
Hypothesis HIntn : Intn_in_range R.

(** The encoder and the decoder walk the same draws: where the encoder
    XORs source block [i] into an auxiliary block, the decoder writes [i]
    into the composition of that block. *)
Lemma outer_loop_spec :
  forall (fuel : nat) (source : list block) (n q A : Z) (cnt : nat) (i : Z)
         (aux : list block) (comps : list (list Z)) (random : Rand)
         (aux' : list block),
    0 <= i -> Forall (fun b => len (data b) <= n) source ->
    len aux = len comps ->
    (forall j a cj,
       idx aux j = Some a -> idx comps j = Some cj ->
       aux_entry_ok source n i a cj) ->
    outer_loop fuel cnt i q A source aux random = Ok aux' ->
    exists comps',
      composition_loop fuel cnt i q A comps random = Ok comps' /\
      len aux' = len comps' /\ len aux' = len aux /\
      forall j a cj,
        idx aux' j = Some a -> idx comps' j = Some cj ->
        aux_entry_ok source n (i + Z.of_nat cnt) a cj.
Proof.
  intros fuel source n q A cnt. induction cnt as [|cnt IH];
    intros i aux comps random aux' Hi Hsrc Hlen Hok E.
  - inversion E; subst. exists comps. split; [reflexivity|].
    split; [assumption|]. split; [reflexivity|].
    now rewrite Z.add_0_r.
  - cbn [outer_loop] in E.
    apply bind_Ok_inv in E. destruct E as [[touch r'] [Hsu E]].
    cbn [fst snd] in E.
    apply bind_Ok_inv in E. destruct E as [aux1 [Ht E]].
    destruct (proj1 (proj2 (sampleUniform_props HIntn fuel random q A))
                touch r' Hsu) as [_ [Hts _]].
    destruct (touch_aux_spec source n i touch aux comps aux1 Hi Hsrc Hts Hlen)
      as [comps1 [E1 [H1 [H2 H3]]]]; [|assumption|].
    { intros j a cj Ha Hc. destruct (Hok j a cj Ha Hc) as [Hb [Hl [Hs Hr]]].
      split.
      - apply (aux_entry_ok_weaken source n i); [lia|]. repeat split; assumption.
      - intros _. eapply Forall_impl; [|exact Hr]. cbn beta. intros; lia. }
    destruct (IH (i + 1) aux1 comps1 r' aux' ltac:(lia) Hsrc H1 H3 E)
      as [comps' [E' [H4 [H5 H6]]]].
    exists comps'. cbn [composition_loop]. rewrite Hsu. cbn [bind fst snd].
    rewrite E1. cbn [bind]. split; [assumption|]. split; [assumption|].
    split; [lia|]. intros j a cj Ha Hc.
    replace (i + Z.of_nat (S cnt)) with (i + 1 + Z.of_nat cnt) by lia.
    exact (H6 j a cj Ha Hc).
Qed.

Lemma onlineCodec_PickIndices_sorted :
  forall (fuel : nat) (c : onlineCodec) (id : Z) (l : list Z),
    onlineCodec_PickIndices fuel c id = Ok l ->
    sorted_indices (wrap64 (o_numSourceBlocks c + onlineCodec_numAuxBlocks c)) l.
Proof.
  intros fuel c id l H. unfold onlineCodec_PickIndices in H.
  apply bind_Ok_inv in H. destruct H as [d [_ H]].
  apply bind_Ok_inv in H. destruct H as [[l' r'] [H E]].
  inversion E; subst; clear E. cbn [fst].
  exact (proj2 (proj1 (proj2 (sampleUniform_props HIntn fuel _ d _)) l r' H)).
Qed.

Lemma encodeOnline_loop_spec :
  forall (fuel : nat) (c : onlineCodec) (source aux : list block)
         (ids : list Z) (blocks : list LTBlock),
    encodeOnline_loop fuel c source aux ids = Ok blocks ->
    Forall (fun blk =>
              exists l b s0,
                onlineCodec_PickIndices fuel c (BlockCode blk) = Ok l /\
                generateCodeBlock source aux l = Ok b /\
                idx source 0 = Some s0 /\ 0 <= block_length s0 /\
                Data blk = copy_bytes (repeat 0 (Z.to_nat (block_length s0)))
                                      (data b))
           blocks.
Proof.
  intros fuel c source aux ids. induction ids as [|id rest IH];
    intros blocks E.
  - inversion E; subst. constructor.
  - cbn [encodeOnline_loop] in E.
    apply bind_Ok_inv in E. destruct E as [l [Hl E]].
    apply bind_Ok_inv in E. destruct E as [b [Hb E]].
    apply bind_Ok_inv in E. destruct E as [s0 [Hs0 E]].
    apply of_option_Ok_inv in Hs0.
    apply bind_Ok_inv in E. destruct E as [d [Hd E]].
    apply of_option_Ok_inv in Hd.
    apply bind_Ok_inv in E. destruct E as [blocks' [Hrest E]].
    inversion E; subst; clear E.
    constructor; [|now apply IH].
    exists l, b, s0. cbn [BlockCode Data].
    unfold make_bytes in Hd.
    destruct (block_length s0 <? 0) eqn:E0; [discriminate|].
    apply Z.ltb_ge in E0. inversion Hd; subst.
    repeat split; assumption.
Qed.

(** X#: the Online codec gives the message back, for a generator whose
    [Intn] keeps to its range.  A message of less than [2^53] bytes has
    been encoded by [encodeOnlineBlocks] with [K > 0] source blocks, and
    the fuel covers the solver ([2 * (K + numAuxBlocks) + 1]).  Then
    [newOnlineDecoder] returns (it repeats the draws of the encoder), and
    the decoder takes any of the encoded blocks, in any order and number:
    [AddBlocks] returns whether the matrix is determined; [Decode] then
    returns nil when it is not, and the message when it is. *)
Theorem onlineCodec_round_trip :
  forall (c : onlineCodec) (message ids : list Z) (fuel : nat)
         (blocks : list LTBlock),
    0 < o_numSourceBlocks c -> len message < 2 ^ 53 ->
    o_numSourceBlocks c + onlineCodec_numAuxBlocks c <= max_int ->
    2 * (o_numSourceBlocks c + onlineCodec_numAuxBlocks c) + 1
      <= Z.of_nat fuel ->
    encodeOnlineBlocks fuel message ids c = Ok blocks ->
    exists d,
      newOnlineDecoder fuel c (len message) = Ok d /\
      forall received,
        incl received blocks ->
        exists d1,
          onlineDecoder_AddBlocks fuel d received
            = Ok (determined (od_matrix d1), d1) /\
          (determined (od_matrix d1) = false ->
           onlineDecoder_Decode d1 = Ok (None, d1)) /\
          (determined (od_matrix d1) = true ->
           exists d2, onlineDecoder_Decode d1 = Ok (Some message, d2)).
Proof.
  intros c message ids fuel blocks HK Hlen Hsum Hfuel Henc.
  set (K := o_numSourceBlocks c) in *.
  set (A := onlineCodec_numAuxBlocks c) in *.
  assert (Hmax : max_int = 9223372036854775807) by reflexivity.
  (* the encoder *)
  unfold encodeOnlineBlocks in Henc.
  apply bind_Ok_inv in Henc. destruct Henc as [[source aux] [Hgen Hloop]].
  cbn [fst snd] in Hloop.
  unfold generateOuterEncoding in Hgen. fold K A in Hgen.
  apply bind_Ok_inv in Hgen. destruct Hgen as [source' [Hsrc Hgen]].
  destruct (A <? 0) eqn:EA; [discriminate|]. apply Z.ltb_ge in EA.
  apply bind_Ok_inv in Hgen. destruct Hgen as [aux0 [Haux0 Hgen]].
  apply bind_Ok_inv in Hgen. destruct Hgen as [aux' [Hout Hgen]].
  inversion Hgen; subst source' aux'; clear Hgen.
  destruct (source_first_length message K source Hlen ltac:(lia) Hsrc)
    as [HlS [s0 [Hs0 [Hn0 Hbound]]]].
  set (n := block_length s0) in *.
  assert (Haux0' : aux0 = repeat {| data := []; padding := n |} (Z.to_nat A)).
  { destruct (A =? 0) eqn:E0.
    - apply Z.eqb_eq in E0. rewrite E0. inversion Haux0. reflexivity.
    - rewrite Hs0 in Haux0. cbn [of_option bind] in Haux0.
      now inversion Haux0. }
  clear Haux0.
  destruct (outer_loop_spec fuel source n (o_quality c) A (Z.to_nat K) 0 aux0
              (repeat [] (Z.to_nat A))
              (rand_New (SourceMT (NewMersenneTwister (o_randomSeed c)))) aux
              ltac:(lia) Hbound)
    as [comps [Ecomp [Hlc [Hla Hentries]]]]; [| |exact Hout|].
  { subst aux0. now rewrite !len_repeat. }
  { intros j a cj Ha Hc. subst aux0.
    unfold idx in Ha, Hc. destruct (j <? 0); [discriminate|].
    apply nth_error_In in Ha. apply nth_error_In in Hc.
    apply repeat_spec in Ha. apply repeat_spec in Hc. subst.
    split; [intro k; unfold byte_at; cbn; now destruct k|].
    split; [cbn; lia|]. split; constructor. }
  assert (HlA : len aux = A).
  { rewrite Hla. subst aux0. rewrite len_repeat. lia. }
  assert (HlC : len comps = A) by lia.
  rewrite Z.add_0_l, Z2Nat.id in Hentries by lia.
  set (X := source ++ aux).
  set (E := append_own_index 0 K comps).
  set (Q := full_equation X n E).
  assert (HlE : len E = A) by (unfold E; now rewrite len_append_own_index).
  assert (Hcomps : Forall (Forall (fun x => 0 <= x < K)) comps).
  { apply Forall_forall. intros cj Hin. apply In_nth_error in Hin.
    destruct Hin as [k Hk].
    assert (Hc : idx comps (Z.of_nat k) = Some cj).
    { unfold idx. destruct (Z.of_nat k <? 0) eqn:E0;
        [apply Z.ltb_lt in E0; lia|]. now rewrite Nat2Z.id. }
    pose proof (idx_Some_range _ _ _ _ Hc) as Hr.
    destruct (idx_in_range _ aux (Z.of_nat k) ltac:(lia)) as [a Ha].
    exact (proj2 (proj2 (proj2 (Hentries _ a cj Ha Hc)))). }
  (* the equations of the auxiliary blocks *)
  assert (Heqs : Forall (fun e => sorted_indices (K + A) (fst e) /\
                                  Q (fst e) (snd e))
                        (map (fun composition => (composition, newBlock 0)) E)).
  { apply Forall_forall. intros [e b] Hin. apply in_map_iff in Hin.
    destruct Hin as [e' [He' Hin]]. inversion He'; subst e' b; clear He'.
    cbn [fst snd]. apply In_nth_error in Hin. destruct Hin as [k Hk].
    assert (He : idx E (Z.of_nat k) = Some e).
    { unfold idx. destruct (Z.of_nat k <? 0) eqn:E0;
        [apply Z.ltb_lt in E0; lia|]. now rewrite Nat2Z.id. }
    pose proof (idx_Some_range _ _ _ _ He) as Hr.
    set (j := Z.of_nat k) in *.
    destruct (idx_in_range _ comps j ltac:(lia)) as [cj Hcj].
    destruct (idx_in_range _ aux j ltac:(lia)) as [a Ha].
    unfold E in He. rewrite (idx_append_own_index comps 0 K j cj Hcj) in He.
    inversion He; subst e; clear He.
    rewrite wrap64_small by lia.
    destruct (Hentries j a cj Ha Hcj) as [Hb [Hl [Hs Hrange]]].
    assert (Hsorted : StronglySorted Z.lt (cj ++ [j + K])).
    { apply sorted_snoc; [assumption|].
      eapply Forall_impl; [|exact Hrange]. cbn beta. intros; lia. }
    split; [|split; [assumption|split]].
    - split; [assumption|]. apply Forall_app. split.
      + eapply Forall_impl; [|exact Hrange]. cbn beta. intros; lia.
      + repeat constructor; lia.
    - intro k'. rewrite xor_sum_app. unfold X.
      rewrite xor_sum_app_l
        by (eapply Forall_impl; [|exact Hrange]; cbn beta; intros; lia).
      cbn [xor_sum fold_right]. unfold source_byte.
      rewrite idx_app_r by lia.
      replace (j + K - len source) with j by lia. rewrite Ha.
      rewrite Z.lxor_0_r, (Hb k'), Z.lxor_nilpotent.
      unfold byte_at. cbn. now destruct k'.
    - right. apply (in_span_member _ j).
      fold E. unfold E. rewrite (idx_append_own_index comps 0 K j cj Hcj).
      now rewrite Z.add_0_l, wrap64_small by lia. }
  (* the decoder *)
  destruct (addEquations_rel Q (full_equation_xor X n E) (K + A) fuel
              (map (fun composition => (composition, newBlock 0)) E)
              (newSparseMatrix (K + A)) Hfuel
              (newSparseMatrix_inv (K + A) ltac:(lia))
              (full_equation_zero X n E (K + A)) Heqs)
    as [m0 [Em0 [Hinv0 Hrows0]]].
  exists {| od_codec := c; od_messageLength := len message; od_matrix := m0 |}.
  split.
  { unfold newOnlineDecoder, make_matrix, auxBlockComposition. fold K A.
    rewrite wrap64_small by lia.
    destruct (K + A <? 0) eqn:E0; [apply Z.ltb_lt in E0; lia|].
    cbn [bind].
    destruct (A <? 0) eqn:E1; [apply Z.ltb_lt in E1; lia|].
    rewrite Ecomp. cbn [bind]. fold E. rewrite Em0. reflexivity. }
  intros received Hincl.
  pose proof (encodeOnline_loop_spec fuel c source aux ids blocks Hloop) as HF.
  assert (Hall : Forall (fun blk =>
            exists l, onlineCodec_PickIndices fuel c (BlockCode blk) = Ok l /\
                      sorted_indices (K + A) l /\
                      Q l {| data := Data blk; padding := 0 |})
          received).
  { apply Forall_forall. intros blk Hin. apply Hincl in Hin.
    rewrite Forall_forall in HF.
    destruct (HF blk Hin) as [l [b [s0' [Hl [Hb [Hs0' [_ HD]]]]]]].
    rewrite Hs0 in Hs0'. inversion Hs0'; subst s0'; clear Hs0'. fold n in HD.
    pose proof (onlineCodec_PickIndices_sorted fuel c _ l Hl) as Hsorted.
    fold K A in Hsorted. rewrite wrap64_small in Hsorted by lia.
    exists l. split; [assumption|]. split; [assumption|].
    unfold generateCodeBlock in Hb.
    rewrite xor_outer_spec in Hb
      by (eapply Forall_impl; [|exact (proj2 Hsorted)]; cbn beta; intros; lia).
    inversion Hb; subst b; clear Hb. fold X in HD.
    assert (Hbl : len (data (fold_left block_xor (selected_blocks X l)
                                       (newBlock 0))) <= n).
    { apply fold_xor_data_len; [cbn; lia|].
      apply selected_blocks_bound. unfold X. apply Forall_app.
      split; [assumption|].
      apply Forall_forall. intros a Hina. apply In_nth_error in Hina.
      destruct Hina as [k Hk].
      assert (Ha : idx aux (Z.of_nat k) = Some a).
      { unfold idx. destruct (Z.of_nat k <? 0) eqn:E0;
          [apply Z.ltb_lt in E0; lia|]. now rewrite Nat2Z.id. }
      pose proof (idx_Some_range _ _ _ _ Ha) as Hr.
      destruct (idx_in_range _ comps (Z.of_nat k) ltac:(lia)) as [cj Hcj].
      exact (proj1 (proj2 (Hentries _ a cj Ha Hcj))). }
    rewrite copy_bytes_zeros in HD by (unfold len in Hbl; lia).
    split; [exact (proj1 Hsorted)|]. split.
    - intro k. unfold byte_at at 1. cbn [data]. rewrite HD, nth_app_zeros.
      change (nth k (data (fold_left block_xor (selected_blocks X l)
                                     (newBlock 0))) 0)
        with (byte_at (fold_left block_xor (selected_blocks X l) (newBlock 0)) k).
      rewrite byte_at_fold_selected. unfold byte_at, newBlock. cbn [data].
      destruct k; apply Z.lxor_0_l.
    - left. cbn [data]. rewrite HD. unfold len in *.
      rewrite length_app, repeat_length. lia. }
  destruct (addBlocks_loop_rel Q (full_equation_xor X n E) (K + A) fuel
              (onlineCodec_PickIndices fuel c) received m0 Hfuel Hinv0 Hrows0
              Hall) as [m [Em [Hinv Hrows]]].
  exists {| od_codec := c; od_messageLength := len message; od_matrix := m |}.
  cbn [od_matrix]. split; [|split].
  - unfold onlineDecoder_AddBlocks. cbn [od_codec od_matrix od_messageLength].
    rewrite Em. reflexivity.
  - intro Hd. unfold onlineDecoder_Decode. cbn [od_matrix]. now rewrite Hd.
  - intro Hd.
    destruct (reduce_rel Q (full_equation_xor X n E) (K + A) m Hinv Hd Hrows)
      as [m' [Er [_ [_ [_ Hfinal]]]]].
    unfold onlineDecoder_Decode. cbn [od_matrix od_codec od_messageLength].
    rewrite Hd. cbn [negb]. unfold reduce_and_reconstruct. fold K.
    rewrite Er. cbn [bind].
    pose proof (len_nonneg _ message) as H0.
    rewrite partition_eval by lia. cbn [bind].
    rewrite (reconstruct_rows message K source m' _ _ _ _ Hlen ltac:(lia) Hsrc
               (partition_eval (len message) K ltac:(lia) ltac:(lia))).
    + cbn [bind fst snd]. eexists. reflexivity.
    + intros t xb Hxb. pose proof (idx_Some_range _ _ _ _ Hxb) as Ht.
      destruct (Hfinal t ltac:(lia)) as [vb [Hvb [_ [Heq Hfull]]]].
      exists vb. split; [assumption|]. split.
      * intro k. rewrite (Heq k). cbn [xor_sum fold_right].
        unfold source_byte, X. rewrite idx_app_l by lia. rewrite Hxb.
        apply Z.lxor_0_r.
      * destruct Hfull as [Hfull|Hspan].
        -- pose proof (Forall_idx _ _ _ _ _ Hbound Hxb) as Hx.
           cbn beta in Hx. lia.
        -- exfalso.
           exact (span_not_source comps K t ltac:(lia) ltac:(lia) Hcomps
                    ltac:(lia) Hspan).
Qed.

End OnlineCodec.

Lemma onlineCodec_round_trip_witness :
  let c := {| o_epsilon := f64_0_01; o_quality := 5; o_numSourceBlocks := 6;
              o_randomSeed := 200; o_cdf := [0; 1 # 2; 1]%Q |} in
  let message := [97; 98; 99; 100; 101; 102; 103; 104; 105; 106; 107; 108; 109;
                  110; 111; 112; 113; 114; 115; 116; 117; 118; 119; 120; 121;
                  122] in
  Intn_in_range plainRand /\
  exists blocks,
    @encodeOnlineBlocks plainRand 15 message [1; 2; 3] c = Ok blocks /\
    exists d,
      @newOnlineDecoder plainRand 15 c (len message) = Ok d /\
      forall received,
        incl received blocks ->
        exists d1,
          @onlineDecoder_AddBlocks plainRand 15 d received
            = Ok (determined (od_matrix d1), d1) /\
          (determined (od_matrix d1) = false ->
           onlineDecoder_Decode d1 = Ok (None, d1)) /\
          (determined (od_matrix d1) = true ->
           exists d2, onlineDecoder_Decode d1 = Ok (Some message, d2)).
Proof.
  intros c message. split; [exact plainRand_Intn_in_range|].
  destruct (@encodeOnlineBlocks plainRand 15 message [1; 2; 3] c)
    as [blocks| |] eqn:E.
  - exists blocks. split; [reflexivity|].
    apply (@onlineCodec_round_trip plainRand plainRand_Intn_in_range c message
             [1; 2; 3] 15 blocks).
    + reflexivity.
    + reflexivity.
    + vm_compute. discriminate.
    + vm_compute. discriminate.
    + exact E.
  - vm_compute in E. discriminate.
  - vm_compute in E. discriminate.
Defined.

(** ** Counting bits

    [bitsSet] works on the eight bytes of its argument side by side.  The
    masks keep what a shift moves in from the next byte out of every
    byte, so each step is one function applied to all the bytes; the
    multiplication at the end adds the bytes up. *)

Lemma land_split :
  forall k a b c d : Z,
    0 <= k -> 0 <= a < 2 ^ k -> 0 <= c < 2 ^ k ->
    Z.land (a + 2 ^ k * b) (c + 2 ^ k * d) = Z.land a c + 2 ^ k * Z.land b d.
Proof.
  intros k a b c d Hk Ha Hc.
  assert (Hp : 0 < 2 ^ k) by (apply Z.pow_pos_nonneg; lia).
  set (x := a + 2 ^ k * b). set (m := c + 2 ^ k * d).
  rewrite (Z.div_mod (Z.land x m) (2 ^ k)) by lia.
  rewrite Z.add_comm. f_equal.
  - rewrite <- !Z.land_ones by assumption.
    rewrite <- (Z.land_diag (Z.ones k)) at 1.
    rewrite Z.land_assoc, <- (Z.land_assoc x m), (Z.land_comm m),
      (Z.land_assoc x), <- Z.land_assoc.
    rewrite !Z.land_ones by assumption. unfold x, m.
    rewrite !(Z.mul_comm (2 ^ k)), !Z.mod_add by lia.
    now rewrite !Z.mod_small by assumption.
  - f_equal. rewrite <- Z.shiftr_div_pow2, Z.shiftr_land by assumption.
    rewrite !Z.shiftr_div_pow2 by assumption. unfold x, m.
    rewrite !(Z.mul_comm (2 ^ k)), !Z.div_add by lia.
    now rewrite !Z.div_small by assumption.
Qed.

Lemma of_bytes_range :
  forall bs : list Z,
    Forall (fun b => 0 <= b < 256) bs ->
    0 <= of_bytes bs < 256 ^ len bs.
Proof.
  intros bs H. induction H as [|b bs Hb _ IH].
  - cbn. lia.
  - cbn [of_bytes]. rewrite len_cons. pose proof (len_nonneg _ bs).
    rewrite Z.pow_add_r, Z.pow_1_r by lia. lia.
Qed.

Lemma to_bytes_range :
  forall (n : nat) (x : Z),
    Forall (fun b => 0 <= b < 256) (to_bytes n x) /\ length (to_bytes n x) = n.
Proof.
  induction n as [|n IH]; intro x; [split; [constructor|reflexivity]|].
  cbn [to_bytes length]. destruct (IH (x / 256)) as [H1 H2].
  split; [|now rewrite H2].
  constructor; [|assumption]. apply Z.mod_pos_bound. lia.
Qed.

Lemma of_to_bytes :
  forall (n : nat) (x : Z),
    0 <= x < 256 ^ Z.of_nat n -> of_bytes (to_bytes n x) = x.
Proof.
  induction n as [|n IH]; intros x Hx.
  - cbn in *. lia.
  - cbn [to_bytes of_bytes]. rewrite IH.
    + pose proof (Z.div_mod x 256 ltac:(lia)). lia.
    + rewrite Nat2Z.inj_succ, Z.pow_succ_r in Hx by lia.
      split; [apply Z.div_pos; lia|].
      apply Z.div_lt_upper_bound; lia.
Qed.

Lemma of_bytes_sub_map :
  forall (f : Z -> Z) (bs : list Z),
    of_bytes bs - of_bytes (map f bs) = of_bytes (map (fun b => b - f b) bs).
Proof.
  intros f bs. induction bs as [|b bs IH]; [reflexivity|].
  cbn [map of_bytes]. rewrite <- IH. ring.
Qed.

Lemma of_bytes_add_map :
  forall (f g : Z -> Z) (bs : list Z),
    of_bytes (map f bs) + of_bytes (map g bs) =
    of_bytes (map (fun b => f b + g b) bs).
Proof.
  intros f g bs. induction bs as [|b bs IH]; [reflexivity|].
  cbn [map of_bytes]. rewrite <- IH. ring.
Qed.

(** A shift by [s] bits under a mask that is blind to the [s] high bits of
    every byte. *)
Lemma land_shiftr_bytes :
  forall (s c : Z) (bs : list Z),
    0 <= s <= 8 -> 0 <= c < 2 ^ (8 - s) ->
    Forall (fun b => 0 <= b < 256) bs ->
    Z.land (Z.shiftr (of_bytes bs) s) (of_bytes (repeat c (length bs))) =
    of_bytes (map (fun b => Z.land (Z.shiftr b s) c) bs).
Proof.
  intros s c bs Hs Hc H. induction H as [|b bs Hb Hbs IH].
  - cbn. apply Z.land_0_r.
  - cbn [of_bytes length repeat map]. rewrite <- IH.
    set (v := of_bytes bs).
    assert (Hv : 0 <= v) by (apply of_bytes_range; assumption).
    assert (Hps : 0 < 2 ^ s) by (apply Z.pow_pos_nonneg; lia).
    assert (Hpt : 0 < 2 ^ (8 - s)) by (apply Z.pow_pos_nonneg; lia).
    assert (H256 : 2 ^ (8 - s) * 2 ^ s = 256).
    { rewrite <- Z.pow_add_r by lia. now replace (8 - s + s) with 8 by lia. }
    rewrite !Z.shiftr_div_pow2 by lia.
    assert (Hdiv : (b + 256 * v) / 2 ^ s
                   = (b / 2 ^ s + 2 ^ (8 - s) * (v mod 2 ^ s))
                     + 2 ^ 8 * (v / 2 ^ s)).
    { replace (b + 256 * v) with (b + (2 ^ (8 - s) * v) * 2 ^ s) by nia.
      rewrite Z.div_add by lia.
      pose proof (Z.div_mod v (2 ^ s) ltac:(lia)) as Hdm.
      change (2 ^ 8) with 256. rewrite <- H256.
      set (q := v / 2 ^ s) in *. set (r := v mod 2 ^ s) in *.
      rewrite Hdm. ring. }
    rewrite Hdiv.
    assert (Hb2 : 0 <= b / 2 ^ s < 2 ^ (8 - s)).
    { split; [apply Z.div_pos; lia|].
      apply Z.div_lt_upper_bound; [lia|]. nia. }
    pose proof (Z.mod_pos_bound v (2 ^ s) Hps) as Hm.
    change 256 with (2 ^ 8) at 1.
    rewrite (land_split 8); [| lia | change (2 ^ 8) with 256; nia
                             | change (2 ^ 8) with 256; nia].
    f_equal.
    replace c with (c + 2 ^ (8 - s) * 0) at 1 by lia.
    rewrite (land_split (8 - s)) by lia.
    rewrite Z.land_0_r. lia.
Qed.

(** The third step: the two halves of every byte are added. *)
Lemma land_add_nibbles :
  forall ds : list Z,
    Forall (fun d => 0 <= d /\ d mod 16 <= 4 /\ d / 16 <= 4) ds ->
    Z.land (of_bytes ds + Z.shiftr (of_bytes ds) 4)
           (of_bytes (repeat 15 (length ds))) =
    of_bytes (map (fun d => d mod 16 + d / 16) ds).
Proof.
  intros ds H. induction H as [|d ds [Hd0 [Hd1 Hd2]] Hds IH].
  - reflexivity.
  - cbn [of_bytes length repeat map]. rewrite <- IH.
    set (v := of_bytes ds).
    assert (Hv : 0 <= v).
    { unfold v. clear - Hds. induction Hds as [|x l [Hx _] _ IH']; cbn [of_bytes]; lia. }
    assert (Ht : 0 <= v mod 16 <= 4).
    { unfold v. destruct Hds as [|x l [Hx [Hx1 _]] _]; [cbn; lia|].
      cbn [of_bytes].
      replace (x + 256 * of_bytes l) with (x + (16 * of_bytes l) * 16) by ring.
      rewrite Z.mod_add by lia.
      pose proof (Z.mod_pos_bound x 16 ltac:(lia)). lia. }
    rewrite !Z.shiftr_div_pow2 by lia. change (2 ^ 4) with 16.
    pose proof (Z.div_mod d 16 ltac:(lia)) as Hdm.
    pose proof (Z.mod_pos_bound d 16 ltac:(lia)) as Hdr.
    pose proof (Z.div_mod v 16 ltac:(lia)) as Hvm.
    assert (Hq : 0 <= d / 16) by (apply Z.div_pos; lia).
    assert (Hdiv : (d + 256 * v) / 16 = d / 16 + 16 * v).
    { replace (d + 256 * v) with (d + (16 * v) * 16) by ring.
      now rewrite Z.div_add by lia. }
    rewrite Hdiv.
    replace (d + 256 * v + (d / 16 + 16 * v))
      with ((d + d / 16 + 16 * (v mod 16)) + 2 ^ 8 * (v + v / 16))
      by (change (2 ^ 8) with 256; lia).
    change 256 with (2 ^ 8) at 1.
    rewrite (land_split 8); [| lia | change (2 ^ 8) with 256; lia
                             | change (2 ^ 8) with 256; lia].
    f_equal.
    replace (d + d / 16 + 16 * (v mod 16))
      with ((d mod 16 + d / 16) + 2 ^ 4 * (d / 16 + v mod 16))
      by (change (2 ^ 4) with 16; lia).
    replace 15 with (15 + 2 ^ 4 * 0) by reflexivity.
    rewrite (land_split 4); [| lia | change (2 ^ 4) with 16; lia
                             | change (2 ^ 4) with 16; lia].
    rewrite Z.land_0_r. change 15 with (Z.ones 4).
    rewrite Z.land_ones by lia. change (2 ^ 4) with 16.
    rewrite Z.mod_small by lia. lia.
Qed.

(** The multiplication adds the bytes up in the highest byte. *)
Lemma mul_sums_bytes :
  forall es : list Z,
    length es = 8%nat -> Forall (fun e => 0 <= e <= 8) es ->
    Z.shiftr (wrap_u64 (of_bytes es * 72340172838076673)) 56 = sumZ es.
Proof.
  intros es Hl H.
  destruct es as [|e0 [|e1 [|e2 [|e3 [|e4 [|e5 [|e6 [|e7 [|? ?]]]]]]]]];
    try discriminate.
  repeat match goal with
         | H : Forall _ (_ :: _) |- _ =>
             let H1 := fresh "Hb" in
             pose proof (Forall_inv H) as H1; cbn beta in H1;
             apply Forall_inv_tail in H
         end.
  cbn [of_bytes sumZ fold_right]. unfold wrap_u64.
  rewrite Z.shiftr_div_pow2 by lia.
  set (S := e0 + (e1 + (e2 + (e3 + (e4 + (e5 + (e6 + (e7 + 0)))))))).
  set (A := e0
            + 256 * ((e0 + e1)
            + 256 * ((e0 + e1 + e2)
            + 256 * ((e0 + e1 + e2 + e3)
            + 256 * ((e0 + e1 + e2 + e3 + e4)
            + 256 * ((e0 + e1 + e2 + e3 + e4 + e5)
            + 256 * (e0 + e1 + e2 + e3 + e4 + e5 + e6))))))).
  set (B := (e1 + e2 + e3 + e4 + e5 + e6 + e7)
            + 256 * ((e2 + e3 + e4 + e5 + e6 + e7)
            + 256 * ((e3 + e4 + e5 + e6 + e7)
            + 256 * ((e4 + e5 + e6 + e7)
            + 256 * ((e5 + e6 + e7)
            + 256 * ((e6 + e7)
            + 256 * e7)))))).
  assert (H56 : 2 ^ 56 = 72057594037927936) by reflexivity.
  assert (H64 : 2 ^ 64 = 18446744073709551616) by reflexivity.
  replace ((e0 + 256 * (e1 + 256 * (e2 + 256 * (e3 + 256 * (e4 + 256 *
              (e5 + 256 * (e6 + 256 * (e7 + 256 * 0))))))))
           * 72340172838076673)
    with ((A + 2 ^ 56 * S) + B * 2 ^ 64)
    by (unfold A, B, S; rewrite H56, H64; ring).
  rewrite Z.mod_add by lia.
  assert (HA : 0 <= A < 2 ^ 56) by (unfold A; lia).
  assert (HS : 0 <= S <= 64) by (unfold S; lia).
  rewrite Z.mod_small by lia.
  rewrite (Z.mul_comm (2 ^ 56)), Z.div_add by lia.
  rewrite Z.div_small by lia. lia.
Qed.

Lemma popcount_range :
  forall (n : nat) (x : Z), 0 <= popcount n x <= Z.of_nat n.
Proof.
  induction n as [|n IH]; intro x; [cbn; lia|].
  cbn [popcount]. specialize (IH (x / 2)).
  pose proof (Z.mod_pos_bound x 2 ltac:(lia)). lia.
Qed.

Lemma popcount_add :
  forall (n m : nat) (x : Z),
    popcount (n + m) x = popcount n x + popcount m (x / 2 ^ Z.of_nat n).
Proof.
  induction n as [|n IH]; intros m x.
  - cbn [Nat.add popcount]. change (2 ^ Z.of_nat 0) with 1.
    now rewrite Z.div_1_r.
  - cbn [Nat.add popcount]. rewrite IH.
    rewrite Z.div_div by (try apply Z.pow_pos_nonneg; lia).
    rewrite Nat2Z.inj_succ, Z.pow_succ_r by lia. lia.
Qed.

Lemma popcount_mod :
  forall (n : nat) (x : Z), popcount n (x mod 2 ^ Z.of_nat n) = popcount n x.
Proof.
  induction n as [|n IH]; intro x; [reflexivity|].
  cbn [popcount]. rewrite Nat2Z.inj_succ, Z.pow_succ_r by lia.
  assert (Hp : 0 < 2 ^ Z.of_nat n) by (apply Z.pow_pos_nonneg; lia).
  rewrite Z.rem_mul_r by lia.
  replace (x mod 2 + 2 * ((x / 2) mod 2 ^ Z.of_nat n))
    with (x mod 2 + ((x / 2) mod 2 ^ Z.of_nat n) * 2) by ring.
  rewrite Z.mod_add, Z.div_add by lia.
  rewrite Z.mod_mod by lia.
  rewrite (Z.div_small (x mod 2)) by (apply Z.mod_pos_bound; lia).
  now rewrite Z.add_0_l, IH.
Qed.

Lemma popcount_bytes :
  forall (n : nat) (x : Z),
    popcount (8 * n) x = sumZ (map (popcount 8) (to_bytes n x)).
Proof.
  induction n as [|n IH]; intro x; [reflexivity|].
  replace (8 * S n)%nat with (8 + 8 * n)%nat by lia.
  rewrite popcount_add. cbn [to_bytes map sumZ fold_right].
  fold (sumZ (map (popcount 8) (to_bytes n (x / 256)))).
  rewrite <- IH. f_equal.
  symmetry. exact (popcount_mod 8 x).
Qed.

(** What the three steps make of one byte. *)
Lemma bitsSet_byte :
  forall b : Z,
    0 <= b < 256 ->
    let c := b - Z.land (Z.shiftr b 1) 85 in
    let d := Z.land (Z.shiftr c 0) 51 + Z.land (Z.shiftr c 2) 51 in
    0 <= c < 256 /\ 0 <= d < 128 /\ d mod 16 <= 4 /\ d / 16 <= 4 /\
    d mod 16 + d / 16 = popcount 8 b.
Proof.
  intros b Hb.
  assert (Hall : forallb
            (fun b =>
               let c := b - Z.land (Z.shiftr b 1) 85 in
               let d := Z.land (Z.shiftr c 0) 51 + Z.land (Z.shiftr c 2) 51 in
               (0 <=? c) && (c <? 256) && (0 <=? d) && (d <? 128)
               && (d mod 16 <=? 4) && (d / 16 <=? 4)
               && (d mod 16 + d / 16 =? popcount 8 b))
            (seqZ 0 256) = true) by (vm_compute; reflexivity).
  pose proof (forallb_seqZ _ _ 0 b Hall ltac:(lia)) as H. cbn beta zeta in H.
  repeat (apply andb_true_iff in H; destruct H as [H ?]).
  repeat match goal with
         | H : (_ <=? _) = true |- _ => apply Z.leb_le in H
         | H : (_ <? _) = true |- _ => apply Z.ltb_lt in H
         | H : (_ =? _) = true |- _ => apply Z.eqb_eq in H
         end.
  cbn zeta. repeat split; assumption.
Qed.

Lemma of_bytes_half :
  forall ds : list Z,
    Forall (fun d => 0 <= d < 128) ds -> 2 * of_bytes ds < 256 ^ len ds.
Proof.
  intros ds H. induction H as [|d ds Hd _ IH].
  - cbn. lia.
  - cbn [of_bytes]. rewrite len_cons. pose proof (len_nonneg _ ds).
    rewrite Z.pow_add_r, Z.pow_1_r by lia. lia.
Qed.

Lemma bitsSet_step1 :
  forall bs : list Z,
    length bs = 8%nat -> Forall (fun b => 0 <= b < 256) bs ->
    Forall (fun c => 0 <= c < 256)
           (map (fun b => b - Z.land (Z.shiftr b 1) 85) bs) ->
    wrap_u64 (of_bytes bs
              - Z.land (Z.shiftr (of_bytes bs) 1) 6148914691236517205) =
    of_bytes (map (fun b => b - Z.land (Z.shiftr b 1) 85) bs).
Proof.
  intros bs Hl Hbs Hcs.
  change 6148914691236517205 with (of_bytes (repeat 85 8)). rewrite <- Hl.
  rewrite (land_shiftr_bytes 1 85 bs) by (try assumption; cbn; lia).
  rewrite (of_bytes_sub_map (fun b => Z.land (Z.shiftr b 1) 85) bs).
  pose proof (of_bytes_range _ Hcs) as Hr. unfold len in Hr.
  rewrite length_map, Hl in Hr.
  unfold wrap_u64. apply Z.mod_small. exact Hr.
Qed.

Lemma bitsSet_step2 :
  forall cs : list Z,
    length cs = 8%nat -> Forall (fun c => 0 <= c < 256) cs ->
    Forall (fun d => 0 <= d < 128)
           (map (fun c => Z.land (Z.shiftr c 0) 51 + Z.land (Z.shiftr c 2) 51)
                cs) ->
    wrap_u64 (Z.land (of_bytes cs) 3689348814741910323
              + Z.land (Z.shiftr (of_bytes cs) 2) 3689348814741910323) =
    of_bytes (map (fun c => Z.land (Z.shiftr c 0) 51 + Z.land (Z.shiftr c 2) 51)
                  cs).
Proof.
  intros cs Hl Hcs Hds.
  change 3689348814741910323 with (of_bytes (repeat 51 8)). rewrite <- Hl.
  rewrite <- (Z.shiftr_0_r (of_bytes cs)) at 1.
  rewrite (land_shiftr_bytes 0 51 cs) by (try assumption; cbn; lia).
  rewrite (land_shiftr_bytes 2 51 cs) by (try assumption; cbn; lia).
  rewrite (of_bytes_add_map (fun c => Z.land (Z.shiftr c 0) 51)
             (fun c => Z.land (Z.shiftr c 2) 51)).
  pose proof (of_bytes_half _ Hds) as Hr. unfold len in Hr.
  rewrite length_map, Hl in Hr.
  assert (H0 : 0 <= of_bytes
            (map (fun c => Z.land (Z.shiftr c 0) 51 + Z.land (Z.shiftr c 2) 51)
                 cs)).
  { clear - Hds. induction Hds as [|d l Hd _ IH']; cbn [of_bytes]; lia. }
  unfold wrap_u64. apply Z.mod_small.
  change (256 ^ Z.of_nat 8) with (2 ^ 64) in Hr. lia.
Qed.

Lemma bitsSet_step3 :
  forall ds : list Z,
    length ds = 8%nat ->
    Forall (fun d => 0 <= d < 128) ds ->
    Forall (fun d => 0 <= d /\ d mod 16 <= 4 /\ d / 16 <= 4) ds ->
    Z.land (wrap_u64 (of_bytes ds + Z.shiftr (of_bytes ds) 4))
           1085102592571150095 =
    of_bytes (map (fun d => d mod 16 + d / 16) ds).
Proof.
  intros ds Hl Hds Hds'.
  pose proof (of_bytes_half _ Hds) as Hr. unfold len in Hr. rewrite Hl in Hr.
  change (256 ^ Z.of_nat 8) with (2 ^ 64) in Hr.
  assert (H0 : 0 <= of_bytes ds).
  { clear - Hds. induction Hds as [|d l Hd _ IH']; cbn [of_bytes]; lia. }
  assert (Hsh : 0 <= Z.shiftr (of_bytes ds) 4 <= of_bytes ds).
  { rewrite Z.shiftr_div_pow2 by lia. split; [apply Z.div_pos; lia|].
    apply Z.div_le_upper_bound; lia. }
  unfold wrap_u64. rewrite Z.mod_small by lia.
  change 1085102592571150095 with (of_bytes (repeat 15 8)). rewrite <- Hl.
  exact (land_add_nibbles ds Hds').
Qed.

Lemma bitsSet_is_popcount :
  forall x : Z, 0 <= x < 2 ^ 64 -> bitsSet x = popcount 64 x.
Proof.
  intros x Hx.
  destruct (to_bytes_range 8 x) as [Hbs Hlen].
  pose proof (of_to_bytes 8 x ltac:(change (256 ^ Z.of_nat 8) with (2 ^ 64); lia))
    as Hval.
  change 64%nat with (8 * 8)%nat. rewrite popcount_bytes.
  set (bs := to_bytes 8 x) in *. unfold bitsSet. rewrite <- Hval.
  set (f1 := fun b => b - Z.land (Z.shiftr b 1) 85).
  set (f2 := fun c => Z.land (Z.shiftr c 0) 51 + Z.land (Z.shiftr c 2) 51).
  set (f3 := fun d => d mod 16 + d / 16).
  assert (Hbyte : forall b, In b bs ->
            0 <= f1 b < 256 /\ 0 <= f2 (f1 b) < 128 /\
            f2 (f1 b) mod 16 <= 4 /\ f2 (f1 b) / 16 <= 4 /\
            f3 (f2 (f1 b)) = popcount 8 b).
  { intros b Hin. rewrite Forall_forall in Hbs. exact (bitsSet_byte b (Hbs b Hin)). }
  assert (Hcs : Forall (fun c => 0 <= c < 256) (map f1 bs)).
  { apply Forall_forall. intros c Hc. apply in_map_iff in Hc.
    destruct Hc as [b [<- Hb]]. exact (proj1 (Hbyte b Hb)). }
  assert (Hds : Forall (fun d => 0 <= d < 128) (map f2 (map f1 bs))).
  { apply Forall_forall. intros d Hd. apply in_map_iff in Hd.
    destruct Hd as [c [<- Hc]]. apply in_map_iff in Hc.
    destruct Hc as [b [<- Hb]]. exact (proj1 (proj2 (Hbyte b Hb))). }
  assert (Hds' : Forall (fun d => 0 <= d /\ d mod 16 <= 4 /\ d / 16 <= 4)
                        (map f2 (map f1 bs))).
  { apply Forall_forall. intros d Hd. apply in_map_iff in Hd.
    destruct Hd as [c [<- Hc]]. apply in_map_iff in Hc.
    destruct Hc as [b [<- Hb]]. destruct (Hbyte b Hb) as [_ [H1 [H2 [H3 _]]]].
    split; [lia|]. now split. }
  assert (Hes : Forall (fun e => 0 <= e <= 8) (map f3 (map f2 (map f1 bs)))).
  { apply Forall_forall. intros e He. apply in_map_iff in He.
    destruct He as [d [<- Hd]]. apply in_map_iff in Hd.
    destruct Hd as [c [<- Hc]]. apply in_map_iff in Hc.
    destruct Hc as [b [<- Hb]]. destruct (Hbyte b Hb) as [_ [_ [_ [_ H5]]]].
    rewrite H5. exact (popcount_range 8 b). }
  cbv zeta.
  rewrite (bitsSet_step1 bs Hlen Hbs Hcs). fold f1.
  rewrite (bitsSet_step2 (map f1 bs) ltac:(now rewrite length_map) Hcs Hds).
  fold f2.
  rewrite (bitsSet_step3 (map f2 (map f1 bs))
             ltac:(now rewrite !length_map) Hds Hds').
  fold f3.
  rewrite (mul_sums_bytes (map f3 (map f2 (map f1 bs)))
             ltac:(now rewrite !length_map) Hes).
  assert (Heq : map f3 (map f2 (map f1 bs)) = map (popcount 8) bs).
  { rewrite !map_map. apply map_ext_in. intros b Hb.
    exact (proj2 (proj2 (proj2 (proj2 (Hbyte b Hb))))). }
  rewrite Heq.
  apply wrap64_small.
  pose proof (popcount_range (8 * 8) x) as Hp. rewrite popcount_bytes in Hp.
  fold bs in Hp. unfold max_int.
  assert (H63 : 2 ^ 63 = 9223372036854775808) by reflexivity. lia.
Qed.

(** X#: [bitsSet(x)] is the number of ones among the 64 binary digits of
    [x], for every [uint64]; it lies in [0, 64]. *)
Theorem bitsSet_popcount :
  forall x : Z,
    0 <= x < 2 ^ 64 -> bitsSet x = popcount 64 x /\ 0 <= bitsSet x <= 64.
Proof.
  intros x Hx. rewrite (bitsSet_is_popcount x Hx).
  split; [reflexivity|]. exact (popcount_range 64 x).
Qed.

Lemma bitsSet_popcount_witness :
  0 <= 12297829382473034410 < 2 ^ 64 /\
  bitsSet 12297829382473034410 = popcount 64 12297829382473034410 /\
  0 <= bitsSet 12297829382473034410 <= 64.
Proof.
  split; [split; [lia|reflexivity]|].
  apply (bitsSet_popcount 12297829382473034410).
  split; [lia|reflexivity].
Defined.

(** ** Gray codes *)

Lemma grayCode_testbit :
  forall x i : Z,
    0 <= i ->
    Z.testbit (grayCode x) i = xorb (Z.testbit x (Z.succ i)) (Z.testbit x i).
Proof.
  intros x i Hi. unfold grayCode.
  rewrite Z.lxor_spec, Z.shiftr_spec by assumption.
  now replace (i + 1) with (Z.succ i) by lia.
Qed.

Lemma testbit_above :
  forall n x i : Z, 0 <= n -> 0 <= x < 2 ^ n -> n <= i -> Z.testbit x i = false.
Proof.
  intros n x i Hn Hx Hi. rewrite <- (Z.mod_small x (2 ^ n)) by assumption.
  apply Z.mod_pow2_bits_high. lia.
Qed.

Lemma grayCode_range :
  forall n x : Z, 0 <= n -> 0 <= x < 2 ^ n -> 0 <= grayCode x < 2 ^ n.
Proof.
  intros n x Hn Hx. unfold grayCode.
  apply lxor_bound; [assumption| |assumption].
  apply shiftr_bound; [lia|assumption].
Qed.

Lemma grayCode_bits_agree :
  forall (n x y : Z) (k : nat),
    0 <= n -> 0 <= x < 2 ^ n -> 0 <= y < 2 ^ n ->
    grayCode x = grayCode y ->
    forall i, 0 <= i -> n - Z.of_nat k <= i -> Z.testbit x i = Z.testbit y i.
Proof.
  intros n x y k Hn Hx Hy Hg. induction k as [|k IH]; intros i Hi Hik.
  - rewrite (testbit_above n x i), (testbit_above n y i) by (assumption || lia).
    reflexivity.
  - destruct (Z_le_gt_dec (n - Z.of_nat k) i) as [Hle|Hgt];
      [now apply IH|].
    pose proof (IH (Z.succ i) ltac:(lia) ltac:(lia)) as Hs.
    pose proof (grayCode_testbit x i Hi) as Gx.
    pose proof (grayCode_testbit y i Hi) as Gy.
    rewrite Hg, Gy, Hs in Gx.
    destruct (Z.testbit y (Z.succ i)), (Z.testbit x i), (Z.testbit y i);
      cbn in Gx; congruence.
Qed.

Lemma grayCode_injective :
  forall x y : Z, 0 <= x -> 0 <= y -> grayCode x = grayCode y -> x = y.
Proof.
  intros x y Hx Hy Hg.
  assert (Hpow : forall a, 0 <= a <= x + y -> a < 2 ^ (x + y + 1)).
  { intros a Ha. apply Z.lt_le_trans with (2 ^ a).
    - apply Z.pow_gt_lin_r; lia.
    - apply Z.pow_le_mono_r; lia. }
  apply Z.bits_inj'. intros i Hi.
  apply (grayCode_bits_agree (x + y + 1) x y (Z.to_nat (x + y + 1)));
    try assumption; try lia.
  - split; [assumption|]. apply Hpow. lia.
  - split; [assumption|]. apply Hpow. lia.
Qed.

Lemma testbit_succ_0 :
  forall y : Z, Z.testbit (y + 1) 0 = negb (Z.testbit y 0).
Proof.
  intro y. rewrite !Z.bit0_odd. replace (y + 1) with (Z.succ y) by lia.
  rewrite Z.odd_succ. now rewrite <- Z.negb_odd.
Qed.

Lemma grayCode_step_even :
  forall y : Z, Z.lxor (grayCode (2 * y)) (grayCode (2 * y + 1)) = 1.
Proof.
  intro y. apply Z.bits_inj'. intros i Hi.
  rewrite Z.lxor_spec, !grayCode_testbit by assumption.
  destruct (Z.eq_dec i 0) as [->|Hne].
  - rewrite Z.testbit_even_succ, Z.testbit_odd_succ by lia.
    rewrite Z.testbit_even_0, Z.testbit_odd_0.
    now destruct (Z.testbit y 0).
  - assert (Hi1 : Z.testbit 1 i = false).
    { replace i with (Z.succ (i - 1)) by lia.
      change 1 with (2 * 0 + 1).
      rewrite Z.testbit_odd_succ by lia. apply Z.testbit_0_l. }
    rewrite Hi1.
    rewrite Z.testbit_even_succ, Z.testbit_odd_succ by lia.
    replace i with (Z.succ (i - 1)) by lia.
    rewrite Z.testbit_even_succ, Z.testbit_odd_succ by lia.
    now destruct (Z.testbit y (Z.succ (i - 1))), (Z.testbit y (i - 1)).
Qed.

Lemma grayCode_step_odd :
  forall y : Z,
    Z.lxor (grayCode (2 * y + 1)) (grayCode (2 * (y + 1))) =
    2 * Z.lxor (grayCode y) (grayCode (y + 1)).
Proof.
  intro y. apply Z.bits_inj'. intros i Hi.
  rewrite Z.lxor_spec, !grayCode_testbit by assumption.
  destruct (Z.eq_dec i 0) as [->|Hne].
  - rewrite Z.testbit_even_succ, Z.testbit_odd_succ by lia.
    rewrite !Z.testbit_even_0, Z.testbit_odd_0, testbit_succ_0.
    now destruct (Z.testbit y 0).
  - rewrite Z.testbit_even_succ, Z.testbit_odd_succ by lia.
    replace i with (Z.succ (i - 1)) by lia.
    rewrite !Z.testbit_even_succ, Z.testbit_odd_succ by lia.
    rewrite Z.lxor_spec, !grayCode_testbit by lia.
    reflexivity.
Qed.

Lemma grayCode_adjacent :
  forall x : Z,
    0 <= x -> exists k, 0 <= k /\ Z.lxor (grayCode x) (grayCode (x + 1)) = 2 ^ k.
Proof.
  intros [|p|p] Hx; [exists 0; split; [lia|reflexivity]| |lia].
  clear Hx. induction p as [p IH|p _|].
  - destruct IH as [k [Hk IH]]. exists (k + 1). split; [lia|].
    replace (Z.pos p~1) with (2 * Z.pos p + 1) by lia.
    replace (2 * Z.pos p + 1 + 1) with (2 * (Z.pos p + 1)) by lia.
    rewrite grayCode_step_odd, IH, Z.pow_add_r by lia. lia.
  - exists 0. split; [lia|].
    replace (Z.pos p~0) with (2 * Z.pos p) by lia.
    apply grayCode_step_even.
  - exists 1. split; [lia|reflexivity].
Qed.

(** X#: [grayCode] is a Gray code.  Two numbers that are not negative
    have the same code only if they are equal; the codes of [x] and
    [x + 1] differ in exactly one binary digit (their XOR is a power of
    two); and the code of a number below [2^n] is below [2^n]. *)
Theorem grayCode_spec :
  (forall x y : Z, 0 <= x -> 0 <= y -> grayCode x = grayCode y -> x = y) /\
  (forall x : Z,
     0 <= x ->
     exists k, 0 <= k /\ Z.lxor (grayCode x) (grayCode (x + 1)) = 2 ^ k) /\
  (forall n x : Z, 0 <= n -> 0 <= x < 2 ^ n -> 0 <= grayCode x < 2 ^ n).
Proof.
  split; [exact grayCode_injective|].
  split; [exact grayCode_adjacent|exact grayCode_range].
Qed.

(** ** The Gray sequence *)

Lemma firstn_list_set :
  forall (A : Type) (s : list A) (n : nat) (x : A),
    (n < length s)%nat ->
    firstn (S n) (list_set s n x) = firstn n s ++ [x].
Proof.
  intros A s. induction s as [|y s IH]; intros n x Hn; [cbn in Hn; lia|].
  destruct n as [|n]; [reflexivity|].
  cbn [list_set]. rewrite !firstn_cons. cbn [app]. f_equal.
  apply IH. cbn in Hn. lia.
Qed.

(** The loop finds the first codes with [b] ones among the candidates
    [x, x + 1, ...] as soon as there are enough of them within the fuel. *)
Lemma graySequence_loop_spec :
  forall (length_ b : Z) (n : nat) (fuel : nat) (x : Z) (s : list Z) (i : Z),
    (n <= S fuel)%nat -> 0 <= x -> x + Z.of_nat n <= 2 ^ 64 ->
    0 <= i < length_ -> len s = length_ ->
    length_ - i
      <= len (filter (fun x => popcount 64 (grayCode x) =? b) (seqZ x n)) ->
    graySequence_loop fuel x s i length_ b =
    Ok (firstn (Z.to_nat i) s
        ++ map (fun x => wrap64 (grayCode x))
             (firstn (Z.to_nat (length_ - i))
                (filter (fun x => popcount 64 (grayCode x) =? b) (seqZ x n)))).
Proof.
  intros length_ b n. induction n as [|n IH];
    intros fuel x s i Hfuel Hx Hn Hi Hs Hhits.
  - cbn [seqZ filter] in Hhits. change (len []) with 0 in Hhits. lia.
  - assert (H64 : 2 ^ 64 = 18446744073709551616) by reflexivity.
    assert (Hg : bitsSet (grayCode x) = popcount 64 (grayCode x)).
    { apply bitsSet_is_popcount. apply grayCode_range; lia. }
    assert (Hlast : length_ <= i + 1 ->
              list_set s (Z.to_nat i) (wrap64 (grayCode x)) =
              firstn (Z.to_nat i) s ++ [wrap64 (grayCode x)]).
    { intro Hle.
      rewrite <- (firstn_list_set _ s (Z.to_nat i)) by (unfold len in Hs; lia).
      symmetry. apply firstn_all2. rewrite list_set_length.
      unfold len in Hs. lia. }
    destruct n as [|n].
    + (* the last candidate *)
      cbn [seqZ filter] in Hhits |- *.
      destruct fuel as [|fuel]; cbn [graySequence_loop]; rewrite Hg;
        (destruct (popcount 64 (grayCode x) =? b) eqn:E;
         [|change (len []) with 0 in Hhits; lia]);
        rewrite len_cons in Hhits; change (len []) with 0 in Hhits;
        rewrite upd_in_range by lia; cbn [of_option bind];
        assert (E1 : (length_ <=? i + 1) = true) by (apply Z.leb_le; lia);
        rewrite E1; f_equal;
        replace (Z.to_nat (length_ - i)) with 1%nat by lia;
        cbn [firstn map]; apply Hlast; lia.
    + destruct fuel as [|fuel]; [lia|].
      assert (Hw : wrap_u64 (x + 1) = x + 1).
      { unfold wrap_u64. apply Z.mod_small. lia. }
      change (seqZ x (S (S n))) with (x :: seqZ (x + 1) (S n)) in *.
      cbn [filter] in Hhits |- *.
      cbn [graySequence_loop]. rewrite Hg.
      destruct (popcount 64 (grayCode x) =? b) eqn:E.
      * rewrite len_cons in Hhits.
        rewrite upd_in_range by lia. cbn [of_option bind].
        destruct (length_ <=? i + 1) eqn:E1.
        -- apply Z.leb_le in E1. f_equal.
           replace (Z.to_nat (length_ - i)) with 1%nat by lia.
           cbn [firstn map]. apply Hlast. lia.
        -- apply Z.leb_gt in E1. rewrite Hw.
           rewrite (IH fuel (x + 1)
                      (list_set s (Z.to_nat i) (wrap64 (grayCode x))) (i + 1));
             try lia.
           ++ f_equal. replace (Z.to_nat (i + 1)) with (S (Z.to_nat i)) by lia.
              rewrite firstn_list_set by (unfold len in Hs; lia).
              rewrite <- app_assoc. f_equal.
              replace (Z.to_nat (length_ - i))
                with (S (Z.to_nat (length_ - (i + 1)))) by lia.
              reflexivity.
           ++ unfold len. rewrite list_set_length. exact Hs.
      * rewrite Hw. apply IH; try lia; assumption.
Qed.

(** X#: [buildGraySequence(length, b)] returns the first [length] Gray
    codes with exactly [b] ones, in the order of the numbers they are the
    codes of: as soon as [length > 0] of the numbers below [N] have such
    a code and the fuel covers [N] rounds, the result is the codes of
    the first [length] of them.  With [length = 0] the call never
    returns a slice (it panics at the first code with [b] ones), and with
    a negative [length] it panics. *)
Theorem buildGraySequence_spec :
  forall (fuel : nat) (length_ b : Z),
    (forall N : nat,
       0 < length_ -> (N <= S fuel)%nat -> Z.of_nat N <= 2 ^ 64 ->
       length_
         <= len (filter (fun x => popcount 64 (grayCode x) =? b) (seqZ 0 N)) ->
       buildGraySequence fuel length_ b =
       Ok (map (fun x => wrap64 (grayCode x))
             (firstn (Z.to_nat length_)
                (filter (fun x => popcount 64 (grayCode x) =? b)
                        (seqZ 0 N))))) /\
    (length_ = 0 -> forall s, buildGraySequence fuel length_ b <> Ok s) /\
    (length_ < 0 -> buildGraySequence fuel length_ b = Panic).
Proof.
  intros fuel length_ b. split; [|split].
  - intros N Hl Hfuel HN Hhits. unfold buildGraySequence.
    destruct (length_ <? 0) eqn:E; [apply Z.ltb_lt in E; lia|].
    rewrite (graySequence_loop_spec length_ b N fuel 0
               (repeat 0 (Z.to_nat length_)) 0); try lia.
    + now rewrite Z.sub_0_r.
    + rewrite len_repeat. lia.
  - intros -> s. unfold buildGraySequence.
    change (0 <? 0) with false. cbv iota.
    change (repeat 0 (Z.to_nat 0)) with (@nil Z).
    generalize 0 at 1. induction fuel as [|fuel IH]; intro x;
      cbn [graySequence_loop];
      destruct (bitsSet (grayCode x) =? b);
      try (cbn; discriminate); apply IH.
  - intro Hl. unfold buildGraySequence.
    destruct (length_ <? 0) eqn:E; [reflexivity|apply Z.ltb_ge in E; lia].
Qed.

Lemma buildGraySequence_spec_witness :
  buildGraySequence 20 4 3 = Ok [7; 13; 14; 11].
Proof.
  destruct (buildGraySequence_spec 20 4 3) as [H _].
  rewrite (H 16%nat); [reflexivity|lia|lia| |].
  - vm_compute. discriminate.
  - vm_compute. discriminate.
Defined.
